(** * Pipeline replication, webhook label policy, OCI replication and
      component-descriptor lookup of cc-utils: a shallow embedding

    The development follows the Python sources module by module:
    - [Py]          : the few Python built-ins the sources rely on
                      (exception classes, [str.split], [random.randrange]);
    - [Replicator]  : [concourse/replicator.py];
    - [PullRequest] : [whd/pull_request.py];
    - [Oci]         : [oci/__init__.py];
    - [Retrieve]    : [cnudie/retrieve.py].

    External collaborators (the CI backend's REST client, the GitHub client,
    the OCI client, the template engine) are not part of the sources.  They
    are embedded as oracles: records of functions that also receive the
    history of calls made so far, so that an answer may depend on earlier
    calls.  Every call the code makes is appended to a chronological trace,
    and the properties below are statements about these traces. *)

From Stdlib Require Import ZArith Floats Lia Bool Ascii String List.
From stdpp Require Import base decidable option list gmap strings pretty.

Import ListNotations.
Local Open Scope string_scope.
Local Open Scope list_scope.
Local Open Scope Z_scope.

(** ** Python built-ins *)
Module Py.

(** Exception classes that occur in the sources, with their direct base
    class in Python's hierarchy.  All of them derive from [Exception]:
    exits and interrupts, which derive from [BaseException] only, are not
    modelled. *)
Inductive ExcClass : Type :=
| Exception_
| ArithmeticError
| ZeroDivisionError
| AttributeError
| BufferError
| EOFError
| ImportError
| ModuleNotFoundError
| LookupError
| KeyError
| MemoryError
| NameError
| OSError
| FileNotFoundError
| ConnectionError
| HTTPError               (* requests.exceptions.HTTPError *)
| ReferenceError
| RuntimeError
| RecursionError
| NotImplementedError
| SyntaxError
| TypeError
| ValueError
| OciImageNotFoundException   (* oci.model *)
| PipelineValidationError.

#[global] Instance ExcClass_eq_dec : EqDecision ExcClass.
Proof. solve_decision. Defined.

Definition base (c : ExcClass) : option ExcClass :=
  match c with
  | Exception_ => None
  | ZeroDivisionError => Some ArithmeticError
  | ModuleNotFoundError => Some ImportError
  | KeyError => Some LookupError
  | FileNotFoundError | ConnectionError => Some OSError
  | HTTPError => Some OSError
  | RecursionError | NotImplementedError => Some RuntimeError
  | _ => Some Exception_
  end.

(** [issubclass c d], by walking up the (finite) chain of bases. *)
Fixpoint issubclass_fuel (n : nat) (c d : ExcClass) : bool :=
  if decide (c = d) then true
  else match n with
       | O => false
       | S n' => match base c with
                 | Some b => issubclass_fuel n' b d
                 | None => false
                 end
       end.

Definition issubclass : ExcClass -> ExcClass -> bool := issubclass_fuel 4.

(** An exception object: its class ([type(e)]), its message, and for an
    [HTTPError] the status code and body of [e.response]. *)
Record Exception : Type := mkException {
  exc_type : ExcClass;
  exc_msg : string;
  exc_response : option (Z * string);
}.

#[global] Instance Exception_eq_dec : EqDecision Exception.
Proof. solve_decision. Defined.

Definition raise_ (c : ExcClass) (msg : string) : Exception :=
  mkException c msg None.

(** [s.split(sep)] for a one-character separator: the pieces between the
    occurrences of [sep]; never empty. *)
Fixpoint split (sep : ascii) (s : string) : list string :=
  match s with
  | EmptyString => [EmptyString]
  | String c rest =>
      if Ascii.eqb c sep then EmptyString :: split sep rest
      else match split sep rest with
           | [] => [String c EmptyString]
           | piece :: pieces => String c piece :: pieces
           end
  end.

(** [posixpath.join(a, b)] *)
Definition path_join (a b : string) : string :=
  match b with
  | String "/" _ => b
  | _ => if String.eqb a "" then b
         else if String.eqb (substring (String.length a - 1) 1 a) "/" then a +:+ b
         else a +:+ "/" +:+ b
  end.

(** [sorted(names)] for strings: insertion into a sorted list. *)
Fixpoint insert_sorted (x : string) (l : list string) : list string :=
  match l with
  | [] => [x]
  | y :: rest => if String.leb x y then x :: l else y :: insert_sorted x rest
  end.

Definition sorted (l : list string) : list string :=
  fold_right insert_sorted [] l.

(** The one-character string holding a double quote. *)
Definition dquote : string := String (Ascii.ascii_of_nat 34) EmptyString.

(** The one-character string holding a line feed. *)
Definition newline : string := String (Ascii.ascii_of_nat 10) EmptyString.

(** [n] blanks. *)
Fixpoint blanks (n : nat) : string :=
  match n with
  | O => EmptyString
  | S n' => String " " (blanks n')
  end.

Fixpoint has_char (c : ascii) (s : string) : bool :=
  match s with
  | EmptyString => false
  | String d rest => Ascii.eqb c d || has_char c rest
  end.

Definition hex_digit (n : nat) : string := substring n 1 "0123456789abcdef".

(** One character of [repr(s)], between quotes [quote]: the backslash, the
    quote and the control characters are escaped with a backslash. *)
Definition escaped (s : string) : string := String (Ascii.ascii_of_nat 92) s.

Definition repr_char (quote c : ascii) : string :=
  let n := Ascii.nat_of_ascii c in
  if (n =? 92)%nat then escaped (escaped EmptyString)
  else if Ascii.eqb c quote then escaped (String quote EmptyString)
  else if (n =? 10)%nat then escaped "n"
  else if (n =? 13)%nat then escaped "r"
  else if (n =? 9)%nat then escaped "t"
  else if (n <? 32)%nat || (n =? 127)%nat
       then escaped ("x" +:+ hex_digit (n / 16) +:+ hex_digit (n mod 16))
       else String c EmptyString.

Fixpoint repr_chars (quote : ascii) (s : string) : string :=
  match s with
  | EmptyString => EmptyString
  | String c rest => repr_char quote c +:+ repr_chars quote rest
  end.

(** [repr(s)] of a [str]: between single quotes, or between double quotes
    when [s] holds a single quote and no double quote. *)
Definition repr_str (s : string) : string :=
  let quote : ascii :=
    if has_char "'" s && negb (has_char (Ascii.ascii_of_nat 34) s)
    then Ascii.ascii_of_nat 34 else "'"%char in
  String quote (repr_chars quote s) +:+ String quote EmptyString.

(** [repr(l)] of a list of [str]. *)
Definition repr_list (l : list string) : string :=
  "[" +:+ String.concat ", " (map repr_str l) +:+ "]".

(** [repr(s)] of a set of [str], the elements in the order of [l]. *)
Definition repr_set (l : list string) : string :=
  match l with
  | [] => "set()"
  | _ :: _ => "{" +:+ String.concat ", " (map repr_str l) +:+ "}"
  end.

(** [textwrap.dedent(text)]: lines of blanks and tabs only are emptied,
    and the longest run of blanks and tabs that all other lines start with
    is removed from them. *)
Definition is_blank (c : ascii) : bool :=
  Ascii.eqb c " " || Ascii.eqb c (Ascii.ascii_of_nat 9).

Fixpoint all_blank (s : string) : bool :=
  match s with
  | EmptyString => true
  | String c rest => is_blank c && all_blank rest
  end.

Fixpoint indent_of (s : string) : string :=
  match s with
  | EmptyString => EmptyString
  | String c rest => if is_blank c then String c (indent_of rest) else EmptyString
  end.

Fixpoint common_prefix (a b : string) : string :=
  match a, b with
  | String c a', String d b' =>
      if Ascii.eqb c d then String c (common_prefix a' b') else EmptyString
  | _, _ => EmptyString
  end.

Definition dedent (text : string) : string :=
  let lines := map (fun line => if all_blank line then EmptyString else line)
                   (split (Ascii.ascii_of_nat 10) text) in
  let indents := map indent_of (List.filter (fun line => negb (String.eqb line "")) lines) in
  match indents with
  | [] => String.concat newline lines
  | first :: rest =>
      let margin := fold_left common_prefix rest first in
      let n := String.length margin in
      String.concat newline
        (map (fun line => if String.prefix margin line
                          then substring n (String.length line - n) line
                          else line) lines)
  end.

(** Truth value of a string: non-empty. *)
Definition truthy (s : string) : bool := negb (String.eqb s "").

(** [list(dict.fromkeys(l))]: first occurrences, in order. *)
Fixpoint dedupe (l : list string) : list string :=
  match l with
  | [] => []
  | x :: rest => x :: List.filter (fun y => negb (String.eqb x y)) (dedupe rest)
  end.

(** [random.randrange(start, stop)]: [start + randbelow(stop - start)],
    the random generator's raw output being [entropy]. *)
Definition randrange (start stop : Z) (entropy : Z) : Z :=
  start + entropy mod (stop - start).

End Py.

(** ** Effects: a trace of calls, with exceptions *)
Module Eff.
Import Py.

Section Monad.
Context {E : Type}.

(** A computation receives the chronological trace of the calls made so far
    and returns a value or a raised exception, and the extended trace. *)
Definition M (A : Type) : Type := list E -> (Exception + A) * list E.

Definition ret {A} (a : A) : M A := fun h => (inr a, h).

Definition raise {A} (e : Exception) : M A := fun h => (inl e, h).

Definition bind {A B} (m : M A) (k : A -> M B) : M B :=
  fun h => match m h with
           | (inr a, h') => k a h'
           | (inl e, h') => (inl e, h')
           end.

(** [try: m except <guard> as e: handler e]; exceptions the guard does not
    match propagate. *)
Definition try_except {A} (m : M A) (guard : Exception -> bool) (handler : Exception -> M A) : M A :=
  fun h => match m h with
           | (inr a, h') => (inr a, h')
           | (inl e, h') => if guard e then handler e h' else (inl e, h')
           end.

(** One call: the oracle answers from the trace so far, the call is logged. *)
Definition call {A} (ev : E) (answer : list E -> Exception + A) : M A :=
  fun h => (answer h, h ++ [ev]).

(** A read that leaves no trace (the random generator). *)
Definition ask {A} (f : list E -> A) : M A := fun h => (inr (f h), h).

(** Lifting of a pure, fallible step. *)
Definition lift {A} (r : Exception + A) : M A := fun h => (r, h).

Definition when (b : bool) (m : M unit) : M unit := if b then m else ret tt.

(** [for x in xs: body x] *)
Fixpoint for_each {A} (xs : list A) (body : A -> M unit) : M unit :=
  match xs with
  | [] => ret tt
  | x :: rest => bind (body x) (fun _ => for_each rest body)
  end.

(** [m] only adds calls that satisfy [P] to the trace. *)
Definition emits {A} (P : E -> Prop) (m : M A) : Prop :=
  forall h, exists evs, snd (m h) = h ++ evs /\ Forall P evs.

End Monad.

Arguments M : clear implicits.

(** [try: m except Exception as e: handler e] *)
Definition try_ {E A} (m : M E A) (handler : Exception -> M E A) : M E A :=
  try_except m (fun e => issubclass (exc_type e) Exception_) handler.

End Eff.

Declare Scope py_scope.
Delimit Scope py_scope with py.
Notation "x <- m ;; k" := (Eff.bind m (fun x => k))
  (at level 100, m at next level, right associativity) : py_scope.
Notation "m ;;; k" := (Eff.bind m (fun _ => k))
  (at level 100, right associativity) : py_scope.
Local Open Scope py_scope.

(** ** concourse/replicator.py *)
Module Replicator.
Import Py Eff.

(** A CI backend target: (name of the concourse config, team). *)
Definition Target : Type := string * string.

(** The [main_repo] dict of a descriptor, with the keys the code reads. *)
Record MainRepo : Type := mkMainRepo {
  path : string;
  branch : string;
  hostname : string;
}.

(** Modelled from the spec: [DefinitionDescriptor] is declared in
    concourse/enumerator.py, which is not part of the sources.  The record
    has the attributes replicator.py reads: the pipeline name, the main
    repository, the target backend config and team, the rendered pipeline
    text (absent until rendered) and the enumeration error, if any. *)
Record DefinitionDescriptor : Type := mkDefinitionDescriptor {
  pipeline_name : string;
  main_repo : MainRepo;
  concourse_target_cfg : string;
  concourse_target_team : string;
  pipeline : option string;
  exception : option Exception;
}.

#[global] Instance MainRepo_eq_dec : EqDecision MainRepo.
Proof. solve_decision. Defined.

#[global] Instance DefinitionDescriptor_eq_dec : EqDecision DefinitionDescriptor.
Proof. solve_decision. Defined.

(** [definition_descriptor.concourse_target()] *)
Definition concourse_target (d : DefinitionDescriptor) : Target :=
  (concourse_target_cfg d, concourse_target_team d).

(** Modelled from the spec: [concourse_target_key()] is declared in
    concourse/enumerator.py; results are grouped by (backend-config, team). *)
Definition concourse_target_key (d : DefinitionDescriptor) : Target :=
  concourse_target d.

(** [class RenderStatus(Enum)] *)
Module RenderStatus.
Inductive t : Type := SUCCEEDED | FAILED.
End RenderStatus.

#[global] Instance RenderStatus_eq_dec : EqDecision RenderStatus.t.
Proof. solve_decision. Defined.

(** [class RenderResult] *)
Record RenderResult : Type := mkRenderResult {
  render_definition_descriptor : DefinitionDescriptor;
  render_status : RenderStatus.t;
  render_error_details : option string;
  render_exception : option Exception;
}.

(** [class DeployStatus(IntEnum)]: a bit field. *)
Module DeployStatus.
Definition SUCCEEDED : Z := 1.
Definition FAILED : Z := 2.
Definition SKIPPED : Z := 4.
Definition CREATED : Z := 8.
End DeployStatus.

(** [error_details] holds a string (a formatted trace, a diagnostic) or, for
    an enumeration error, the exception object itself. *)
Inductive ErrorDetails : Type :=
| NoDetails
| DetailsStr (s : string)
| DetailsExc (e : Exception).

#[global] Instance ErrorDetails_eq_dec : EqDecision ErrorDetails.
Proof. solve_decision. Defined.

(** [class DeployResult] *)
Record DeployResult : Type := mkDeployResult {
  definition_descriptor : DefinitionDescriptor;
  deploy_status : Z;
  error_details : ErrorDetails;
}.

#[global] Instance DeployResult_eq_dec : EqDecision DeployResult.
Proof. solve_decision. Defined.

(** Truth value of [status & flag]. *)
Definition has_flag (status flag : Z) : bool :=
  negb (Z.land status flag =? 0).

(** [DeployResult.ok] *)
Definition ok (r : DeployResult) : Exception + bool :=
  if has_flag (deploy_status r) DeployStatus.SUCCEEDED then inr true
  else if deploy_status r =? DeployStatus.SKIPPED then inr true
  else if deploy_status r =? DeployStatus.FAILED then inr false
  else inl (raise_ NotImplementedError "deploy_status").

(** Modelled from the spec: [concourse.client.model.SetPipelineResult] is not
    part of the sources; [set_pipeline] answers CREATED or UPDATED.  A third
    value stands for any other answer, which [deploy] rejects. *)
Inductive SetPipelineResult : Type := CREATED | UPDATED | OTHER.

#[global] Instance SetPipelineResult_eq_dec : EqDecision SetPipelineResult.
Proof. solve_decision. Defined.

(** *** Calls to the outside world *)
Inductive Event : Type :=
| ClientFromCfgName (t : Target)
| SetPipeline (t : Target) (name : string) (definition : option string)
| Sleep (seconds : Z)
| UnpausePipeline (t : Target) (name : string)
| ExposePipeline (t : Target) (name : string)
| Pipelines (t : Target)
| DeletePipeline (t : Target) (name : string)
| PipelineResources (t : Target) (name : string)
| TriggerResourceCheck (t : Target) (pipeline_ resource : string)
| OrderPipelines (t : Target) (names : list string)
| OpenForWriting (file : string)
| WriteFile (file : string) (contents : string)
| GithubRepository (host owner name : string)
| EnumerateCodeowners (owner name : string)
| HeadCommit (owner name branch_ : string)
| GithubUser (login : string)
| SendMail (recipients : list string) (subject body : string).

#[global] Instance Event_eq_dec : EqDecision Event.
Proof. solve_decision. Defined.

(** The oracles.  Each receives the trace of the calls made before it. *)
Record Env : Type := mkEnv {
  client_from_cfg_name : list Event -> Target -> Exception + unit;
  set_pipeline : list Event -> Target -> string -> option string -> Exception + SetPipelineResult;
  unpause_pipeline : list Event -> Target -> string -> Exception + unit;
  expose_pipeline : list Event -> Target -> string -> Exception + unit;
  pipelines : list Event -> Target -> Exception + list string;
  delete_pipeline : list Event -> Target -> string -> Exception + unit;
  pipeline_resources : list Event -> Target -> string -> Exception + list string;
  trigger_resource_check : list Event -> Target -> string -> string -> Exception + unit;
  order_pipelines : list Event -> Target -> list string -> Exception + unit;
  random_entropy : list Event -> Z;
  open_for_writing : list Event -> string -> Exception + unit;
  write_file : list Event -> string -> string -> Exception + unit;
  github_repository : list Event -> string -> string -> string -> Exception + unit;
  enumerate_codeowners : list Event -> string -> string -> Exception + list string;
  head_commit : list Event -> string -> string -> string -> Exception + (option string * option string);
  github_user_email : list Event -> string -> Exception + option string;
  send_mail : list Event -> list string -> string -> string -> Exception + unit;
  format_exc : Exception -> string;
}.

Abbreviation M := (Eff.M Event).

Definition sleep (seconds : Z) : M unit := call (Sleep seconds) (fun _ => inr tt).

(** Classifiers of calls, to count them in a trace. *)
Definition is_delete (ev : Event) : bool :=
  match ev with DeletePipeline _ _ => true | _ => false end.

Definition is_set_pipeline (ev : Event) : bool :=
  match ev with SetPipeline _ _ _ => true | _ => false end.

Definition is_sleep (ev : Event) : bool :=
  match ev with Sleep _ => true | _ => false end.

Definition is_send_mail (ev : Event) : bool :=
  match ev with SendMail _ _ _ => true | _ => false end.

Definition is_unpause (ev : Event) : bool :=
  match ev with UnpausePipeline _ _ => true | _ => false end.

Definition not_delete (ev : Event) : Prop := is_delete ev = false.

Definition not_unpause (ev : Event) : Prop := is_unpause ev = false.

Definition not_set_nor_sleep (ev : Event) : Prop :=
  is_set_pipeline ev = false /\ is_sleep ev = false.

(** *** [class Renderer] *)
Module Renderer.

(** The template machinery behind [Renderer._render] (the definition
    factory and the template engine) is external: it is a field. *)
Record t : Type := mk {
  _render : DefinitionDescriptor -> Exception + DefinitionDescriptor;
}.

(** [Renderer.render]: never raises; a failure is captured in the result,
    together with the exception. *)
Definition render (env : Env) (self : t) (definition_descriptor : DefinitionDescriptor) : RenderResult :=
  match _render self definition_descriptor with
  | inr rendered => mkRenderResult rendered RenderStatus.SUCCEEDED None None
  | inl e => mkRenderResult definition_descriptor RenderStatus.FAILED (Some (format_exc env e)) (Some e)
  end.

End Renderer.

(** *** [class DefinitionDeployer] and its subclasses *)
Class DefinitionDeployer (D : Type) : Type :=
  deploy : Env -> D -> DefinitionDescriptor -> M DeployResult.

Module NoOpDeployer.
Record t : Type := mk { }.

Definition deploy (env : Env) (self : t) (definition_descriptor : DefinitionDescriptor) : M DeployResult :=
  ret (mkDeployResult definition_descriptor DeployStatus.SUCCEEDED NoDetails).
End NoOpDeployer.

Module FilesystemDeployer.
Record t : Type := mk { base_dir : string }.

Definition deploy (env : Env) (self : t) (definition_descriptor : DefinitionDescriptor) : M DeployResult :=
  try_ (let file := path_join (base_dir self) (pipeline_name definition_descriptor) in
        call (OpenForWriting file) (fun h => open_for_writing env h file) ;;;
        (match pipeline definition_descriptor with
         | Some text => call (WriteFile file text) (fun h => write_file env h file text)
         | None =>
             raise (raise_ AttributeError "'DefinitionDescriptor' object has no attribute 'pipeline'")
         end) ;;;
        ret (mkDeployResult definition_descriptor DeployStatus.SUCCEEDED NoDetails))
       (fun e => ret (mkDeployResult definition_descriptor DeployStatus.FAILED NoDetails)).
End FilesystemDeployer.

Module ConcourseDeployer.
Record t : Type := mk {
  unpause_pipelines : bool;
  unpause_new_pipelines : bool;
  expose_pipelines : bool;
}.

Definition err_content : string :=
  "failed to save config: comparison with existing config failed during save".

Definition api_set_pipeline (env : Env) (target : Target) (name : string) (definition : option string)
  : M SetPipelineResult :=
  call (SetPipeline target name definition) (fun h => set_pipeline env h target name definition).

Definition api_unpause_pipeline (env : Env) (target : Target) (name : string) : M unit :=
  call (UnpausePipeline target name) (fun h => unpause_pipeline env h target name).

Definition api_expose_pipeline (env : Env) (target : Target) (name : string) : M unit :=
  call (ExposePipeline target name) (fun h => expose_pipeline env h target name).

(** The inner [try: api.set_pipeline(...) except HTTPError] of [deploy]:
    on status 500 with the known body, sleep [randrange(5, 30)] seconds and
    call [set_pipeline] once more; any other HTTP error is raised again. *)
Definition set_pipeline_retrying (env : Env) (api : Target) (pipeline_name : string)
    (pipeline_definition : option string) : M SetPipelineResult :=
  try_except (api_set_pipeline env api pipeline_name pipeline_definition)
    (fun e => issubclass (exc_type e) HTTPError)
    (fun e =>
       match exc_response e with
       | None => raise (raise_ AttributeError "'NoneType' object has no attribute 'status_code'")
       | Some (status_code, content) =>
           if (status_code =? 500) && String.eqb content err_content then
             entropy <- ask (random_entropy env) ;;
             sleep (randrange 5 30 entropy) ;;;
             api_set_pipeline env api pipeline_name pipeline_definition
           else raise e
       end).

(** The rest of the [try] block of [deploy], after [set_pipeline] answered. *)
Definition after_set_pipeline (env : Env) (self : t) (api : Target)
    (definition_descriptor : DefinitionDescriptor) (response : SetPipelineResult) : M DeployResult :=
  let pipeline_name := pipeline_name definition_descriptor in
  (if unpause_pipelines self then api_unpause_pipeline env api pipeline_name
   else if unpause_new_pipelines self && bool_decide (response = CREATED)
        then api_unpause_pipeline env api pipeline_name
        else ret tt) ;;;
  when (expose_pipelines self) (api_expose_pipeline env api pipeline_name) ;;;
  deploy_status <-
    (match response with
     | CREATED => ret (Z.lor DeployStatus.SUCCEEDED DeployStatus.CREATED)
     | UPDATED => ret DeployStatus.SUCCEEDED
     | OTHER => raise (raise_ NotImplementedError "")
     end) ;;
  ret (mkDeployResult definition_descriptor deploy_status NoDetails).

(** The [try] block of [deploy]. *)
Definition deploy_body (env : Env) (self : t) (definition_descriptor : DefinitionDescriptor)
    (pipeline_definition : string) : M DeployResult :=
  let pipeline_name := pipeline_name definition_descriptor in
  let api := concourse_target definition_descriptor in
  call (ClientFromCfgName api) (fun h => client_from_cfg_name env h api) ;;;
  response <- set_pipeline_retrying env api pipeline_name (Some pipeline_definition) ;;
  after_set_pipeline env self api definition_descriptor response.

(** [ConcourseDeployer.deploy].  The rendered pipeline is read before the
    [try] is entered: a descriptor that was never rendered has no attribute
    [pipeline], and the [AttributeError] leaves [deploy].  Whatever the
    [try] block raises becomes a FAILED result. *)
Definition deploy (env : Env) (self : t) (definition_descriptor : DefinitionDescriptor) : M DeployResult :=
  match pipeline definition_descriptor with
  | None =>
      raise (raise_ AttributeError "'DefinitionDescriptor' object has no attribute 'pipeline'")
  | Some pipeline_definition =>
      try_ (deploy_body env self definition_descriptor pipeline_definition)
           (fun e => ret (mkDeployResult definition_descriptor DeployStatus.FAILED
                            (DetailsStr (format_exc env e))))
  end.
End ConcourseDeployer.

#[global] Instance NoOpDeployer_deployer : DefinitionDeployer NoOpDeployer.t :=
  NoOpDeployer.deploy.
#[global] Instance FilesystemDeployer_deployer : DefinitionDeployer FilesystemDeployer.t :=
  FilesystemDeployer.deploy.
#[global] Instance ConcourseDeployer_deployer : DefinitionDeployer ConcourseDeployer.t :=
  ConcourseDeployer.deploy.

(** *** [class ReplicationResultProcessor] *)
Module ReplicationResultProcessor.

Record t : Type := mk {
  unpause_new_pipelines : bool;
  remove_pipelines : bool;
  remove_pipelines_filter : option (string -> bool);
  reorder_pipelines : bool;
}.

(** [__init__]: a job mapping whose cleanup policy is NO_CLEANUP switches
    the removal of pipelines off. *)
Definition init (unpause_new_pipelines remove_pipelines : bool)
    (remove_pipelines_filter : option (string -> bool)) (reorder_pipelines : bool)
    (job_mapping_no_cleanup : option bool) : t :=
  mk unpause_new_pipelines
     (match job_mapping_no_cleanup with
      | Some true => false
      | _ => remove_pipelines
      end)
     remove_pipelines_filter reorder_pipelines.

(** The dict [concourse_target_results]: keys in insertion order. *)
Fixpoint group_append (key : Target) (r : DeployResult)
    (groups : list (Target * list DeployResult)) : list (Target * list DeployResult) :=
  match groups with
  | [] => [(key, [r])]
  | (k, rs) :: rest =>
      if decide (k = key) then (k, rs ++ [r]) :: rest
      else (k, rs) :: group_append key r rest
  end.

Definition concourse_target_results (results : list DeployResult)
  : list (Target * list DeployResult) :=
  fold_left (fun groups r => group_append (concourse_target_key (definition_descriptor r)) r groups)
            results [].

(** [failed_descriptors]: the results without the SUCCEEDED bit. *)
Definition failed_descriptors (results : list DeployResult) : list DeployResult :=
  List.filter (fun d => negb (has_flag (deploy_status d) DeployStatus.SUCCEEDED)) results.

(** [_initialise_new_pipeline_resources] *)
Definition _initialise_new_pipeline_resources (env : Env) (self : t) (concourse_api : Target)
    (results : list DeployResult) : M unit :=
  let newly_deployed_pipeline_names :=
    map (fun result => pipeline_name (definition_descriptor result))
        (List.filter (fun result => has_flag (deploy_status result) DeployStatus.CREATED) results) in
  for_each newly_deployed_pipeline_names (fun pipeline_name =>
    when (unpause_new_pipelines self)
         (call (UnpausePipeline concourse_api pipeline_name)
               (fun h => unpause_pipeline env h concourse_api pipeline_name)) ;;;
    resources <- call (PipelineResources concourse_api pipeline_name)
                      (fun h => pipeline_resources env h concourse_api pipeline_name) ;;
    for_each resources (fun resource_name =>
      call (TriggerResourceCheck concourse_api pipeline_name resource_name)
           (fun h => trigger_resource_check env h concourse_api pipeline_name resource_name))).

(** An unpause may only be seen when the processor is configured for it. *)
Definition unpause_allowed (self : t) (ev : Event) : Prop :=
  is_unpause ev = true -> unpause_new_pipelines self = true.

(** The tuple [ignore_exceptions] of [should_notify_pipeline_owners]. *)
Definition ignore_exceptions : list ExcClass :=
  [ArithmeticError; AttributeError; BufferError; EOFError; ImportError; MemoryError;
   NameError; OSError; ReferenceError; RecursionError; SyntaxError; TypeError].

(** [should_notify_pipeline_owners]: the class looked at is that of the
    exception stored in the result's definition descriptor, and the test
    [type(...) in ignore_exceptions] compares classes for identity. *)
Definition should_notify_pipeline_owners (deploy_result : DeployResult) : bool :=
  if has_flag (deploy_status deploy_result) DeployStatus.SUCCEEDED then false
  else match exception (definition_descriptor deploy_result) with
       | Some e => if bool_decide (exc_type e ∈ ignore_exceptions) then false else true
       | None => true
       end.

(** [str(error_details)] *)
Definition str_error_details (d : ErrorDetails) : string :=
  match d with
  | NoDetails => "None"
  | DetailsStr s => s
  | DetailsExc e => exc_msg e
  end.

(** [_notify_broken_definition_owners]: recipients come from CODEOWNERS;
    when there are none, from the head commit's committer and author; when
    there are still none nothing is sent. *)
Definition _notify_broken_definition_owners (env : Env) (self : t) (failed_descriptor : DeployResult)
  : M unit :=
  let definition_descriptor := definition_descriptor failed_descriptor in
  let main_repo := main_repo definition_descriptor in
  match split "/" (path main_repo) with
  | [repo_owner; repo_name] =>
      call (GithubRepository (hostname main_repo) repo_owner repo_name)
           (fun h => github_repository env h (hostname main_repo) repo_owner repo_name) ;;;
      codeowners <- call (EnumerateCodeowners repo_owner repo_name)
                         (fun h => enumerate_codeowners env h repo_owner repo_name) ;;
      recipients <-
        (match dedupe codeowners with
         | [] =>
             commit <- call (HeadCommit repo_owner repo_name (branch main_repo))
                            (fun h => head_commit env h repo_owner repo_name (branch main_repo)) ;;
             let user_ids :=
               dedupe (List.filter truthy
                         (omap id [fst commit; snd commit])) in
             (fix add_emails (ids : list string) (recipients : list string) : M (list string) :=
                match ids with
                | [] => ret recipients
                | user_id :: rest =>
                    email <- call (GithubUser user_id) (fun h => github_user_email env h user_id) ;;
                    match email with
                    | Some address =>
                        if truthy address then add_emails rest (dedupe (recipients ++ [address]))
                        else add_emails rest recipients
                    | None => add_emails rest recipients
                    end
                end) user_ids []
         | recipients => ret recipients
         end) ;;
      match recipients with
      | [] => ret tt
      | _ =>
          let subject := "Your pipeline definition in " +:+ path main_repo +:+ " is erroneous" in
          let body :=
            dedent (newline
              +:+ blanks 20 +:+ "The pipeline definition for definition_descriptor.pipeline_name="
              +:+ repr_str (pipeline_name definition_descriptor) +:+ newline
              +:+ blanks 20 +:+ "on main_repo[" +:+ dquote +:+ "branch" +:+ dquote +:+ "]="
              +:+ repr_str (branch main_repo) +:+ " failed to be rendered." +:+ newline
              +:+ blanks 20 +:+ "Error details:" +:+ newline
              +:+ blanks 20 +:+ str_error_details (error_details failed_descriptor) +:+ newline
              +:+ blanks 16) in
          call (SendMail recipients subject body) (fun h => send_mail env h recipients subject body)
      end
  | _ => raise (raise_ ValueError "wrong number of values to unpack")
  end.

(** The notification loop at the end of [process_results].  When
    [should_notify_pipeline_owners] answers no, the log message reads
    [failed_descriptor.pipeline_name]; a [DeployResult] has no such
    attribute, so the loop ends there with an [AttributeError]. *)
Fixpoint notify_failed (env : Env) (self : t) (failed : list DeployResult)
    (all_notifications_succeeded : bool) : M bool :=
  match failed with
  | [] => ret all_notifications_succeeded
  | failed_descriptor :: rest =>
      if negb (should_notify_pipeline_owners failed_descriptor) then
        raise (raise_ AttributeError "'DeployResult' object has no attribute 'pipeline_name'")
      else
        sent <- try_ (_notify_broken_definition_owners env self failed_descriptor ;;; ret true)
                     (fun _ => ret false) ;;
        notify_failed env self rest (all_notifications_succeeded && sent)
  end.

(** The cleanup of one target: [existing_on_backend - just_deployed], minus
    what the filter protects. *)
Definition pipelines_to_remove (self : t) (existing : list string)
    (concourse_results : list DeployResult) : list string :=
  let deployed_pipeline_names : gset string :=
    list_to_set (map (fun r => pipeline_name (definition_descriptor r)) concourse_results) in
  let pipelines_to_remove : gset string := list_to_set existing ∖ deployed_pipeline_names in
  match remove_pipelines_filter self with
  | Some keep => List.filter (fun name => negb (keep name)) (elements pipelines_to_remove)
  | None => elements pipelines_to_remove
  end.

(** [process_results].  The method may switch [self.remove_pipelines] off;
    the processor after the call is returned with the result. *)
Definition process_results (env : Env) (self : t) (results : list DeployResult) : M (t * bool) :=
  let concourse_target_results := concourse_target_results results in
  let failed_descriptors := failed_descriptors results in
  let failed_count := length failed_descriptors in
  let self := if (0 <? failed_count)%nat
              then mk (unpause_new_pipelines self) false (remove_pipelines_filter self)
                      (reorder_pipelines self)
              else self in
  for_each concourse_target_results (fun '(concourse_target_key, concourse_results) =>
    match concourse_results with
    | [] => raise (raise_ RuntimeError "StopIteration")
    | first :: _ =>
        let concourse_api := concourse_target (definition_descriptor first) in
        call (ClientFromCfgName concourse_api) (fun h => client_from_cfg_name env h concourse_api) ;;;
        when (remove_pipelines self)
             (existing <- call (Pipelines concourse_api) (fun h => pipelines env h concourse_api) ;;
              for_each (pipelines_to_remove self existing concourse_results) (fun pipeline_name =>
                call (DeletePipeline concourse_api pipeline_name)
                     (fun h => delete_pipeline env h concourse_api pipeline_name))) ;;;
        _initialise_new_pipeline_resources env self concourse_api concourse_results ;;;
        when (reorder_pipelines self)
             (pipeline_names <- call (Pipelines concourse_api) (fun h => pipelines env h concourse_api) ;;
              call (OrderPipelines concourse_api (sorted pipeline_names))
                   (fun h => order_pipelines env h concourse_api (sorted pipeline_names)))
    end) ;;;
  if (failed_count =? 0)%nat then ret (self, true)
  else
    all_notifications_succeeded <- notify_failed env self failed_descriptors true ;;
    ret (self, all_notifications_succeeded).

End ReplicationResultProcessor.

(** *** [class PipelineReplicator] *)
Module PipelineReplicator.

Record t (D : Type) : Type := mk {
  definition_enumerators : list (list DefinitionDescriptor);
  descriptor_preprocessor : DefinitionDescriptor -> Exception + DefinitionDescriptor;
  definition_renderer : Renderer.t;
  definition_deployer : D;
  result_processor : option ReplicationResultProcessor.t;
}.
Arguments mk {D}.
Arguments definition_enumerators {D}.
Arguments descriptor_preprocessor {D}.
Arguments definition_renderer {D}.
Arguments definition_deployer {D}.
Arguments result_processor {D}.

(** [_pipeline_name_conflict]: the body of the [with self._pipeline_names_lock]
    block, one atomic step on the set of accepted names.  The answer is
    true on a conflict (Python's [None] otherwise, which is false). *)
Definition _pipeline_name_conflict (_pipeline_names : gset string)
    (definition_descriptor : DefinitionDescriptor) : bool * gset string :=
  let pipeline_name := pipeline_name definition_descriptor in
  if bool_decide (pipeline_name ∈ _pipeline_names) then (true, _pipeline_names)
  else (false, _pipeline_names ∪ {[ pipeline_name ]}).

Definition _enumerate_definitions {D} (self : t D) : list DefinitionDescriptor :=
  concat (definition_enumerators self).

Definition duplicate_details (pipeline_name : string) : ErrorDetails :=
  DetailsStr ("duplicate pipeline name: " +:+ pipeline_name).

Definition details_of (error_details : option string) : ErrorDetails :=
  match error_details with
  | Some s => DetailsStr s
  | None => NoDetails
  end.

(** [_process_definition_descriptor], the set of accepted names being
    passed in and out. *)
Definition _process_definition_descriptor {D} `{DefinitionDeployer D} (env : Env) (self : t D)
    (definition_descriptor : DefinitionDescriptor) (_pipeline_names : gset string)
  : M (DeployResult * gset string) :=
  match exception definition_descriptor with
  | Some e =>
      ret (mkDeployResult definition_descriptor DeployStatus.SKIPPED (DetailsExc e), _pipeline_names)
  | None =>
      preprocessed <- lift (descriptor_preprocessor self definition_descriptor) ;;
      let result := Renderer.render env (definition_renderer self) preprocessed in
      let '(conflict, _pipeline_names) :=
        _pipeline_name_conflict _pipeline_names (render_definition_descriptor result) in
      if conflict then
        let pipeline_name := pipeline_name (render_definition_descriptor result) in
        ret (mkDeployResult definition_descriptor DeployStatus.SKIPPED
               (duplicate_details pipeline_name), _pipeline_names)
      else
        match render_status result with
        | RenderStatus.SUCCEEDED =>
            deploy_result <- deploy env (definition_deployer self) (render_definition_descriptor result) ;;
            ret (deploy_result, _pipeline_names)
        | RenderStatus.FAILED =>
            ret (mkDeployResult definition_descriptor DeployStatus.SKIPPED
                   (details_of (render_error_details result)), _pipeline_names)
        end
  end.

(** [_replicate] under the schedule in which the workers run one after the
    other, in enumeration order. *)
Fixpoint _replicate_from {D} `{DefinitionDeployer D} (env : Env) (self : t D)
    (definitions : list DefinitionDescriptor) (_pipeline_names : gset string)
  : M (list DeployResult * gset string) :=
  match definitions with
  | [] => ret ([], _pipeline_names)
  | d :: rest =>
      r <- _process_definition_descriptor env self d _pipeline_names ;;
      rs <- _replicate_from env self rest (snd r) ;;
      ret (fst r :: fst rs, snd rs)
  end.

Definition _replicate {D} `{DefinitionDeployer D} (env : Env) (self : t D) : M (list DeployResult) :=
  rs <- _replicate_from env self (_enumerate_definitions self) ∅ ;;
  ret (fst rs).

(** [replicate]: the processor's verdict, or the results when there is no
    processor. *)
Definition replicate {D} `{DefinitionDeployer D} (env : Env) (self : t D)
  : M (bool + list DeployResult) :=
  results <- _replicate env self ;;
  match result_processor self with
  | Some processor =>
      verdict <- ReplicationResultProcessor.process_results env processor results ;;
      ret (inl (snd verdict))
  | None => ret (inr results)
  end.

(** *** The worker pool of [_replicate]

    [ThreadPoolExecutor.map] runs [_process_definition_descriptor] on up to
    16 threads.  A worker shares nothing with the others but the set of
    accepted names, which it reads and updates inside the lock, and the
    backend.  Its run is cut at the lock: before it (preprocess and render),
    the critical section itself, and after it (deploy).  A deploy is taken
    as one step on the common trace. *)
Inductive Worker : Type :=
| Waiting (definition_descriptor : DefinitionDescriptor)
| Rendered (definition_descriptor : DefinitionDescriptor) (result : RenderResult)
| Accepted (definition_descriptor : DefinitionDescriptor) (result : RenderResult)
| Returned (deploy_result : DeployResult)
| Raised (e : Exception).

(** The pool: the shared set, the trace, the workers by position in the
    enumeration, and the log of the calls of [deploy] (worker, descriptor). *)
Record Pool : Type := mkPool {
  pool_names : gset string;
  pool_trace : list Event;
  pool_workers : list Worker;
  pool_deploys : list (nat * DefinitionDescriptor);
}.

Definition initial_pool (definitions : list DefinitionDescriptor) : Pool :=
  mkPool ∅ [] (map Waiting definitions) [].

Inductive step {D} `{DefinitionDeployer D} (env : Env) (self : t D) : Pool -> Pool -> Prop :=
| step_enumeration_error names trace workers deploys i d e :
    workers !! i = Some (Waiting d) ->
    exception d = Some e ->
    step env self (mkPool names trace workers deploys)
      (mkPool names trace
         (<[i := Returned (mkDeployResult d DeployStatus.SKIPPED (DetailsExc e))]> workers) deploys)
| step_preprocess_raises names trace workers deploys i d e :
    workers !! i = Some (Waiting d) ->
    exception d = None ->
    descriptor_preprocessor self d = inl e ->
    step env self (mkPool names trace workers deploys)
      (mkPool names trace (<[i := Raised e]> workers) deploys)
| step_render names trace workers deploys i d preprocessed :
    workers !! i = Some (Waiting d) ->
    exception d = None ->
    descriptor_preprocessor self d = inr preprocessed ->
    step env self (mkPool names trace workers deploys)
      (mkPool names trace
         (<[i := Rendered d (Renderer.render env (definition_renderer self) preprocessed)]> workers)
         deploys)
| step_conflict names trace workers deploys i d result names' :
    workers !! i = Some (Rendered d result) ->
    _pipeline_name_conflict names (render_definition_descriptor result) = (true, names') ->
    step env self (mkPool names trace workers deploys)
      (mkPool names' trace
         (<[i := Returned (mkDeployResult d DeployStatus.SKIPPED
                             (duplicate_details (pipeline_name (render_definition_descriptor result))))]>
            workers) deploys)
| step_accept names trace workers deploys i d result names' :
    workers !! i = Some (Rendered d result) ->
    _pipeline_name_conflict names (render_definition_descriptor result) = (false, names') ->
    step env self (mkPool names trace workers deploys)
      (mkPool names' trace (<[i := Accepted d result]> workers) deploys)
| step_deploy names trace workers deploys i d result deploy_result trace' :
    workers !! i = Some (Accepted d result) ->
    render_status result = RenderStatus.SUCCEEDED ->
    deploy env (definition_deployer self) (render_definition_descriptor result) trace
      = (inr deploy_result, trace') ->
    step env self (mkPool names trace workers deploys)
      (mkPool names trace' (<[i := Returned deploy_result]> workers)
         (deploys ++ [(i, render_definition_descriptor result)]))
| step_deploy_raises names trace workers deploys i d result e trace' :
    workers !! i = Some (Accepted d result) ->
    render_status result = RenderStatus.SUCCEEDED ->
    deploy env (definition_deployer self) (render_definition_descriptor result) trace
      = (inl e, trace') ->
    step env self (mkPool names trace workers deploys)
      (mkPool names trace' (<[i := Raised e]> workers)
         (deploys ++ [(i, render_definition_descriptor result)]))
| step_render_failed names trace workers deploys i d result :
    workers !! i = Some (Accepted d result) ->
    render_status result = RenderStatus.FAILED ->
    step env self (mkPool names trace workers deploys)
      (mkPool names trace
         (<[i := Returned (mkDeployResult d DeployStatus.SKIPPED
                             (details_of (render_error_details result)))]> workers) deploys).

(** Zero or more steps. *)
Inductive steps {D} `{DefinitionDeployer D} (env : Env) (self : t D) : Pool -> Pool -> Prop :=
| steps_refl p : steps env self p p
| steps_step p q r : steps env self p q -> step env self q r -> steps env self p r.

(** The pipeline name a descriptor produces: that of its rendering result.
    A descriptor with an enumeration error is never rendered and produces
    none. *)
Definition produces {D} (env : Env) (self : t D) (d : DefinitionDescriptor) (name : string) : Prop :=
  exception d = None /\
  exists preprocessed,
    descriptor_preprocessor self d = inr preprocessed /\
    pipeline_name (render_definition_descriptor
                     (Renderer.render env (definition_renderer self) preprocessed)) = name.

(** The result the duplicate check returns for [d]. *)
Definition duplicate_skip (d : DefinitionDescriptor) (name : string) : DeployResult :=
  mkDeployResult d DeployStatus.SKIPPED (duplicate_details name).

(** *** The invariant of the pool

    [winner] maps every accepted name to the worker that inserted it. *)
Section Invariant.
Context {D : Type} `{DefinitionDeployer D} (env : Env) (self : t D).

Definition rendered_by (d : DefinitionDescriptor) (result : RenderResult) : Prop :=
  exception d = None /\
  exists preprocessed,
    descriptor_preprocessor self d = inr preprocessed /\
    result = Renderer.render env (definition_renderer self) preprocessed.

Definition worker_ok (winner : gmap string nat) (i : nat) (d : DefinitionDescriptor)
    (w : Worker) : Prop :=
  match w with
  | Waiting d' => d' = d
  | Rendered d' result => d' = d /\ rendered_by d result
  | Accepted d' result =>
      d' = d /\ rendered_by d result /\
      winner !! pipeline_name (render_definition_descriptor result) = Some i
  | Returned r =>
      forall name, produces env self d name ->
                   r = duplicate_skip d name \/ winner !! name = Some i
  | Raised _ => forall name, produces env self d name -> winner !! name = Some i
  end.

Definition finished (w : Worker) : Prop :=
  match w with
  | Returned _ | Raised _ => True
  | _ => False
  end.

Definition pool_inv (definitions : list DefinitionDescriptor) (winner : gmap string nat)
    (p : Pool) : Prop :=
  dom winner = pool_names p /\
  length (pool_workers p) = length definitions /\
  (forall i d w, definitions !! i = Some d -> pool_workers p !! i = Some w ->
                 worker_ok winner i d w) /\
  (forall i dd, In (i, dd) (pool_deploys p) ->
     winner !! pipeline_name dd = Some i /\
     exists w, pool_workers p !! i = Some w /\ finished w) /\
  NoDup (map fst (pool_deploys p)).

End Invariant.

End PipelineReplicator.

End Replicator.

(** ** whd/pull_request.py *)
Module PullRequest.
Import Py Eff.

(** Modelled from the spec: [PullRequestAction] and [PullRequestEvent] are
    declared in whd/model.py, which is not part of the sources.  An event
    carries the action, the PR number, the sender's login, the label of a
    LABELED event, the labels on the PR and the repository. *)
Inductive PullRequestAction : Type :=
| OPENED | REOPENED | LABELED | SYNCHRONIZE | OTHER_ACTION (name : string).

#[global] Instance PullRequestAction_eq_dec : EqDecision PullRequestAction.
Proof. solve_decision. Defined.

Record PullRequestEvent : Type := mkPullRequestEvent {
  action : PullRequestAction;
  number : N;
  sender_login : string;
  label : option string;
  label_names : list string;
  repository_path : string;
  repository_url : string;
  hostname : string;
}.

(** Modelled from the spec: [PipelineConfigResource] is declared in
    concourse/client/model.py, which is not part of the sources; the code
    reads its name, its pipeline and the [label] key of its source. *)
Record PipelineConfigResource : Type := mkPipelineConfigResource {
  name : string;
  pipeline_name : string;
  source_label : option string;
}.

#[global] Instance PipelineConfigResource_eq_dec : EqDecision PipelineConfigResource.
Proof. solve_decision. Defined.

(** Modelled from the spec: a job mapping ([model.concourse.JobMapping], not
    part of the sources) declares [trusted_teams], each of the form
    [org/team] or [host/org/team]. *)
Record JobMapping : Type := mkJobMapping {
  trusted_teams : list string;
}.

(** [cfg_set._cfg_elements('job_mapping')]: each job-mapping set answers
    [job_mapping_for_repo_url] with a mapping, with nothing, or raises. *)
Record ConfigurationSet : Type := mkConfigurationSet {
  job_mapping_sets : list (string -> Exception + option JobMapping);
}.

Inductive Event : Type :=
| IsTeamMember (team_name user_login : string)
| IsOrgMember (organization_name user_login : string)
| AddLabelsToPullRequest (pr_number : N) (labels : list string)
| AddCommentToPr (pr_number : N) (comment : string)
| Sleep (seconds : float)
| Log (message : string)
| FailingToCheck (resource : PipelineConfigResource)
| ResourceVersions (pipeline resource : string)
| TriggerResourceCheck (resources : list PipelineConfigResource).

(** The GitHub repository helper and the CI backend, as oracles. *)
Record Env : Type := mkEnv {
  is_team_member : list Event -> string -> string -> Exception + bool;
  is_org_member : list Event -> string -> string -> Exception + bool;
  add_labels_to_pull_request : list Event -> N -> list string -> Exception + unit;
  add_comment_to_pr : list Event -> N -> string -> Exception + unit;
  failing_to_check : list Event -> PipelineConfigResource -> Exception + bool;
  resource_versions : list Event -> string -> string -> Exception + list string;
  trigger_resource_check : list Event -> list PipelineConfigResource -> Exception + unit;
}.

Abbreviation M := (Eff.M Event).

(** [iter_trusted_teams_for_hostname], consumed by [list(...)]. *)
Fixpoint iter_trusted_teams_for_hostname (trusted_teams : list string) (hostname : string)
  : Exception + list string :=
  match trusted_teams with
  | [] => inr []
  | trusted_team :: rest =>
      match split "/" trusted_team with
      | [_; _] =>
          match iter_trusted_teams_for_hostname rest hostname with
          | inr teams => inr (trusted_team :: teams)
          | inl e => inl e
          end
      | [host; org; team] =>
          if negb (String.eqb host hostname) then iter_trusted_teams_for_hostname rest hostname
          else match iter_trusted_teams_for_hostname rest hostname with
               | inr teams => inr ((org +:+ "/" +:+ team) :: teams)
               | inl e => inl e
               end
      | _ => inl (raise_ ValueError "team must either be <hostname>/<org>/<team> or <org>/<team>")
      end
  end.

(** [any(github_helper.is_team_member(team, sender) for team in teams)]:
    the teams are asked in order, up to the first yes. *)
Fixpoint any_team_member (env : Env) (teams : list string) (sender_login : string) : M bool :=
  match teams with
  | [] => ret false
  | team :: rest =>
      member <- call (IsTeamMember team sender_login)
                     (fun h => is_team_member env h team sender_login) ;;
      if member then ret true else any_team_member env rest sender_login
  end.

(** [_should_label] *)
Definition _should_label (env : Env) (job_mapping : JobMapping) (sender_login owner : string)
    (github_hostname : string) : M bool :=
  trusted_teams <- lift (iter_trusted_teams_for_hostname (trusted_teams job_mapping) github_hostname) ;;
  match trusted_teams with
  | _ :: _ =>
      member <- any_team_member env trusted_teams sender_login ;;
      if member then ret true else ret false
  | [] =>
      member <- call (IsOrgMember owner sender_login)
                     (fun h => is_org_member env h owner sender_login) ;;
      if member then ret true else ret false
  end.

(** The set [required_labels]: the [label] of the resources' sources. *)
Definition required_labels (resources : list PipelineConfigResource) : list string :=
  dedupe (omap source_label resources).

(** The [for jms in ...: ... else: raise ValueError] loop of [set_pr_labels]. *)
Fixpoint find_job_mapping (sets : list (string -> Exception + option JobMapping)) (repo_url : string)
  : Exception + JobMapping :=
  match sets with
  | [] => inl (raise_ ValueError ("no job-mapping found for " +:+ repo_url))
  | jms :: rest =>
      match jms repo_url with
      | inr (Some job_mapping) => inr job_mapping
      | inr None => find_job_mapping rest repo_url
      | inl e => if issubclass (exc_type e) ValueError then find_job_mapping rest repo_url
                 else inl e
      end
  end.

(** [set_pr_labels] *)
Definition set_pr_labels (env : Env) (pr_event : PullRequestEvent) (cfg_set : ConfigurationSet)
    (resources : list PipelineConfigResource) : M bool :=
  let required_labels := required_labels resources in
  match required_labels with
  | [] => ret true
  | _ :: _ =>
      let pr_number := number pr_event in
      let sender_login := sender_login pr_event in
      let repository_path := repository_path pr_event in
      match split "/" repository_path with
      | [owner; _] =>
          job_mapping <- lift (find_job_mapping (job_mapping_sets cfg_set) (repository_url pr_event)) ;;
          match action pr_event with
          | OPENED =>
              trusted <- _should_label env job_mapping sender_login owner (hostname pr_event) ;;
              if trusted then
                call (AddLabelsToPullRequest pr_number required_labels)
                     (fun h => add_labels_to_pull_request env h pr_number required_labels) ;;;
                ret true
              else
                let comment :=
                  "Thank you @" +:+ sender_login +:+ " for your contribution. Before I can start "
                  +:+ "building your PR, a member of the organization must set the required "
                  +:+ "label(s) " +:+ repr_set required_labels +:+ ". Once started, you can "
                  +:+ "check the build status in the PR checks section below." in
                call (AddCommentToPr pr_number comment)
                     (fun h => add_comment_to_pr env h pr_number comment) ;;;
                ret false
          | SYNCHRONIZE =>
              trusted <- _should_label env job_mapping sender_login owner (hostname pr_event) ;;
              if trusted then
                call (AddLabelsToPullRequest pr_number required_labels)
                     (fun h => add_labels_to_pull_request env h pr_number required_labels) ;;;
                ret true
              else ret false
          | LABELED =>
              match label pr_event with
              | Some l =>
                  if String.eqb l "lgtm" || String.eqb l "reviewed/lgtm" then
                    call (AddLabelsToPullRequest pr_number required_labels)
                         (fun h => add_labels_to_pull_request env h pr_number required_labels) ;;;
                    ret true
                  else ret false
              | None => ret false
              end
          | _ => ret false
          end
      | _ => raise (raise_ ValueError "wrong number of values to unpack")
      end
  end.

(** [str(pr_event.number())] *)
Definition str_number (n : N) : string := pretty n.

(** [is_up_to_date] of [ensure_pr_resource_updates]; [versions] holds the
    [pr] entry of each resource version. *)
Definition is_up_to_date (pr_event : PullRequestEvent) (resource : PipelineConfigResource)
    (versions : list string) : bool :=
  match source_label resource with
  | Some require_label =>
      if truthy require_label && negb (bool_decide (require_label ∈ label_names pr_event))
      then true
      else bool_decide (str_number (number pr_event) ∈ versions)
  | None => bool_decide (str_number (number pr_event) ∈ versions)
  end.

(** The list comprehension [outdated_resources]. *)
Fixpoint outdated_resources (env : Env) (pr_event : PullRequestEvent)
    (resources : list PipelineConfigResource) : M (list PipelineConfigResource) :=
  match resources with
  | [] => ret []
  | resource :: rest =>
      failing <- call (FailingToCheck resource) (fun h => failing_to_check env h resource) ;;
      keep <- (if failing then ret true
               else versions <- call (ResourceVersions (pipeline_name resource) (name resource))
                                     (fun h => resource_versions env h (pipeline_name resource)
                                                 (name resource)) ;;
                    ret (negb (is_up_to_date pr_event resource versions))) ;;
      outdated <- outdated_resources env pr_event rest ;;
      ret (if keep then resource :: outdated else outdated)
  end.

(** The float literal [1.2]: the binary64 number nearest to it. *)
Definition float_1_2 : float := 0x1.3333333333333p+0%float.

(** [ensure_pr_resource_updates].  The function calls itself; [depth] is
    the number of frames the interpreter grants before it raises
    [RecursionError].  [sleep_seconds] is a binary64 float, as is the
    product [sleep_seconds*1.2] in the source (the default, the integer 3,
    is the float 3.0 in that product).  With [retries] below zero the
    function logs that it gives up, and goes on. *)
Fixpoint ensure_pr_resource_updates (depth : nat) (env : Env) (pr_event : PullRequestEvent)
    (resources : list PipelineConfigResource) (retries : Z) (sleep_seconds : float) : M unit :=
  match depth with
  | O => raise (raise_ RecursionError "maximum recursion depth exceeded")
  | S depth' =>
      call (Sleep sleep_seconds) (fun _ => inr tt) ;;;
      let retries := retries - 1 in
      when (retries <? 0)
           (call (Log ("could not update resources "
                       +:+ repr_list (map name resources) +:+ " - giving up"))
                 (fun _ => inr tt)) ;;;
      outdated_resources <- outdated_resources env pr_event resources ;;
      match outdated_resources with
      | [] => ret tt
      | _ :: _ =>
          call (TriggerResourceCheck outdated_resources)
               (fun h => trigger_resource_check env h outdated_resources) ;;;
          ensure_pr_resource_updates depth' env pr_event outdated_resources retries
            (sleep_seconds * float_1_2)%float
      end
  end.

(** The defaults of the signature. *)
Definition default_retries : Z := 10.
Definition default_sleep_seconds : float := 3%float.

(** The number of polling iterations a trace shows: one sleep each. *)
Definition iterations (trace : list Event) : nat :=
  length (List.filter (fun ev => match ev with Sleep _ => true | _ => false end) trace).

Definition checks_triggered (trace : list Event) : nat :=
  length (List.filter (fun ev => match ev with TriggerResourceCheck _ => true | _ => false end) trace).

Definition not_add_labels (ev : Event) : Prop :=
  match ev with AddLabelsToPullRequest _ _ => False | _ => True end.

(** What the label policy decides for a sender, given the trusted teams
    that match the host: [member] tells the teams the sender belongs to,
    [org_member] whether the sender belongs to the owning organisation. *)
Definition decision (member : string -> bool) (org_member : bool) (teams : list string) : bool :=
  match teams with
  | [] => org_member
  | _ :: _ => existsb member teams
  end.

(** The membership question the policy may ask about a sender, given the
    trusted teams that match the host: whether the sender belongs to one of
    these teams; without such teams, whether the sender belongs to the
    owning organisation. *)
Definition policy_question (owner sender_login : string) (teams : list string) (ev : Event) : Prop :=
  match teams with
  | [] => ev = IsOrgMember owner sender_login
  | _ :: _ => exists team, In team teams /\ ev = IsTeamMember team sender_login
  end.

End PullRequest.

(** ** cnudie/retrieve.py *)
Module Retrieve.
Import Py Eff.

(** Modelled from the spec: [ComponentIdentity], [ComponentDescriptor] and
    the repository contexts are declared in [gci.componentmodel], which is
    not part of the sources.  An identity is (name, version); a descriptor
    carries its identity and the repository context it currently lives in,
    if any. *)
Record ComponentIdentity : Type := mkComponentIdentity {
  name : string;
  version : string;
}.

Record ComponentDescriptor : Type := mkComponentDescriptor {
  component : ComponentIdentity;
  current_repository_ctx : option string;
}.

(** The [ctx_repo] argument: absent, a base URL, or a repository context. *)
Inductive CtxRepo : Type :=
| NoCtxRepo
| CtxRepoUrl (base_url : string)
| OciRepositoryContext (base_url : string).

#[global] Instance ComponentIdentity_eq_dec : EqDecision ComponentIdentity.
Proof. solve_decision. Defined.
#[global] Instance ComponentDescriptor_eq_dec : EqDecision ComponentDescriptor.
Proof. solve_decision. Defined.
#[global] Instance CtxRepo_eq_dec : EqDecision CtxRepo.
Proof. solve_decision. Defined.

(** Truth value of [ctx_repo]. *)
Definition ctx_truthy (ctx_repo : CtxRepo) : bool :=
  match ctx_repo with
  | NoCtxRepo => false
  | CtxRepoUrl base_url => truthy base_url
  | OciRepositoryContext _ => true
  end.

(** The calls a composite lookup makes: a lookup of a layer (by position;
    [ctx_repo] is absent when the layer is called without one), and a call
    of a [WriteBack] object (by identity). *)
Inductive Event : Type :=
| LookupCalled (layer : nat) (component_id : ComponentIdentity) (ctx_repo : option CtxRepo)
| WriteBackCalled (writeback_id : nat) (component_id : ComponentIdentity)
    (component_descriptor : ComponentDescriptor).

#[global] Instance Event_eq_dec : EqDecision Event.
Proof. solve_decision. Defined.

Abbreviation M := (Eff.M Event).

(** [class WriteBack]: wraps a function that fills a lookup; the function
    may raise (both cache write-backs raise [ValueError] for a descriptor
    without repository context).  [writeback_id] is the object's identity. *)
Record WriteBack : Type := mkWriteBack {
  writeback_id : nat;
  writeback : list Event -> ComponentIdentity -> ComponentDescriptor -> Exception + unit;
}.

(** [WriteBack.__call__] *)
Definition WriteBack_call (self : WriteBack) (component_id : ComponentIdentity)
    (component_descriptor : ComponentDescriptor) : M unit :=
  call (WriteBackCalled (writeback_id self) component_id component_descriptor)
       (fun h => writeback self h component_id component_descriptor).

(** What a lookup returns: a descriptor, [None], a [WriteBack], or a value
    of another type. *)
Inductive LookupResult : Type :=
| Found (component_descriptor : ComponentDescriptor)
| NoneResult
| WriteBackResult (wb : WriteBack)
| OtherResult.

(** A [ComponentDescriptorLookupById]. *)
Definition Lookup : Type :=
  list Event -> ComponentIdentity -> option CtxRepo -> Exception + LookupResult.

(** The [for lookup in lookups] loop of the composite lookup; [layer] is
    the position of the first lookup of the list.  [None] stands for the
    loop running to its end. *)
Fixpoint walk (lookups : list Lookup) (layer : nat) (component_id : ComponentIdentity)
    (ctx_repo : CtxRepo) (writebacks : list WriteBack) : M (option ComponentDescriptor) :=
  match lookups with
  | [] => ret None
  | lookup :: rest =>
      let arg := if ctx_truthy ctx_repo then Some ctx_repo else None in
      res <- try_except (call (LookupCalled layer component_id arg)
                              (fun h => lookup h component_id arg))
               (fun e => issubclass (exc_type e) OciImageNotFoundException)
               (fun _ => ret NoneResult) ;;
      match res with
      | Found component_descriptor =>
          for_each writebacks (fun wb => WriteBack_call wb component_id component_descriptor) ;;;
          ret (Some component_descriptor)
      | NoneResult => walk rest (S layer) component_id ctx_repo writebacks
      | WriteBackResult wb => walk rest (S layer) component_id ctx_repo (writebacks ++ [wb])
      | OtherResult => walk rest (S layer) component_id ctx_repo writebacks
      end
  end.

(** [composite_component_descriptor_lookup(lookups, ...)(component_id,
    ctx_repo, absent_ok)] *)
Definition composite_component_descriptor_lookup (lookups : list Lookup)
    (component_id : ComponentIdentity) (ctx_repo : CtxRepo) (absent_ok : bool)
  : M (option ComponentDescriptor) :=
  found <- walk lookups 0%nat component_id ctx_repo [] ;;
  match found with
  | Some component_descriptor => ret (Some component_descriptor)
  | None =>
      if absent_ok then ret None
      else match ctx_repo with
           | NoCtxRepo =>
               raise (raise_ AttributeError
                        "'NoneType' object has no attribute 'component_version_oci_ref'")
           | CtxRepoUrl base_url | OciRepositoryContext base_url =>
               raise (raise_ OciImageNotFoundException
                        (base_url +:+ "/component-descriptors/" +:+ name component_id
                         +:+ ":" +:+ version component_id))
           end
  end.

(** What each layer answers during the walk that starts with trace [h]. *)
Fixpoint answers (lookups : list Lookup) (layer : nat) (component_id : ComponentIdentity)
    (ctx_repo : CtxRepo) (h : list Event) : list (Exception + LookupResult) :=
  match lookups with
  | [] => []
  | lookup :: rest =>
      let arg := if ctx_truthy ctx_repo then Some ctx_repo else None in
      lookup h component_id arg
        :: answers rest (S layer) component_id ctx_repo (h ++ [LookupCalled layer component_id arg])
  end.

(** The events of the lookups of layers [layer], ..., [layer + n - 1]. *)
Fixpoint lookup_events (n : nat) (layer : nat) (component_id : ComponentIdentity)
    (ctx_repo : CtxRepo) : list Event :=
  match n with
  | O => []
  | S n' =>
      LookupCalled layer component_id (if ctx_truthy ctx_repo then Some ctx_repo else None)
        :: lookup_events n' (S layer) component_id ctx_repo
  end.

(** A layer's answer counts as a miss when it is not a descriptor and not an
    exception other than not-found. *)
Definition is_miss (answer : Exception + LookupResult) : bool :=
  match answer with
  | inr (Found _) => false
  | inr _ => true
  | inl e => issubclass (exc_type e) OciImageNotFoundException
  end.

(** The write-backs collected from a list of answers, in order. *)
Definition collected (answers : list (Exception + LookupResult)) : list WriteBack :=
  flat_map (fun answer => match answer with
                          | inr (WriteBackResult wb) => [wb]
                          | _ => []
                          end) answers.

(** The call of the write-back [wb] with the found descriptor. *)
Definition writeback_event (component_id : ComponentIdentity) (d : ComponentDescriptor)
    (wb : WriteBack) : Event :=
  WriteBackCalled (writeback_id wb) component_id d.

(** The write-back calls in a trace. *)
Definition writeback_calls (trace : list Event) : list Event :=
  List.filter (fun ev => match ev with WriteBackCalled _ _ _ => true | _ => false end) trace.

End Retrieve.

(** ** oci/__init__.py *)
Module Oci.
Import Py Eff.

(** [class ReplicationMode] *)
Inductive ReplicationMode : Type :=
| REGISTRY_DEFAULTS
| PREFER_MULTIARCH
| NORMALISE_TO_MULTIARCH.

#[global] Instance ReplicationMode_eq_dec : EqDecision ReplicationMode.
Proof. solve_decision. Defined.

(** Modelled from the spec: the media types are constants of oci/model.py,
    which is not part of the sources: the docker manifest list and the OCI
    image index (multi-arch), the docker v2 and the OCI manifest (single
    image), and the Accept header that favours the multi-arch ones. *)
Definition DOCKER_MANIFEST_LIST_MIME : string :=
  "application/vnd.docker.distribution.manifest.list.v2+json".
Definition OCI_IMAGE_INDEX_MIME : string := "application/vnd.oci.image.index.v1+json".
Definition OCI_MANIFEST_SCHEMA_V2_MIME : string := "application/vnd.oci.image.manifest.v1+json".
Definition DOCKER_MANIFEST_SCHEMA_V2_MIME : string :=
  "application/vnd.docker.distribution.manifest.v2+json".
Definition MimeTypes_prefer_multiarch : string :=
  String.concat ", " [OCI_IMAGE_INDEX_MIME; DOCKER_MANIFEST_LIST_MIME;
                      OCI_MANIFEST_SCHEMA_V2_MIME; DOCKER_MANIFEST_SCHEMA_V2_MIME].

(** [ReplicationMode.accept_header] *)
Definition accept_header (mode : ReplicationMode) : option string :=
  match mode with
  | REGISTRY_DEFAULTS => None
  | PREFER_MULTIARCH => Some MimeTypes_prefer_multiarch
  | NORMALISE_TO_MULTIARCH => Some MimeTypes_prefer_multiarch
  end.

(** *** JSON values, as [json.loads] returns them *)
#[warnings="-register-all"]
Inductive Json : Type :=
| JNull
| JBool (b : bool)
| JNum (n : Z)
| JStr (s : string)
| JArr (items : list Json)
| JObj (members : list (string * Json)).

(** [d.get(key)] on the members of an object. *)
Fixpoint members_get (key : string) (members : list (string * Json)) : option Json :=
  match members with
  | [] => None
  | (k, v) :: rest => if String.eqb k key then Some v else members_get key rest
  end.

(** [d[key] = value]: in place when the key is there, appended otherwise. *)
Fixpoint members_set (key : string) (value : Json) (members : list (string * Json))
  : list (string * Json) :=
  match members with
  | [] => [(key, value)]
  | (k, v) :: rest =>
      if String.eqb k key then (k, value) :: rest else (k, v) :: members_set key value rest
  end.

(** [value[key]] *)
Definition json_item (key : string) (value : Json) : Exception + Json :=
  match value with
  | JObj members =>
      match members_get key members with
      | Some v => inr v
      | None => inl (raise_ KeyError key)
      end
  | _ => inl (raise_ TypeError "object is not subscriptable by a string")
  end.

(** [value[0]] *)
Definition json_first (value : Json) : Exception + Json :=
  match value with
  | JArr (first :: _) => inr first
  | JArr [] => inl (raise_ LookupError "list index out of range")
  | JObj _ => inl (raise_ KeyError "0")
  | _ => inl (raise_ TypeError "object is not subscriptable")
  end.

(** [value[key] = item] *)
Definition json_set_item (key : string) (item : Json) (value : Json) : Exception + Json :=
  match value with
  | JObj members => inr (JObj (members_set key item members))
  | _ => inl (raise_ TypeError "object does not support item assignment")
  end.

(** The digits of a decimal literal. *)
Fixpoint parse_digits (s : string) (acc : Z) : option Z :=
  match s with
  | EmptyString => Some acc
  | String c rest =>
      let n := Z.of_nat (nat_of_ascii c) - 48 in
      if (0 <=? n) && (n <=? 9) then parse_digits rest (10 * acc + n) else None
  end.

(** [int(value)] *)
Definition json_int (value : Json) : Exception + Z :=
  match value with
  | JNum n => inr n
  | JBool b => inr (if b then 1 else 0)
  | JStr (String c rest) =>
      match parse_digits (String c rest) 0 with
      | Some n => inr n
      | None => inl (raise_ ValueError "invalid literal for int()")
      end
  | JStr EmptyString => inl (raise_ ValueError "invalid literal for int()")
  | _ => inl (raise_ TypeError "int() argument must be a string or a number")
  end.

(** *** The model of oci/model.py

    Modelled from the spec: the classes of oci/model.py are not part of the
    sources.  An image reference is parsed, with accessors [ref_without_tag],
    [tag], [has_tag] and [has_digest_tag]; a manifest lists a config blob
    and layers ([blobs()] yields the config first); a manifest list has one
    entry per sub-manifest, with digest, size and platform. *)
Record OciImageReference : Type := mkOciImageReference {
  original_image_reference : string;
  ref_without_tag : string;
  tag : string;
  has_tag : bool;
  has_digest_tag : bool;
}.

Record OciBlobRef : Type := mkOciBlobRef {
  digest : string;
  mediaType : string;
  size : Z;
}.

Record OciImageManifest : Type := mkOciImageManifest {
  config : OciBlobRef;
  layers : list OciBlobRef;
  manifest_mediaType : string;
  manifest_annotations : list (string * string);
}.

Record OciPlatform : Type := mkOciPlatform {
  os : string;
  architecture : string;
  variant : option string;
}.

Record OciImageManifestListEntry : Type := mkOciImageManifestListEntry {
  entry_digest : string;
  entry_mediaType : string;
  entry_size : Z;
  platform : option OciPlatform;
}.

Record OciImageManifestList : Type := mkOciImageManifestList {
  manifests : list OciImageManifestListEntry;
  list_mediaType : string;
  list_annotations : list (string * string);
}.

#[global] Instance OciBlobRef_eq_dec : EqDecision OciBlobRef.
Proof. solve_decision. Defined.
#[global] Instance OciPlatform_eq_dec : EqDecision OciPlatform.
Proof. solve_decision. Defined.
#[global] Instance OciImageManifestListEntry_eq_dec : EqDecision OciImageManifestListEntry.
Proof. solve_decision. Defined.

(** [manifest.blobs()] *)
Definition blobs (manifest : OciImageManifest) : list OciBlobRef :=
  config manifest :: layers manifest.

(** [str(image_reference)] *)
Definition str_ref (r : OciImageReference) : string := original_image_reference r.

(** [annotations.get(k)] and [annotations[k] = v] *)
Fixpoint annotation_get (key : string) (d : list (string * string)) : option string :=
  match d with
  | [] => None
  | (k, v) :: rest => if String.eqb k key then Some v else annotation_get key rest
  end.

Fixpoint annotation_set (key value : string) (d : list (string * string))
  : list (string * string) :=
  match d with
  | [] => [(key, value)]
  | (k, v) :: rest =>
      if String.eqb k key then (k, value) :: rest else (k, v) :: annotation_set key value rest
  end.

(** The [for k, v in annotations.items()] loops: the merged annotations and
    whether anything changed. *)
Fixpoint merge_annotations (new : list (string * string)) (existing : list (string * string))
    (dirty : bool) : list (string * string) * bool :=
  match new with
  | [] => (existing, dirty)
  | (k, v) :: rest =>
      if bool_decide (annotation_get k existing = Some v) then merge_annotations rest existing dirty
      else merge_annotations rest (annotation_set k v existing) true
  end.

(** [l.remove(x)]: the first occurrence goes. *)
Fixpoint list_remove (x : OciImageManifestListEntry) (l : list OciImageManifestListEntry)
  : list OciImageManifestListEntry :=
  match l with
  | [] => []
  | y :: rest => if decide (y = x) then rest else y :: list_remove x rest
  end.

(** [l.insert(idx, x)] *)
Definition list_insert_at (idx : nat) (x : OciImageManifestListEntry)
    (l : list OciImageManifestListEntry) : list OciImageManifestListEntry :=
  take idx l ++ x :: drop idx l.

(** [enumerate(l)] *)
Fixpoint enumerate_from {A} (idx : nat) (l : list A) : list (nat * A) :=
  match l with
  | [] => []
  | x :: rest => (idx, x) :: enumerate_from (S idx) rest
  end.

(** *** Calls of the OCI client *)
Inductive Event : Type :=
| ManifestRaw (image_reference : string) (accept : option string)
| ManifestV1 (image_reference : string)
| V1ManifestToV2 (tgt_image_ref : string)
| FromSingleImage (image_reference : string)
| ToDigestHash (image_reference : string)
| HeadBlob (image_reference blob_digest : string)
| Blob (image_reference blob_digest : string) (absent_ok : bool)
| PutBlob (image_reference blob_digest : string) (octets_count : Z) (data : option string)
| PutManifest (image_reference : string) (manifest : string).

#[global] Instance Event_eq_dec : EqDecision Event.
Proof. solve_decision. Defined.

(** The answer to [manifest_raw]: the body, and the Content-Type header. *)
Record Response : Type := mkResponse {
  text : string;
  content_type : option string;
}.

(** The registries behind the client, and the libraries around it.  The
    texts of manifests are kept as strings and serve as their bytes. *)
Record Env : Type := mkEnv {
  to_image_ref : string -> OciImageReference;
  manifest_raw : list Event -> string -> option string -> Exception + Response;
  manifest_v1 : list Event -> string -> Exception + Json;
  v1_manifest_to_v2 : list Event -> Json -> string -> Exception + OciImageManifest;
  from_single_image : list Event -> string -> bool -> option OciPlatform -> Exception + OciPlatform;
  to_digest_hash : list Event -> string -> Exception + string;
  head_blob : list Event -> string -> string -> Exception + bool;
  blob : list Event -> string -> string -> bool -> Exception + option string;
  put_blob : list Event -> string -> string -> Z -> option string -> Exception + unit;
  put_manifest : list Event -> string -> string -> Exception + Z;
  json_loads : string -> Exception + Json;
  json_dumps : Json -> string;
  sha256_hexdigest : string -> string;
  gunzip_sha256_hexdigest : string -> Exception + string;
  manifest_from_dict : Json -> Exception + OciImageManifest;
  manifest_list_from_dict : Json -> Exception + OciImageManifestList;
  manifest_as_dict : OciImageManifest -> Json;
  manifest_list_as_dict : OciImageManifestList -> Json;
}.

Abbreviation M := (Eff.M Event).

(** What [replicate_artifact] returns: the answer to the last PUT, the final
    target reference and the bytes of the manifest. *)
Definition Replicated : Type := Z * string * string.

(** A recursive call of [replicate_artifact]: source, target, whether an
    [oci_client] is passed, and the annotations. *)
Definition Replicate : Type :=
  string -> string -> bool -> option (list (string * string)) -> M Replicated.

Definition sha256_digest (env : Env) (bytes : string) : string :=
  "sha256:" +:+ sha256_hexdigest env bytes.

(** Truth value of the [annotations] argument. *)
Definition annotations_given (annotations : option (list (string * string)))
  : list (string * string) :=
  match annotations with
  | Some d => d
  | None => []
  end.

(** The loop over the sub-manifests of a manifest list.  The state is the
    list [manifest.manifests], changed in place, and [manifest_dirty]. *)
Fixpoint replicate_sub_manifests (env : Env) (self : Replicate) (oci_client : bool)
    (src_name tgt_name : string) (platform_filter : option (OciPlatform -> bool))
    (annotations : option (list (string * string)))
    (entries : list (nat * OciImageManifestListEntry))
    (manifests : list OciImageManifestListEntry) (manifest_dirty : bool)
  : M (list OciImageManifestListEntry * bool) :=
  match entries with
  | [] => ret (manifests, manifest_dirty)
  | (idx, sub_manifest) :: rest =>
      let src_reference := src_name +:+ "@" +:+ entry_digest sub_manifest in
      let tgt_reference := tgt_name in
      skip <- (match platform_filter with
               | Some filter =>
                   platform <- call (FromSingleImage src_reference)
                                    (fun h => from_single_image env h src_reference oci_client
                                                (platform sub_manifest)) ;;
                   ret (negb (filter platform))
               | None => ret false
               end) ;;
      if (skip : bool) then
        replicate_sub_manifests env self oci_client src_name tgt_name platform_filter annotations
          rest (list_remove sub_manifest manifests) true
      else
        replicated <- self src_reference tgt_reference true annotations ;;
        let submanifest_bytes := snd replicated in
        let submanifest_digest := sha256_digest env submanifest_bytes in
        if negb (String.eqb submanifest_digest (entry_digest sub_manifest)) then
          let patched_sub_manifest :=
            mkOciImageManifestListEntry submanifest_digest (entry_mediaType sub_manifest)
              (Z.of_nat (String.length submanifest_bytes)) (platform sub_manifest) in
          replicate_sub_manifests env self oci_client src_name tgt_name platform_filter annotations
            rest (list_insert_at idx patched_sub_manifest (list_remove sub_manifest manifests)) true
        else
          replicate_sub_manifests env self oci_client src_name tgt_name platform_filter annotations
            rest manifests manifest_dirty
  end.

(** The multi-arch branch, from [dacite.from_dict] to the return. *)
Definition replicate_manifest_list (env : Env) (self : Replicate) (oci_client : bool)
    (src tgt : OciImageReference) (platform_filter : option (OciPlatform -> bool))
    (annotations : option (list (string * string))) (manifest : Json) (raw_manifest : string)
  : M Replicated :=
  manifest <- lift (manifest_list_from_dict env manifest) ;;
  let src_name := ref_without_tag src in
  let tgt_name := ref_without_tag tgt in
  replicated <- replicate_sub_manifests env self oci_client src_name tgt_name platform_filter
                  annotations (enumerate_from 0 (manifests manifest)) (manifests manifest) false ;;
  let merged := merge_annotations (annotations_given annotations) (list_annotations manifest)
                  (snd replicated) in
  let manifest := mkOciImageManifestList (fst replicated) (list_mediaType manifest) (fst merged) in
  let manifest_dirty := snd merged in
  let raw_manifest := if manifest_dirty then json_dumps env (manifest_list_as_dict env manifest)
                      else raw_manifest in
  let tgt := if negb (has_tag tgt)
             then to_image_ref env (ref_without_tag tgt +:+ "@" +:+ sha256_digest env raw_manifest)
             else tgt in
  res <- call (PutManifest (str_ref tgt) raw_manifest)
              (fun h => put_manifest env h (str_ref tgt) raw_manifest) ;;
  ret (res, str_ref tgt, raw_manifest).

(** The single-image branch in NORMALISE_TO_MULTIARCH mode. *)
Definition normalise_to_multiarch (env : Env) (self : Replicate) (oci_client : bool)
    (src tgt : OciImageReference) (annotations : option (list (string * string)))
    (media_type : string) : M Replicated :=
  src <- (if negb (has_digest_tag src) then
            if oci_client then
              resolved <- call (ToDigestHash (str_ref src))
                               (fun h => to_digest_hash env h (str_ref src)) ;;
              ret (to_image_ref env resolved)
            else raise (raise_ AttributeError "'NoneType' object has no attribute 'to_digest_hash'")
          else ret src) ;;
  platform <- call (FromSingleImage (str_ref src))
                   (fun h => from_single_image env h (str_ref src) oci_client None) ;;
  let tgt_image_ref := ref_without_tag tgt +:+ "@" +:+ tag src in
  replicated <- self (str_ref src) tgt_image_ref oci_client annotations ;;
  let manifest_bytes := snd replicated in
  let manifest_list :=
    mkOciImageManifestList
      [mkOciImageManifestListEntry (sha256_digest env manifest_bytes) media_type
         (Z.of_nat (String.length manifest_bytes)) (Some platform)]
      DOCKER_MANIFEST_LIST_MIME [] in
  let manifest_list_bytes := json_dumps env (manifest_list_as_dict env manifest_list) in
  res <- (if oci_client then
            call (PutManifest (str_ref tgt) manifest_list_bytes)
                 (fun h => put_manifest env h (str_ref tgt) manifest_list_bytes)
          else raise (raise_ AttributeError "'NoneType' object has no attribute 'put_manifest'")) ;;
  ret (res, str_ref tgt, manifest_list_bytes).

(** [put_blob] fed by [intercept_chunks]: the chunks are unpacked and hashed
    while [put_blob] consumes them, so a falsy answer or a broken gzip stream
    fails inside that call; the digest of the unpacked layer comes back. *)
Definition put_blob_intercepted (env : Env) (tgt : OciImageReference) (layer : OciBlobRef)
    (blob_res : option string) : M string :=
  call (PutBlob (str_ref tgt) (digest layer) (size layer) blob_res)
       (fun h =>
          match blob_res with
          | None => inl (raise_ AttributeError "'NoneType' object has no attribute 'iter_content'")
          | Some data =>
              match gunzip_sha256_hexdigest env data with
              | inl e => inl e
              | inr hexdigest =>
                  match put_blob env h (str_ref tgt) (digest layer) (size layer) blob_res with
                  | inl e => inl e
                  | inr _ => inr ("sha256:" +:+ hexdigest)
                  end
              end
          end).

(** The loop over [enumerate(manifest.blobs())].  The state is
    [need_to_synthesise_cfg_blob] and [uncompressed_layer_digests]. *)
Fixpoint replicate_blobs_loop (env : Env) (src tgt : OciImageReference)
    (need_uncompressed_layer_digests : bool) (blobs : list (nat * OciBlobRef))
    (need_to_synthesise_cfg_blob : bool) (uncompressed_layer_digests : list string)
  : M (bool * list string) :=
  match blobs with
  | [] => ret (need_to_synthesise_cfg_blob, uncompressed_layer_digests)
  | (idx, layer) :: rest =>
      let is_cfg_blob := (idx =? 0)%nat in
      if is_cfg_blob && need_to_synthesise_cfg_blob then
        replicate_blobs_loop env src tgt need_uncompressed_layer_digests rest
          need_to_synthesise_cfg_blob uncompressed_layer_digests
      else
        head_ok <- call (HeadBlob (str_ref tgt) (digest layer))
                        (fun h => head_blob env h (str_ref tgt) (digest layer)) ;;
        if (head_ok : bool) && negb need_uncompressed_layer_digests then
          replicate_blobs_loop env src tgt need_uncompressed_layer_digests rest
            need_to_synthesise_cfg_blob uncompressed_layer_digests
        else if head_ok && negb is_cfg_blob then
          blob_res <- call (Blob (str_ref src) (digest layer) is_cfg_blob)
                           (fun h => blob env h (str_ref src) (digest layer) is_cfg_blob) ;;
          match blob_res with
          | Some data =>
              hexdigest <- lift (gunzip_sha256_hexdigest env data) ;;
              replicate_blobs_loop env src tgt need_uncompressed_layer_digests rest
                need_to_synthesise_cfg_blob (uncompressed_layer_digests ++ ["sha256:" +:+ hexdigest])
          | None => raise (raise_ AttributeError "'NoneType' object has no attribute 'iter_content'")
          end
        else
          blob_res <- call (Blob (str_ref src) (digest layer) is_cfg_blob)
                           (fun h => blob env h (str_ref src) (digest layer) is_cfg_blob) ;;
          if negb (bool_decide (is_Some blob_res)) && is_cfg_blob then
            replicate_blobs_loop env src tgt need_uncompressed_layer_digests rest
              true uncompressed_layer_digests
          else if need_uncompressed_layer_digests then
            layer_digest <- put_blob_intercepted env tgt layer blob_res ;;
            replicate_blobs_loop env src tgt need_uncompressed_layer_digests rest
              need_to_synthesise_cfg_blob (uncompressed_layer_digests ++ [layer_digest])
          else
            call (PutBlob (str_ref tgt) (digest layer) (size layer) blob_res)
                 (fun h => put_blob env h (str_ref tgt) (digest layer) (size layer) blob_res) ;;;
            replicate_blobs_loop env src tgt need_uncompressed_layer_digests rest
              need_to_synthesise_cfg_blob uncompressed_layer_digests
  end.

(** [manifest_dict['config']['digest'] = cfg_digest] and
    [manifest_dict['config']['size'] = octets]: the dict of the manifest
    with the digest and the size of its config replaced. *)
Definition patch_config (manifest_dict : Json) (cfg_digest : string) (octets : Z)
  : Exception + Json :=
  match json_item "config" manifest_dict with
  | inl e => inl e
  | inr cfg =>
      match json_set_item "digest" (JStr cfg_digest) cfg with
      | inl e => inl e
      | inr cfg =>
          match json_set_item "size" (JNum octets) cfg with
          | inl e => inl e
          | inr cfg => json_set_item "config" cfg manifest_dict
          end
      end
  end.

(** The [if need_to_synthesise_cfg_blob] block: the config blob is made from
    the first history entry of the source manifest and uploaded; the new
    text of the manifest is returned.  [uncompressed_layer_digests] is
    [None] when they were not asked for. *)
Definition synthesise_cfg_blob (env : Env) (tgt : OciImageReference) (manifest : OciImageManifest)
    (raw_manifest : string) (uncompressed_layer_digests : option (list string)) : M string :=
  parsed <- lift (json_loads env raw_manifest) ;;
  history <- lift (json_item "history" parsed) ;;
  first <- lift (json_first history) ;;
  compat <- lift (json_item "v1Compatibility" first) ;;
  fake_cfg_dict <- (match compat with
                    | JStr s => lift (json_loads env s)
                    | _ => raise (raise_ TypeError "the JSON object must be str, bytes or bytearray")
                    end) ;;
  let rootfs := JObj [("diff_ids", match uncompressed_layer_digests with
                                   | Some ds => JArr (map JStr ds)
                                   | None => JNull
                                   end);
                      ("type", JStr "layers")] in
  fake_cfg_dict <- lift (json_set_item "rootfs" rootfs fake_cfg_dict) ;;
  let fake_cfg_raw := json_dumps env fake_cfg_dict in
  let cfg_digest := sha256_digest env fake_cfg_raw in
  let octets := Z.of_nat (String.length fake_cfg_raw) in
  call (PutBlob (str_ref tgt) cfg_digest octets (Some fake_cfg_raw))
       (fun h => put_blob env h (str_ref tgt) cfg_digest octets (Some fake_cfg_raw)) ;;;
  let manifest_dict := manifest_as_dict env manifest in
  manifest_dict <- lift (patch_config manifest_dict cfg_digest octets) ;;
  ret (json_dumps env manifest_dict).

(** From the loop over the blobs to the return, for a single image. *)
Definition replicate_single_image (env : Env) (src tgt : OciImageReference)
    (annotations : option (list (string * string))) (manifest : OciImageManifest)
    (raw_manifest : string) (need_to_synthesise_cfg_blob need_uncompressed_layer_digests : bool)
  : M Replicated :=
  state <- replicate_blobs_loop env src tgt need_uncompressed_layer_digests
             (enumerate_from 0 (blobs manifest)) need_to_synthesise_cfg_blob [] ;;
  raw_manifest <- (if fst state then
                     synthesise_cfg_blob env tgt manifest raw_manifest
                       (if need_uncompressed_layer_digests then Some (snd state) else None)
                   else ret raw_manifest) ;;
  let raw_manifest :=
    match annotations_given annotations with
    | [] => raw_manifest
    | new =>
        let merged := merge_annotations new (manifest_annotations manifest) false in
        if snd merged then
          json_dumps env (manifest_as_dict env
                            (mkOciImageManifest (config manifest) (layers manifest)
                               (manifest_mediaType manifest) (fst merged)))
        else raw_manifest
    end in
  let tgt_image_reference :=
    if negb (has_tag tgt)
    then ref_without_tag tgt +:+ "@" +:+ sha256_digest env raw_manifest
    else str_ref tgt in
  res <- call (PutManifest tgt_image_reference raw_manifest)
              (fun h => put_manifest env h tgt_image_reference raw_manifest) ;;
  ret (res, tgt_image_reference, raw_manifest).

(** The workaround for manifests without [mediaType]: the Content-Type of
    the answer, when there is one, is filled in. *)
Definition with_media_type (manifest : Json) (content_type : option string) : Exception + Json :=
  match manifest with
  | JObj members =>
      match members_get "mediaType" members with
      | Some _ => inr manifest
      | None =>
          match content_type with
          | Some media_type =>
              if truthy media_type then inr (JObj (members_set "mediaType" (JStr media_type) members))
              else inr manifest
          | None => inr manifest
          end
      end
  | _ => inl (raise_ TypeError "the manifest is not a JSON object")
  end.

(** [manifest.get('mediaType', DOCKER_MANIFEST_SCHEMA_V2_MIME)] *)
Definition media_type_of (manifest : Json) : option string :=
  match manifest with
  | JObj members =>
      match members_get "mediaType" members with
      | Some (JStr s) => Some s
      | Some _ => None
      | None => Some DOCKER_MANIFEST_SCHEMA_V2_MIME
      end
  | _ => None
  end.

Definition is_multiarch (media_type : string) : bool :=
  bool_decide (media_type ∈ [DOCKER_MANIFEST_LIST_MIME; OCI_IMAGE_INDEX_MIME]).

Definition is_single_image (media_type : string) : bool :=
  bool_decide (media_type ∈ [OCI_MANIFEST_SCHEMA_V2_MIME; DOCKER_MANIFEST_SCHEMA_V2_MIME]).

(** From the answer to [manifest_raw] to the parsed manifest, with its media
    type filled in, and [int(manifest['schemaVersion'])]. *)
Definition load_manifest (env : Env) (resp : Response) : Exception + (Json * Z) :=
  match json_loads env (text resp) with
  | inl e => inl e
  | inr manifest =>
      match with_media_type manifest (content_type resp) with
      | inl e => inl e
      | inr manifest =>
          match json_item "schemaVersion" manifest with
          | inl e => inl e
          | inr version_item =>
              match json_int version_item with
              | inl e => inl e
              | inr schema_version => inr (manifest, schema_version)
              end
          end
      end
  end.

(** [replicate_artifact].  The function calls itself for the sub-manifests
    of a manifest list and when it normalises a single image; [depth] bounds
    the nesting of these calls.  [credentials_lookup] and [oci_client] tell
    whether the argument was passed. *)
Fixpoint replicate_artifact (depth : nat) (env : Env) (src_image_reference tgt_image_reference : string)
    (credentials_lookup oci_client : bool) (mode : ReplicationMode)
    (platform_filter : option (OciPlatform -> bool))
    (annotations : option (list (string * string))) : M Replicated :=
  match depth with
  | O => raise (raise_ RecursionError "maximum recursion depth exceeded")
  | S depth' =>
      if negb (xorb credentials_lookup oci_client) then
        raise (raise_ ValueError "either credentials-lookup + routes, xor client must be passed")
      else
        let self : Replicate := fun src tgt client annotations =>
          replicate_artifact depth' env src tgt false client REGISTRY_DEFAULTS None annotations in
        let src := to_image_ref env src_image_reference in
        let tgt := to_image_ref env tgt_image_reference in
        let accept := accept_header mode in
        resp <- call (ManifestRaw (str_ref src) accept)
                     (fun h => manifest_raw env h (str_ref src) accept) ;;
        let raw_manifest := text resp in
        loaded <- lift (load_manifest env resp) ;;
        let manifest := fst loaded in
        let schema_version := snd loaded in
        if schema_version =? 1 then
          v1 <- call (ManifestV1 (str_ref src)) (fun h => manifest_v1 env h (str_ref src)) ;;
          manifest <- call (V1ManifestToV2 (str_ref tgt))
                           (fun h => v1_manifest_to_v2 env h v1 (str_ref tgt)) ;;
          replicate_single_image env src tgt annotations manifest raw_manifest true true
        else if schema_version =? 2 then
          match media_type_of manifest with
          | Some media_type =>
              if is_multiarch media_type then
                replicate_manifest_list env self oci_client src tgt platform_filter annotations
                  manifest raw_manifest
              else if is_single_image media_type then
                if bool_decide (mode = NORMALISE_TO_MULTIARCH) then
                  normalise_to_multiarch env self oci_client src tgt annotations media_type
                else
                  reparsed <- lift (json_loads env raw_manifest) ;;
                  manifest <- lift (manifest_from_dict env reparsed) ;;
                  replicate_single_image env src tgt annotations manifest raw_manifest false false
              else raise (raise_ NotImplementedError "media_type")
          | None => raise (raise_ NotImplementedError "media_type")
          end
        else raise (raise_ NotImplementedError "schema_version")
  end.

(** The manifests put to the target, in order. *)
Definition manifests_put (trace : list Event) : list (string * string) :=
  omap (fun ev => match ev with
                  | PutManifest image_reference manifest => Some (image_reference, manifest)
                  | _ => None
                  end) trace.

(** The requests for blobs a trace shows: the digests asked from the source. *)
Definition blobs_fetched (trace : list Event) : list string :=
  omap (fun ev => match ev with Blob _ d _ => Some d | _ => None end) trace.

(** The formats [replicate_artifact] knows: schema version 1, and schema
    version 2 with the media type of an index or of a single image. *)
Definition supported (loaded : Json * Z) : Prop :=
  snd loaded = 1 \/
  (snd loaded = 2 /\
   exists media_type, media_type_of (fst loaded) = Some media_type /\
                      (is_multiarch media_type = true \/ is_single_image media_type = true)).

(** A run from [h] to [h'] that ends with the PUT of the manifest it returns. *)
Definition put_last (env : Env) (h h' : list Event) (out : Replicated) : Prop :=
  exists pre,
    h' = h ++ pre ++ [PutManifest (snd (fst out)) (snd out)] /\
    put_manifest env (h ++ pre) (snd (fst out)) (snd out) = inr (fst (fst out)).

(** Any call may be made. *)
Definition any_event (_ : Event) : Prop := True.

(** A recursive call that hands the source's text on as it is. *)
Definition verbatim_call (env : Env) (self : Replicate) : Prop :=
  forall src tgt client h res ref bytes h',
    self src tgt client None h = (inr (res, ref, bytes), h') ->
    exists resp,
      manifest_raw env h (str_ref (to_image_ref env src)) None = inr resp /\ bytes = text resp.

End Oci.

(** ** concourse/replicator.py: validation of pipeline definitions *)
Module PipelineValidationResultProcessor.
Import Py Eff Replicator.

Definition newline : string := String (Ascii.ascii_of_nat 10) EmptyString.

(** [failed_results]: the results whose status is not the member
    [DeployStatus.SUCCEEDED] itself ([is] compares identities, and
    [SUCCEEDED | CREATED] is another value). *)
Definition failed_results (results : list DeployResult) : list DeployResult :=
  List.filter (fun r => negb (deploy_status r =? DeployStatus.SUCCEEDED)) results.

(** The message of the error: one line per failed result. *)
Definition message (failed : list DeployResult) : string :=
  String.concat newline
    (map (fun r => pipeline_name (definition_descriptor r) +:+ ": "
                   +:+ ReplicationResultProcessor.str_error_details (error_details r))
         failed).

(** [PipelineValidationResultProcessor.process_results] *)
Definition process_results (results : list DeployResult) : Exception + bool :=
  match failed_results results with
  | [] => inr true
  | failed => inl (mkException PipelineValidationError (message failed) None)
  end.

End PipelineValidationResultProcessor.

(** ** Views on the traces of a replication *)
Module ReplicatorViews.
Import Py Eff Replicator.

(** The pipeline names the results of a run carry for the target [t]. *)
Definition deployed_to (t : Target) (results : list DeployResult) : list string :=
  map (fun r => pipeline_name (definition_descriptor r))
      (List.filter (fun r => bool_decide (concourse_target_key (definition_descriptor r) = t)) results).

(** A call that deletes no pipeline the run has a result for on the same
    target. *)
Definition spares_deployed (results : list DeployResult) (ev : Event) : Prop :=
  match ev with
  | DeletePipeline t name => ~ In name (deployed_to t results)
  | _ => True
  end.

Definition not_send_mail (ev : Event) : Prop := is_send_mail ev = false.

(** The processor [process_results] goes on with: the cleanup is switched
    off as soon as a result lacks the SUCCEEDED bit. *)
Definition current_processor (self : ReplicationResultProcessor.t) (results : list DeployResult)
  : ReplicationResultProcessor.t :=
  if (0 <? length (ReplicationResultProcessor.failed_descriptors results))%nat
  then ReplicationResultProcessor.mk (ReplicationResultProcessor.unpause_new_pipelines self) false
         (ReplicationResultProcessor.remove_pipelines_filter self)
         (ReplicationResultProcessor.reorder_pipelines self)
  else self.

(** A pipeline may be deleted when the cleanup is on, the run has no
    failure, a listing of the backend holds the name, no result of the run
    for the target carries it and the filter does not protect it. *)
Definition removable (env : Env) (self : ReplicationResultProcessor.t)
    (results : list DeployResult) (ev : Event) : Prop :=
  match ev with
  | DeletePipeline t name =>
      ReplicationResultProcessor.remove_pipelines self = true /\
      ReplicationResultProcessor.failed_descriptors results = [] /\
      (exists h0 existing, pipelines env h0 t = inr existing /\ In name existing) /\
      ~ In name (deployed_to t results) /\
      (forall keep, ReplicationResultProcessor.remove_pipelines_filter self = Some keep ->
                    keep name = false)
  | _ => True
  end.

(** The results of the target [key], in the order of the run. *)
Definition results_of (key : Target) (results : list DeployResult) : list DeployResult :=
  List.filter (fun r => bool_decide (concourse_target_key (definition_descriptor r) = key)) results.

(** The group the dict [concourse_target_results] holds under [key]. *)
Fixpoint group (key : Target) (groups : list (Target * list DeployResult))
  : option (list DeployResult) :=
  match groups with
  | [] => None
  | (k, rs) :: rest => if decide (k = key) then Some rs else group key rest
  end.

End ReplicatorViews.

(** ** Concrete runs of the replication *)
Module Scenario.
Import Py Eff Replicator.

Definition backend : Target := ("concourse", "main").

(** A backend on which every call succeeds: [set_pipeline] answers from the
    trace, [pipelines] lists [existing], CODEOWNERS resolves to
    [codeowners], the random generator yields [entropy]. *)
Definition make_env (set_pipeline_answer : list Event -> Exception + SetPipelineResult)
    (existing : list string) (entropy : Z) (codeowners : list string) : Env :=
  {| client_from_cfg_name := fun _ _ => inr tt;
     set_pipeline := fun h _ _ _ => set_pipeline_answer h;
     unpause_pipeline := fun _ _ _ => inr tt;
     expose_pipeline := fun _ _ _ => inr tt;
     pipelines := fun _ _ => inr existing;
     delete_pipeline := fun _ _ _ => inr tt;
     pipeline_resources := fun _ _ _ => inr ["source"];
     trigger_resource_check := fun _ _ _ _ => inr tt;
     order_pipelines := fun _ _ _ => inr tt;
     random_entropy := fun _ => entropy;
     open_for_writing := fun _ _ => inr tt;
     write_file := fun _ _ _ => inr tt;
     github_repository := fun _ _ _ _ => inr tt;
     enumerate_codeowners := fun _ _ _ => inr codeowners;
     head_commit := fun _ _ _ _ => inr (None, None);
     github_user_email := fun _ _ => inr None;
     send_mail := fun _ _ _ _ => inr tt;
     format_exc := exc_msg |}.

(** The backend updates pipelines; [foo] and [orphan] exist on it. *)
Definition quiet_env : Env :=
  make_env (fun _ => inr UPDATED) ["foo"; "orphan"] 0 ["owner@example.org"].

(** The backend creates every pipeline anew. *)
Definition creating_env : Env :=
  make_env (fun _ => inr CREATED) [] 0 ["owner@example.org"].

Definition save_race : Exception :=
  mkException HTTPError "500 Server Error" (Some (500, ConcourseDeployer.err_content)).

Definition bad_gateway : Exception :=
  mkException HTTPError "502 Bad Gateway" (Some (502, "bad gateway")).

(** The first [set_pipeline] of a run fails with [first]; later ones
    succeed. *)
Definition failing_once_env (first : Exception) (entropy : Z) : Env :=
  make_env (fun h => if forallb (fun ev => negb (is_set_pipeline ev)) h then inl first
                     else inr UPDATED)
           ["foo"] entropy ["owner@example.org"].

Definition descriptor (pipeline_name repo : string) : DefinitionDescriptor :=
  mkDefinitionDescriptor pipeline_name (mkMainRepo repo "master" "github.com")
    "concourse" "main" None None.

Definition foo : DefinitionDescriptor := descriptor "foo" "acme/app".

(** [foo] as the renderer below hands it to the deployer. *)
Definition rendered_foo : DefinitionDescriptor :=
  mkDefinitionDescriptor "foo" (mkMainRepo "acme/app" "master" "github.com")
    "concourse" "main" (Some "jobs: []") None.

(** A second repository whose definition is also named [foo]. *)
Definition foo_again : DefinitionDescriptor := descriptor "foo" "acme/other".

(** A renderer that succeeds: it fills in the pipeline text. *)
Definition rendering : Renderer.t :=
  Renderer.mk (fun d => inr (mkDefinitionDescriptor (pipeline_name d) (main_repo d)
                               (concourse_target_cfg d) (concourse_target_team d)
                               (Some "jobs: []") (exception d))).

(** A renderer that raises [TypeError], as a defect of the templates does. *)
Definition template_type_error : Exception :=
  raise_ TypeError "unsupported operand type(s)".

Definition breaking : Renderer.t := Renderer.mk (fun _ => inl template_type_error).

Definition processor : ReplicationResultProcessor.t :=
  ReplicationResultProcessor.init true true None true None.

(** The replicator of [replicate_pipelines] over the given definitions. *)
Definition replicator (renderer : Renderer.t) (definitions : list DefinitionDescriptor)
  : PipelineReplicator.t ConcourseDeployer.t :=
  PipelineReplicator.mk [definitions] inr renderer (ConcourseDeployer.mk true true true)
    (Some processor).

(** Two workers on [foo] and [foo_again], once both have returned: the
    first was accepted and has deployed, the second met the conflict. *)
Definition pool_after : PipelineReplicator.Pool :=
  PipelineReplicator.mkPool (∅ ∪ {[ "foo" ]})
    [ClientFromCfgName backend; SetPipeline backend "foo" (Some "jobs: []");
     UnpausePipeline backend "foo"; ExposePipeline backend "foo"]
    [PipelineReplicator.Returned
       (mkDeployResult (render_definition_descriptor (Renderer.render quiet_env rendering foo))
          DeployStatus.SUCCEEDED NoDetails);
     PipelineReplicator.Returned (PipelineReplicator.duplicate_skip foo_again "foo")]
    [(0%nat, render_definition_descriptor (Renderer.render quiet_env rendering foo))].

End Scenario.

(** ** Views on the traces of whd/pull_request.py *)
Module PullRequestViews.
Import Py Eff PullRequest.

(** A trusted team of one of the two forms [org/team] and [host/org/team]. *)
Definition well_formed_team (trusted_team : string) : bool :=
  let parts := length (split "/" trusted_team) in
  (parts =? 2)%nat || (parts =? 3)%nat.

(** The durations slept, in order. *)
Definition sleeps (trace : list Event) : list float :=
  omap (fun ev => match ev with Sleep seconds => Some seconds | _ => None end) trace.

(** [n] durations from [seconds] on, each the float product of the one
    before and [1.2]. *)
Fixpoint backoff (seconds : float) (n : nat) : list float :=
  match n with
  | O => []
  | S n' => seconds :: backoff (seconds * float_1_2)%float n'
  end.

(** A resource check is triggered for some of [resources] only, and never
    for none. *)
Definition trigger_within (resources : list PipelineConfigResource) (ev : Event) : Prop :=
  match ev with
  | TriggerResourceCheck triggered => triggered <> [] /\ sublist triggered resources
  | _ => True
  end.

(** The calls that look at a resource. *)
Definition looks_at_resource (ev : Event) : Prop :=
  match ev with
  | FailingToCheck _ | ResourceVersions _ _ => True
  | _ => False
  end.

End PullRequestViews.

(** ** Concrete pull requests *)
Module PrScenario.
Import Py Eff PullRequest.

Definition pr_resource : PipelineConfigResource :=
  mkPipelineConfigResource "pull-request" "app-pr" None.

(** GitHub as [members] and [org_members] describe it, and a backend on
    which the PR resource keeps failing to check when [failing]. *)
Definition make_env (members : string -> string -> bool) (org_members : string -> string -> bool)
    (failing : bool) (versions : list string) : Env :=
  {| is_team_member := fun _ team login => inr (members team login);
     is_org_member := fun _ org login => inr (org_members org login);
     add_labels_to_pull_request := fun _ _ _ => inr tt;
     add_comment_to_pr := fun _ _ _ => inr tt;
     failing_to_check := fun _ _ => inr failing;
     resource_versions := fun _ _ _ => inr versions;
     trigger_resource_check := fun _ _ => inr tt |}.

Definition stuck_env : Env := make_env (fun _ _ => false) (fun _ _ => false) true [].

Definition opened : PullRequestEvent :=
  mkPullRequestEvent OPENED 42 "dev" None [] "acme/app" "https://github.com/acme/app" "github.com".

(** [dev] belongs to the organisation [acme], to no team. *)
Definition org_only_env : Env :=
  make_env (fun _ _ => false) (fun org login => String.eqb org "acme" && String.eqb login "dev")
           false ["42"].

Definition core_team : JobMapping := mkJobMapping ["acme/core"].

Definition cfg_set : ConfigurationSet := mkConfigurationSet [fun _ => inr (Some core_team)].

Definition labelled_resource : PipelineConfigResource :=
  mkPipelineConfigResource "pull-request" "app-pr" (Some "reviewed/ok-to-test").

End PrScenario.

(** ** A concrete layered lookup *)
Module LookupScenario.
Import Py Eff Retrieve.

Definition component_id : ComponentIdentity := mkComponentIdentity "acme.org/app" "1.2.3".

Definition descriptor : ComponentDescriptor :=
  mkComponentDescriptor component_id (Some "registry.example.org/ocm").

Definition memory_writeback : WriteBack := mkWriteBack 0 (fun _ _ _ => inr tt).
Definition filesystem_writeback : WriteBack := mkWriteBack 1 (fun _ _ _ => inr tt).

(** Both caches miss and hand out their write-back, the delivery service
    knows nothing, the registry has the descriptor. *)
Definition in_memory_lookup : Lookup := fun _ _ _ => inr (WriteBackResult memory_writeback).
Definition file_system_lookup : Lookup := fun _ _ _ => inr (WriteBackResult filesystem_writeback).
Definition delivery_service_lookup : Lookup := fun _ _ _ => inr NoneResult.
Definition oci_lookup : Lookup := fun _ _ _ => inr (Found descriptor).

Definition default_lookups : list Lookup :=
  [in_memory_lookup; file_system_lookup; delivery_service_lookup; oci_lookup].

Definition ctx_repo : CtxRepo := CtxRepoUrl "registry.example.org/ocm".

End LookupScenario.

(** ** Concrete registries *)
Module OciScenario.
Import Py Eff Oci.

(** The texts of four manifests, and what [json.loads] makes of them: a
    single image and an index that lists it, both of schema version 2, a
    legacy manifest of schema version 1, and a manifest of a later schema. *)
Definition image_text : string := "{image}".
Definition index_text : string := "{index}".
Definition legacy_text : string := "{legacy}".
Definition future_text : string := "{future}".
Definition legacy_config_text : string := "{config}".

Definition image_json : Json :=
  JObj [("schemaVersion", JNum 2); ("mediaType", JStr DOCKER_MANIFEST_SCHEMA_V2_MIME)].

Definition index_json : Json :=
  JObj [("schemaVersion", JNum 2); ("mediaType", JStr DOCKER_MANIFEST_LIST_MIME)].

Definition legacy_json : Json :=
  JObj [("schemaVersion", JNum 1);
        ("history", JArr [JObj [("v1Compatibility", JStr legacy_config_text)]])].

Definition future_json : Json := JObj [("schemaVersion", JNum 3)].

Definition parse (s : string) : Exception + Json :=
  if String.eqb s image_text then inr image_json
  else if String.eqb s index_text then inr index_json
  else if String.eqb s legacy_text then inr legacy_json
  else if String.eqb s future_text then inr future_json
  else if String.eqb s legacy_config_text then inr (JObj [("architecture", JStr "amd64")])
  else inl (raise_ ValueError "Expecting value").

Definition image_manifest : OciImageManifest :=
  mkOciImageManifest
    (mkOciBlobRef "sha256:c0" "application/vnd.docker.container.image.v1+json" 2)
    [mkOciBlobRef "sha256:l1" "application/vnd.docker.image.rootfs.diff.tar.gzip" 5;
     mkOciBlobRef "sha256:l2" "application/vnd.docker.image.rootfs.diff.tar.gzip" 7]
    DOCKER_MANIFEST_SCHEMA_V2_MIME [].

Definition amd64 : OciPlatform := mkOciPlatform "linux" "amd64" None.

Definition index : OciImageManifestList :=
  mkOciImageManifestList
    [mkOciImageManifestListEntry "sha256:aaaa" DOCKER_MANIFEST_SCHEMA_V2_MIME 7 (Some amd64)]
    DOCKER_MANIFEST_LIST_MIME [].

(** A reader of references: [name@digest], [name:tag] or [name]. *)
Fixpoint before_at (s : string) : string :=
  match s with
  | EmptyString => EmptyString
  | String c rest => if Ascii.eqb c "@" then EmptyString else String c (before_at rest)
  end.

Fixpoint after_at (s : string) : option string :=
  match s with
  | EmptyString => None
  | String c rest => if Ascii.eqb c "@" then Some rest else after_at rest
  end.

Fixpoint has_slash (s : string) : bool :=
  match s with
  | EmptyString => false
  | String c rest => Ascii.eqb c "/" || has_slash rest
  end.

Definition symbolic_tag (s : string) : option (string * string) :=
  match rev (split ":" s) with
  | t :: (_ :: _) as before =>
      if has_slash t then None else Some (String.concat ":" (rev before), t)
  | _ => None
  end.

Definition parse_reference (s : string) : OciImageReference :=
  mkOciImageReference s
    (match after_at s with
     | Some _ => before_at s
     | None => match symbolic_tag s with Some (name, _) => name | None => s end
     end)
    (match after_at s with
     | Some d => d
     | None => match symbolic_tag s with Some (_, t) => t | None => EmptyString end
     end)
    (bool_decide (is_Some (after_at s)) || bool_decide (is_Some (symbolic_tag s)))
    (bool_decide (is_Some (after_at s))).

Definition manifest_unknown : Exception := raise_ OciImageNotFoundException "manifest unknown".

(** A source registry that serves [registry], and a target that takes
    everything and has the blobs already when [target_has_blobs]. *)
Definition make_env (registry : string -> option Response) (target_has_blobs : bool) : Env :=
  {| to_image_ref := parse_reference;
     manifest_raw := fun _ ref _ => match registry ref with
                                    | Some resp => inr resp
                                    | None => inl manifest_unknown
                                    end;
     manifest_v1 := fun _ _ => inr legacy_json;
     v1_manifest_to_v2 := fun _ _ _ => inr image_manifest;
     from_single_image := fun _ _ _ base => inr (default amd64 base);
     to_digest_hash := fun _ ref => inr (ref_without_tag (parse_reference ref) +:+ "@sha256:aaaa");
     head_blob := fun _ _ _ => inr target_has_blobs;
     blob := fun _ _ d _ => inr (Some ("blob " +:+ d));
     put_blob := fun _ _ _ _ _ => inr tt;
     put_manifest := fun _ _ _ => inr 201;
     json_loads := parse;
     json_dumps := fun _ => "{dumped}";
     sha256_hexdigest := fun s => if String.eqb s image_text then "aaaa" else "ffff";
     gunzip_sha256_hexdigest := fun _ => inr "eeee";
     manifest_from_dict := fun _ => inr image_manifest;
     manifest_list_from_dict := fun _ => inr index;
     manifest_as_dict := fun _ => JObj [("config", JObj [("digest", JStr "sha256:c0")])];
     manifest_list_as_dict := fun _ => JObj [] |}.

Definition json_header : option string := Some "application/json".

(** A registry of today: an index under a tag, its image under the digest. *)
Definition modern_registry (ref : string) : option Response :=
  if String.eqb ref "registry.example/app:1.0" then Some (mkResponse index_text json_header)
  else if String.eqb ref "registry.example/app@sha256:aaaa"
       then Some (mkResponse image_text json_header)
       else None.

(** A registry with a legacy image, and one with a manifest of a schema the
    code does not know. *)
Definition legacy_registry (ref : string) : option Response :=
  if String.eqb ref "registry.example/old:1.0" then Some (mkResponse legacy_text json_header)
  else None.

Definition future_registry (ref : string) : option Response :=
  if String.eqb ref "registry.example/new:1.0" then Some (mkResponse future_text json_header)
  else None.

Definition modern_env : Env := make_env modern_registry false.
Definition mirrored_env : Env := make_env modern_registry true.
Definition legacy_env : Env := make_env legacy_registry true.
Definition future_env : Env := make_env future_registry false.

(** The suffixes of [s] that follow an [@]. *)
Fixpoint at_suffixes (s : string) : list string :=
  match s with
  | EmptyString => []
  | String c rest => (if Ascii.eqb c "@" then [rest] else []) ++ at_suffixes rest
  end.

End OciScenario.

(** ** cnudie/retrieve.py: the caches' write-backs *)
Module RetrieveCaches.
Import Py Eff Retrieve.

(** The check both [writeback] functions (of the in-memory cache and of the
    file-system cache) start with: a descriptor that does not tell the
    repository context it lives in is refused with [ValueError].  What
    happens to an accepted descriptor is up to [store]. *)
Definition cache_writeback (writeback_id : nat)
    (store : list Event -> ComponentIdentity -> ComponentDescriptor -> Exception + unit)
  : WriteBack :=
  mkWriteBack writeback_id
    (fun h component_id component_descriptor =>
       match current_repository_ctx component_descriptor with
       | Some _ => store h component_id component_descriptor
       | None => inl (raise_ ValueError "None")
       end).

End RetrieveCaches.

(** ** A lookup that finds a descriptor the caches refuse *)
Module CacheScenario.
Import Py Eff Retrieve RetrieveCaches.

Definition memory_writeback : WriteBack := cache_writeback 0 (fun _ _ _ => inr tt).
Definition filesystem_writeback : WriteBack := cache_writeback 1 (fun _ _ _ => inr tt).

(** The descriptor the registry has carries no repository context. *)
Definition homeless : ComponentDescriptor :=
  mkComponentDescriptor LookupScenario.component_id None.

Definition lookups : list Lookup :=
  [fun _ _ _ => inr (WriteBackResult memory_writeback);
   fun _ _ _ => inr (WriteBackResult filesystem_writeback);
   fun _ _ _ => inr NoneResult;
   fun _ _ _ => inr (Found homeless)].

(** Nobody has the component. *)
Definition empty_lookups : list Lookup :=
  [fun _ _ _ => inr (WriteBackResult memory_writeback);
   fun _ _ _ => inr (WriteBackResult filesystem_writeback);
   fun _ _ _ => inr NoneResult;
   fun _ _ _ => inl (raise_ OciImageNotFoundException "not found")].

End CacheScenario.

(** ** cnudie/retrieve.py: [components], the closure of a component *)
Module Components.
Import Py Eff.

(** The (name, version) pairs the function keeps in
    [_visited_component_versions]. *)
Definition CRef : Type := (string * string)%type.

(** Modelled from the spec: [Component] and [ComponentReference] are declared
    in [gci.componentmodel], which is not part of the sources.  A component
    has a name, a version, the references to other components and the
    repository context it currently lives in, if any; a reference names a
    component and a version. *)
Record ComponentReference : Type := mkComponentReference {
  componentName : string;
  ref_version : string;
}.

Record Component : Type := mkComponent {
  name : string;
  version : string;
  componentReferences : list ComponentReference;
  current_repository_ctx : option string;
}.

#[global] Instance ComponentReference_eq_dec : EqDecision ComponentReference.
Proof. solve_decision. Defined.
#[global] Instance Component_eq_dec : EqDecision Component.
Proof. solve_decision. Defined.

(** The generator hands out a component ([yield]) and calls the lookup; both
    are logged in the order they happen when the generator is consumed to
    its end. *)
Inductive Event : Type :=
| Yield (component : Component)
| LookupCalled (component_id : CRef) (ctx_repo : option string).

#[global] Instance Event_eq_dec : EqDecision Event.
Proof. solve_decision. Defined.

Abbreviation M := (Eff.M Event).

(** [component_descriptor_lookup]: answers with the component of a
    descriptor, with [None], or raises. *)
Definition Lookup : Type :=
  list Event -> CRef -> option string -> Exception + option Component.

Definition yield (component : Component) : M unit :=
  call (Yield component) (fun _ => inr tt).

(** The loop over [component.componentReferences] in
    [resolve_component_dependencies]; [recurse] is the function itself, and
    the list [_visited_component_versions] is passed along. *)
Fixpoint resolve_references (recurse : Component -> list CRef -> M (list CRef))
    (component_descriptor_lookup : Lookup) (component : Component)
    (references : list ComponentReference) (_visited_component_versions : list CRef)
  : M (list CRef) :=
  match references with
  | [] => ret _visited_component_versions
  | component_ref :: rest =>
      let cref := (componentName component_ref, ref_version component_ref) in
      if bool_decide (cref ∈ _visited_component_versions)
      then resolve_references recurse component_descriptor_lookup component rest
             _visited_component_versions
      else
        let _visited_component_versions := _visited_component_versions ++ [cref] in
        resolved_component_descriptor <-
          call (LookupCalled cref (current_repository_ctx component))
               (fun h => component_descriptor_lookup h cref (current_repository_ctx component)) ;;
        match resolved_component_descriptor with
        | None =>
            raise (raise_ AttributeError "'NoneType' object has no attribute 'component'")
        | Some resolved =>
            _visited_component_versions <- recurse resolved _visited_component_versions ;;
            resolve_references recurse component_descriptor_lookup component rest
              _visited_component_versions
        end
  end.

(** [resolve_component_dependencies(component)]; [depth] is the room left on
    the interpreter's stack. *)
Fixpoint resolve_component_dependencies (depth : nat) (component_descriptor_lookup : Lookup)
    (component : Component) (_visited_component_versions : list CRef) : M (list CRef) :=
  match depth with
  | O => raise (raise_ RecursionError "maximum recursion depth exceeded")
  | S depth' =>
      yield component ;;;
      resolve_references (resolve_component_dependencies depth' component_descriptor_lookup)
        component_descriptor_lookup component (componentReferences component)
        _visited_component_versions
  end.

(** [components(component, component_descriptor_lookup)], consumed to its
    end, for a lookup that is given. *)
Definition components (depth : nat) (component : Component)
    (component_descriptor_lookup : Lookup) : M unit :=
  let _visited_component_versions := [(name component, version component)] in
  resolve_component_dependencies depth component_descriptor_lookup component
    _visited_component_versions ;;;
  ret tt.

(** The component versions looked up, in order. *)
Definition looked_up (trace : list Event) : list CRef :=
  omap (fun ev => match ev with LookupCalled component_id _ => Some component_id | _ => None end)
       trace.

(** The component versions handed out, in order. *)
Definition yielded (trace : list Event) : list CRef :=
  omap (fun ev => match ev with Yield c => Some (name c, version c) | _ => None end) trace.

(** The lookup answers with the component version it was asked for. *)
Definition answers_what_is_asked (component_descriptor_lookup : Lookup) : Prop :=
  forall h component_id ctx_repo c,
    component_descriptor_lookup h component_id ctx_repo = inr (Some c) ->
    (name c, version c) = component_id.

(** What a part [m] of the traversal keeps: it looks up only versions that
    are not visited yet, each once; it returns the visited versions with
    the looked-up ones appended; and, if the lookup answers with what it is
    asked for, it hands out only [own] and versions it has looked up. *)
Definition traverses (component_descriptor_lookup : Lookup) (own : list CRef)
    (m : list CRef -> M (list CRef)) : Prop :=
  forall visited h, exists t,
    snd (m visited h) = h ++ t /\
    (NoDup visited -> NoDup (visited ++ looked_up t)) /\
    (forall visited', fst (m visited h) = inr visited' -> visited' = visited ++ looked_up t) /\
    (answers_what_is_asked component_descriptor_lookup ->
     sublist (yielded t) (own ++ looked_up t)).

End Components.

(** ** A component graph with a cycle and a diamond *)
Module ComponentsScenario.
Import Py Eff Components.

Definition ref (n v : string) : ComponentReference := mkComponentReference n v.

Definition repo : option string := Some "europe-docker.pkg.dev/example".

Definition root : Component :=
  mkComponent "example.org/root" "1.0.0" [ref "example.org/left" "1.0.0"; ref "example.org/right" "2.0.0"] repo.
Definition left : Component :=
  mkComponent "example.org/left" "1.0.0" [ref "example.org/base" "0.1.0"; ref "example.org/root" "1.0.0"] repo.
Definition right : Component :=
  mkComponent "example.org/right" "2.0.0" [ref "example.org/base" "0.1.0"; ref "example.org/left" "1.0.0"] repo.
Definition base : Component :=
  mkComponent "example.org/base" "0.1.0" [] repo.

Definition registry : Lookup :=
  fun _ component_id _ =>
    match List.find (fun c => bool_decide ((name c, version c) = component_id))
                    [root; left; right; base] with
    | Some c => inr (Some c)
    | None => inl (raise_ OciImageNotFoundException "not found")
    end.

End ComponentsScenario.

(** ** cnudie/retrieve.py: the versions of a component *)
Module Versions.
Import Py Eff Retrieve.

(** The one call made: [oci_client.tags] for the component's repository. *)
Inductive Event : Type :=
| Tags (ctx_repo : CtxRepo) (component_name : string).

#[global] Instance Event_eq_dec : EqDecision Event.
Proof. solve_decision. Defined.

Abbreviation M := (Eff.M Event).

(** [oci_client.tags] *)
Definition OciClient : Type := list Event -> CtxRepo -> string -> Exception + list string.

(** [l.index(x)] *)
Fixpoint index (x : string) (l : list string) : Exception + nat :=
  match l with
  | [] => inl (raise_ ValueError "x is not in list")
  | y :: rest =>
      if decide (y = x) then inr O
      else match index x rest with
           | inl e => inl e
           | inr i => inr (S i)
           end
  end.

(** [l[start:]]: a negative [start] counts from the end, and both ends are
    clamped to the list. *)
Definition slice_from {A} (start : Z) (l : list A) : list A :=
  let len := Z.of_nat (length l) in
  let start := if start <? 0 then Z.max (start + len) 0 else Z.min start len in
  drop (Z.to_nat start) l.

Section Semver.

(** Modelled from the spec: [version.parse_to_semver] is declared in
    version.py, which is not part of the sources, and returns a version of
    the semver package.  The functions below are stated for any parser
    (which may raise), any comparison [<] of parsed versions, and any truth
    value of the [prerelease] and [build] attributes. *)
Context {Semver : Type}.
Variable parse_to_semver : string -> Exception + Semver.
Variable lt : Semver -> Semver -> bool.
Variable prerelease : Semver -> bool.
Variable build : Semver -> bool.

(** [[v for v in versions
      if not (pv := version.parse_to_semver(v)).prerelease and not pv.build]] *)
Fixpoint without_prereleases (versions : list string) : Exception + list string :=
  match versions with
  | [] => inr []
  | v :: rest =>
      match parse_to_semver v with
      | inl e => inl e
      | inr pv =>
          match without_prereleases rest with
          | inl e => inl e
          | inr kept => inr (if negb (prerelease pv) && negb (build pv) then v :: kept else kept)
          end
      end
  end.

(** The keys [sorted] computes first, one per element, in order. *)
Fixpoint keyed (versions : list string) : Exception + list (Semver * string) :=
  match versions with
  | [] => inr []
  | v :: rest =>
      match parse_to_semver v with
      | inl e => inl e
      | inr pv =>
          match keyed rest with
          | inl e => inl e
          | inr keys => inr ((pv, v) :: keys)
          end
      end
  end.

(** Insertion behind the elements that are not greater: elements that
    compare equal keep their order, as [sorted] guarantees. *)
Fixpoint insert_by_key (x : Semver * string) (l : list (Semver * string))
  : list (Semver * string) :=
  match l with
  | [] => [x]
  | y :: rest => if lt (fst x) (fst y) then x :: l else y :: insert_by_key x rest
  end.

(** [sorted(versions, key=version.parse_to_semver)] *)
Definition sorted_by_semver (versions : list string) : Exception + list string :=
  match keyed versions with
  | inl e => inl e
  | inr keys => inr (map snd (fold_left (fun acc x => insert_by_key x acc) keys []))
  end.

(** [component_versions(component_name, ctx_repo, oci_client)] *)
Definition component_versions (oci_client : OciClient) (component_name : string)
    (ctx_repo : CtxRepo) : M (list string) :=
  match ctx_repo with
  | OciRepositoryContext _ =>
      call (Tags ctx_repo component_name) (fun h => oci_client h ctx_repo component_name)
  | _ => raise (raise_ NotImplementedError "ctx_repo")
  end.

(** [greatest_component_versions(component_name, ctx_repo, max_versions,
    greatest_version, oci_client, ignore_prerelease_versions)] *)
Definition greatest_component_versions (oci_client : OciClient) (component_name : string)
    (ctx_repo : CtxRepo) (max_versions : Z) (greatest_version : option string)
    (ignore_prerelease_versions : bool) : M (list string) :=
  match ctx_repo with
  | OciRepositoryContext _ =>
      versions <- component_versions oci_client component_name ctx_repo ;;
      match versions with
      | [] => ret []
      | _ =>
          versions <- lift (if ignore_prerelease_versions
                            then without_prereleases versions
                            else inr versions) ;;
          versions <- lift (sorted_by_semver versions) ;;
          versions <-
            match greatest_version with
            | Some greatest =>
                if truthy greatest
                then i <- lift (index greatest versions) ;;
                     ret (take (S i) versions)
                else ret versions
            | None => ret versions
            end ;;
          ret (slice_from (- max_versions) versions)
      end
  | _ => raise (raise_ NotImplementedError "ctx_repo")
  end.

End Semver.

End Versions.

(** ** The versions of a component in a registry *)
Module VersionsScenario.
Import Py Eff Retrieve Versions.

(** A small stand-in for semantic versions: a version parses to itself,
    the length of the string orders the versions, a hyphen marks a
    prerelease and a plus sign build metadata. *)
Definition parse (v : string) : Exception + string :=
  if truthy v then inr v else inl (raise_ ValueError "not a version").

Definition shorter (v w : string) : bool := (String.length v <? String.length w)%nat.

Definition has (c : ascii) (v : string) : bool :=
  bool_decide (c ∈ list_ascii_of_string v).

Definition ctx_repo : CtxRepo := OciRepositoryContext "europe-docker.pkg.dev/example".

Definition tags : list string := ["1.10.0"; "1.2.0"; "1.10.0-dev"; "1.9.0"].

Definition oci_client : OciClient := fun _ _ _ => inr tags.

End VersionsScenario.

(** ** cnudie/iter.py *)
Module Iter.
Import Py Eff.

(** [ocm.ComponentIdentity]: (name, version). *)
Definition ComponentIdentity : Type := (string * string)%type.

(** [class NodeReferenceType(enum.StrEnum)] *)
Inductive NodeReferenceType : Type :=
| COMPONENT_REFERENCE
| EXTRA_COMPONENT_REFS_LABEL.

(** Modelled from the spec: [Component], [Resource], [Source] and the label
    of extra component references are declared in the [ocm] package, which
    is not part of the sources.  Resources and sources are told apart by a
    name.  An entry of the label's value is a dict that is read at
    [['component_reference']['name']] and
    [['component_reference']['version']]; each of the keys may be missing. *)
Definition Resource : Type := string.
Definition Source : Type := string.
Definition ExtraComponentReference : Type := option (option string * option string).

Record Component : Type := mkComponent {
  name : string;
  version : string;
  resources : list Resource;
  sources : list Source;
  componentReferences : list Components.ComponentReference;
  extra_component_references_label : option (list ExtraComponentReference);
}.

(** [component.identity()] *)
Definition identity (component : Component) : ComponentIdentity :=
  (name component, version component).

(** [class NodePathEntry] *)
Record NodePathEntry : Type := mkNodePathEntry {
  component : Component;
  reftype : NodeReferenceType;
}.

(** [class ComponentNode], [class ResourceNode], [class SourceNode] *)
Inductive Node : Type :=
| ComponentNode (path : list NodePathEntry)
| ResourceNode (path : list NodePathEntry) (resource : Resource)
| SourceNode (path : list NodePathEntry) (source : Source).

Definition path (node : Node) : list NodePathEntry :=
  match node with
  | ComponentNode path | ResourceNode path _ | SourceNode path _ => path
  end.

#[global] Instance NodeReferenceType_eq_dec : EqDecision NodeReferenceType.
Proof. solve_decision. Defined.
#[global] Instance Component_eq_dec : EqDecision Component.
Proof. solve_decision. Defined.
#[global] Instance NodePathEntry_eq_dec : EqDecision NodePathEntry.
Proof. solve_decision. Defined.
#[global] Instance Node_eq_dec : EqDecision Node.
Proof. solve_decision. Defined.

(** [class Filter] *)
Module Filter.
Definition components (node : Node) : bool :=
  match node with ComponentNode _ => true | _ => false end.
Definition artefacts (node : Node) : bool :=
  match node with ResourceNode _ _ | SourceNode _ _ => true | _ => false end.
Definition resources (node : Node) : bool :=
  match node with ResourceNode _ _ => true | _ => false end.
Definition sources (node : Node) : bool :=
  match node with SourceNode _ _ => true | _ => false end.
End Filter.

(** What happens when the generator is consumed to its end: it hands out
    nodes and calls the lookup ([ocm_repo] is absent when the lookup is
    called without it). *)
Inductive Event : Type :=
| Yield (node : Node)
| LookupCalled (component_id : ComponentIdentity) (ocm_repo : option string).

#[global] Instance Event_eq_dec : EqDecision Event.
Proof. solve_decision. Defined.

Abbreviation M := (Eff.M Event).

(** A lookup answers with the component of a descriptor, with [None], or
    raises. *)
Definition Lookup : Type :=
  list Event -> ComponentIdentity -> option string -> Exception + option Component.

(** The arguments of [iter] that stay the same during the iteration;
    filters are predicates. *)
Record Args : Type := mkArgs {
  lookup : option Lookup;
  prune_unique : bool;
  node_filter : option (Node -> bool);
  ocm_repo : option string;
  component_filter : option (Component -> bool);
  reftype_filter : option (NodeReferenceType -> bool);
}.

(** The body of the loop [for node in inner_iter(...)] of [iter]: what
    becomes of a node that [inner_iter] hands out. *)
Definition emit (args : Args) (node : Node) (seen_component_ids : gset ComponentIdentity)
  : M (gset ComponentIdentity) :=
  if match node_filter args with
     | Some accepts => negb (accepts node)
     | None => false
     end
  then ret seen_component_ids
  else
    match node with
    | ComponentNode node_path =>
        if prune_unique args
        then
          match last node_path with
          | None =>
              (* [self.path[-1]]: an IndexError, of which the base class is modelled *)
              raise (raise_ LookupError "tuple index out of range")
          | Some entry =>
              if bool_decide (identity (component entry) ∈ seen_component_ids)
              then ret seen_component_ids
              else
                call (Yield node) (fun _ => inr tt) ;;;
                ret (seen_component_ids ∪ {[identity (component entry)]})
          end
        else call (Yield node) (fun _ => inr tt) ;;; ret seen_component_ids
    | _ => call (Yield node) (fun _ => inr tt) ;;; ret seen_component_ids
    end.

(** [for x in xs: yield node(x)] *)
Fixpoint emit_all {A} (args : Args) (node : A -> Node) (xs : list A)
    (seen_component_ids : gset ComponentIdentity) : M (gset ComponentIdentity) :=
  match xs with
  | [] => ret seen_component_ids
  | x :: rest =>
      seen_component_ids <- emit args (node x) seen_component_ids ;;
      emit_all args node rest seen_component_ids
  end.

(** [lookup(cref_id, ocm_repo)] or [lookup(cref_id)], and the [.component]
    of the answer. *)
Definition referenced_component (args : Args) (cref_id : ComponentIdentity) : M Component :=
  match lookup args with
  | None => raise (raise_ TypeError "'NoneType' object is not callable")
  | Some lookup =>
      let repo := match ocm_repo args with
                  | Some repo => if truthy repo then Some repo else None
                  | None => None
                  end in
      referenced_component_descriptor <-
        call (LookupCalled cref_id repo) (fun h => lookup h cref_id repo) ;;
      match referenced_component_descriptor with
      | None => raise (raise_ AttributeError "'NoneType' object has no attribute 'component'")
      | Some component => ret component
      end
  end.

(** The loop over [component.componentReferences] in [inner_iter];
    [recurse] is [inner_iter] itself for the path and depth reached. *)
Fixpoint resolve_references (args : Args)
    (recurse : Component -> NodeReferenceType -> gset ComponentIdentity -> M (gset ComponentIdentity))
    (references : list Components.ComponentReference)
    (seen_component_ids : gset ComponentIdentity) : M (gset ComponentIdentity) :=
  match references with
  | [] => ret seen_component_ids
  | cref :: rest =>
      let cref_id := (Components.componentName cref, Components.ref_version cref) in
      referenced <- referenced_component args cref_id ;;
      seen_component_ids <- recurse referenced COMPONENT_REFERENCE seen_component_ids ;;
      resolve_references args recurse rest seen_component_ids
  end.

(** [extra_cref['component_reference']['name']] and [...['version']] *)
Definition extra_cref_id (extra_cref : ExtraComponentReference) : Exception + ComponentIdentity :=
  match extra_cref with
  | None => inl (raise_ KeyError "component_reference")
  | Some (None, _) => inl (raise_ KeyError "name")
  | Some (Some _, None) => inl (raise_ KeyError "version")
  | Some (Some component_name, Some component_version) =>
      inr (component_name, component_version)
  end.

(** The loop over [extra_crefs_label.value] in [inner_iter]. *)
Fixpoint resolve_extra_references (args : Args)
    (recurse : Component -> NodeReferenceType -> gset ComponentIdentity -> M (gset ComponentIdentity))
    (extra_crefs : list ExtraComponentReference)
    (seen_component_ids : gset ComponentIdentity) : M (gset ComponentIdentity) :=
  match extra_crefs with
  | [] => ret seen_component_ids
  | extra_cref :: rest =>
      cref_id <- lift (extra_cref_id extra_cref) ;;
      referenced <- referenced_component args cref_id ;;
      seen_component_ids <- recurse referenced EXTRA_COMPONENT_REFS_LABEL seen_component_ids ;;
      resolve_extra_references args recurse rest seen_component_ids
  end.

(** [inner_iter(component, lookup, recursion_depth, path, reftype)], with
    the body of the consuming loop ([emit]) at each [yield]; [depth] is the
    room left on the interpreter's stack. *)
Fixpoint inner_iter (depth : nat) (args : Args) (recursion_depth : Z)
    (node_path : list NodePathEntry) (component : Component) (reftype : NodeReferenceType)
    (seen_component_ids : gset ComponentIdentity) : M (gset ComponentIdentity) :=
  match depth with
  | O => raise (raise_ RecursionError "maximum recursion depth exceeded")
  | S depth' =>
      if match component_filter args with
         | Some excluded => excluded component
         | None => false
         end
      then ret seen_component_ids
      else if match reftype_filter args with
              | Some excluded => excluded reftype
              | None => false
              end
      then ret seen_component_ids
      else
        let node_path := node_path ++ [mkNodePathEntry component reftype] in
        seen_component_ids <- emit args (ComponentNode node_path) seen_component_ids ;;
        seen_component_ids <-
          emit_all args (ResourceNode node_path) (resources component) seen_component_ids ;;
        seen_component_ids <-
          emit_all args (SourceNode node_path) (sources component) seen_component_ids ;;
        if (recursion_depth =? 0)%Z then ret seen_component_ids
        else
          let recursion_depth :=
            if (recursion_depth >? 0)%Z then (recursion_depth - 1)%Z else recursion_depth in
          let recurse := inner_iter depth' args recursion_depth node_path in
          seen_component_ids <-
            resolve_references args recurse (componentReferences component) seen_component_ids ;;
          match extra_component_references_label component with
          | None => ret seen_component_ids
          | Some extra_crefs =>
              resolve_extra_references args recurse extra_crefs seen_component_ids
          end
  end.

(** [iter(component, lookup, recursion_depth, prune_unique, node_filter,
    ocm_repo, component_filter, reftype_filter)], consumed to its end. *)
Definition iter (depth : nat) (component : Component) (recursion_depth : Z) (args : Args)
  : M unit :=
  let seen_component_ids : gset ComponentIdentity := ∅ in
  match lookup args with
  | None =>
      if negb (recursion_depth =? 0)%Z
      then raise (raise_ ValueError
                    "lookup is required if recusion is not disabled (recursion_depth==0)")
      else inner_iter depth args recursion_depth [] component COMPONENT_REFERENCE
             seen_component_ids ;;; ret tt
  | Some _ =>
      inner_iter depth args recursion_depth [] component COMPONENT_REFERENCE
        seen_component_ids ;;; ret tt
  end.

(** [iter_resources]: [iter] with the node filter preset. *)
Definition iter_resources (depth : nat) (component : Component) (recursion_depth : Z)
    (lookup : option Lookup) (prune_unique : bool)
    (component_filter : option (Component -> bool))
    (reftype_filter : option (NodeReferenceType -> bool)) : M unit :=
  iter depth component recursion_depth
    (mkArgs lookup prune_unique (Some Filter.resources) None component_filter reftype_filter).

(** The nodes handed out, in order. *)
Definition yielded (trace : list Event) : list Node :=
  omap (fun ev => match ev with Yield node => Some node | _ => None end) trace.

(** The component versions looked up, in order. *)
Definition looked_up (trace : list Event) : list ComponentIdentity :=
  omap (fun ev => match ev with LookupCalled component_id _ => Some component_id | _ => None end)
       trace.

(** The identities of the components handed out as [ComponentNode]s. *)
Definition component_ids (nodes : list Node) : list ComponentIdentity :=
  omap (fun node => match node with
                    | ComponentNode node_path => identity <$> (component <$> last node_path)
                    | _ => None
                    end) nodes.

(** The resource and source nodes among [nodes]. *)
Definition artefact_nodes (nodes : list Node) : list Node :=
  List.filter Filter.artefacts nodes.

(** A node lies at most [recursion_depth] references below the [level]
    components the iteration starts under, and a lookup needs a
    [recursion_depth] that is not used up. *)
Definition within (level : nat) (recursion_depth : Z) (ev : Event) : Prop :=
  match ev with
  | Yield node => (Z.of_nat (length (path node)) <= Z.of_nat level + 1 + recursion_depth)%Z
  | LookupCalled _ _ => (0 < recursion_depth)%Z
  end.

(** What a part [m] of the iteration keeps when [prune_unique] is set: the
    component nodes it hands out are of pairwise different component
    versions, none of which was seen before, and all of which are seen
    afterwards. *)
Definition prunes (m : gset ComponentIdentity -> M (gset ComponentIdentity)) : Prop :=
  forall seen h, exists t,
    snd (m seen h) = h ++ t /\
    NoDup (component_ids (yielded t)) /\
    (forall id, id ∈ component_ids (yielded t) -> id ∉ seen) /\
    (forall seen', fst (m seen h) = inr seen' ->
                   seen ⊆ seen' /\ forall id, id ∈ component_ids (yielded t) -> id ∈ seen').

(** Two runs end alike (both return, or both raise the same exception),
    make the same lookups and hand out the same resource and source
    nodes. *)
Definition alike {A B} (run1 : (Exception + A) * list Event) (h1 : list Event)
    (run2 : (Exception + B) * list Event) (h2 : list Event) : Prop :=
  exists t1 t2,
    snd run1 = h1 ++ t1 /\ snd run2 = h2 ++ t2 /\
    looked_up t1 = looked_up t2 /\
    artefact_nodes (yielded t1) = artefact_nodes (yielded t2) /\
    match fst run1, fst run2 with
    | inl e1, inl e2 => e1 = e2
    | inr _, inr _ => True
    | _, _ => False
    end.

(** The lookup's answers do not depend on what happened before. *)
Definition stateless (lookup : option Lookup) : Prop :=
  forall f, lookup = Some f -> forall h h' component_id repo,
    f h component_id repo = f h' component_id repo.

(** [args] with another [prune_unique]. *)
Definition with_prune_unique (prune_unique : bool) (args : Args) : Args :=
  mkArgs (lookup args) prune_unique (node_filter args) (ocm_repo args)
         (component_filter args) (reftype_filter args).

(** Two parts of an iteration that run alike, whatever was seen and
    whatever happened before. *)
Definition twins (m1 m2 : gset ComponentIdentity -> M (gset ComponentIdentity)) : Prop :=
  forall seen1 seen2 h1 h2, alike (m1 seen1 h1) h1 (m2 seen2 h2) h2.

End Iter.

(** ** A component graph with a shared dependency *)
Module IterScenario.
Import Py Eff Iter.

Definition ref (n v : string) : Components.ComponentReference :=
  Components.mkComponentReference n v.

Definition base : Component :=
  mkComponent "example.org/base" "0.1.0" ["base-image"] ["base-repository"] [] None.
Definition left : Component :=
  mkComponent "example.org/left" "1.0.0" ["left-image"] [] [ref "example.org/base" "0.1.0"] None.
Definition right : Component :=
  mkComponent "example.org/right" "2.0.0" [] [] [ref "example.org/base" "0.1.0"]
    (Some [Some (Some "example.org/left", Some "1.0.0")]).
Definition root : Component :=
  mkComponent "example.org/root" "1.0.0" ["root-image"] ["root-repository"]
    [ref "example.org/left" "1.0.0"; ref "example.org/right" "2.0.0"] None.

Definition registry : Lookup :=
  fun _ component_id _ =>
    match List.find (fun c => bool_decide (identity c = component_id)) [root; left; right; base] with
    | Some c => inr (Some c)
    | None => inl (raise_ OciImageNotFoundException "not found")
    end.

Definition args : Args := mkArgs (Some registry) true None None None None.

End IterScenario.

(** ** Views on the traces of [set_pr_labels] *)
Module LabelViews.
Import Py Eff PullRequest.

(** The questions about the sender's memberships. *)
Definition asks_membership (ev : Event) : Prop :=
  match ev with
  | IsTeamMember _ _ | IsOrgMember _ _ => True
  | _ => False
  end.

(** The calls that change the pull request. *)
Definition changes_pull_request (ev : Event) : bool :=
  match ev with
  | AddLabelsToPullRequest _ _ | AddCommentToPr _ _ => true
  | _ => false
  end.

End LabelViews.

(** ** github/util.py: the titles of upgrade pull requests *)
Module PrTitle.
Import Py.

(** Titles are read character by character: a [str] is a list of
    characters here. *)
Definition str : Type := list ascii.

Definition lit (s : string) : str := list_ascii_of_string s.

Definition newline : ascii := Ascii.ascii_of_nat 10.

(** Modelled from the spec: a [DependencyBase] ([product.model], not part
    of the sources) has a type name, a name and a version. *)
Record Reference : Type := mkReference {
  type_name : str;
  name : str;
  version : str;
}.

(** [PullRequestUtil.calculate_pr_title] *)
Definition calculate_pr_title (reference : Reference) (from_version to_version : str) : str :=
  lit "[ci:" ++ type_name reference ++ lit ":" ++ name reference ++ lit ":" ++ from_version
    ++ lit "->" ++ to_version ++ lit "]".

(** *** [PR_TITLE_PATTERN], matched as [re] does *)

(** A literal piece of the pattern: what is left of [s] behind it. *)
Fixpoint literal (piece s : str) : option str :=
  match piece with
  | [] => Some s
  | c :: piece' =>
      match s with
      | d :: s' => if Ascii.eqb c d then literal piece' s' else None
      | [] => None
      end
  end.

(** A group (dot star in parentheses: any characters, as many as possible)
    followed by the rest of the pattern: the longest run of
    characters other than a newline is tried first, and given back
    character by character as long as the rest of the pattern does not
    match. *)
Fixpoint greedy {A} (rest : str -> option A) (s : str) : option (str * A) :=
  match s with
  | c :: s' =>
      if Ascii.eqb c newline then pair [] <$> rest s
      else match greedy rest s' with
           | Some (text, a) => Some (c :: text, a)
           | None => pair [] <$> rest s
           end
  | [] => pair [] <$> rest s
  end.

(** The end of the string. *)
Definition at_end (s : str) : option unit :=
  match s with
  | [] => Some tt
  | _ :: _ => None
  end.

(** What follows the third group, the second, the first. *)
Definition after_from_version (s : str) : option (str * unit) :=
  s ← literal (lit "->") s; greedy (fun s => s ← literal (lit "]") s; at_end s) s.

Definition after_name (s : str) : option (str * (str * unit)) :=
  s ← literal (lit ":") s; greedy after_from_version s.

Definition after_type_name (s : str) : option (str * (str * (str * unit))) :=
  s ← literal (lit ":") s; greedy after_name s.

(** [PR_TITLE_PATTERN.fullmatch(title)]: the pattern is an opening bracket
    and [ci:], then four such groups with a colon, a colon and an arrow
    [->] between them, and a closing bracket at the end of the title.  The
    result holds the four groups. *)
Definition PR_TITLE_PATTERN_fullmatch (title : str) : option (str * str * str * str) :=
  s ← literal (lit "[ci:") title;
  '(group1, (group2, (group3, (group4, _)))) ← greedy after_type_name s;
  Some (group1, group2, group3, group4).

(** [PullRequestUtil._has_upgrade_pr_title] *)
Definition _has_upgrade_pr_title (title : str) : bool :=
  bool_decide (is_Some (PR_TITLE_PATTERN_fullmatch title)).

(** [class UpgradePullRequest]; the pull request is told by its title. *)
Record UpgradePullRequest : Type := mkUpgradePullRequest {
  pull_request : str;
  ref_name : str;
  from_ref : Reference;
  to_ref : Reference;
  reference_type_name : str;
}.

(** [UpgradePullRequest.__init__] *)
Definition UpgradePullRequest_init (pull_request : str) (from_ref to_ref : Reference)
  : Exception + UpgradePullRequest :=
  if bool_decide (name from_ref <> name to_ref)
  then inl (raise_ ValueError "reference names do not match")
  else if bool_decide (type_name from_ref <> type_name to_ref)
  then inl (raise_ ValueError "reference type names do not match")
  else inr (mkUpgradePullRequest pull_request (name from_ref) from_ref to_ref
              (type_name from_ref)).

(** [UpgradePullRequest.target_matches] *)
Definition target_matches (self : UpgradePullRequest) (reference : Reference) : bool :=
  if bool_decide (type_name reference <> reference_type_name self) then false
  else if bool_decide (name reference <> ref_name self) then false
  else if bool_decide (version reference <> version (to_ref self)) then false
  else true.

Section ReferenceTypes.

(** Modelled from the spec: [product.model.reference_type] is not part of
    the sources; it answers with the reference type of a name, or raises.
    A reference created by a reference type carries that type's name. *)
Variable reference_type : str -> Exception + str.

(** [PullRequestUtil._parse_pr_title] *)
Definition _parse_pr_title (title : str) : Exception + UpgradePullRequest :=
  match PR_TITLE_PATTERN_fullmatch title with
  | None => inl (raise_ ValueError "PR-title did not match title-schema")
  | Some (group1, group2, group3, group4) =>
      let reference_type_name :=
        match group1 with
        | [] => lit "component"   (* backwards compatibility hack *)
        | _ => group1
        end in
      match reference_type reference_type_name with
      | inl e => inl e
      | inr type =>
          let ref_name := group2 in
          let from_version := group3 in
          let to_version := group4 in
          let from_ref := mkReference type ref_name from_version in
          let to_ref := mkReference type ref_name to_version in
          UpgradePullRequest_init title from_ref to_ref
      end
  end.

End ReferenceTypes.

(** [piece] occurs in [s]. *)
Definition occurs (piece s : str) : Prop := exists before behind, s = before ++ piece ++ behind.

(** The type name written into a title, as it is read back. *)
Definition read_type_name (written : str) : str :=
  match written with
  | [] => lit "component"
  | _ => written
  end.

End PrTitle.

(** ** Titles of upgrade pull requests *)
Module PrTitleScenario.
Import Py PrTitle.

Definition known_types : list str := [lit "component"; lit "container_image"].

Definition reference_type (type_name : str) : Exception + str :=
  if bool_decide (type_name ∈ known_types) then inr type_name
  else inl (raise_ ValueError "unknown reference type").

Definition etcd : Reference :=
  mkReference (lit "component") (lit "github.com/gardener/etcd-druid") (lit "0.22.0").

(** A name with a colon in it. *)
Definition registry_image : Reference :=
  mkReference (lit "container_image") (lit "registry.example.org:5000/etcd") (lit "3.4.13").

End PrTitleScenario.

(** * Properties *)

(** ** Facts about the effect monad *)
Module EffFacts.
Import Py Eff.

Lemma issubclass_Exception (c : ExcClass) : issubclass c Exception_ = true.
Proof. destruct c; reflexivity. Qed.

Lemma try_run {E A} (m : M E A) handler h :
  try_ m handler h = match m h with
                     | (inr a, h') => (inr a, h')
                     | (inl e, h') => handler e h'
                     end.
Proof.
  unfold try_, try_except. destruct (m h) as [[e | a] h']; [| reflexivity].
  rewrite issubclass_Exception. reflexivity.
Qed.

Lemma bind_run {E A B} (m : M E A) (k : A -> M E B) h :
  bind m k h = match m h with
               | (inr a, h') => k a h'
               | (inl e, h') => (inl e, h')
               end.
Proof. reflexivity. Qed.

Lemma call_run {E A} (ev : E) (answer : list E -> Exception + A) h :
  call ev answer h = (answer h, h ++ [ev]).
Proof. reflexivity. Qed.

Section Emits.
Context {E : Type} (P : E -> Prop).

Lemma emits_ret {A} (a : A) : emits P (ret a).
Proof. intros h. exists []. rewrite app_nil_r. split; [reflexivity | constructor]. Qed.

Lemma emits_raise {A} (e : Exception) : emits P (@raise E A e).
Proof. intros h. exists []. rewrite app_nil_r. split; [reflexivity | constructor]. Qed.

Lemma emits_lift {A} (r : Exception + A) : emits P (@lift E A r).
Proof. intros h. exists []. rewrite app_nil_r. split; [reflexivity | constructor]. Qed.

Lemma emits_ask {A} (f : list E -> A) : emits P (ask f).
Proof. intros h. exists []. rewrite app_nil_r. split; [reflexivity | constructor]. Qed.

Lemma emits_call {A} (ev : E) (answer : list E -> Exception + A) :
  P ev -> emits P (call ev answer).
Proof. intros Hev h. exists [ev]. split; [reflexivity | repeat constructor; assumption]. Qed.

Lemma emits_bind {A B} (m : M E A) (k : A -> M E B) :
  emits P m -> (forall a, emits P (k a)) -> emits P (bind m k).
Proof.
  intros Hm Hk h. unfold bind.
  destruct (Hm h) as [evs [Hsnd Hall]].
  destruct (m h) as [[e | a] h'] eqn:Hmh; simpl in Hsnd; subst h'.
  - exists evs. split; [reflexivity | assumption].
  - destruct (Hk a (h ++ evs)) as [evs' [Hsnd' Hall']].
    exists (evs ++ evs'). rewrite Hsnd', app_assoc. split; [reflexivity |].
    apply Forall_app; split; assumption.
Qed.

Lemma emits_try_except {A} (m : M E A) guard handler :
  emits P m -> (forall e, emits P (handler e)) -> emits P (try_except m guard handler).
Proof.
  intros Hm Hh h. unfold try_except.
  destruct (Hm h) as [evs [Hsnd Hall]].
  destruct (m h) as [[e | a] h'] eqn:Hmh; simpl in Hsnd; subst h'.
  - destruct (guard e).
    + destruct (Hh e (h ++ evs)) as [evs' [Hsnd' Hall']].
      exists (evs ++ evs'). rewrite Hsnd', app_assoc. split; [reflexivity |].
      apply Forall_app; split; assumption.
    + exists evs. split; [reflexivity | assumption].
  - exists evs. split; [reflexivity | assumption].
Qed.

Lemma emits_try {A} (m : M E A) handler :
  emits P m -> (forall e, emits P (handler e)) -> emits P (try_ m handler).
Proof. apply emits_try_except. Qed.

Lemma emits_when (b : bool) (m : M E unit) : emits P m -> emits P (when b m).
Proof. intros Hm. destruct b; [assumption | apply emits_ret]. Qed.

Lemma emits_for_each {A} (xs : list A) (body : A -> M E unit) :
  (forall x, emits P (body x)) -> emits P (for_each xs body).
Proof.
  intros Hbody. induction xs as [| x xs IH]; simpl.
  - apply emits_ret.
  - apply emits_bind; [apply Hbody | intros _; exact IH].
Qed.

End Emits.

Lemma emits_weaken {E A} (P Q : E -> Prop) (m : M E A) :
  (forall ev, P ev -> Q ev) -> emits P m -> emits Q m.
Proof.
  intros HPQ Hm h. destruct (Hm h) as [evs [Heq Hall]]. exists evs. split; [assumption |].
  eapply Forall_impl; eassumption.
Qed.

Lemma emits_trace {E A} (P : E -> Prop) (m : M E A) h r h' :
  emits P m -> m h = (r, h') -> exists evs, h' = h ++ evs /\ Forall P evs.
Proof. intros Hm Heq. destruct (Hm h) as [evs [Hsnd Hall]]. rewrite Heq in Hsnd. eauto. Qed.

Lemma for_each_returns {E A} (xs : list A) (body : A -> M E unit) h h' :
  (forall x, emits (fun _ => True) (body x)) ->
  for_each xs body h = (inr tt, h') ->
  forall x, In x xs ->
    exists pre evs post,
      body x (h ++ pre) = (inr tt, h ++ pre ++ evs) /\ h' = h ++ pre ++ evs ++ post.
Proof.
  intros Hbody. revert h h'.
  induction xs as [| y ys IH]; intros h h' Hrun x Hin; [destruct Hin |].
  cbn [for_each] in Hrun. rewrite bind_run in Hrun.
  destruct (Hbody y h) as [evs [Hevs _]].
  destruct (body y h) as [[e | []] h1] eqn:Hy; [discriminate Hrun |].
  cbn [snd] in Hevs. subst h1.
  destruct (emits_trace _ _ _ _ _ (emits_for_each (fun _ => True) ys body Hbody) Hrun)
    as [post [-> _]].
  destruct Hin as [<- | Hin].
  - exists [], evs, post. rewrite app_nil_r. cbn [app].
    split; [assumption | rewrite app_assoc; reflexivity].
  - destruct (IH _ _ Hrun x Hin) as [pre [evs' [post' [Hx Heq]]]].
    exists (evs ++ pre), evs', post'. rewrite <- !app_assoc in *. split; assumption.
Qed.

(** What a run that returned went through. *)
Lemma bind_returns {E A B} (m : M E A) (k : A -> M E B) h b h' :
  bind m k h = (inr b, h') ->
  exists a h1, m h = (inr a, h1) /\ k a h1 = (inr b, h').
Proof.
  rewrite bind_run. destruct (m h) as [[e | a] h1]; [discriminate |]. eauto.
Qed.

Lemma call_returns {E A} (ev : E) (answer : list E -> Exception + A) h a h' :
  call ev answer h = (inr a, h') -> answer h = inr a /\ h' = h ++ [ev].
Proof. rewrite call_run. intros [= -> <-]. split; reflexivity. Qed.

Lemma lift_returns {E A} (r : Exception + A) (h : list E) a h' :
  lift r h = (inr a, h') -> r = inr a /\ h' = h.
Proof. unfold lift. intros [= -> <-]. split; reflexivity. Qed.

Lemma ret_returns {E A} (x : A) (h : list E) a h' :
  ret x h = (inr a, h') -> a = x /\ h' = h.
Proof. unfold ret. intros [= <- <-]. split; reflexivity. Qed.

End EffFacts.

(** ** Facts about concourse/replicator.py *)
Module ReplicatorFacts.
Import Py Eff EffFacts Replicator.

Create HintDb emits discriminated.
#[local] Hint Resolve emits_ret emits_raise emits_lift emits_ask emits_bind emits_try
  emits_try_except emits_when emits_for_each : emits.

(** Closes [emits P m] goals by following the structure of [m]; calls are
    left to [tac]. *)
Ltac emits_step tac :=
  match goal with
  | |- emits _ (bind _ _) => apply emits_bind; [| intros ?]
  | |- emits _ (ret _) => apply emits_ret
  | |- emits _ (raise _) => apply emits_raise
  | |- emits _ (lift _) => apply emits_lift
  | |- emits _ (ask _) => apply emits_ask
  | |- emits _ (when _ _) => apply emits_when
  | |- emits _ (try_ _ _) => apply emits_try; [| intros ?]
  | |- emits _ (try_except _ _ _) => apply emits_try_except; [| intros ?]
  | |- emits _ (for_each _ _) => apply emits_for_each; intros ?
  | |- emits _ (call _ _) => apply emits_call; tac
  | |- emits _ (sleep _) => apply emits_call; tac
  | |- emits _ (match ?x with _ => _ end) => destruct x
  | |- emits _ (if ?x then _ else _) => destruct x
  | |- emits _ (let '(_, _) := ?x in _) => destruct x
  end.

Ltac emits_solve tac := repeat (emits_step tac).

Import ReplicationResultProcessor.

Lemma initialise_never_deletes env self api results :
  emits not_delete (_initialise_new_pipeline_resources env self api results).
Proof. unfold _initialise_new_pipeline_resources. emits_solve ltac:(reflexivity). Qed.

Lemma add_emails_never_deletes env ids :
  forall recipients,
  emits not_delete
    ((fix add_emails (ids : list string) (recipients : list string) : M (list string) :=
        match ids with
        | [] => ret recipients
        | user_id :: rest =>
            email <- call (GithubUser user_id) (fun h => github_user_email env h user_id) ;;
            match email with
            | Some address =>
                if truthy address then add_emails rest (dedupe (recipients ++ [address]))
                else add_emails rest recipients
            | None => add_emails rest recipients
            end
        end) ids recipients).
Proof.
  induction ids as [| user_id rest IH]; intros recipients.
  - apply emits_ret.
  - apply emits_bind; [apply emits_call; reflexivity |].
    intros [address |]; [destruct (truthy address) |]; apply IH.
Qed.

Lemma notify_owners_never_deletes env self failed_descriptor :
  emits not_delete (_notify_broken_definition_owners env self failed_descriptor).
Proof.
  unfold _notify_broken_definition_owners.
  destruct (split _ _) as [| owner [| name [| ? ?]]]; try apply emits_raise.
  apply emits_bind; [apply emits_call; reflexivity | intros _].
  apply emits_bind; [apply emits_call; reflexivity | intros codeowners].
  apply emits_bind.
  - destruct (dedupe codeowners); [| apply emits_ret].
    apply emits_bind; [apply emits_call; reflexivity | intros commit].
    apply add_emails_never_deletes.
  - intros [| ? ?]; [apply emits_ret | apply emits_call; reflexivity].
Qed.

Lemma notify_failed_never_deletes env self failed :
  forall ok, emits not_delete (notify_failed env self failed ok).
Proof.
  induction failed as [| d rest IH]; intros ok; simpl.
  - apply emits_ret.
  - destruct (negb _); [apply emits_raise |].
    apply emits_bind; [| intros ?; apply IH].
    apply emits_try; [| intros ?; apply emits_ret].
    apply emits_bind; [apply notify_owners_never_deletes | intros ?; apply emits_ret].
Qed.

Lemma failed_descriptors_nonempty results d :
  In d results -> has_flag (deploy_status d) DeployStatus.SUCCEEDED = false ->
  failed_descriptors results <> [].
Proof.
  intros Hin Hflag Hnil.
  assert (Hd : In d (failed_descriptors results)).
  { unfold failed_descriptors. apply filter_In. split; [assumption |]. rewrite Hflag. reflexivity. }
  rewrite Hnil in Hd. destruct Hd.
Qed.

Lemma process_results_never_deletes_after_failure env self results d :
  In d results -> has_flag (deploy_status d) DeployStatus.SUCCEEDED = false ->
  emits not_delete (process_results env self results).
Proof.
  intros Hin Hflag. unfold process_results.
  pose proof (failed_descriptors_nonempty results d Hin Hflag) as Hne.
  destruct (failed_descriptors results) as [| f fs] eqn:Hfailed; [congruence |].
  cbn [length Nat.ltb Nat.leb Nat.eqb].
  apply emits_bind.
  - apply emits_for_each. intros [key concourse_results].
    destruct concourse_results as [| first rest]; [apply emits_raise |].
    apply emits_bind; [apply emits_call; reflexivity | intros _].
    apply emits_bind; [cbn [remove_pipelines when]; apply emits_ret | intros _].
    apply emits_bind; [apply initialise_never_deletes | intros _].
    apply emits_when.
    apply emits_bind; [apply emits_call; reflexivity | intros ?; apply emits_call; reflexivity].
  - intros _. apply emits_bind; [apply notify_failed_never_deletes | intros ?; apply emits_ret].
Qed.

(** C1 (as amended).  When a replication run contains a result without the
    SUCCEEDED bit, be it FAILED or SKIPPED (a duplicate-name skip included),
    [process_results] deletes no pipeline from any backend. *)
Theorem process_results_cleanup_gating env self results d h r h' :
  In d results ->
  has_flag (deploy_status d) DeployStatus.SUCCEEDED = false ->
  process_results env self results h = (r, h') ->
  exists evs, h' = h ++ evs /\ forall t n, ~ In (DeletePipeline t n) evs.
Proof.
  intros Hin Hflag Hrun.
  destruct (emits_trace _ _ _ _ _
              (process_results_never_deletes_after_failure env self results d Hin Hflag) Hrun)
    as [evs [Heq Hall]].
  exists evs. split; [assumption |].
  intros t n Hdel. rewrite List.Forall_forall in Hall.
  specialize (Hall _ Hdel). discriminate Hall.
Qed.


(** *** [ConcourseDeployer.deploy] *)
Import ConcourseDeployer.

Lemma randrange_5_30 entropy : 5 <= randrange 5 30 entropy <= 29.
Proof. unfold randrange. pose proof (Z.mod_pos_bound entropy (30 - 5)). lia. Qed.

Lemma after_set_pipeline_quiet env self api dd response :
  emits not_set_nor_sleep (after_set_pipeline env self api dd response).
Proof.
  unfold after_set_pipeline, api_unpause_pipeline, api_expose_pipeline.
  emits_solve ltac:(split; reflexivity).
Qed.

Lemma filter_quiet rest :
  Forall not_set_nor_sleep rest ->
  List.filter is_set_pipeline rest = [] /\ List.filter is_sleep rest = [].
Proof.
  induction 1 as [| ev evs [Hs Hz] _ [IH1 IH2]]; [split; reflexivity |].
  cbn [List.filter]. rewrite Hs, Hz. split; assumption.
Qed.

Lemma set_pipeline_retrying_race env api name definition h e :
  set_pipeline env h api name definition = inl e ->
  issubclass (exc_type e) HTTPError = true ->
  exc_response e = Some (500, err_content) ->
  set_pipeline_retrying env api name definition h =
    (set_pipeline env
       (h ++ [SetPipeline api name definition;
              Sleep (randrange 5 30 (random_entropy env (h ++ [SetPipeline api name definition])))])
       api name definition,
     h ++ [SetPipeline api name definition;
           Sleep (randrange 5 30 (random_entropy env (h ++ [SetPipeline api name definition])));
           SetPipeline api name definition]).
Proof.
  intros Hset Hsub Hresp.
  unfold set_pipeline_retrying, try_except, api_set_pipeline, bind, ask, sleep, call.
  rewrite Hset, Hsub, Hresp. cbn [Z.eqb Pos.eqb andb]. rewrite String.eqb_refl.
  rewrite <- !app_assoc. reflexivity.
Qed.

Lemma set_pipeline_retrying_other env api name definition h e status content :
  set_pipeline env h api name definition = inl e ->
  issubclass (exc_type e) HTTPError = true ->
  exc_response e = Some (status, content) ->
  status <> 500 \/ content <> err_content ->
  set_pipeline_retrying env api name definition h = (inl e, h ++ [SetPipeline api name definition]).
Proof.
  intros Hset Hsub Hresp Hother.
  unfold set_pipeline_retrying, try_except, api_set_pipeline, bind, ask, sleep, call.
  rewrite Hset, Hsub, Hresp.
  destruct ((status =? 500) && String.eqb content err_content) eqn:Hmatch; [| reflexivity].
  apply andb_true_iff in Hmatch as [Hs Hc].
  apply Z.eqb_eq in Hs. apply String.eqb_eq in Hc. tauto.
Qed.

(** C7 (as amended).  When the first [set_pipeline] of a deploy fails with
    an HTTP error of status 500 and the exact body of the save race, the
    deployer sleeps a whole number of seconds between 5 and 29 (the draw is
    [randrange(5, 30)], whose upper bound is exclusive) and calls
    [set_pipeline] exactly once more; after any other HTTP error there is no
    sleep and no second call, and the deploy yields a FAILED result.  The
    descriptor is a rendered one: [deploy] reads its pipeline text before
    anything else. *)
Theorem deploy_retries_once_on_save_race env self dd definition h e status content :
  let api := concourse_target dd in
  let set := SetPipeline api (pipeline_name dd) (Some definition) in
  pipeline dd = Some definition ->
  client_from_cfg_name env h api = inr tt ->
  set_pipeline env (h ++ [ClientFromCfgName api]) api (pipeline_name dd) (Some definition) = inl e ->
  issubclass (exc_type e) HTTPError = true ->
  exc_response e = Some (status, content) ->
  (status = 500 /\ content = err_content ->
     exists seconds rest,
       5 <= seconds <= 29 /\
       snd (deploy env self dd h) = h ++ [ClientFromCfgName api; set; Sleep seconds; set] ++ rest /\
       List.filter is_set_pipeline rest = [] /\ List.filter is_sleep rest = [])
  /\ (status <> 500 \/ content <> err_content ->
      deploy env self dd h =
        (inr (mkDeployResult dd DeployStatus.FAILED (DetailsStr (format_exc env e))),
         h ++ [ClientFromCfgName api; set])).
Proof.
  intros api set Hrendered Hclient Hset Hsub Hresp. split.
  - intros [-> ->].
    unfold deploy. rewrite Hrendered, try_run. unfold deploy_body. fold api.
    rewrite bind_run, call_run, Hclient, bind_run.
    rewrite (set_pipeline_retrying_race _ _ _ _ _ _ Hset Hsub Hresp).
    set (seconds := randrange 5 30 _). fold set.
    exists seconds. rewrite <- !app_assoc. cbn [app].
    destruct (set_pipeline env (h ++ [_; _; _]) api (pipeline_name dd) (Some definition))
      as [e2 | response].
    + exists []. cbn [ret snd].
      repeat split; try reflexivity; apply randrange_5_30.
    + match goal with |- context [after_set_pipeline env self api dd response ?h2] =>
        destruct (after_set_pipeline_quiet env self api dd response h2) as [rest [Hrest Hquiet]];
        destruct (after_set_pipeline env self api dd response h2) as [[e3 | r] h3]
      end; cbn [snd] in Hrest; subst h3.
      all: exists rest; cbn [ret snd]; rewrite <- !app_assoc; cbn [app].
      all: split; [apply randrange_5_30 |]; split; [reflexivity |].
      all: apply filter_quiet; assumption.
  - intros Hother.
    unfold deploy. rewrite Hrendered, try_run. unfold deploy_body. fold api.
    rewrite bind_run, call_run, Hclient, bind_run.
    rewrite (set_pipeline_retrying_other _ _ _ _ _ _ _ _ Hset Hsub Hresp Hother).
    cbn [ret]. rewrite <- !app_assoc. reflexivity.
Qed.

(** The save race at a concrete backend, with the largest draw, and a 502
    that is not retried. *)
Lemma deploy_retries_once_on_save_race_witness :
  (exists seconds rest,
     5 <= seconds <= 29 /\
     snd (deploy (Scenario.failing_once_env Scenario.save_race 24)
            (ConcourseDeployer.mk true false false) Scenario.rendered_foo []) =
       [] ++ [ClientFromCfgName Scenario.backend;
              SetPipeline Scenario.backend "foo" (Some "jobs: []");
              Sleep seconds;
              SetPipeline Scenario.backend "foo" (Some "jobs: []")] ++ rest /\
     List.filter is_set_pipeline rest = [] /\ List.filter is_sleep rest = [])
  /\
  deploy (Scenario.failing_once_env Scenario.bad_gateway 24)
    (ConcourseDeployer.mk true false false) Scenario.rendered_foo [] =
    (inr (mkDeployResult Scenario.rendered_foo DeployStatus.FAILED
            (DetailsStr "502 Bad Gateway")),
     [] ++ [ClientFromCfgName Scenario.backend;
            SetPipeline Scenario.backend "foo" (Some "jobs: []")]).
Proof.
  split.
  - apply (deploy_retries_once_on_save_race (Scenario.failing_once_env Scenario.save_race 24)
             (ConcourseDeployer.mk true false false) Scenario.rendered_foo "jobs: []" []
             Scenario.save_race 500 err_content); try reflexivity.
    split; reflexivity.
  - apply (deploy_retries_once_on_save_race (Scenario.failing_once_env Scenario.bad_gateway 24)
             (ConcourseDeployer.mk true false false) Scenario.rendered_foo "jobs: []" []
             Scenario.bad_gateway 502 "bad gateway"); try reflexivity.
    left. discriminate.
Defined.

(** C7, counterexample.  At a backend whose first [set_pipeline] fails with
    the save race, no output of the random generator makes the deploy of a
    rendered descriptor sleep 30 seconds: the interval of the claim is not
    the one drawn from. *)
Lemma deploy_never_sleeps_30_seconds :
  ~ exists entropy,
      In (Sleep 30)
         (snd (deploy (Scenario.failing_once_env Scenario.save_race entropy)
                 (ConcourseDeployer.mk true false false) Scenario.rendered_foo [])).
Proof.
  intros [entropy Hin].
  pose proof (randrange_5_30 entropy) as Hrange.
  unfold deploy in Hin. cbn [pipeline Scenario.rendered_foo] in Hin.
  rewrite try_run in Hin. unfold deploy_body in Hin.
  rewrite bind_run, call_run in Hin. cbn [client_from_cfg_name Scenario.failing_once_env
    Scenario.make_env] in Hin.
  rewrite bind_run in Hin.
  rewrite (set_pipeline_retrying_race _ _ _ _ _ Scenario.save_race) in Hin; try reflexivity.
  cbn in Hin.
  repeat (destruct Hin as [Hin | Hin]; [try discriminate Hin |]); try contradiction.
  injection Hin as Hin. lia.
Qed.

(** *** Unpausing of new pipelines *)
Ltac run_goal :=
  repeat first
    [ rewrite bind_run
    | rewrite call_run
    | progress cbn [ret raise when lift ask]
    | match goal with
      | |- context [match ?x with inl _ => _ | inr _ => _ end] =>
          destruct x as [? | ?]
      end ].

Lemma set_pipeline_retrying_never_unpauses env api name definition :
  emits not_unpause (set_pipeline_retrying env api name definition).
Proof.
  unfold set_pipeline_retrying, api_set_pipeline.
  emits_solve ltac:(reflexivity).
Qed.

Lemma after_set_pipeline_returns env self api dd response h r h' :
  after_set_pipeline env self api dd response h = (inr r, h') ->
  deploy_status r = (if bool_decide (response = CREATED)
                     then Z.lor DeployStatus.SUCCEEDED DeployStatus.CREATED
                     else DeployStatus.SUCCEEDED) /\
  h' = h ++ (if unpause_pipelines self || unpause_new_pipelines self && bool_decide (response = CREATED)
             then [UnpausePipeline api (pipeline_name dd)] else [])
         ++ (if expose_pipelines self then [ExposePipeline api (pipeline_name dd)] else []).
Proof.
  unfold after_set_pipeline, api_unpause_pipeline, api_expose_pipeline.
  destruct (unpause_pipelines self), (unpause_new_pipelines self), response, (expose_pipelines self);
    rewrite ?(bool_decide_eq_true_2 _ eq_refl);
    rewrite ?bool_decide_eq_false_2 by discriminate;
    cbn [andb orb]; run_goal;
    intros Heq; try discriminate Heq; injection Heq as <- <-; cbn;
    rewrite <- ?app_assoc, ?app_nil_r; split; reflexivity.
Qed.

Lemma has_flag_failed_created : has_flag DeployStatus.FAILED DeployStatus.CREATED = false.
Proof. reflexivity. Qed.

Lemma deploy_unpauses_created env self dd h r h' :
  deploy env self dd h = (inr r, h') ->
  has_flag (deploy_status r) DeployStatus.CREATED = true ->
  exists evs,
    h' = h ++ evs /\
    (In (UnpausePipeline (concourse_target dd) (pipeline_name dd)) evs <->
     unpause_pipelines self = true \/ unpause_new_pipelines self = true).
Proof.
  unfold deploy. destruct (pipeline dd) as [definition |]; [| discriminate].
  rewrite try_run. unfold deploy_body.
  set (api := concourse_target dd).
  rewrite bind_run, call_run.
  destruct (client_from_cfg_name env h api) as [e | []].
  { cbn [ret]. intros [= <- <-] Hflag. discriminate Hflag. }
  rewrite bind_run.
  destruct (set_pipeline_retrying_never_unpauses env api (pipeline_name dd) (Some definition)
              (h ++ [ClientFromCfgName api])) as [evs1 [Hevs1 Hquiet]].
  destruct (set_pipeline_retrying env api (pipeline_name dd) (Some definition) _)
    as [[e | response] h1]; cbn [snd] in Hevs1; subst h1.
  { cbn [ret]. intros [= <- <-] Hflag. discriminate Hflag. }
  destruct (after_set_pipeline env self api dd response _) as [[e | r'] h2] eqn:Hafter.
  { cbn [ret]. intros [= <- <-] Hflag. discriminate Hflag. }
  intros [= <- <-] Hflag.
  apply after_set_pipeline_returns in Hafter as [Hstatus ->].
  rewrite Hstatus in Hflag.
  destruct response;
    rewrite ?(bool_decide_eq_true_2 _ eq_refl) in *;
    rewrite ?bool_decide_eq_false_2 in * by discriminate;
    try discriminate Hflag.
  rewrite andb_true_r.
  eexists. split; [rewrite <- !app_assoc; reflexivity |].
  rewrite !in_app_iff. split.
  - intros [Hin | [Hin | [Hin | Hin]]].
    + destruct Hin as [Hin | []]. discriminate Hin.
    + rewrite List.Forall_forall in Hquiet. specialize (Hquiet _ Hin). discriminate Hquiet.
    + destruct (unpause_pipelines self), (unpause_new_pipelines self); cbn in Hin; tauto.
    + destruct (expose_pipelines self); cbn in Hin; [destruct Hin as [Hin | []]; discriminate Hin | tauto].
  - intros Hflags. right. right. left.
    destruct (unpause_pipelines self), (unpause_new_pipelines self); cbn; try tauto.
    destruct Hflags; discriminate.
Qed.


Section Bootstrap.
Import ReplicationResultProcessor.

Lemma initialise_unpauses_only_if_configured env self api results :
  emits (unpause_allowed self) (_initialise_new_pipeline_resources env self api results).
Proof.
  unfold _initialise_new_pipeline_resources.
  apply emits_for_each. intros name.
  apply emits_bind.
  - destruct (unpause_new_pipelines self) eqn:Hflag; cbn [when].
    + apply emits_call. intros _. assumption.
    + apply emits_ret.
  - intros _. emits_solve ltac:(intros Hu; discriminate Hu).
Qed.

Lemma initialise_unpauses_created env self api results h h' r :
  _initialise_new_pipeline_resources env self api results h = (inr tt, h') ->
  In r results ->
  has_flag (deploy_status r) DeployStatus.CREATED = true ->
  exists evs,
    h' = h ++ evs /\
    (In (UnpausePipeline api (pipeline_name (definition_descriptor r))) evs <->
     unpause_new_pipelines self = true).
Proof.
  intros Hrun Hin Hflag.
  destruct (emits_trace _ _ _ _ _ (initialise_unpauses_only_if_configured env self api results) Hrun)
    as [evs [-> Hall]].
  exists evs. split; [reflexivity |]. split.
  - intros Hev. rewrite List.Forall_forall in Hall. apply (Hall _ Hev). reflexivity.
  - intros Hconf. unfold _initialise_new_pipeline_resources in Hrun.
    eapply for_each_returns with (x := pipeline_name (definition_descriptor r)) in Hrun.
    + destruct Hrun as [pre [evs' [post [Hbody Heq]]]].
      apply app_inv_head in Heq. subst evs.
      rewrite Hconf in Hbody. cbn [when] in Hbody.
      rewrite bind_run, call_run in Hbody.
      destruct (unpause_pipeline env _ _ _) as [e | []]; [discriminate Hbody |].
      match type of Hbody with ?m ?hh = _ =>
        assert (Hext : emits (fun _ => True) m) by emits_solve ltac:(exact I)
      end.
      destruct (emits_trace _ _ _ _ _ Hext Hbody) as [evs2 [Heq2 _]].
      rewrite <- !app_assoc in Heq2. apply app_inv_head in Heq2. apply app_inv_head in Heq2.
      subst evs'. rewrite !in_app_iff. right. left. left. left. reflexivity.
    + intros name. emits_solve ltac:(exact I).
    + apply in_map_iff. exists r. split; [reflexivity |].
      apply filter_In. split; assumption.
Qed.

End Bootstrap.

(** C3 (as amended).  After a deploy whose result carries the CREATED bit,
    the deployer has unpaused the pipeline exactly when [unpause_pipelines]
    or [unpause_new_pipelines] is set; and the bootstrap of the result
    processor, when it completes, unpauses every pipeline whose result
    carries the CREATED bit exactly when the processor's
    [unpause_new_pipelines] is set, whatever [unpause_pipelines] is. *)
Theorem created_pipeline_is_unpaused_when_configured env :
  (forall (self : ConcourseDeployer.t) dd h r h',
     deploy env self dd h = (inr r, h') ->
     has_flag (deploy_status r) DeployStatus.CREATED = true ->
     exists evs,
       h' = h ++ evs /\
       (In (UnpausePipeline (concourse_target dd) (pipeline_name dd)) evs <->
        unpause_pipelines self = true \/ unpause_new_pipelines self = true))
  /\
  (forall (self : ReplicationResultProcessor.t) api results h h' r,
     ReplicationResultProcessor._initialise_new_pipeline_resources env self api results h
       = (inr tt, h') ->
     In r results ->
     has_flag (deploy_status r) DeployStatus.CREATED = true ->
     exists evs,
       h' = h ++ evs /\
       (In (UnpausePipeline api (pipeline_name (definition_descriptor r))) evs <->
        ReplicationResultProcessor.unpause_new_pipelines self = true)).
Proof.
  split.
  - intros self dd h r h'. apply deploy_unpauses_created.
  - intros self api results h h' r. apply initialise_unpauses_created.
Qed.

(** A rendered pipeline created with [unpause_new_pipelines] only, and its
    bootstrap. *)
Lemma created_pipeline_is_unpaused_when_configured_witness :
  (exists evs,
     snd (deploy Scenario.creating_env (ConcourseDeployer.mk false true false)
            Scenario.rendered_foo [])
       = [] ++ evs /\
     (In (UnpausePipeline Scenario.backend "foo") evs <-> false = true \/ true = true))
  /\
  (exists evs,
     snd (ReplicationResultProcessor._initialise_new_pipeline_resources Scenario.creating_env
            Scenario.processor Scenario.backend
            [mkDeployResult Scenario.foo 9 NoDetails] [])
       = [] ++ evs /\
     (In (UnpausePipeline Scenario.backend "foo") evs <-> true = true)).
Proof.
  destruct (created_pipeline_is_unpaused_when_configured Scenario.creating_env) as [Hdeploy Hboot].
  split.
  - eapply (Hdeploy (ConcourseDeployer.mk false true false) Scenario.rendered_foo []).
    + vm_compute. reflexivity.
    + reflexivity.
  - apply (Hboot Scenario.processor Scenario.backend
             [mkDeployResult Scenario.foo 9 NoDetails] []
             (snd (ReplicationResultProcessor._initialise_new_pipeline_resources
                     Scenario.creating_env Scenario.processor Scenario.backend
                     [mkDeployResult Scenario.foo 9 NoDetails] []))
             (mkDeployResult Scenario.foo 9 NoDetails)).
    + vm_compute. reflexivity.
    + left. reflexivity.
    + reflexivity.
Defined.

(** C3, counterexample.  With [unpause_pipelines] set and
    [unpause_new_pipelines] not set, the deploy of a rendered descriptor
    whose pipeline the backend creates carries the CREATED bit and the
    pipeline is unpaused. *)
Lemma created_pipeline_unpaused_without_unpause_new :
  let self := ConcourseDeployer.mk true false false in
  let run := deploy Scenario.creating_env self Scenario.rendered_foo [] in
  unpause_new_pipelines self = false /\
  (exists r, fst run = inr r /\ has_flag (deploy_status r) DeployStatus.CREATED = true) /\
  In (UnpausePipeline Scenario.backend "foo") (snd run).
Proof.
  cbv zeta. split; [reflexivity |]. split.
  - eexists. split; vm_compute; reflexivity.
  - vm_compute. right. right. left. reflexivity.
Qed.

(** *** The worker pool *)
Import PipelineReplicator.

Section PoolInvariant.
Context {D : Type} `{DefinitionDeployer D} (env : Env) (self : t D).

Lemma rendered_by_produces d result name :
  rendered_by env self d result -> produces env self d name ->
  pipeline_name (render_definition_descriptor result) = name.
Proof.
  intros [_ [p [Hp ->]]] [_ [p' [Hp' <-]]]. congruence.
Qed.

Lemma conflict_true names dd names' :
  _pipeline_name_conflict names dd = (true, names') -> names' = names /\ pipeline_name dd ∈ names.
Proof.
  unfold _pipeline_name_conflict. case_bool_decide; intros [= <-]; auto.
Qed.

Lemma conflict_false names dd names' :
  _pipeline_name_conflict names dd = (false, names') ->
  names' = names ∪ {[ pipeline_name dd ]} /\ pipeline_name dd ∉ names.
Proof.
  unfold _pipeline_name_conflict. case_bool_decide; intros [= <-]; auto.
Qed.

Ltac split_inv := unfold pool_inv; cbn [pool_names pool_workers pool_deploys pool_trace];
  refine (conj _ (conj _ (conj _ (conj _ _)))).

Lemma initial_inv definitions : pool_inv env self definitions ∅ (initial_pool definitions).
Proof.
  unfold initial_pool. split_inv.
  - apply dom_empty_L.
  - apply length_map.
  - intros i d w Hd Hw. rewrite list_lookup_fmap, Hd in Hw. injection Hw as <-. reflexivity.
  - intros i dd [].
  - constructor.
Qed.

(** Updating worker [i] keeps the invariant of the other workers. *)
Ltac lookup_cases j i :=
  destruct (decide (j = i)) as [-> | ?];
  [ rewrite list_lookup_insert_eq by (eapply lookup_lt_Some; eassumption)
  | rewrite list_lookup_insert_ne by congruence ].

(** A worker that has not finished has not deployed; the deploy log is
    untouched by its step. *)
Lemma deploys_kept (winner : gmap string nat) (workers : list Worker)
    (deploys : list (nat * DefinitionDescriptor)) (i : nat) w w' :
  workers !! i = Some w -> ~ finished w ->
  (forall j dd, In (j, dd) deploys ->
     winner !! pipeline_name dd = Some j /\
     exists w, workers !! j = Some w /\ finished w) ->
  forall j dd, In (j, dd) deploys ->
     winner !! pipeline_name dd = Some j /\
     exists w, <[i := w']> workers !! j = Some w /\ finished w.
Proof.
  intros Hwi Hnot Hdeploys j dd Hin.
  destruct (Hdeploys _ _ Hin) as [Hwin [w0 [Hw Hfin]]]. split; [assumption |].
  destruct (decide (j = i)) as [-> | Hne].
  - rewrite Hwi in Hw. injection Hw as <-. contradiction.
  - rewrite list_lookup_insert_ne by congruence. eauto.
Qed.

Lemma not_deployed (winner : gmap string nat) (workers : list Worker)
    (deploys : list (nat * DefinitionDescriptor)) (i : nat) w :
  workers !! i = Some w -> ~ finished w ->
  (forall j dd, In (j, dd) deploys ->
     winner !! pipeline_name dd = Some j /\
     exists w, workers !! j = Some w /\ finished w) ->
  ~ In i (map fst deploys).
Proof.
  intros Hwi Hnot Hdeploys Hin.
  apply in_map_iff in Hin as [[i' dd] [Heq Hin]]. cbn in Heq. subst i'.
  destruct (Hdeploys _ _ Hin) as [_ [w0 [Hw Hfin]]].
  rewrite Hwi in Hw. injection Hw as <-. contradiction.
Qed.

Lemma deploys_extended (winner : gmap string nat) (workers : list Worker)
    (deploys : list (nat * DefinitionDescriptor)) (i : nat) d result w' :
  workers !! i = Some (Accepted d result) -> finished w' ->
  winner !! pipeline_name (render_definition_descriptor result) = Some i ->
  (forall j dd, In (j, dd) deploys ->
     winner !! pipeline_name dd = Some j /\
     exists w, workers !! j = Some w /\ finished w) ->
  forall j dd, In (j, dd) (deploys ++ [(i, render_definition_descriptor result)]) ->
     winner !! pipeline_name dd = Some j /\
     exists w, <[i := w']> workers !! j = Some w /\ finished w.
Proof.
  intros Hwi Hfin' Hwin Hdeploys j dd Hin.
  apply in_app_iff in Hin as [Hin | [[= <- <-] | []]].
  - eapply deploys_kept; eauto.
  - split; [assumption |]. exists w'. split; [| assumption].
    apply list_lookup_insert_eq. eapply lookup_lt_Some; eassumption.
Qed.

Lemma nodup_extended (deploys : list (nat * DefinitionDescriptor)) i dd :
  NoDup (map fst deploys) -> ~ In i (map fst deploys) ->
  NoDup (map fst (deploys ++ [(i, dd)])).
Proof.
  intros Hnodup Hnotin. rewrite map_app. cbn. apply NoDup_app. split; [assumption |]. split.
  - intros x Hx Hx'. apply list_elem_of_In in Hx. apply list_elem_of_In in Hx'.
    destruct Hx' as [<- | []]. contradiction.
  - apply NoDup_singleton.
Qed.

Lemma step_inv definitions winner p q :
  pool_inv env self definitions winner p -> step env self p q ->
  exists winner', pool_inv env self definitions winner' q.
Proof.
  intros (Hdom & Hlen & Hworkers & Hdeploys & Hnodup) Hstep.
  assert (Hdef : forall i w, pool_workers p !! i = Some w -> exists d, definitions !! i = Some d).
  { intros i w Hw. apply lookup_lt_Some in Hw. rewrite Hlen in Hw.
    apply lookup_lt_is_Some_2 in Hw. destruct Hw as [d Hd]. eauto. }
  destruct Hstep as
    [ names trace workers deploys i d e Hwi Hexc
    | names trace workers deploys i d e Hwi Hexc Hpre
    | names trace workers deploys i d preprocessed Hwi Hexc Hpre
    | names trace workers deploys i d result names' Hwi Hconflict
    | names trace workers deploys i d result names' Hwi Hconflict
    | names trace workers deploys i d result deploy_result trace' Hwi Hstatus Hdeploy
    | names trace workers deploys i d result e trace' Hwi Hstatus Hdeploy
    | names trace workers deploys i d result Hwi Hstatus ];
    cbn [pool_names pool_workers pool_deploys pool_trace] in *.
  - (* enumeration error *)
    exists winner. split_inv; auto.
    + rewrite length_insert. assumption.
    + intros j d' w Hd. lookup_cases j i; [| eauto].
      intros [= <-]. specialize (Hworkers _ _ _ Hd Hwi). cbn in Hworkers. subst d'.
      intros name [Hnone _]. congruence.
    + eapply deploys_kept; eauto.
  - (* the preprocessor raises *)
    exists winner. split_inv; auto.
    + rewrite length_insert. assumption.
    + intros j d' w Hd. lookup_cases j i; [| eauto].
      intros [= <-]. specialize (Hworkers _ _ _ Hd Hwi). cbn in Hworkers. subst d'.
      intros name (_ & p' & Hp' & _). congruence.
    + eapply deploys_kept; eauto.
  - (* render *)
    exists winner. split_inv; auto.
    + rewrite length_insert. assumption.
    + intros j d' w Hd. lookup_cases j i; [| eauto].
      intros [= <-]. specialize (Hworkers _ _ _ Hd Hwi). cbn in Hworkers. subst d'.
      cbn. split; [reflexivity |]. split; [assumption |]. eauto.
    + eapply deploys_kept; eauto.
  - (* conflict *)
    apply conflict_true in Hconflict as [-> Hin].
    exists winner. split_inv; auto.
    + rewrite length_insert. assumption.
    + intros j d' w Hd. lookup_cases j i; [| eauto].
      intros [= <-]. specialize (Hworkers _ _ _ Hd Hwi). cbn in Hworkers.
      destruct Hworkers as [-> Hr].
      intros name Hprod. left. rewrite (rendered_by_produces _ _ _ Hr Hprod). reflexivity.
    + eapply deploys_kept; eauto.
  - (* accept *)
    apply conflict_false in Hconflict as [-> Hfresh].
    set (name := pipeline_name (render_definition_descriptor result)) in *.
    assert (Hnone : winner !! name = None).
    { apply not_elem_of_dom. rewrite Hdom. assumption. }
    exists (<[name := i]> winner). split_inv.
    + rewrite dom_insert_L, Hdom. apply union_comm_L.
    + rewrite length_insert. assumption.
    + intros j d' w Hd. lookup_cases j i.
      * intros [= <-]. specialize (Hworkers _ _ _ Hd Hwi). cbn in Hworkers.
        destruct Hworkers as [-> Hr]. cbn. split; [reflexivity |]. split; [assumption |].
        apply lookup_insert_eq.
      * intros Hw. specialize (Hworkers _ _ _ Hd Hw).
        destruct w; cbn [worker_ok] in *; auto.
        -- destruct Hworkers as (-> & Hr & Hwin).
           split; [reflexivity |]. split; [assumption |].
           rewrite lookup_insert_ne; [assumption |]. congruence.
        -- intros nm Hprod. destruct (Hworkers nm Hprod) as [-> | Hwin]; [left; reflexivity |].
           right. rewrite lookup_insert_ne; [assumption |]. congruence.
        -- intros nm Hprod. specialize (Hworkers nm Hprod).
           rewrite lookup_insert_ne; [assumption |]. congruence.
    + intros j dd Hin.
      destruct (deploys_kept winner workers deploys i _ (Accepted d result) Hwi (fun f => f)
                  Hdeploys j dd Hin) as [Hwin Hfin].
      split; [| assumption]. rewrite lookup_insert_ne; [assumption |]. congruence.
    + assumption.
  - (* deploy *)
    destruct (Hdef _ _ Hwi) as [d0 Hd0].
    pose proof (Hworkers _ _ _ Hd0 Hwi) as Hacc. cbn in Hacc. destruct Hacc as (-> & Hr & Hwin).
    exists winner. split_inv; auto.
    + rewrite length_insert. assumption.
    + intros j d' w Hd. lookup_cases j i; [| eauto].
      intros [= <-]. cbn. intros nm Hprod. right.
      assert (d' = d0) by congruence. subst d'.
      rewrite <- (rendered_by_produces _ _ _ Hr Hprod). assumption.
    + eapply deploys_extended; eauto. exact I.
    + apply nodup_extended; [assumption |].
      eapply not_deployed; eauto.
  - (* deploy raises *)
    destruct (Hdef _ _ Hwi) as [d0 Hd0].
    pose proof (Hworkers _ _ _ Hd0 Hwi) as Hacc. cbn in Hacc. destruct Hacc as (-> & Hr & Hwin).
    exists winner. split_inv; auto.
    + rewrite length_insert. assumption.
    + intros j d' w Hd. lookup_cases j i; [| eauto].
      intros [= <-]. cbn. intros nm Hprod.
      assert (d' = d0) by congruence. subst d'.
      rewrite <- (rendered_by_produces _ _ _ Hr Hprod). assumption.
    + eapply deploys_extended; eauto. exact I.
    + apply nodup_extended; [assumption |].
      eapply not_deployed; eauto.
  - (* render failed *)
    exists winner. split_inv; auto.
    + rewrite length_insert. assumption.
    + intros j d' w Hd. lookup_cases j i; [| eauto].
      intros [= <-]. specialize (Hworkers _ _ _ Hd Hwi). cbn in Hworkers.
      destruct Hworkers as (-> & Hr & Hwin).
      intros nm Hprod. right. rewrite <- (rendered_by_produces _ _ _ Hr Hprod). assumption.
    + eapply deploys_kept; eauto.
Qed.

End PoolInvariant.

Lemma conflict_known names dd :
  pipeline_name dd ∈ names -> _pipeline_name_conflict names dd = (true, names).
Proof. intros Hin. unfold _pipeline_name_conflict. rewrite bool_decide_eq_true_2 by assumption. reflexivity. Qed.

Lemma conflict_fresh names dd :
  pipeline_name dd ∉ names ->
  _pipeline_name_conflict names dd = (false, names ∪ {[ pipeline_name dd ]}).
Proof. intros Hin. unfold _pipeline_name_conflict. rewrite bool_decide_eq_false_2 by assumption. reflexivity. Qed.

Section PoolClaims.
Context {D : Type} `{DefinitionDeployer D} (env : Env) (self : t D).

Lemma steps_inv definitions p :
  steps env self (initial_pool definitions) p -> exists winner, pool_inv env self definitions winner p.
Proof.
  intros Hsteps. remember (initial_pool definitions) as p0 eqn:Hp0.
  induction Hsteps as [p | p q r _ IH Hstep]; subst.
  - exists ∅. apply initial_inv.
  - destruct (IH eq_refl) as [winner Hinv]. eapply step_inv; eassumption.
Qed.

Lemma steps_head p q r : step env self p q -> steps env self q r -> steps env self p r.
Proof.
  intros Hpq Hqr. induction Hqr as [| q r s _ IH Hrs].
  - eapply steps_step; [apply steps_refl | assumption].
  - eapply steps_step; [apply IH; assumption | assumption].
Qed.

Lemma deploys_of_one_worker (deploys : list (nat * DefinitionDescriptor)) (P : nat * DefinitionDescriptor -> bool) w :
  NoDup (map fst deploys) ->
  (forall x, In x deploys -> P x = true -> fst x = w) ->
  (length (List.filter P deploys) <= 1)%nat.
Proof.
  induction deploys as [| x rest IH]; intros Hnodup Hw; cbn [List.filter length]; [lia |].
  cbn [map] in Hnodup. apply NoDup_cons in Hnodup as [Hnotin Hnodup].
  assert (IH' := IH Hnodup (fun y Hy => Hw y (or_intror Hy))).
  destruct (P x) eqn:HPx; [| exact IH'].
  assert (Hempty : List.filter P rest = []).
  { destruct (List.filter P rest) as [| y ys] eqn:Hf; [reflexivity |]. exfalso.
    assert (Hy : In y (List.filter P rest)) by (rewrite Hf; left; reflexivity).
    apply filter_In in Hy as [Hy HPy].
    apply Hnotin. apply list_elem_of_In. apply in_map_iff. exists y. split; [| assumption].
    rewrite (Hw y (or_intror Hy) HPy), (Hw x (or_introl eq_refl) HPx). reflexivity. }
  rewrite Hempty. cbn. lia.
Qed.

(** *** The workers run [_process_definition_descriptor] *)

Lemma process_enumeration_error d e names h :
  exception d = Some e ->
  _process_definition_descriptor env self d names h =
    (inr (mkDeployResult d DeployStatus.SKIPPED (DetailsExc e), names), h).
Proof. intros Hexc. unfold _process_definition_descriptor. rewrite Hexc. reflexivity. Qed.

Lemma process_preprocess_raises d e names h :
  exception d = None -> descriptor_preprocessor self d = inl e ->
  _process_definition_descriptor env self d names h = (inl e, h).
Proof.
  intros Hexc Hpre. unfold _process_definition_descriptor.
  rewrite Hexc, bind_run. unfold lift. rewrite Hpre. reflexivity.
Qed.

Lemma process_conflict d result names names' h :
  rendered_by env self d result ->
  _pipeline_name_conflict names (render_definition_descriptor result) = (true, names') ->
  _process_definition_descriptor env self d names h =
    (inr (duplicate_skip d (pipeline_name (render_definition_descriptor result)), names'), h).
Proof.
  intros (Hexc & p & Hpre & ->) Hconflict. unfold _process_definition_descriptor.
  rewrite Hexc, bind_run. unfold lift. rewrite Hpre, Hconflict. reflexivity.
Qed.

Lemma process_accepted d result names names' h :
  rendered_by env self d result ->
  _pipeline_name_conflict names (render_definition_descriptor result) = (false, names') ->
  _process_definition_descriptor env self d names h =
    match render_status result with
    | RenderStatus.SUCCEEDED =>
        bind (Replicator.deploy env (definition_deployer self) (render_definition_descriptor result))
             (fun deploy_result => ret (deploy_result, names')) h
    | RenderStatus.FAILED =>
        (inr (mkDeployResult d DeployStatus.SKIPPED (details_of (render_error_details result)),
              names'), h)
    end.
Proof.
  intros (Hexc & p & Hpre & ->) Hconflict. unfold _process_definition_descriptor.
  rewrite Hexc, bind_run. unfold lift. rewrite Hpre, Hconflict.
  destruct (render_status _); reflexivity.
Qed.

(** A descriptor whose name is already accepted is skipped as a duplicate,
    whatever its rendering gave; neither the set nor the trace changes. *)
Lemma process_duplicate d name names h :
  produces env self d name -> name ∈ names ->
  _process_definition_descriptor env self d names h = (inr (duplicate_skip d name, names), h).
Proof.
  intros (Hexc & p & Hpre & Hname) Hin.
  rewrite (process_conflict d (Renderer.render env (definition_renderer self) p) names names h).
  - rewrite Hname. reflexivity.
  - split; [assumption |]. eauto.
  - apply conflict_known. rewrite Hname. assumption.
Qed.

(** A descriptor whose name is not yet accepted puts it into the set. *)
Lemma process_fresh d name names h r names' h' :
  produces env self d name -> name ∉ names ->
  _process_definition_descriptor env self d names h = (inr (r, names'), h') ->
  names' = names ∪ {[ name ]}.
Proof.
  intros (Hexc & p & Hpre & Hname) Hnotin.
  set (result := Renderer.render env (definition_renderer self) p) in *.
  rewrite (process_accepted d result names (names ∪ {[ name ]}) h).
  - destruct (render_status result) eqn:Hstatus.
    + intros Hrun. apply bind_returns in Hrun as (x & h1 & Hdeploy & Hret).
      apply ret_returns in Hret as [[= <- <-] _]. reflexivity.
    + intros [= <- <- <-]. reflexivity.
  - split; [assumption |]. eauto.
  - rewrite <- Hname. apply conflict_fresh. rewrite Hname. assumption.
Qed.

Ltac at_worker j i :=
  destruct (decide (j = i)) as [-> | ?];
  [ rewrite list_lookup_insert_eq by (eapply lookup_lt_Some; eassumption)
  | rewrite list_lookup_insert_ne by congruence ].

(** What the pool keeps about the runs of its workers. *)
Lemma steps_run definitions p :
  steps env self (initial_pool definitions) p ->
  length (pool_workers p) = length definitions /\
  (forall i d w, definitions !! i = Some d -> pool_workers p !! i = Some w ->
     match w with
     | Waiting d' => d' = d
     | Rendered d' result => d' = d /\ rendered_by env self d result
     | Accepted d' result =>
         d' = d /\ rendered_by env self d result /\
         exists names,
           (pipeline_name (render_definition_descriptor result) ∉ names) /\
           (names ∪ {[ pipeline_name (render_definition_descriptor result) ]}) ⊆ pool_names p
     | Returned r =>
         exists names h names' h',
           names ⊆ names' /\ names' ⊆ pool_names p /\
           _process_definition_descriptor env self d names h = (inr (r, names'), h')
     | Raised e =>
         exists names h h',
           names ⊆ pool_names p /\
           _process_definition_descriptor env self d names h = (inl e, h')
     end) /\
  (forall i dd, In (i, dd) (pool_deploys p) ->
     exists d names,
       definitions !! i = Some d /\ (pipeline_name dd ∉ names) /\
       (names ∪ {[ pipeline_name dd ]}) ⊆ pool_names p /\
       forall h,
         _process_definition_descriptor env self d names h =
           bind (Replicator.deploy env (definition_deployer self) dd)
                (fun deploy_result => ret (deploy_result, names ∪ {[ pipeline_name dd ]})) h).
Proof.
  intros Hsteps. remember (initial_pool definitions) as p0 eqn:Hp0.
  induction Hsteps as [p | p q r _ IH Hstep]; subst.
  { unfold initial_pool. cbn [pool_names pool_workers pool_deploys].
    split; [apply length_map |]. split; [| intros i dd []].
    intros i d w Hd Hw. rewrite list_lookup_fmap, Hd in Hw. injection Hw as <-. reflexivity. }
  destruct (IH eq_refl) as (Hlen & Hworkers & Hdeploys). clear IH.
  assert (Hdef : forall i w, pool_workers q !! i = Some w -> exists d, definitions !! i = Some d).
  { intros i w Hw. apply lookup_lt_Some in Hw. rewrite Hlen in Hw.
    apply lookup_lt_is_Some_2 in Hw. destruct Hw as [d Hd]. eauto. }
  assert (Hgrow : pool_names q ⊆ pool_names r).
  { destruct Hstep; cbn [pool_names]; try reflexivity.
    - match goal with Hc : _pipeline_name_conflict _ _ = _ |- _ =>
        apply conflict_true in Hc as [-> _] end. reflexivity.
    - match goal with Hc : _pipeline_name_conflict _ _ = _ |- _ =>
        apply conflict_false in Hc as [-> _] end. set_solver. }
  assert (Hkept : forall i d w, definitions !! i = Some d -> pool_workers q !! i = Some w ->
            match w with
            | Waiting d' => d' = d
            | Rendered d' result => d' = d /\ rendered_by env self d result
            | Accepted d' result =>
                d' = d /\ rendered_by env self d result /\
                exists names,
                  (pipeline_name (render_definition_descriptor result) ∉ names) /\
                  (names ∪ {[ pipeline_name (render_definition_descriptor result) ]}) ⊆ pool_names r
            | Returned r0 =>
                exists names h names' h',
                  names ⊆ names' /\ names' ⊆ pool_names r /\
                  _process_definition_descriptor env self d names h = (inr (r0, names'), h')
            | Raised e =>
                exists names h h',
                  names ⊆ pool_names r /\
                  _process_definition_descriptor env self d names h = (inl e, h')
            end).
  { intros i d w Hd Hw. specialize (Hworkers i d w Hd Hw). destruct w; try assumption.
    - destruct Hworkers as (-> & Hr & names & Hfresh & Hsub).
      split; [reflexivity |]. split; [assumption |]. exists names. split; [assumption |].
      etransitivity; eassumption.
    - destruct Hworkers as (names & h & names' & h' & Hsub & Hsub' & Hrun).
      exists names, h, names', h'. split; [assumption |]. split; [| assumption].
      etransitivity; eassumption.
    - destruct Hworkers as (names & h & h' & Hsub & Hrun).
      exists names, h, h'. split; [etransitivity; eassumption | assumption]. }
  assert (Hlogged : forall i dd, In (i, dd) (pool_deploys q) ->
            exists d names,
              definitions !! i = Some d /\ (pipeline_name dd ∉ names) /\
              (names ∪ {[ pipeline_name dd ]}) ⊆ pool_names r /\
              forall h,
                _process_definition_descriptor env self d names h =
                  bind (Replicator.deploy env (definition_deployer self) dd)
                       (fun deploy_result => ret (deploy_result, names ∪ {[ pipeline_name dd ]})) h).
  { intros i dd Hin. destruct (Hdeploys i dd Hin) as (d & names & Hd & Hfresh & Hsub & Hrun).
    exists d, names. split; [assumption |]. split; [assumption |].
    split; [etransitivity; eassumption | assumption]. }
  clear Hworkers Hdeploys.
  destruct Hstep as
    [ names trace workers deploys i d e Hwi Hexc
    | names trace workers deploys i d e Hwi Hexc Hpre
    | names trace workers deploys i d preprocessed Hwi Hexc Hpre
    | names trace workers deploys i d result names' Hwi Hconflict
    | names trace workers deploys i d result names' Hwi Hconflict
    | names trace workers deploys i d result deploy_result trace' Hwi Hstatus Hdeploy
    | names trace workers deploys i d result e trace' Hwi Hstatus Hdeploy
    | names trace workers deploys i d result Hwi Hstatus ];
    cbn [pool_names pool_workers pool_deploys pool_trace] in *;
    (split; [rewrite length_insert; assumption |]).
  - (* enumeration error *)
    split; [| assumption].
    intros j d' w Hd. at_worker j i; [| intros Hw; exact (Hkept _ _ _ Hd Hw)].
    intros [= <-]. specialize (Hkept _ _ _ Hd Hwi). cbn in Hkept. subst d'.
    exists names, trace, names, trace. split; [reflexivity |]. split; [reflexivity |].
    apply process_enumeration_error. assumption.
  - (* the preprocessor raises *)
    split; [| assumption].
    intros j d' w Hd. at_worker j i; [| intros Hw; exact (Hkept _ _ _ Hd Hw)].
    intros [= <-]. specialize (Hkept _ _ _ Hd Hwi). cbn in Hkept. subst d'.
    exists names, trace, trace. split; [reflexivity |].
    apply process_preprocess_raises; assumption.
  - (* render *)
    split; [| assumption].
    intros j d' w Hd. at_worker j i; [| intros Hw; exact (Hkept _ _ _ Hd Hw)].
    intros [= <-]. specialize (Hkept _ _ _ Hd Hwi). cbn in Hkept. subst d'.
    split; [reflexivity |]. split; [assumption |]. eauto.
  - (* conflict *)
    split; [| assumption].
    intros j d' w Hd. at_worker j i; [| intros Hw; exact (Hkept _ _ _ Hd Hw)].
    intros [= <-]. specialize (Hkept _ _ _ Hd Hwi). cbn in Hkept. destruct Hkept as [-> Hr].
    exists names, trace, names', trace.
    pose proof (conflict_true _ _ _ Hconflict) as [-> _].
    split; [reflexivity |]. split; [reflexivity |].
    apply process_conflict; assumption.
  - (* accept *)
    split; [| assumption].
    intros j d' w Hd. at_worker j i; [| intros Hw; exact (Hkept _ _ _ Hd Hw)].
    intros [= <-]. specialize (Hkept _ _ _ Hd Hwi). cbn in Hkept. destruct Hkept as [-> Hr].
    apply conflict_false in Hconflict as [-> Hfresh].
    split; [reflexivity |]. split; [assumption |]. exists names. split; [assumption | reflexivity].
  - (* deploy *)
    destruct (Hdef _ _ Hwi) as [d0 Hd0].
    pose proof (Hkept _ _ _ Hd0 Hwi) as Hacc. cbn in Hacc.
    destruct Hacc as (-> & Hr & seen & Hfresh & Hsub).
    pose proof (process_accepted d0 result seen _ trace Hr (conflict_fresh _ _ Hfresh)) as Hrun.
    rewrite Hstatus in Hrun. split.
    + intros j d' w Hd. at_worker j i; [| intros Hw; exact (Hkept _ _ _ Hd Hw)].
      intros [= <-]. assert (d' = d0) by congruence. subst d'.
      exists seen, trace, (seen ∪ {[ pipeline_name (render_definition_descriptor result) ]}), trace'.
      split; [set_solver |]. split; [assumption |].
      rewrite Hrun, bind_run, Hdeploy. reflexivity.
    + intros j dd Hin. apply in_app_iff in Hin as [Hin | [[= <- <-] | []]]; [eauto |].
      exists d0, seen. split; [assumption |]. split; [assumption |]. split; [assumption |].
      intros h. rewrite (process_accepted d0 result seen _ h Hr (conflict_fresh _ _ Hfresh)), Hstatus.
      reflexivity.
  - (* deploy raises *)
    destruct (Hdef _ _ Hwi) as [d0 Hd0].
    pose proof (Hkept _ _ _ Hd0 Hwi) as Hacc. cbn in Hacc.
    destruct Hacc as (-> & Hr & seen & Hfresh & Hsub).
    pose proof (process_accepted d0 result seen _ trace Hr (conflict_fresh _ _ Hfresh)) as Hrun.
    rewrite Hstatus in Hrun. split.
    + intros j d' w Hd. at_worker j i; [| intros Hw; exact (Hkept _ _ _ Hd Hw)].
      intros [= <-]. assert (d' = d0) by congruence. subst d'.
      exists seen, trace, trace'.
      split; [set_solver |].
      rewrite Hrun, bind_run, Hdeploy. reflexivity.
    + intros j dd Hin. apply in_app_iff in Hin as [Hin | [[= <- <-] | []]]; [eauto |].
      exists d0, seen. split; [assumption |]. split; [assumption |]. split; [assumption |].
      intros h. rewrite (process_accepted d0 result seen _ h Hr (conflict_fresh _ _ Hfresh)), Hstatus.
      reflexivity.
  - (* render failed *)
    split; [| assumption].
    intros j d' w Hd. at_worker j i; [| intros Hw; exact (Hkept _ _ _ Hd Hw)].
    intros [= <-]. specialize (Hkept _ _ _ Hd Hwi). cbn in Hkept.
    destruct Hkept as (-> & Hr & seen & Hfresh & Hsub).
    exists seen, trace, (seen ∪ {[ pipeline_name (render_definition_descriptor result) ]}), trace.
    split; [set_solver |]. split; [assumption |].
    rewrite (process_accepted d' result seen _ trace Hr (conflict_fresh _ _ Hfresh)), Hstatus.
    reflexivity.
Qed.


(** *** The sequential schedule *)

Lemma steps_trans p q r : steps env self p q -> steps env self q r -> steps env self p r.
Proof.
  intros Hpq Hqr. induction Hqr as [| q r s _ IH Hrs]; [assumption |].
  eapply steps_step; [apply IH; assumption | assumption].
Qed.

(** A run of [_process_definition_descriptor] that returns is a run of one
    worker of the pool, from waiting to returned. *)
Lemma process_steps names h workers deploys i d r names' h' :
  workers !! i = Some (Waiting d) ->
  _process_definition_descriptor env self d names h = (inr (r, names'), h') ->
  exists deploys',
    steps env self (mkPool names h workers deploys)
      (mkPool names' h' (<[i := Returned r]> workers) deploys').
Proof.
  intros Hwi Hrun.
  assert (Hlt : (i < length workers)%nat) by (eapply lookup_lt_Some; eassumption).
  destruct (exception d) as [e |] eqn:Hexc.
  { rewrite (process_enumeration_error d e names h Hexc) in Hrun. injection Hrun as <- <- <-.
    exists deploys. eapply steps_step; [apply steps_refl |].
    apply (step_enumeration_error env self names h workers deploys i d e); assumption. }
  destruct (descriptor_preprocessor self d) as [e | p] eqn:Hpre.
  { rewrite (process_preprocess_raises d e names h Hexc Hpre) in Hrun. discriminate Hrun. }
  set (result := Renderer.render env (definition_renderer self) p).
  assert (Hr : rendered_by env self d result) by (split; [assumption |]; eauto).
  assert (Hrendered :
            steps env self (mkPool names h workers deploys)
              (mkPool names h (<[i := Rendered d result]> workers) deploys)).
  { eapply steps_step; [apply steps_refl |].
    apply (step_render env self names h workers deploys i d p); assumption. }
  assert (Hri : <[i := Rendered d result]> workers !! i = Some (Rendered d result))
    by (apply list_lookup_insert_eq; assumption).
  destruct (_pipeline_name_conflict names (render_definition_descriptor result))
    as [conflict names1] eqn:Hconflict.
  destruct conflict.
  { rewrite (process_conflict d result names names1 h Hr Hconflict) in Hrun.
    injection Hrun as <- <- <-. exists deploys.
    eapply steps_step; [exact Hrendered |].
    rewrite <- (list_insert_insert_eq workers i (Returned _) (Rendered d result)).
    apply (step_conflict env self names h _ deploys i d result names1); assumption. }
  assert (Haccepted :
            steps env self (mkPool names h workers deploys)
              (mkPool names1 h (<[i := Accepted d result]> workers) deploys)).
  { eapply steps_step; [exact Hrendered |].
    rewrite <- (list_insert_insert_eq workers i (Accepted d result) (Rendered d result)).
    apply (step_accept env self names h _ deploys i d result names1); assumption. }
  assert (Hai : <[i := Accepted d result]> workers !! i = Some (Accepted d result))
    by (apply list_lookup_insert_eq; assumption).
  rewrite (process_accepted d result names names1 h Hr Hconflict) in Hrun.
  destruct (render_status result) eqn:Hstatus.
  - apply bind_returns in Hrun as (x & h1 & Hdeploy & Hret).
    apply ret_returns in Hret as [[= <- <-] <-].
    eexists. eapply steps_step; [exact Haccepted |].
    rewrite <- (list_insert_insert_eq workers i (Returned _) (Accepted d result)).
    apply (step_deploy env self _ h _ deploys i d result _ _); assumption.
  - injection Hrun as <- <- <-. exists deploys.
    eapply steps_step; [exact Haccepted |].
    rewrite <- (list_insert_insert_eq workers i (Returned _) (Accepted d result)).
    apply (step_render_failed env self _ h _ deploys i d result); assumption.
Qed.

(** A run of [_replicate_from] that returns is a run of the pool in which
    the workers take their turns in the order of the enumeration. *)
Lemma replicate_from_steps definitions :
  forall finished_workers names h deploys rs names' h',
    _replicate_from env self definitions names h = (inr (rs, names'), h') ->
    exists deploys',
      steps env self (mkPool names h (finished_workers ++ map Waiting definitions) deploys)
        (mkPool names' h' (finished_workers ++ map Returned rs) deploys').
Proof.
  induction definitions as [| d rest IH]; intros done names h deploys rs names' h' Hrun.
  - apply ret_returns in Hrun as [[= -> ->] ->]. exists deploys. apply steps_refl.
  - cbn [_replicate_from] in Hrun.
    apply bind_returns in Hrun as ([r names1] & h1 & Hprocess & Hrun).
    apply bind_returns in Hrun as ([rs' names2] & h2 & Hrest & Hret).
    cbn [fst snd] in Hret. apply ret_returns in Hret as [[= -> ->] ->].
    destruct (process_steps names h (done ++ map Waiting (d :: rest)) deploys (length done)
                d r names1 h1) as [deploys1 Hfirst]; [| assumption |].
    { cbn [map]. apply list_lookup_middle. reflexivity. }
    destruct (IH (done ++ [Returned r]) names1 h1 deploys1 rs' names2 h2 Hrest)
      as [deploys2 Hsecond].
    exists deploys2. eapply steps_trans; [exact Hfirst |].
    cbn [map] in *.
    replace (<[length done := Returned r]> (done ++ Waiting d :: map Waiting rest))
      with ((done ++ [Returned r]) ++ map Waiting rest).
    + rewrite <- !app_assoc in Hsecond. rewrite <- app_assoc. exact Hsecond.
    + rewrite <- app_assoc. cbn [app].
      rewrite <- (Nat.add_0_r (length done)) at 1. rewrite insert_app_r. reflexivity.
Qed.

(** [_replicate] on an empty trace. *)
Lemma replicate_steps results h' :
  _replicate env self [] = (inr results, h') ->
  exists pool,
    steps env self (initial_pool (_enumerate_definitions self)) pool /\
    pool_workers pool = map Returned results /\ pool_trace pool = h'.
Proof.
  unfold _replicate. intros Hrun.
  apply bind_returns in Hrun as ([rs names] & h1 & Hrun & Hret).
  apply ret_returns in Hret as [-> ->]. cbn [fst].
  destruct (replicate_from_steps _ [] ∅ [] [] rs names h1 Hrun) as [deploys Hsteps].
  eexists. split; [exact Hsteps |]. split; reflexivity.
Qed.


(** Of two workers that have finished on descriptors producing the same
    name, one has returned the duplicate skip. *)
Lemma finished_producers definitions pool name i j di dj wi wj :
  steps env self (initial_pool definitions) pool ->
  i <> j ->
  definitions !! i = Some di -> definitions !! j = Some dj ->
  produces env self di name -> produces env self dj name ->
  pool_workers pool !! i = Some wi -> pool_workers pool !! j = Some wj ->
  finished wi -> finished wj ->
  wi = Returned (duplicate_skip di name) \/ wj = Returned (duplicate_skip dj name).
Proof.
  intros Hsteps Hne Hdi Hdj Hpi Hpj Hwi Hwj Hfi Hfj.
  destruct (steps_inv _ _ Hsteps) as [winner (_ & _ & Hworkers & _ & _)].
  pose proof (Hworkers _ _ _ Hdi Hwi) as Hi. pose proof (Hworkers _ _ _ Hdj Hwj) as Hj.
  assert (Hwinner : forall k d w, worker_ok env self winner k d w -> finished w ->
            produces env self d name ->
            w = Returned (duplicate_skip d name) \/ winner !! name = Some k).
  { intros k d [] Hok Hfin Hprod; try contradiction; cbn in Hok.
    - destruct (Hok name Hprod) as [-> | Hwin]; [left; reflexivity | right; assumption].
    - right. apply Hok. assumption. }
  destruct (Hwinner _ _ _ Hi Hfi Hpi) as [-> | Hwin_i]; [left; reflexivity |].
  destruct (Hwinner _ _ _ Hj Hfj Hpj) as [-> | Hwin_j]; [right; reflexivity |].
  congruence.
Qed.

Lemma deploys_at_most_once definitions pool name :
  steps env self (initial_pool definitions) pool ->
  (length (List.filter (fun call => bool_decide (pipeline_name (snd call) = name))
             (pool_deploys pool)) <= 1)%nat.
Proof.
  intros Hsteps.
  destruct (steps_inv _ _ Hsteps) as [winner (Hdom & Hlen & Hworkers & Hdeploys & Hnodup)].
  destruct (winner !! name) as [w |] eqn:Hwin.
  - apply deploys_of_one_worker with (w := w); [assumption |].
    intros [i dd] Hin HP. cbn in *. apply bool_decide_eq_true_1 in HP. subst name.
    destruct (Hdeploys _ _ Hin) as [Hw _]. congruence.
  - assert (Hnil : List.filter (fun call => bool_decide (pipeline_name (snd call) = name))
                     (pool_deploys pool) = []).
    { destruct (List.filter _ _) as [| [i dd] ys] eqn:Hf; [reflexivity |]. exfalso.
      assert (Hy : In (i, dd) (List.filter (fun call => bool_decide (pipeline_name (snd call) = name))
                                 (pool_deploys pool))) by (rewrite Hf; left; reflexivity).
      apply filter_In in Hy as [Hy HP]. cbn in HP. apply bool_decide_eq_true_1 in HP. subst name.
      destruct (Hdeploys _ _ Hy) as [Hw _]. congruence. }
    rewrite Hnil. cbn. lia.
Qed.


End PoolClaims.

Lemma pool_after_reached :
  steps Scenario.quiet_env (Scenario.replicator Scenario.rendering [Scenario.foo; Scenario.foo_again])
    (initial_pool [Scenario.foo; Scenario.foo_again]) Scenario.pool_after.
Proof.
  eapply steps_head.
  { eapply (step_render _ _ _ _ _ _ 0%nat Scenario.foo Scenario.foo); reflexivity. }
  eapply steps_head.
  { eapply (step_render _ _ _ _ _ _ 1%nat Scenario.foo_again Scenario.foo_again); reflexivity. }
  eapply steps_head.
  { eapply (step_accept _ _ _ _ _ _ 0%nat Scenario.foo); [reflexivity | vm_compute; reflexivity]. }
  eapply steps_head.
  { eapply (step_conflict _ _ _ _ _ _ 1%nat Scenario.foo_again); [reflexivity | vm_compute; reflexivity]. }
  eapply steps_head.
  { eapply (step_deploy _ _ _ _ _ _ 0%nat Scenario.foo); [reflexivity | reflexivity | vm_compute; reflexivity]. }
  apply steps_refl.
Qed.


(** The same two descriptors under [_replicate]: the first deploys, the
    second is the duplicate. *)
Example replicate_skips_the_second_foo :
  fst (_replicate Scenario.quiet_env
         (Scenario.replicator Scenario.rendering [Scenario.foo; Scenario.foo_again]) [])
  = inr [mkDeployResult Scenario.rendered_foo DeployStatus.SUCCEEDED NoDetails;
         duplicate_skip Scenario.foo_again "foo"].
Proof. vm_compute. reflexivity. Qed.

(** *** Rendering failures and the set of accepted names *)
Lemma render_failure env renderer p e :
  Renderer._render renderer p = inl e ->
  Renderer.render env renderer p =
    mkRenderResult p RenderStatus.FAILED (Some (format_exc env e)) (Some e).
Proof. intros H. unfold Renderer.render. rewrite H. reflexivity. Qed.



(** *** Runs of [replicate] *)

(** A run whose only failure is a duplicate-name skip. *)
Lemma process_results_cleanup_gating_witness :
  exists evs,
    snd (ReplicationResultProcessor.process_results Scenario.quiet_env Scenario.processor
           [duplicate_skip Scenario.foo_again "foo"] []) = [] ++ evs /\
    forall t n, ~ In (DeletePipeline t n) evs.
Proof.
  apply (process_results_cleanup_gating Scenario.quiet_env Scenario.processor
           [duplicate_skip Scenario.foo_again "foo"] (duplicate_skip Scenario.foo_again "foo") []
           (fst (ReplicationResultProcessor.process_results Scenario.quiet_env Scenario.processor
                   [duplicate_skip Scenario.foo_again "foo"] []))).
  - left. reflexivity.
  - reflexivity.
  - apply surjective_pairing.
Defined.

(** C1, counterexample.  Two descriptors named [foo] are replicated to a
    backend that holds [foo] and [orphan].  The first deploy succeeds, the
    second descriptor is skipped as a duplicate; no other result lacks
    SUCCEEDED.  [orphan] is among existing-minus-deployed, the run ends
    normally, and [orphan] is not deleted. *)
Lemma duplicate_skip_suppresses_cleanup :
  let self := Scenario.replicator Scenario.rendering [Scenario.foo; Scenario.foo_again] in
  let results := fst (_replicate Scenario.quiet_env self []) in
  let run := replicate Scenario.quiet_env self [] in
  (exists r, results = inr [r; duplicate_skip Scenario.foo_again "foo"] /\
             deploy_status r = DeployStatus.SUCCEEDED /\
             In "orphan" (ReplicationResultProcessor.pipelines_to_remove Scenario.processor
                            ["foo"; "orphan"] [r; duplicate_skip Scenario.foo_again "foo"])) /\
  fst run = inr (inl true) /\
  ~ In (DeletePipeline Scenario.backend "orphan") (snd run).
Proof.
  cbv zeta. split; [| split].
  - eexists. split; [vm_compute; reflexivity |]. split; [reflexivity |].
    vm_compute. left. reflexivity.
  - vm_compute. reflexivity.
  - vm_compute. intros Hin.
    repeat (destruct Hin as [Hin | Hin]; [discriminate Hin |]). destruct Hin.
Qed.

(** What [process_results] looks at is the enumeration error stored in the
    descriptor, never the exception the renderer captured: a result that
    comes from a failed rendering is always notified. *)
Lemma render_failure_is_always_notified {D} `{DefinitionDeployer D} env (self : t D)
    d p e names h :
  exception d = None ->
  descriptor_preprocessor self d = inr p ->
  Renderer._render (definition_renderer self) p = inl e ->
  pipeline_name p ∉ names ->
  exists r names',
    _process_definition_descriptor env self d names h = (inr (r, names'), h) /\
    render_exception (Renderer.render env (definition_renderer self) p) = Some e /\
    ReplicationResultProcessor.should_notify_pipeline_owners r = true.
Proof.
  intros Hexc Hpre Hrender Hfresh.
  unfold _process_definition_descriptor. rewrite Hexc, bind_run. unfold lift. rewrite Hpre.
  rewrite (render_failure _ _ _ _ Hrender).
  cbn [render_definition_descriptor render_status render_error_details render_exception].
  rewrite (conflict_fresh _ _ Hfresh). do 2 eexists. split; [reflexivity |]. split; [reflexivity |].
  unfold ReplicationResultProcessor.should_notify_pipeline_owners.
  cbn [deploy_status definition_descriptor]. rewrite Hexc. reflexivity.
Qed.

(** When a failure is not to be notified, the loop over the failures ends
    with an [AttributeError] and the failures after it are not looked at. *)
Lemma suppressed_notification_raises env self failed_descriptor rest all_ok h :
  ReplicationResultProcessor.should_notify_pipeline_owners failed_descriptor = false ->
  ReplicationResultProcessor.notify_failed env self (failed_descriptor :: rest) all_ok h =
    (inl (raise_ AttributeError "'DeployResult' object has no attribute 'pipeline_name'"), h).
Proof. intros Hno. cbn [ReplicationResultProcessor.notify_failed]. rewrite Hno. reflexivity. Qed.

(** C6, the code at the failing input.  The rendering of [foo] raises a
    [TypeError], a class of the tuple [ignore_exceptions]; the exception is
    captured in the render result; the run nevertheless resolves CODEOWNERS
    and sends the owners an e-mail. *)
Theorem template_type_error_is_notified :
  let self := Scenario.replicator Scenario.breaking [Scenario.foo] in
  let run := replicate Scenario.quiet_env self [] in
  render_exception (Renderer.render Scenario.quiet_env Scenario.breaking Scenario.foo)
    = Some Scenario.template_type_error /\
  exc_type Scenario.template_type_error ∈ ReplicationResultProcessor.ignore_exceptions /\
  fst run = inr (inl true) /\
  In (EnumerateCodeowners "acme" "app") (snd run) /\
  exists subject body, In (SendMail ["owner@example.org"] subject body) (snd run).
Proof.
  cbv zeta. split; [reflexivity |]. split; [| split; [| split]].
  - apply (bool_decide_eq_true_1 _). reflexivity.
  - vm_compute. reflexivity.
  - vm_compute. tauto.
  - do 2 eexists. vm_compute. do 5 right. left. reflexivity.
Qed.

End ReplicatorFacts.

(** ** Facts about whd/pull_request.py *)
Module PullRequestFacts.
Import Py Eff EffFacts PullRequest.
Import PrScenario.

(** *** [ensure_pr_resource_updates] *)

Lemma iterations_app t1 t2 : iterations (t1 ++ t2) = (iterations t1 + iterations t2)%nat.
Proof. unfold iterations. rewrite List.filter_app, length_app. reflexivity. Qed.

Lemma checks_triggered_app t1 t2 :
  checks_triggered (t1 ++ t2) = (checks_triggered t1 + checks_triggered t2)%nat.
Proof. unfold checks_triggered. rewrite List.filter_app, length_app. reflexivity. Qed.

(** On a backend whose resource keeps failing to check, every frame polls,
    triggers a check and calls the next one, whatever [retries] is. *)
Lemma stuck_poll_never_gives_up depth :
  forall retries sleep_seconds h,
    let run := ensure_pr_resource_updates depth stuck_env opened [pr_resource]
                 retries sleep_seconds h in
    fst run = inl (raise_ RecursionError "maximum recursion depth exceeded") /\
    iterations (snd run) = (iterations h + depth)%nat /\
    checks_triggered (snd run) = (checks_triggered h + depth)%nat.
Proof.
  induction depth as [| depth IH]; intros retries sleep_seconds h.
  - cbv zeta. cbn [ensure_pr_resource_updates raise fst snd]. split; [reflexivity |]. split; lia.
  - cbn [ensure_pr_resource_updates]. cbv zeta.
    destruct (retries - 1 <? 0) eqn:Hgive;
      repeat first
        [ rewrite bind_run
        | rewrite call_run
        | progress cbn [ret raise when lift ask failing_to_check trigger_resource_check
                        stuck_env make_env outdated_resources] ];
      match goal with
      | |- context [ensure_pr_resource_updates depth _ _ _ ?r ?s ?hh] =>
          destruct (IH r s hh) as (Hfst & Hiter & Hchecks)
      end;
      cbv zeta in Hfst, Hiter, Hchecks; rewrite Hfst, Hiter, Hchecks;
      (split; [reflexivity |]); rewrite !iterations_app, !checks_triggered_app;
      unfold iterations, checks_triggered; cbn [List.filter length]; split; lia.
Qed.

(** C2, the code at the failing input.  On a backend whose PR resource keeps
    failing to check, [ensure_pr_resource_updates] polls and triggers a
    check in every frame the interpreter grants, whatever [retries] was (10 by
    default, or 0): once [retries] is used up it logs that it gives up and
    goes on, until the recursion limit ends it. *)
Theorem polling_goes_on_after_retries_are_used_up depth retries :
  let run := ensure_pr_resource_updates depth stuck_env opened [pr_resource]
               retries default_sleep_seconds [] in
  fst run = inl (raise_ RecursionError "maximum recursion depth exceeded") /\
  iterations (snd run) = depth /\
  checks_triggered (snd run) = depth.
Proof. apply (stuck_poll_never_gives_up depth retries default_sleep_seconds []). Qed.

(** At twelve frames with the defaults the twelfth poll still happens, and
    the message that the function gives up is in the trace. *)
Example twelve_iterations_with_default_retries :
  let run := ensure_pr_resource_updates 12 stuck_env opened [pr_resource]
               default_retries default_sleep_seconds [] in
  iterations (snd run) = 12%nat /\
  In (Log "could not update resources ['pull-request'] - giving up") (snd run).
Proof. cbv zeta. split; [reflexivity |]. vm_compute. do 31 right. left. reflexivity. Qed.

(** With [retries = 0] the first check is followed by a trigger and by
    further polls. *)
Example three_iterations_with_no_retries :
  let run := ensure_pr_resource_updates 3 stuck_env opened [pr_resource]
               0 default_sleep_seconds [] in
  iterations (snd run) = 3%nat /\ checks_triggered (snd run) = 3%nat.
Proof. cbv zeta. split; reflexivity. Qed.

(** *** The label policy *)

Section Membership.
Context (env : Env) (sender_login owner : string) (member : string -> bool) (org_member : bool).
Hypothesis team_answers : forall h team, is_team_member env h team sender_login = inr (member team).
Hypothesis org_answers : forall h, is_org_member env h owner sender_login = inr org_member.

Local Abbreviation decision := (PullRequest.decision member org_member).

Lemma any_team_member_answer teams h :
  exists evs, any_team_member env teams sender_login h = (inr (existsb member teams), h ++ evs) /\
              Forall (fun ev => exists team, In team teams /\ ev = IsTeamMember team sender_login)
                     evs.
Proof.
  revert h. induction teams as [| team rest IH]; intros h.
  - exists []. rewrite app_nil_r. split; [reflexivity | constructor].
  - cbn [any_team_member existsb]. rewrite bind_run, call_run, team_answers.
    destruct (member team); cbn [orb].
    + exists [IsTeamMember team sender_login]. split; [reflexivity |].
      repeat constructor. exists team. split; [left |]; reflexivity.
    + destruct (IH (h ++ [IsTeamMember team sender_login])) as [evs [Heq Hall]].
      exists (IsTeamMember team sender_login :: evs). rewrite Heq, <- app_assoc. split; [reflexivity |].
      constructor; [exists team; split; [left |]; reflexivity |].
      eapply Forall_impl; [exact Hall |]. intros ev (team' & Hin & ->).
      exists team'. split; [right; assumption | reflexivity].
Qed.

Lemma should_label_answer job_mapping github_hostname teams h :
  iter_trusted_teams_for_hostname (trusted_teams job_mapping) github_hostname = inr teams ->
  exists evs,
    _should_label env job_mapping sender_login owner github_hostname h
      = (inr (decision teams), h ++ evs) /\
    Forall (policy_question owner sender_login teams) evs /\
    (teams = [] -> evs = [IsOrgMember owner sender_login]).
Proof.
  intros Hteams. unfold _should_label. rewrite bind_run. unfold lift. rewrite Hteams.
  destruct teams as [| team rest].
  - rewrite bind_run, call_run, org_answers. cbn [decision].
    exists [IsOrgMember owner sender_login].
    split; [destruct org_member; reflexivity |]. split; [| reflexivity].
    repeat constructor.
  - rewrite bind_run.
    destruct (any_team_member_answer (team :: rest) h) as [evs [Heq Hall]].
    rewrite Heq. exists evs. cbn [decision].
    split; [destruct (existsb member (team :: rest)); reflexivity |].
    split; [exact Hall | discriminate].
Qed.

Lemma policy_question_not_add_labels teams ev n labels :
  policy_question owner sender_login teams ev -> ev <> AddLabelsToPullRequest n labels.
Proof. destruct teams; cbn; [intros -> | intros (team & _ & ->)]; discriminate. Qed.

Lemma policy_question_not_org team teams ev organization user :
  policy_question owner sender_login (team :: teams) ev -> ev <> IsOrgMember organization user.
Proof. intros (team' & _ & ->). discriminate. Qed.

(** C4 (as amended).  When at least one trusted team that matches the host
    is declared, the sender may have labels applied exactly when they are a
    member of one of these teams, and membership of the organisation is not
    asked: the only membership questions are about these teams.  When none
    is declared or none matches, the sender may have labels applied exactly
    when they are a member of the repository's owning organisation, which
    is the one question asked.  For an opened PR with required labels, the
    labels are applied exactly when that decision is positive, and no label
    is applied when it is negative. *)
Theorem label_policy_decision job_mapping teams pr_event cfg_set resources repo_name h :
  iter_trusted_teams_for_hostname (trusted_teams job_mapping) (hostname pr_event) = inr teams ->
  action pr_event = OPENED ->
  PullRequest.sender_login pr_event = sender_login ->
  split "/" (repository_path pr_event) = [owner; repo_name] ->
  find_job_mapping (job_mapping_sets cfg_set) (repository_url pr_event) = inr job_mapping ->
  required_labels resources <> [] ->
  fst (_should_label env job_mapping sender_login owner (hostname pr_event) h)
    = inr (decision teams) /\
  (exists asked,
     snd (_should_label env job_mapping sender_login owner (hostname pr_event) h) = h ++ asked /\
     Forall (policy_question owner sender_login teams) asked /\
     (teams = [] -> asked = [IsOrgMember owner sender_login])) /\
  exists evs,
    snd (set_pr_labels env pr_event cfg_set resources h) = h ++ evs /\
    (In (AddLabelsToPullRequest (number pr_event) (required_labels resources)) evs
       <-> decision teams = true) /\
    (decision teams = false -> forall n labels, ~ In (AddLabelsToPullRequest n labels) evs) /\
    (teams <> [] -> forall organization user, ~ In (IsOrgMember organization user) evs) /\
    (teams = [] ->
     In (IsOrgMember owner sender_login) evs /\
     forall team user, ~ In (IsTeamMember team user) evs).
Proof.
  intros Hteams Haction Hsender Hsplit Hmapping Hlabels.
  destruct (should_label_answer job_mapping (hostname pr_event) teams h Hteams)
    as (asked & Heq & Hasked & Hnone).
  split; [rewrite Heq; reflexivity |].
  split; [exists asked; rewrite Heq; auto |].
  unfold set_pr_labels.
  destruct (required_labels resources) as [| l ls] eqn:Hreq; [congruence |].
  rewrite Hsplit, bind_run. unfold lift. rewrite Hmapping, Haction, Hsender, bind_run, Heq.
  rewrite List.Forall_forall in Hasked.
  assert (Hends : forall last,
            (forall organization user, last <> IsOrgMember organization user) ->
            (forall team user, last <> IsTeamMember team user) ->
            (teams <> [] ->
             forall organization user, ~ In (IsOrgMember organization user) (asked ++ [last])) /\
            (teams = [] ->
             In (IsOrgMember owner sender_login) (asked ++ [last]) /\
             forall team user, ~ In (IsTeamMember team user) (asked ++ [last]))).
  { intros last Horg Hteam. split.
    - intros Hsome organization user Hin. apply in_app_iff in Hin as [Hin | [Hin | []]].
      + destruct teams as [| team rest]; [congruence |].
        exact (policy_question_not_org _ _ _ _ _ (Hasked _ Hin) eq_refl).
      + exact (Horg _ _ Hin).
    - intros Hempty. rewrite (Hnone Hempty). split; [left; reflexivity |].
      intros team user [Hin | [Hin | []]]; [discriminate Hin | exact (Hteam _ _ Hin)]. }
  destruct (decision teams).
  - rewrite bind_run, call_run.
    exists (asked ++ [AddLabelsToPullRequest (number pr_event) (l :: ls)]).
    split; [destruct (add_labels_to_pull_request env _ _ _) as [? | []]; cbn [ret snd];
            rewrite app_assoc; reflexivity |].
    split; [split; [reflexivity |]; intros _; apply in_app_iff; right; left; reflexivity |].
    split; [discriminate |].
    apply Hends; discriminate.
  - rewrite bind_run, call_run.
    match goal with |- context [AddCommentToPr ?n ?c] =>
      exists (asked ++ [AddCommentToPr n c]); set (comment := c) end.
    split; [destruct (add_comment_to_pr env _ _ _) as [? | []]; cbn [ret snd];
            rewrite app_assoc; reflexivity |].
    assert (Hno : forall n labels,
              ~ In (AddLabelsToPullRequest n labels)
                   (asked ++ [AddCommentToPr (number pr_event) comment])).
    { intros n labels Hin. apply in_app_iff in Hin as [Hin | [Hin | []]].
      - exact (policy_question_not_add_labels _ _ _ _ (Hasked _ Hin) eq_refl).
      - discriminate Hin. }
    split; [split; [intros Hin; exfalso; eapply Hno; eassumption | discriminate] |].
    split; [intros _; exact Hno |].
    apply Hends; discriminate.
Qed.

End Membership.

(** A member of the organisation who is in no trusted team opens a PR. *)
Lemma label_policy_decision_witness :
  fst (_should_label org_only_env core_team "dev" "acme" "github.com" [])
    = inr (decision (fun _ => false) true ["acme/core"]) /\
  (exists asked,
     snd (_should_label org_only_env core_team "dev" "acme" "github.com" []) = [] ++ asked /\
     Forall (policy_question "acme" "dev" ["acme/core"]) asked /\
     (["acme/core"] = [] -> asked = [IsOrgMember "acme" "dev"])) /\
  exists evs,
    snd (set_pr_labels org_only_env opened cfg_set [labelled_resource] []) = [] ++ evs /\
    (In (AddLabelsToPullRequest 42 (required_labels [labelled_resource])) evs
       <-> decision (fun _ => false) true ["acme/core"] = true) /\
    (decision (fun _ => false) true ["acme/core"] = false ->
     forall n labels, ~ In (AddLabelsToPullRequest n labels) evs) /\
    (["acme/core"] <> [] -> forall organization user, ~ In (IsOrgMember organization user) evs) /\
    (["acme/core"] = [] ->
     In (IsOrgMember "acme" "dev") evs /\
     forall team user, ~ In (IsTeamMember team user) evs).
Proof.
  apply (label_policy_decision org_only_env "dev" "acme" (fun _ => false) true
           (fun _ _ => eq_refl) (fun _ => eq_refl)
           core_team ["acme/core"] opened cfg_set [labelled_resource] "app" []);
    try reflexivity.
  discriminate.
Defined.

(** C4, counterexample.  One trusted team, [acme/core], is declared and
    matches the host; the sender is not a member of it, and is a member of
    the owning organisation [acme].  The claim lets the labels be applied
    (otherwise, iff the sender is a member of the organisation); the code
    decides against, and applies none. *)
Lemma org_member_outside_trusted_teams_gets_no_label :
  let run := set_pr_labels org_only_env opened cfg_set [labelled_resource] [] in
  iter_trusted_teams_for_hostname (trusted_teams core_team) "github.com" = inr ["acme/core"] /\
  is_team_member org_only_env [] "acme/core" "dev" = inr false /\
  is_org_member org_only_env [] "acme" "dev" = inr true /\
  fst (_should_label org_only_env core_team "dev" "acme" "github.com" []) = inr false /\
  fst run = inr false /\
  forall n labels, ~ In (AddLabelsToPullRequest n labels) (snd run).
Proof.
  cbv zeta. repeat (split; [reflexivity |]).
  vm_compute. intros n labels Hin.
  repeat (destruct Hin as [Hin | Hin]; [discriminate Hin |]). destruct Hin.
Qed.

End PullRequestFacts.

(** ** Facts about cnudie/retrieve.py *)
Module RetrieveFacts.
Import Py Eff EffFacts Retrieve.

Lemma for_each_writebacks_returned wbs component_id d h h' :
  for_each wbs (fun wb => WriteBack_call wb component_id d) h = (inr tt, h') ->
  h' = h ++ map (writeback_event component_id d) wbs.
Proof.
  revert h. induction wbs as [| wb rest IH]; intros h.
  - cbn. intros [= <-]. rewrite app_nil_r. reflexivity.
  - cbn [for_each map]. rewrite bind_run. unfold WriteBack_call at 1. rewrite call_run.
    destruct (writeback wb h component_id d) as [e | []]; [discriminate |].
    intros Hrest. apply IH in Hrest. rewrite Hrest, <- app_assoc. reflexivity.
Qed.

Lemma for_each_writebacks_return wbs component_id d h :
  (forall wb h, In wb wbs -> writeback wb h component_id d = inr tt) ->
  for_each wbs (fun wb => WriteBack_call wb component_id d) h
    = (inr tt, h ++ map (writeback_event component_id d) wbs).
Proof.
  revert h. induction wbs as [| wb rest IH]; intros h Hok.
  - cbn. rewrite app_nil_r. reflexivity.
  - cbn [for_each map]. rewrite bind_run. unfold WriteBack_call at 1. rewrite call_run.
    rewrite (Hok wb h (or_introl eq_refl)).
    rewrite IH by (intros; apply Hok; right; assumption).
    rewrite <- app_assoc. reflexivity.
Qed.

Lemma collected_app a b : collected (a ++ b) = collected a ++ collected b.
Proof. unfold collected. apply flat_map_app. Qed.

Lemma walk_found lookups component_id ctx_repo d :
  forall layer wbs h h',
    walk lookups layer component_id ctx_repo wbs h = (inr (Some d), h') ->
    exists k,
      answers lookups layer component_id ctx_repo h !! k = Some (inr (Found d)) /\
      (forall i a, (i < k)%nat -> answers lookups layer component_id ctx_repo h !! i = Some a ->
                   is_miss a = true) /\
      h' = h ++ lookup_events (S k) layer component_id ctx_repo
             ++ map (writeback_event component_id d)
                  (wbs ++ collected (take k (answers lookups layer component_id ctx_repo h))).
Proof.
  induction lookups as [| lookup rest IH]; intros layer wbs h h'.
  - cbn. discriminate.
  - cbn [walk answers]. cbv zeta. rewrite bind_run. unfold try_except. rewrite call_run.
    set (arg := if ctx_truthy ctx_repo then Some ctx_repo else None).
    set (h1 := h ++ [LookupCalled layer component_id arg]).
    destruct (lookup h component_id arg) as [e | res] eqn:Hanswer.
    + destruct (issubclass (exc_type e) OciImageNotFoundException) eqn:Hnf; [| discriminate].
      cbn [ret]. intros Hwalk. destruct (IH _ _ _ _ Hwalk) as [k [Hk [Hmiss ->]]].
      exists (S k). split; [exact Hk |]. split.
      * intros [| i] a Hlt; cbn; [intros [= <-]; exact Hnf | intros Hi; apply (Hmiss i a); [lia | exact Hi]].
      * subst h1. cbn [lookup_events take collected flat_map app]. fold arg.
        rewrite <- !app_assoc. reflexivity.
    + destruct res as [d' | | wb |].
      * rewrite bind_run.
        destruct (for_each wbs _ h1) as [[e | []] h2] eqn:Hwbs; [discriminate |].
        cbn [ret]. intros [= -> <-].
        apply for_each_writebacks_returned in Hwbs. subst h2.
        exists 0%nat. split; [reflexivity |]. split; [intros i a Hlt; lia |].
        subst h1. cbn [lookup_events take collected flat_map]. fold arg.
        rewrite app_nil_r, <- !app_assoc. reflexivity.
      * intros Hwalk. destruct (IH _ _ _ _ Hwalk) as [k [Hk [Hmiss ->]]].
        exists (S k). split; [exact Hk |]. split.
        -- intros [| i] a Hlt; cbn; [intros [= <-]; reflexivity | intros Hi; apply (Hmiss i a); [lia | exact Hi]].
        -- subst h1. cbn [lookup_events take collected flat_map app]. fold arg.
           rewrite <- !app_assoc. reflexivity.
      * intros Hwalk. destruct (IH _ _ _ _ Hwalk) as [k [Hk [Hmiss ->]]].
        exists (S k). split; [exact Hk |]. split.
        -- intros [| i] a Hlt; cbn; [intros [= <-]; reflexivity | intros Hi; apply (Hmiss i a); [lia | exact Hi]].
        -- subst h1. cbn [lookup_events take collected flat_map app]. fold arg.
           rewrite <- !app_assoc. reflexivity.
      * intros Hwalk. destruct (IH _ _ _ _ Hwalk) as [k [Hk [Hmiss ->]]].
        exists (S k). split; [exact Hk |]. split.
        -- intros [| i] a Hlt; cbn; [intros [= <-]; reflexivity | intros Hi; apply (Hmiss i a); [lia | exact Hi]].
        -- subst h1. cbn [lookup_events take collected flat_map app]. fold arg.
           rewrite <- !app_assoc. reflexivity.
Qed.

Lemma writeback_calls_of_lookups n layer component_id ctx_repo :
  writeback_calls (lookup_events n layer component_id ctx_repo) = [].
Proof. revert layer. induction n as [| n IH]; intros layer; [reflexivity | cbn; apply IH]. Qed.

Lemma writeback_calls_of_writebacks component_id d wbs :
  writeback_calls (map (writeback_event component_id d) wbs)
    = map (writeback_event component_id d) wbs.
Proof.
  induction wbs as [| wb wbs IH]; [reflexivity |].
  cbn [map]. unfold writeback_calls in *. cbn [List.filter writeback_event]. rewrite IH. reflexivity.
Qed.

Lemma writeback_calls_app t1 t2 : writeback_calls (t1 ++ t2) = writeback_calls t1 ++ writeback_calls t2.
Proof. unfold writeback_calls. apply List.filter_app. Qed.

(** The layers [0..k] miss up to a hit at [k]: the walk asks them in turn
    and goes on with the write-backs it has collected. *)
Lemma walk_reaches lookups component_id ctx_repo d :
  forall layer wbs h k,
    answers lookups layer component_id ctx_repo h !! k = Some (inr (Found d)) ->
    (forall i a, (i < k)%nat -> answers lookups layer component_id ctx_repo h !! i = Some a ->
                 is_miss a = true) ->
    walk lookups layer component_id ctx_repo wbs h =
      bind (for_each (wbs ++ collected (take k (answers lookups layer component_id ctx_repo h)))
              (fun wb => WriteBack_call wb component_id d))
           (fun _ => ret (Some d))
           (h ++ lookup_events (S k) layer component_id ctx_repo).
Proof.
  induction lookups as [| lookup rest IH]; intros layer wbs h k Hk Hmiss.
  - destruct k; discriminate Hk.
  - cbn [walk answers] in *. cbv zeta in *. rewrite bind_run. unfold try_except. rewrite call_run.
    set (arg := if ctx_truthy ctx_repo then Some ctx_repo else None) in *.
    set (h1 := h ++ [LookupCalled layer component_id arg]) in *.
    destruct k as [| k].
    + cbn in Hk. injection Hk as Hk. rewrite Hk.
      cbn [take collected flat_map lookup_events]. rewrite app_nil_r. reflexivity.
    + cbn in Hk.
      pose proof (Hmiss 0%nat _ ltac:(lia) eq_refl) as Hfirst.
      assert (Hmiss' : forall i a, (i < k)%nat ->
                answers rest (S layer) component_id ctx_repo h1 !! i = Some a -> is_miss a = true).
      { intros i a Hlt Hi. apply (Hmiss (S i) a); [lia | exact Hi]. }
      destruct (lookup h component_id arg) as [e | res] eqn:Hanswer.
      * cbn [is_miss] in Hfirst. rewrite Hfirst. cbn [ret].
        rewrite (IH _ _ _ k Hk Hmiss').
        subst h1. cbn [lookup_events take collected flat_map app]. fold arg.
        rewrite <- !app_assoc. reflexivity.
      * destruct res as [d' | | wb |]; [discriminate Hfirst | | |];
          rewrite (IH _ _ _ k Hk Hmiss');
          subst h1; cbn [lookup_events take collected flat_map app]; fold arg;
          rewrite <- !app_assoc; reflexivity.
Qed.

(** The replay of the collected write-backs: either all of them are called
    and return, or one of them raises and is the last one called. *)
Lemma replay_outcome wbs component_id d :
  forall h,
    for_each wbs (fun wb => WriteBack_call wb component_id d) h
      = (inr tt, h ++ map (writeback_event component_id d) wbs) \/
    exists pre wb post e,
      wbs = pre ++ wb :: post /\
      writeback wb (h ++ map (writeback_event component_id d) pre) component_id d = inl e /\
      for_each wbs (fun wb => WriteBack_call wb component_id d) h
        = (inl e, h ++ map (writeback_event component_id d) (pre ++ [wb])).
Proof.
  induction wbs as [| first rest IH]; intros h.
  - left. cbn. rewrite app_nil_r. reflexivity.
  - cbn [for_each map]. rewrite bind_run. unfold WriteBack_call at 1 3. rewrite call_run.
    destruct (writeback first h component_id d) as [e | []] eqn:Hfirst.
    + right. exists [], first, rest, e. cbn [app map]. rewrite app_nil_r.
      split; [reflexivity |]. split; [assumption | reflexivity].
    + destruct (IH (h ++ [WriteBackCalled (writeback_id first) component_id d]))
        as [Hall | (pre & wb & post & e & -> & Hraise & Hrun)].
      * left. rewrite Hall, <- app_assoc. reflexivity.
      * right. exists (first :: pre), wb, post, e. cbn [app map].
        split; [reflexivity |]. rewrite <- app_assoc in Hraise. split; [exact Hraise |].
        rewrite Hrun, <- app_assoc. reflexivity.
Qed.

(** C9 (as amended).  When layer [k] answers with the descriptor and the
    layers before it miss, the composite lookup asks the layers up to [k]
    and then calls the write-backs collected from the layers before [k],
    in the order of the layers, each with the found descriptor.  When all
    of them return, each has been called exactly once and the descriptor is
    returned.  When one of them raises, it is the last one called: those
    collected after it are not called, and the lookup raises its exception
    instead of returning the descriptor.  The trace holds no other
    write-back call. *)
Theorem hit_replays_collected_writebacks lookups component_id ctx_repo absent_ok h k d :
  let answered := answers lookups 0 component_id ctx_repo h in
  let writebacks := collected (take k answered) in
  let asked := lookup_events (S k) 0 component_id ctx_repo in
  let run := composite_component_descriptor_lookup lookups component_id ctx_repo absent_ok h in
  answered !! k = Some (inr (Found d)) ->
  (forall i a, (i < k)%nat -> answered !! i = Some a -> is_miss a = true) ->
  exists called,
    snd run = h ++ asked ++ map (writeback_event component_id d) called /\
    writeback_calls (asked ++ map (writeback_event component_id d) called)
      = map (writeback_event component_id d) called /\
    ((fst run = inr (Some d) /\ called = writebacks) \/
     (exists pre wb post e,
        writebacks = pre ++ wb :: post /\ called = pre ++ [wb] /\
        writeback wb (h ++ asked ++ map (writeback_event component_id d) pre) component_id d
          = inl e /\
        fst run = inl e)).
Proof.
  cbv zeta. intros Hk Hmiss.
  unfold composite_component_descriptor_lookup.
  rewrite bind_run, (walk_reaches _ _ _ _ _ _ _ _ Hk Hmiss), bind_run.
  cbn [app].
  set (wbs := collected (take k (answers lookups 0 component_id ctx_repo h))).
  set (asked := lookup_events (S k) 0 component_id ctx_repo).
  assert (Hcalls : forall called,
            writeback_calls (asked ++ map (writeback_event component_id d) called)
            = map (writeback_event component_id d) called).
  { intros called. unfold asked.
    rewrite writeback_calls_app, writeback_calls_of_lookups, writeback_calls_of_writebacks.
    reflexivity. }
  destruct (replay_outcome wbs component_id d (h ++ asked))
    as [Hall | (pre & wb & post & e & Hwbs & Hraise & Hrun)].
  - exists wbs. rewrite Hall. cbn [ret fst snd]. rewrite <- app_assoc.
    split; [reflexivity |]. split; [apply Hcalls |]. left. split; reflexivity.
  - exists (pre ++ [wb]). rewrite Hrun. cbn [fst snd]. rewrite <- app_assoc.
    split; [reflexivity |]. split; [apply Hcalls |]. right.
    exists pre, wb, post, e. rewrite <- app_assoc in Hraise. auto.
Qed.

(** The default stack of lookups: two caches, the delivery service, the
    registry, which has the descriptor. *)
Lemma hit_replays_collected_writebacks_witness :
  let answered := answers LookupScenario.default_lookups 0 LookupScenario.component_id
                    LookupScenario.ctx_repo [] in
  let writebacks := collected (take 3 answered) in
  let asked := lookup_events 4 0 LookupScenario.component_id LookupScenario.ctx_repo in
  let run := composite_component_descriptor_lookup LookupScenario.default_lookups
               LookupScenario.component_id LookupScenario.ctx_repo false [] in
  exists called,
    snd run = [] ++ asked
                 ++ map (writeback_event LookupScenario.component_id LookupScenario.descriptor)
                      called /\
    writeback_calls
      (asked ++ map (writeback_event LookupScenario.component_id LookupScenario.descriptor) called)
      = map (writeback_event LookupScenario.component_id LookupScenario.descriptor) called /\
    ((fst run = inr (Some LookupScenario.descriptor) /\ called = writebacks) \/
     (exists pre wb post e,
        writebacks = pre ++ wb :: post /\ called = pre ++ [wb] /\
        writeback wb
          ([] ++ asked
              ++ map (writeback_event LookupScenario.component_id LookupScenario.descriptor) pre)
          LookupScenario.component_id LookupScenario.descriptor
          = inl e /\
        fst run = inl e)).
Proof.
  cbv zeta.
  apply (hit_replays_collected_writebacks LookupScenario.default_lookups
           LookupScenario.component_id LookupScenario.ctx_repo false [] 3
           LookupScenario.descriptor).
  - reflexivity.
  - intros [| [| [| i]]] a Hlt; [| | | lia]; cbn; intros [= <-]; reflexivity.
Defined.

(** C9, counterexample.  The registry, at layer 3, has a descriptor that
    tells no repository context; both caches, at the layers 0 and 1, have
    answered with their write-back.  The write-back of the in-memory cache
    raises [ValueError]: that of the file-system cache is never called, and
    the lookup raises instead of returning the descriptor that was found. *)
Lemma hit_leaves_a_writeback_uncalled :
  let answered := answers CacheScenario.lookups 0 LookupScenario.component_id
                    LookupScenario.ctx_repo [] in
  let run := composite_component_descriptor_lookup CacheScenario.lookups
               LookupScenario.component_id LookupScenario.ctx_repo false [] in
  answered !! 3%nat = Some (inr (Found CacheScenario.homeless)) /\
  answered !! 0%nat = Some (inr (WriteBackResult CacheScenario.memory_writeback)) /\
  answered !! 1%nat = Some (inr (WriteBackResult CacheScenario.filesystem_writeback)) /\
  answered !! 2%nat = Some (inr NoneResult) /\
  fst run = inl (raise_ ValueError "None") /\
  writeback_calls (snd run)
    = [WriteBackCalled (writeback_id CacheScenario.memory_writeback)
         LookupScenario.component_id CacheScenario.homeless] /\
  ~ In (WriteBackCalled (writeback_id CacheScenario.filesystem_writeback)
          LookupScenario.component_id CacheScenario.homeless) (snd run).
Proof.
  cbv zeta. repeat (split; [reflexivity |]).
  vm_compute. intros Hin.
  repeat (destruct Hin as [Hin | Hin]; [discriminate Hin |]). destruct Hin.
Qed.

Lemma walk_hit lookups component_id ctx_repo d :
  forall layer wbs h k,
    answers lookups layer component_id ctx_repo h !! k = Some (inr (Found d)) ->
    (forall i a, (i < k)%nat -> answers lookups layer component_id ctx_repo h !! i = Some a ->
                 is_miss a = true) ->
    (forall wb h0, In wb (wbs ++ collected (take k (answers lookups layer component_id ctx_repo h))) ->
                   writeback wb h0 component_id d = inr tt) ->
    walk lookups layer component_id ctx_repo wbs h =
      (inr (Some d),
       h ++ lookup_events (S k) layer component_id ctx_repo
         ++ map (writeback_event component_id d)
              (wbs ++ collected (take k (answers lookups layer component_id ctx_repo h)))).
Proof.
  induction lookups as [| lookup rest IH]; intros layer wbs h k Hk Hmiss Hok.
  - destruct k; discriminate Hk.
  - cbn [walk answers] in *. cbv zeta in *. rewrite bind_run. unfold try_except. rewrite call_run.
    set (arg := if ctx_truthy ctx_repo then Some ctx_repo else None) in *.
    set (h1 := h ++ [LookupCalled layer component_id arg]) in *.
    destruct k as [| k].
    + cbn in Hk. injection Hk as Hk. rewrite Hk. rewrite bind_run.
      cbn [take collected flat_map] in *. rewrite app_nil_r in *.
      rewrite for_each_writebacks_return by (intros; apply Hok; assumption).
      cbn [ret lookup_events]. fold arg. subst h1. rewrite <- !app_assoc. reflexivity.
    + cbn in Hk.
      pose proof (Hmiss 0%nat _ ltac:(lia) eq_refl) as Hfirst.
      assert (Hmiss' : forall i a, (i < k)%nat ->
                answers rest (S layer) component_id ctx_repo h1 !! i = Some a -> is_miss a = true).
      { intros i a Hlt Hi. apply (Hmiss (S i) a); [lia | exact Hi]. }
      destruct (lookup h component_id arg) as [e | res] eqn:Hanswer.
      * cbn [is_miss] in Hfirst. rewrite Hfirst. cbn [ret].
        rewrite (IH _ _ _ k Hk Hmiss') by (intros wb' h' Hin; apply Hok; exact Hin).
        subst h1. cbn [lookup_events take collected flat_map app]. fold arg.
        rewrite <- !app_assoc. reflexivity.
      * destruct res as [d' | | wb |]; [discriminate Hfirst | | |].
        -- rewrite (IH _ _ _ k Hk Hmiss') by (intros wb' h' Hin; apply Hok; exact Hin).
           subst h1. cbn [lookup_events take collected flat_map app]. fold arg.
           rewrite <- !app_assoc. reflexivity.
        -- rewrite (IH _ _ _ k Hk Hmiss')
             by (intros wb' h' Hin; apply Hok; rewrite <- app_assoc in Hin; exact Hin).
           subst h1. cbn [lookup_events take collected flat_map app]. fold arg.
           rewrite <- !app_assoc. reflexivity.
        -- rewrite (IH _ _ _ k Hk Hmiss') by (intros wb' h' Hin; apply Hok; exact Hin).
           subst h1. cbn [lookup_events take collected flat_map app]. fold arg.
           rewrite <- !app_assoc. reflexivity.
Qed.

(** X18.  The other direction: when layer [k] has the descriptor, the
    layers before it miss and the write-backs collected from them return,
    the composite lookup returns the descriptor; the layers after [k] are
    not asked, and each collected write-back is called once, in order. *)
Lemma hit_returns lookups component_id ctx_repo absent_ok h k d :
  answers lookups 0 component_id ctx_repo h !! k = Some (inr (Found d)) ->
  (forall i a, (i < k)%nat -> answers lookups 0 component_id ctx_repo h !! i = Some a ->
               is_miss a = true) ->
  (forall wb h0, In wb (collected (take k (answers lookups 0 component_id ctx_repo h))) ->
                 writeback wb h0 component_id d = inr tt) ->
  composite_component_descriptor_lookup lookups component_id ctx_repo absent_ok h =
    (inr (Some d),
     h ++ lookup_events (S k) 0 component_id ctx_repo
       ++ map (writeback_event component_id d)
            (collected (take k (answers lookups 0 component_id ctx_repo h)))).
Proof.
  intros Hk Hmiss Hok. unfold composite_component_descriptor_lookup. rewrite bind_run.
  rewrite (walk_hit _ _ _ _ _ [] _ k Hk Hmiss Hok). reflexivity.
Qed.

(** A write-back that raises ends the lookup: the write-backs collected after
    it are not called. *)
Lemma raising_writeback_ends_replay wb rest component_id d h e :
  writeback wb h component_id d = inl e ->
  for_each (wb :: rest) (fun wb => WriteBack_call wb component_id d) h
    = (inl e, h ++ [writeback_event component_id d wb]).
Proof.
  intros Hraise. cbn [for_each]. rewrite bind_run. unfold WriteBack_call at 1.
  rewrite call_run, Hraise. reflexivity.
Qed.

(** The trace of that lookup: four lookups, then the two write-backs. *)
Example default_lookups_trace :
  composite_component_descriptor_lookup LookupScenario.default_lookups
    LookupScenario.component_id LookupScenario.ctx_repo false [] =
  (inr (Some LookupScenario.descriptor),
   [LookupCalled 0 LookupScenario.component_id (Some LookupScenario.ctx_repo);
    LookupCalled 1 LookupScenario.component_id (Some LookupScenario.ctx_repo);
    LookupCalled 2 LookupScenario.component_id (Some LookupScenario.ctx_repo);
    LookupCalled 3 LookupScenario.component_id (Some LookupScenario.ctx_repo);
    WriteBackCalled 0 LookupScenario.component_id LookupScenario.descriptor;
    WriteBackCalled 1 LookupScenario.component_id LookupScenario.descriptor]).
Proof. reflexivity. Qed.

End RetrieveFacts.

(** ** Facts about oci/__init__.py *)
Module OciFacts.
Import Py Eff EffFacts Oci.

(** *** Shape of the traces *)
Ltac trace_step :=
  match goal with
  | |- emits _ (bind _ _) => apply emits_bind; [| intros ?]
  | |- emits _ (ret _) => apply emits_ret
  | |- emits _ (raise _) => apply emits_raise
  | |- emits _ (lift _) => apply emits_lift
  | |- emits _ (call _ _) => apply emits_call; exact I
  | |- emits _ (match ?x with _ => _ end) => destruct x
  | |- emits _ (if ?x then _ else _) => destruct x
  end.

Lemma blobs_loop_extends env src tgt need blobs synth digests :
  emits any_event (replicate_blobs_loop env src tgt need blobs synth digests).
Proof.
  revert synth digests. induction blobs as [| [idx layer] rest IH]; intros synth digests;
    cbn [replicate_blobs_loop]; [apply emits_ret |].
  unfold put_blob_intercepted. repeat first [apply IH | trace_step].
Qed.

Lemma synthesise_extends env tgt manifest raw digests :
  emits any_event (synthesise_cfg_blob env tgt manifest raw digests).
Proof. unfold synthesise_cfg_blob. repeat trace_step. Qed.

Lemma sub_manifests_extends env (self : Replicate) client src_name tgt_name filter ann entries
    manifests dirty :
  (forall src tgt c a, emits any_event (self src tgt c a)) ->
  emits any_event
    (replicate_sub_manifests env self client src_name tgt_name filter ann entries manifests dirty).
Proof.
  intros Hself. revert manifests dirty.
  induction entries as [| [idx sub] rest IH]; intros manifests dirty;
    cbn [replicate_sub_manifests]; [apply emits_ret |].
  repeat first [apply IH | apply Hself | trace_step].
Qed.

Lemma replicate_artifact_extends depth env src tgt creds client mode filter ann :
  emits any_event (replicate_artifact depth env src tgt creds client mode filter ann).
Proof.
  revert src tgt creds client mode filter ann.
  induction depth as [| depth IH]; intros; cbn [replicate_artifact]; [apply emits_raise |].
  unfold replicate_manifest_list, normalise_to_multiarch, replicate_single_image.
  repeat first [apply IH | apply blobs_loop_extends | apply synthesise_extends
               | apply sub_manifests_extends; intros | trace_step].
Qed.

(** Where a step left the trace. *)
Lemma extended {A} (m : Eff.M Event A) h r h' :
  emits any_event m -> m h = (r, h') -> exists evs, h' = h ++ evs.
Proof. intros Hm Hrun. destruct (emits_trace _ _ _ _ _ Hm Hrun) as [evs [-> _]]. eauto. Qed.

(** *** The manifest is put last *)
Lemma put_last_after env h evs h' out :
  put_last env (h ++ evs) h' out -> put_last env h h' out.
Proof.
  intros [pre [-> Hput]]. exists (evs ++ pre). rewrite <- !app_assoc in *.
  split; [reflexivity | assumption].
Qed.

Lemma final_put env ref bytes h out h' :
  bind (call (PutManifest ref bytes) (fun h => put_manifest env h ref bytes))
       (fun res => ret (res, ref, bytes)) h = (inr out, h') ->
  put_last env h h' out.
Proof.
  intros Hrun. apply bind_returns in Hrun as (res & h1 & Hput & Hrun).
  apply call_returns in Hput as [Hput ->]. apply ret_returns in Hrun as [-> ->].
  exists []. rewrite app_nil_r. split; [reflexivity | assumption].
Qed.

Lemma single_image_puts_last env src tgt annotations manifest raw synth need h out h' :
  replicate_single_image env src tgt annotations manifest raw synth need h = (inr out, h') ->
  put_last env h h' out.
Proof.
  unfold replicate_single_image. intros Hrun.
  apply bind_returns in Hrun as (state & h1 & Hloop & Hrun).
  apply (extended _ _ _ _ (blobs_loop_extends _ _ _ _ _ _ _)) in Hloop as [evs1 ->].
  apply bind_returns in Hrun as (raw' & h2 & Hraw & Hrun).
  apply put_last_after with (evs := evs1).
  assert (exists evs2, h2 = (h ++ evs1) ++ evs2) as [evs2 ->].
  { destruct (fst state).
    - apply (extended _ _ _ _ (synthesise_extends _ _ _ _ _)) in Hraw. assumption.
    - apply ret_returns in Hraw as [_ ->]. exists []. rewrite app_nil_r. reflexivity. }
  apply put_last_after with (evs := evs2). apply final_put in Hrun. exact Hrun.
Qed.

Lemma manifest_list_puts_last env (self : Replicate) client src tgt filter annotations manifest raw
    h out h' :
  (forall src tgt c a, emits any_event (self src tgt c a)) ->
  replicate_manifest_list env self client src tgt filter annotations manifest raw h = (inr out, h') ->
  put_last env h h' out.
Proof.
  intros Hself. unfold replicate_manifest_list. intros Hrun.
  apply bind_returns in Hrun as (ml & h1 & Hml & Hrun).
  apply lift_returns in Hml as [_ ->].
  apply bind_returns in Hrun as (state & h2 & Hloop & Hrun).
  eapply extended in Hloop as [evs1 ->]; [| apply sub_manifests_extends; assumption].
  apply put_last_after with (evs := evs1). apply final_put in Hrun. exact Hrun.
Qed.

Lemma normalise_puts_last env (self : Replicate) client src tgt annotations media_type h out h' :
  (forall src tgt c a, emits any_event (self src tgt c a)) ->
  normalise_to_multiarch env self client src tgt annotations media_type h = (inr out, h') ->
  put_last env h h' out.
Proof.
  intros Hself. unfold normalise_to_multiarch. intros Hrun.
  apply bind_returns in Hrun as (src' & h1 & Hsrc & Hrun).
  assert (exists evs0, h1 = h ++ evs0) as [evs0 ->].
  { destruct (negb (has_digest_tag src)).
    - destruct client; [| discriminate Hsrc].
      apply bind_returns in Hsrc as (resolved & h2 & Hres & Hsrc).
      apply call_returns in Hres as [_ ->]. apply ret_returns in Hsrc as [_ ->]. eauto.
    - apply ret_returns in Hsrc as [_ ->]. exists []. rewrite app_nil_r. reflexivity. }
  apply put_last_after with (evs := evs0).
  apply bind_returns in Hrun as (platform & h2 & Hplat & Hrun).
  apply call_returns in Hplat as [_ ->].
  apply put_last_after with (evs := [FromSingleImage (str_ref src')]).
  apply bind_returns in Hrun as (replicated & h3 & Hsub & Hrun).
  apply (extended _ _ _ _ (Hself _ _ _ _)) in Hsub as [evs1 ->].
  apply put_last_after with (evs := evs1).
  destruct client.
  - apply final_put in Hrun. exact Hrun.
  - apply bind_returns in Hrun as (? & ? & Hput & _). discriminate Hput.
Qed.

Lemma replicate_artifact_puts_last depth env src tgt credentials_lookup oci_client mode
    platform_filter annotations h out h' :
  replicate_artifact depth env src tgt credentials_lookup oci_client mode platform_filter
    annotations h = (inr out, h') ->
  put_last env h h' out.
Proof.
  intros Hrun.
  destruct depth as [| depth]; [discriminate Hrun |]. cbn [replicate_artifact] in Hrun.
  destruct (negb (xorb credentials_lookup oci_client)); [discriminate Hrun |].
  apply bind_returns in Hrun as (resp & h1 & Hresp & Hrun).
  apply call_returns in Hresp as [_ ->].
  eapply put_last_after.
  apply bind_returns in Hrun as (loaded & h2 & Hloaded & Hrun).
  apply lift_returns in Hloaded as [_ ->].
  destruct (snd loaded =? 1).
  { apply bind_returns in Hrun as (v1 & h3 & Hv1 & Hrun).
    apply call_returns in Hv1 as [_ ->].
    apply bind_returns in Hrun as (manifest & h4 & Hconv & Hrun).
    apply call_returns in Hconv as [_ ->].
    do 2 eapply put_last_after. eapply single_image_puts_last. exact Hrun. }
  destruct (snd loaded =? 2); [| discriminate Hrun].
  destruct (media_type_of (fst loaded)) as [media_type |]; [| discriminate Hrun].
  destruct (is_multiarch media_type).
  { eapply manifest_list_puts_last; [| exact Hrun].
    intros. apply replicate_artifact_extends. }
  destruct (is_single_image media_type); [| discriminate Hrun].
  destruct (bool_decide (mode = NORMALISE_TO_MULTIARCH)).
  - eapply normalise_puts_last; [| exact Hrun]. intros. apply replicate_artifact_extends.
  - apply bind_returns in Hrun as (reparsed & h3 & Hre & Hrun).
    apply lift_returns in Hre as [_ ->].
    apply bind_returns in Hrun as (manifest & h4 & Hm & Hrun).
    apply lift_returns in Hm as [_ ->].
    eapply single_image_puts_last. exact Hrun.
Qed.

(** X1.  Whatever the path taken (legacy image, single image, index, or
    normalisation to an index), a call of [replicate_artifact] that returns
    has put the manifest it returns as its very last request, under the
    reference it returns, and hands out the answer to that request: all
    blobs and sub-manifests went to the target before. *)
Theorem returned_manifest_is_put_last depth env src tgt credentials_lookup oci_client mode
    platform_filter annotations h res ref bytes h' :
  replicate_artifact depth env src tgt credentials_lookup oci_client mode platform_filter
    annotations h = (inr (res, ref, bytes), h') ->
  exists pre,
    h' = h ++ pre ++ [PutManifest ref bytes] /\
    put_manifest env (h ++ pre) ref bytes = inr res.
Proof.
  intros Hrun. change (put_last env h h' (res, ref, bytes)).
  eapply replicate_artifact_puts_last. exact Hrun.
Qed.

(** *** The reference the manifest is put under *)
Lemma single_image_target env src tgt annotations manifest raw synth need h res ref bytes h' :
  replicate_single_image env src tgt annotations manifest raw synth need h
    = (inr (res, ref, bytes), h') ->
  has_tag tgt = true -> ref = str_ref tgt.
Proof.
  unfold replicate_single_image. intros Hrun Htag.
  apply bind_returns in Hrun as (state & h1 & _ & Hrun).
  apply bind_returns in Hrun as (raw' & h2 & _ & Hrun).
  apply bind_returns in Hrun as (res' & h3 & _ & Hrun).
  apply ret_returns in Hrun as [[= _ -> _] _]. rewrite Htag. reflexivity.
Qed.

Lemma manifest_list_target env (self : Replicate) client src tgt filter annotations manifest raw
    h res ref bytes h' :
  replicate_manifest_list env self client src tgt filter annotations manifest raw h
    = (inr (res, ref, bytes), h') ->
  has_tag tgt = true -> ref = str_ref tgt.
Proof.
  unfold replicate_manifest_list. intros Hrun Htag.
  apply bind_returns in Hrun as (ml & h1 & _ & Hrun).
  apply bind_returns in Hrun as (state & h2 & _ & Hrun).
  apply bind_returns in Hrun as (res' & h3 & _ & Hrun).
  apply ret_returns in Hrun as [[= _ -> _] _]. rewrite Htag. reflexivity.
Qed.

(** *** Verbatim replication *)
Section Verbatim.
Context (env : Env).

(** The source serves no legacy manifest. *)
Hypothesis no_legacy_manifest :
  forall h ref accept resp loaded,
    manifest_raw env h ref accept = inr resp ->
    load_manifest env resp = inr loaded -> snd loaded <> 1.

(** The source has the config blob of every image. *)
Hypothesis config_blobs_served :
  forall h ref d, blob env h ref d true <> inr None.

(** What the source serves under [name@digest] has that digest. *)
Hypothesis content_addressed :
  forall h name d accept resp,
    manifest_raw env h (str_ref (to_image_ref env (name +:+ "@" +:+ d))) accept = inr resp ->
    sha256_digest env (text resp) = d.

Lemma blobs_loop_keeps_config src tgt blobs digests h state h' :
  replicate_blobs_loop env src tgt false blobs false digests h = (inr state, h') ->
  fst state = false.
Proof.
  revert digests h. induction blobs as [| [idx layer] rest IH]; intros digests h Hrun.
  - apply ret_returns in Hrun as [-> _]. reflexivity.
  - cbn [replicate_blobs_loop] in Hrun. rewrite andb_false_r in Hrun.
    apply bind_returns in Hrun as (head_ok & h1 & Hhead & Hrun).
    destruct head_ok; cbn [andb negb] in Hrun; [eapply IH; eassumption |].
    apply bind_returns in Hrun as (blob_res & h2 & Hblob & Hrun).
    apply call_returns in Hblob as [Hblob ->].
    destruct (negb (bool_decide (is_Some blob_res)) && (idx =? 0)%nat) eqn:Habsent.
    + apply andb_true_iff in Habsent as [Hnone Hcfg]. rewrite Hcfg in Hblob.
      destruct blob_res as [data |]; [discriminate Hnone |].
      exfalso. eapply config_blobs_served. eassumption.
    + apply bind_returns in Hrun as (? & h3 & _ & Hrun). eapply IH; eassumption.
Qed.

Lemma single_image_verbatim src tgt manifest raw_manifest h res ref bytes h' :
  replicate_single_image env src tgt None manifest raw_manifest false false h
    = (inr (res, ref, bytes), h') ->
  bytes = raw_manifest.
Proof.
  unfold replicate_single_image. intros Hrun.
  apply bind_returns in Hrun as (state & h1 & Hloop & Hrun).
  apply blobs_loop_keeps_config in Hloop. rewrite Hloop in Hrun.
  apply bind_returns in Hrun as (raw & h2 & Hraw & Hrun).
  apply ret_returns in Hraw as [-> ->]. cbn [annotations_given] in Hrun.
  apply bind_returns in Hrun as (res' & h3 & _ & Hrun).
  apply ret_returns in Hrun as [[= _ _ <-] _]. reflexivity.
Qed.

Lemma sub_manifests_clean self oci_client src_name tgt_name entries manifests dirty h state h' :
  verbatim_call env self ->
  replicate_sub_manifests env self oci_client src_name tgt_name None None entries manifests dirty h
    = (inr state, h') ->
  snd state = dirty.
Proof.
  intros Hself. revert manifests h.
  induction entries as [| [idx sub] rest IH]; intros manifests h Hrun.
  - apply ret_returns in Hrun as [-> _]. reflexivity.
  - cbn [replicate_sub_manifests] in Hrun.
    apply bind_returns in Hrun as (skip & h1 & Hskip & Hrun).
    apply ret_returns in Hskip as [-> ->].
    apply bind_returns in Hrun as ([[res ref] bytes] & h2 & Hsub & Hrun).
    apply Hself in Hsub as (resp & Hresp & ->).
    apply content_addressed in Hresp. cbn [snd] in Hrun.
    rewrite Hresp, String.eqb_refl in Hrun. cbn [negb] in Hrun.
    eapply IH; eassumption.
Qed.

Lemma manifest_list_verbatim self oci_client src tgt manifest raw_manifest h res ref bytes h' :
  verbatim_call env self ->
  replicate_manifest_list env self oci_client src tgt None None manifest raw_manifest h
    = (inr (res, ref, bytes), h') ->
  bytes = raw_manifest.
Proof.
  intros Hself. unfold replicate_manifest_list. intros Hrun.
  apply bind_returns in Hrun as (ml & h1 & _ & Hrun).
  apply bind_returns in Hrun as (state & h2 & Hloop & Hrun).
  apply sub_manifests_clean in Hloop; [| assumption].
  cbn [annotations_given merge_annotations snd] in Hrun. rewrite Hloop in Hrun.
  apply bind_returns in Hrun as (res' & h3 & _ & Hrun).
  apply ret_returns in Hrun as [[= _ _ <-] _]. reflexivity.
Qed.

Lemma replicate_artifact_verbatim depth src tgt credentials_lookup oci_client mode
    h res ref bytes h' :
  mode <> NORMALISE_TO_MULTIARCH ->
  replicate_artifact depth env src tgt credentials_lookup oci_client mode None None h
    = (inr (res, ref, bytes), h') ->
  exists resp,
    manifest_raw env h (str_ref (to_image_ref env src)) (accept_header mode) = inr resp /\
    bytes = text resp.
Proof.
  revert src tgt credentials_lookup oci_client mode h res ref bytes h'.
  induction depth as [| depth IH]; intros src tgt creds client mode h res ref bytes h' Hmode Hrun;
    [discriminate Hrun |].
  cbn [replicate_artifact] in Hrun.
  destruct (negb (xorb creds client)); [discriminate Hrun |].
  apply bind_returns in Hrun as (resp & h1 & Hresp & Hrun).
  apply call_returns in Hresp as [Hresp ->].
  exists resp. split; [assumption |].
  apply bind_returns in Hrun as (loaded & h2 & Hloaded & Hrun).
  apply lift_returns in Hloaded as [Hloaded ->].
  pose proof (no_legacy_manifest _ _ _ _ _ Hresp Hloaded) as Hv.
  destruct (snd loaded =? 1) eqn:Hone; [apply Z.eqb_eq in Hone; contradiction |].
  destruct (snd loaded =? 2); [| discriminate Hrun].
  destruct (media_type_of (fst loaded)) as [media_type |]; [| discriminate Hrun].
  destruct (is_multiarch media_type).
  - eapply manifest_list_verbatim; [| eassumption].
    intros src' tgt' client' h0 res' ref' bytes' h0' Hsub.
    apply (IH _ _ _ _ REGISTRY_DEFAULTS) in Hsub; [assumption | discriminate].
  - destruct (is_single_image media_type); [| discriminate Hrun].
    rewrite bool_decide_eq_false_2 in Hrun by assumption.
    apply bind_returns in Hrun as (reparsed & h3 & _ & Hrun).
    apply bind_returns in Hrun as (manifest & h4 & _ & Hrun).
    eapply single_image_verbatim; eassumption.
Qed.


Lemma replicate_artifact_target depth src tgt credentials_lookup oci_client
    h res ref bytes h' :
  replicate_artifact depth env src tgt credentials_lookup oci_client PREFER_MULTIARCH None None h
    = (inr (res, ref, bytes), h') ->
  has_tag (to_image_ref env tgt) = true -> ref = str_ref (to_image_ref env tgt).
Proof.
  intros Hrun Htag. destruct depth as [| depth]; [discriminate Hrun |].
  cbn [replicate_artifact] in Hrun.
  destruct (negb (xorb credentials_lookup oci_client)); [discriminate Hrun |].
  apply bind_returns in Hrun as (resp & h1 & Hresp & Hrun).
  apply call_returns in Hresp as [Hresp ->].
  apply bind_returns in Hrun as (loaded & h2 & Hloaded & Hrun).
  apply lift_returns in Hloaded as [Hloaded ->].
  pose proof (no_legacy_manifest _ _ _ _ _ Hresp Hloaded) as Hv.
  destruct (snd loaded =? 1) eqn:Hone; [apply Z.eqb_eq in Hone; contradiction |].
  destruct (snd loaded =? 2); [| discriminate Hrun].
  destruct (media_type_of (fst loaded)) as [media_type |]; [| discriminate Hrun].
  destruct (is_multiarch media_type).
  - eapply manifest_list_target; eassumption.
  - destruct (is_single_image media_type); [| discriminate Hrun].
    rewrite bool_decide_eq_false_2 in Hrun by discriminate.
    apply bind_returns in Hrun as (reparsed & h3 & _ & Hrun).
    apply bind_returns in Hrun as (manifest & h4 & _ & Hrun).
    eapply single_image_target; eassumption.
Qed.


End Verbatim.

(** *** Formats the function does not know *)

(** X3.  When the source's manifest is neither of schema version 1 nor of
    schema version 2 with the media type of an index or of a single image,
    [replicate_artifact] raises [NotImplementedError] right after it has
    fetched the manifest: nothing is asked of, or sent to, the target. *)
Theorem unsupported_manifest_uploads_nothing depth env src tgt credentials_lookup oci_client mode
    platform_filter annotations h resp loaded :
  xorb credentials_lookup oci_client = true ->
  manifest_raw env h (str_ref (to_image_ref env src)) (accept_header mode) = inr resp ->
  load_manifest env resp = inr loaded ->
  ~ supported loaded ->
  exists e,
    replicate_artifact (S depth) env src tgt credentials_lookup oci_client mode platform_filter
      annotations h
    = (inl e, h ++ [ManifestRaw (str_ref (to_image_ref env src)) (accept_header mode)]) /\
    exc_type e = NotImplementedError.
Proof.
  intros Hxor Hresp Hloaded Hnot. cbn [replicate_artifact]. rewrite Hxor. cbn [negb].
  rewrite bind_run, call_run, Hresp, bind_run. unfold lift. rewrite Hloaded.
  destruct (snd loaded =? 1) eqn:H1;
    [apply Z.eqb_eq in H1; exfalso; apply Hnot; left; assumption |].
  destruct (snd loaded =? 2) eqn:H2; [| eexists; split; reflexivity].
  apply Z.eqb_eq in H2.
  destruct (media_type_of (fst loaded)) as [media_type |] eqn:Hmt; [| eexists; split; reflexivity].
  destruct (is_multiarch media_type) eqn:Hmulti;
    [exfalso; apply Hnot; right; eauto 6 |].
  destruct (is_single_image media_type) eqn:Hsingle;
    [exfalso; apply Hnot; right; eauto 6 |].
  eexists; split; reflexivity.
Qed.

(** *** The loop over the blobs *)

(** X4.  For an image of schema version 2, when the target already has
    every blob ([head_blob] answers ok), the loop over the blobs asks the
    target once per blob, config first, and does nothing else: no blob is
    fetched from the source, none is uploaded, and the config blob need not
    be synthesised. *)
Theorem present_blobs_are_not_transferred env src tgt blobs digests h :
  (forall h ref d, head_blob env h ref d = inr true) ->
  replicate_blobs_loop env src tgt false blobs false digests h
  = (inr (false, digests), h ++ map (fun b => HeadBlob (str_ref tgt) (digest (snd b))) blobs).
Proof.
  intros Hhead. revert h. induction blobs as [| [idx layer] rest IH]; intros h.
  - cbn. rewrite app_nil_r. reflexivity.
  - cbn [replicate_blobs_loop]. rewrite andb_false_r, bind_run, call_run, Hhead.
    cbn [andb negb]. rewrite IH. cbn [map snd]. rewrite <- app_assoc. reflexivity.
Qed.

Lemma blobs_fetched_app t1 t2 : blobs_fetched (t1 ++ t2) = blobs_fetched t1 ++ blobs_fetched t2.
Proof. apply omap_app. Qed.

Lemma legacy_layers env src tgt layers idx digests h state h' :
  (0 < idx)%nat ->
  replicate_blobs_loop env src tgt true (enumerate_from idx layers) true digests h
    = (inr state, h') ->
  fst state = true /\
  exists evs new_digests,
    h' = h ++ evs /\ blobs_fetched evs = map digest layers /\
    snd state = digests ++ new_digests /\ length new_digests = length layers.
Proof.
  revert idx digests h. induction layers as [| layer rest IH]; intros idx digests h Hidx Hrun.
  - apply ret_returns in Hrun as [-> ->]. split; [reflexivity |].
    exists [], []. rewrite !app_nil_r. repeat split; reflexivity.
  - cbn [enumerate_from replicate_blobs_loop] in Hrun.
    replace (idx =? 0)%nat with false in Hrun by (symmetry; apply Nat.eqb_neq; lia).
    cbn [andb negb] in Hrun.
    apply bind_returns in Hrun as (head_ok & h1 & Hhead & Hrun).
    apply call_returns in Hhead as [_ ->]. rewrite ?andb_false_r, ?andb_true_r in Hrun.
    destruct head_ok.
    + apply bind_returns in Hrun as (blob_res & h2 & Hblob & Hrun).
      apply call_returns in Hblob as [_ ->].
      destruct blob_res as [data |]; [| discriminate Hrun].
      apply bind_returns in Hrun as (hexdigest & h3 & Hhex & Hrun).
      apply lift_returns in Hhex as [_ ->].
      apply IH in Hrun as (Hsynth & evs & new & -> & Hfetched & Hdigests & Hlen); [| lia].
      split; [assumption |].
      exists ([HeadBlob (str_ref tgt) (digest layer); Blob (str_ref src) (digest layer) false] ++ evs),
             (("sha256:" +:+ hexdigest) :: new).
      split; [rewrite <- !app_assoc; reflexivity |].
      split; [rewrite blobs_fetched_app, Hfetched; reflexivity |].
      split; [rewrite Hdigests, <- app_assoc; reflexivity | cbn; rewrite Hlen; reflexivity].
    + apply bind_returns in Hrun as (blob_res & h2 & Hblob & Hrun).
      apply call_returns in Hblob as [_ ->]. rewrite andb_false_r in Hrun.
      apply bind_returns in Hrun as (layer_digest & h3 & Hput & Hrun).
      unfold put_blob_intercepted in Hput. apply call_returns in Hput as [_ ->].
      apply IH in Hrun as (Hsynth & evs & new & -> & Hfetched & Hdigests & Hlen); [| lia].
      split; [assumption |].
      exists ([HeadBlob (str_ref tgt) (digest layer); Blob (str_ref src) (digest layer) false;
               PutBlob (str_ref tgt) (digest layer) (size layer) blob_res] ++ evs),
             (layer_digest :: new).
      split; [rewrite <- !app_assoc; reflexivity |].
      split; [rewrite blobs_fetched_app, Hfetched; reflexivity |].
      split; [rewrite Hdigests, <- app_assoc; reflexivity | cbn; rewrite Hlen; reflexivity].
Qed.

Lemma legacy_loop_synthesises env src tgt manifest h state h' :
  replicate_blobs_loop env src tgt true (enumerate_from 0 (blobs manifest)) true [] h
    = (inr state, h') ->
  fst state = true.
Proof.
  unfold blobs. cbn [enumerate_from replicate_blobs_loop Nat.eqb andb]. intros Hrun.
  apply legacy_layers in Hrun as [Hsynth _]; [assumption | lia].
Qed.

(** X5.  For a legacy (schemaVersion 1) image the loop over the blobs
    leaves the config blob out and fetches every layer from the source, in
    the order of the manifest and whether or not the target has it; when
    the loop returns there is one unpacked-layer digest per layer and the
    config blob is still to be synthesised. *)
Theorem legacy_layers_are_all_fetched env src tgt manifest h state h' :
  replicate_blobs_loop env src tgt true (enumerate_from 0 (blobs manifest)) true [] h
    = (inr state, h') ->
  fst state = true /\
  length (snd state) = length (layers manifest) /\
  exists evs, h' = h ++ evs /\ blobs_fetched evs = map digest (layers manifest).
Proof.
  unfold blobs. cbn [enumerate_from replicate_blobs_loop Nat.eqb andb]. intros Hrun.
  apply legacy_layers in Hrun as (Hsynth & evs & new & -> & Hfetched & Hdigests & Hlen); [| lia].
  rewrite Hdigests. cbn [app]. eauto.
Qed.

Lemma members_get_set key value members :
  members_get key (members_set key value members) = Some value.
Proof.
  induction members as [| [k v] rest IH]; cbn.
  - rewrite String.eqb_refl. reflexivity.
  - destruct (String.eqb k key) eqn:Hk; cbn; rewrite Hk; [reflexivity | exact IH].
Qed.

Lemma members_get_set_other key other value members :
  other <> key ->
  members_get other (members_set key value members) = members_get other members.
Proof.
  intros Hne. induction members as [| [k v] rest IH]; cbn.
  - destruct (String.eqb key other) eqn:Hk; [apply String.eqb_eq in Hk; congruence | reflexivity].
  - destruct (String.eqb k key) eqn:Hk; cbn.
    + apply String.eqb_eq in Hk. subst k.
      destruct (String.eqb key other) eqn:Hko; [apply String.eqb_eq in Hko; congruence | reflexivity].
    + destruct (String.eqb k other); [reflexivity | exact IH].
Qed.

(** The patched dict carries the new digest and size in its config. *)
Lemma patch_config_sets manifest_dict cfg_digest octets patched :
  patch_config manifest_dict cfg_digest octets = inr patched ->
  exists cfg,
    json_item "config" patched = inr cfg /\
    json_item "digest" cfg = inr (JStr cfg_digest) /\
    json_item "size" cfg = inr (JNum octets).
Proof.
  unfold patch_config.
  destruct (json_item "config" manifest_dict) as [e | cfg]; [discriminate |].
  destruct cfg as [| | | | | cfg_members]; try discriminate. cbn [json_set_item].
  destruct manifest_dict as [| | | | | members]; try discriminate. cbn [json_set_item].
  intros [= <-]. eexists. cbn [json_item]. rewrite members_get_set.
  split; [reflexivity |]. cbn [json_item].
  rewrite members_get_set_other by discriminate. rewrite !members_get_set. split; reflexivity.
Qed.

Lemma synthesise_puts_the_config env tgt manifest raw digests h text h' :
  synthesise_cfg_blob env tgt manifest raw digests h = (inr text, h') ->
  exists cfg_raw manifest_dict,
    h' = h ++ [PutBlob (str_ref tgt) (sha256_digest env cfg_raw)
                 (Z.of_nat (String.length cfg_raw)) (Some cfg_raw)] /\
    patch_config (manifest_as_dict env manifest) (sha256_digest env cfg_raw)
      (Z.of_nat (String.length cfg_raw)) = inr manifest_dict /\
    text = json_dumps env manifest_dict.
Proof.
  unfold synthesise_cfg_blob. intros Hrun.
  apply bind_returns in Hrun as (parsed & h1 & Hp & Hrun). apply lift_returns in Hp as [_ ->].
  apply bind_returns in Hrun as (history & h1 & Hp & Hrun). apply lift_returns in Hp as [_ ->].
  apply bind_returns in Hrun as (first & h1 & Hp & Hrun). apply lift_returns in Hp as [_ ->].
  apply bind_returns in Hrun as (compat & h1 & Hp & Hrun). apply lift_returns in Hp as [_ ->].
  apply bind_returns in Hrun as (fake & h1 & Hfake & Hrun).
  assert (h1 = h) as ->.
  { destruct compat; try discriminate Hfake. apply lift_returns in Hfake as [_ ->]. reflexivity. }
  apply bind_returns in Hrun as (fake' & h1 & Hp & Hrun). apply lift_returns in Hp as [_ ->].
  apply bind_returns in Hrun as (? & h1 & Hput & Hrun). apply call_returns in Hput as [_ ->].
  apply bind_returns in Hrun as (manifest_dict & h1 & Hpatch & Hrun).
  apply lift_returns in Hpatch as [Hpatch ->].
  apply ret_returns in Hrun as [-> ->].
  eexists _, manifest_dict. split; [reflexivity |]. split; [exact Hpatch | reflexivity].
Qed.

(** X6.  A legacy (schemaVersion 1) manifest is not replicated as it is.
    Without annotations, when the call returns, the source's manifest has
    been converted ([v1_manifest_to_v2]), a config blob has been
    synthesised and put to the target, and the manifest put to the target
    and handed out is the serialisation ([json.dumps]) of the dict of the
    converted manifest in which the digest and the size of the config are
    those of the synthesised blob. *)
Theorem legacy_manifest_is_serialised_anew depth env src tgt credentials_lookup oci_client mode
    platform_filter annotations h resp loaded res ref bytes h' :
  let src_ref := str_ref (to_image_ref env src) in
  let tgt_ref := str_ref (to_image_ref env tgt) in
  let fetched := h ++ [ManifestRaw src_ref (accept_header mode)] in
  manifest_raw env h src_ref (accept_header mode) = inr resp ->
  load_manifest env resp = inr loaded ->
  snd loaded = 1 ->
  annotations_given annotations = [] ->
  replicate_artifact depth env src tgt credentials_lookup oci_client mode platform_filter
    annotations h = (inr (res, ref, bytes), h') ->
  exists v1 manifest cfg_raw manifest_dict cfg evs,
    manifest_v1 env fetched src_ref = inr v1 /\
    v1_manifest_to_v2 env (fetched ++ [ManifestV1 src_ref]) v1 tgt_ref = inr manifest /\
    h' = fetched ++ [ManifestV1 src_ref; V1ManifestToV2 tgt_ref] ++ evs
           ++ [PutBlob tgt_ref (sha256_digest env cfg_raw) (Z.of_nat (String.length cfg_raw))
                 (Some cfg_raw);
               PutManifest ref bytes] /\
    patch_config (manifest_as_dict env manifest) (sha256_digest env cfg_raw)
      (Z.of_nat (String.length cfg_raw)) = inr manifest_dict /\
    bytes = json_dumps env manifest_dict /\
    json_item "config" manifest_dict = inr cfg /\
    json_item "digest" cfg = inr (JStr (sha256_digest env cfg_raw)) /\
    json_item "size" cfg = inr (JNum (Z.of_nat (String.length cfg_raw))).
Proof.
  cbv zeta. intros Hresp Hloaded Hone Hann Hrun.
  destruct depth as [| depth]; [discriminate Hrun |]. cbn [replicate_artifact] in Hrun.
  destruct (negb (xorb credentials_lookup oci_client)); [discriminate Hrun |].
  rewrite bind_run, call_run, Hresp, bind_run in Hrun. unfold lift at 1 in Hrun.
  rewrite Hloaded, Hone in Hrun. cbn [Z.eqb Pos.eqb] in Hrun.
  apply bind_returns in Hrun as (v1 & h3 & Hv1 & Hrun).
  apply call_returns in Hv1 as [Hv1 ->].
  apply bind_returns in Hrun as (manifest & h4 & Hconv & Hrun).
  apply call_returns in Hconv as [Hconv ->].
  unfold replicate_single_image in Hrun.
  apply bind_returns in Hrun as (state & h5 & Hloop & Hrun).
  pose proof (legacy_loop_synthesises _ _ _ _ _ _ _ Hloop) as Hsynth.
  apply (extended _ _ _ _ (blobs_loop_extends _ _ _ _ _ _ _)) in Hloop as [evs ->].
  rewrite Hsynth in Hrun.
  apply bind_returns in Hrun as (raw & h6 & Hraw & Hrun).
  apply synthesise_puts_the_config in Hraw as (cfg_raw & manifest_dict & -> & Hpatch & ->).
  rewrite Hann in Hrun.
  apply bind_returns in Hrun as (res' & h7 & Hput & Hrun).
  apply call_returns in Hput as [_ ->].
  apply ret_returns in Hrun as [[= _ -> ->] ->].
  destruct (patch_config_sets _ _ _ _ Hpatch) as (cfg & Hcfg & Hdigest & Hsize).
  exists v1, manifest, cfg_raw, manifest_dict, cfg, evs.
  split; [exact Hv1 |]. split; [exact Hconv |].
  split; [rewrite <- !app_assoc; reflexivity |].
  split; [exact Hpatch |]. split; [reflexivity |]. auto.
Qed.

(** *** The theorems on concrete registries *)
Import OciScenario.

Lemma at_suffixes_split name d s : name +:+ "@" +:+ d = s -> In d (at_suffixes s).
Proof.
  revert s. induction name as [| c name IH]; intros s <-.
  - cbn. left. reflexivity.
  - cbn [String.append at_suffixes]. apply in_or_app. right. apply IH. reflexivity.
Qed.

Lemma modern_no_legacy h ref accept resp loaded :
  manifest_raw modern_env h ref accept = inr resp ->
  load_manifest modern_env resp = inr loaded -> snd loaded <> 1.
Proof.
  cbn [manifest_raw modern_env make_env]. unfold modern_registry.
  destruct (String.eqb ref "registry.example/app:1.0");
    [intros [= <-]; vm_compute; intros [= <-]; discriminate |].
  destruct (String.eqb ref "registry.example/app@sha256:aaaa");
    [intros [= <-]; vm_compute; intros [= <-]; discriminate | discriminate].
Qed.

Lemma modern_config_blobs h ref d : blob modern_env h ref d true <> inr None.
Proof. discriminate. Qed.

Lemma modern_content_addressed h name d accept resp :
  manifest_raw modern_env h (str_ref (to_image_ref modern_env (name +:+ "@" +:+ d))) accept
    = inr resp ->
  sha256_digest modern_env (text resp) = d.
Proof.
  cbn [manifest_raw modern_env make_env to_image_ref str_ref parse_reference
         original_image_reference].
  unfold modern_registry.
  destruct (String.eqb (name +:+ "@" +:+ d) "registry.example/app:1.0") eqn:Htag.
  { apply String.eqb_eq, at_suffixes_split in Htag. destruct Htag. }
  destruct (String.eqb (name +:+ "@" +:+ d) "registry.example/app@sha256:aaaa") eqn:Hdigest;
    [| discriminate].
  apply String.eqb_eq, at_suffixes_split in Hdigest.
  destruct Hdigest as [<- | []]. intros [= <-]. reflexivity.
Qed.

Lemma returned_manifest_is_put_last_witness :
  exists pre,
    snd (replicate_artifact 2 modern_env "registry.example/app:1.0" "mirror.example/app:1.0"
           false true PREFER_MULTIARCH None None [])
    = [] ++ pre ++ [PutManifest "mirror.example/app:1.0" index_text] /\
    put_manifest modern_env ([] ++ pre) "mirror.example/app:1.0" index_text = inr 201.
Proof.
  apply (returned_manifest_is_put_last 2 modern_env "registry.example/app:1.0"
           "mirror.example/app:1.0" false true PREFER_MULTIARCH None None []).
  vm_compute. reflexivity.
Defined.




Lemma unsupported_manifest_uploads_nothing_witness :
  exists e,
    replicate_artifact 1 future_env "registry.example/new:1.0" "mirror.example/new:1.0"
      false true PREFER_MULTIARCH None None []
    = (inl e, [] ++ [ManifestRaw (str_ref (to_image_ref future_env "registry.example/new:1.0"))
                       (accept_header PREFER_MULTIARCH)]) /\
    exc_type e = NotImplementedError.
Proof.
  apply (unsupported_manifest_uploads_nothing 0 future_env "registry.example/new:1.0"
           "mirror.example/new:1.0" false true PREFER_MULTIARCH None None []
           (mkResponse future_text json_header)
           (JObj [("schemaVersion", JNum 3); ("mediaType", JStr "application/json")], 3)).
  - reflexivity.
  - reflexivity.
  - vm_compute. reflexivity.
  - intros [Hone | [Htwo _]]; discriminate.
Defined.

Lemma present_blobs_are_not_transferred_witness :
  replicate_blobs_loop mirrored_env (parse_reference "registry.example/app@sha256:aaaa")
    (parse_reference "mirror.example/app") false (enumerate_from 0 (blobs image_manifest))
    false [] []
  = (inr (false, []),
     [] ++ map (fun b => HeadBlob "mirror.example/app" (digest (snd b)))
             (enumerate_from 0 (blobs image_manifest))).
Proof.
  apply (present_blobs_are_not_transferred mirrored_env
           (parse_reference "registry.example/app@sha256:aaaa")
           (parse_reference "mirror.example/app")).
  intros h ref d. reflexivity.
Defined.

Lemma legacy_layers_are_all_fetched_witness :
  exists evs,
    snd (replicate_blobs_loop legacy_env (parse_reference "registry.example/old:1.0")
           (parse_reference "mirror.example/old:1.0") true
           (enumerate_from 0 (blobs image_manifest)) true [] [])
    = [] ++ evs /\
    blobs_fetched evs = map digest (layers image_manifest).
Proof.
  apply (legacy_layers_are_all_fetched legacy_env (parse_reference "registry.example/old:1.0")
           (parse_reference "mirror.example/old:1.0") image_manifest []
           (true, ["sha256:eeee"; "sha256:eeee"])).
  vm_compute. reflexivity.
Defined.

(** The legacy image of the registry: its manifest is converted, the config
    blob is made from its history, and the dict of the converted manifest
    is put with the digest and the size of that blob. *)
Lemma legacy_manifest_is_serialised_anew_witness :
  let src_ref := str_ref (to_image_ref legacy_env "registry.example/old:1.0") in
  let tgt_ref := str_ref (to_image_ref legacy_env "mirror.example/old:1.0") in
  let fetched := [] ++ [ManifestRaw src_ref (accept_header PREFER_MULTIARCH)] in
  exists v1 manifest cfg_raw manifest_dict cfg evs,
    manifest_v1 legacy_env fetched src_ref = inr v1 /\
    v1_manifest_to_v2 legacy_env (fetched ++ [ManifestV1 src_ref]) v1 tgt_ref = inr manifest /\
    snd (replicate_artifact 1 legacy_env "registry.example/old:1.0" "mirror.example/old:1.0"
           false true PREFER_MULTIARCH None None [])
      = fetched ++ [ManifestV1 src_ref; V1ManifestToV2 tgt_ref] ++ evs
          ++ [PutBlob tgt_ref (sha256_digest legacy_env cfg_raw)
                (Z.of_nat (String.length cfg_raw)) (Some cfg_raw);
              PutManifest "mirror.example/old:1.0" "{dumped}"] /\
    patch_config (manifest_as_dict legacy_env manifest) (sha256_digest legacy_env cfg_raw)
      (Z.of_nat (String.length cfg_raw)) = inr manifest_dict /\
    "{dumped}" = json_dumps legacy_env manifest_dict /\
    json_item "config" manifest_dict = inr cfg /\
    json_item "digest" cfg = inr (JStr (sha256_digest legacy_env cfg_raw)) /\
    json_item "size" cfg = inr (JNum (Z.of_nat (String.length cfg_raw))).
Proof.
  cbv zeta.
  apply (legacy_manifest_is_serialised_anew 1 legacy_env "registry.example/old:1.0"
           "mirror.example/old:1.0" false true PREFER_MULTIARCH None None []
           (mkResponse legacy_text json_header)
           (JObj [("schemaVersion", JNum 1);
                  ("history", JArr [JObj [("v1Compatibility", JStr legacy_config_text)]]);
                  ("mediaType", JStr "application/json")], 1)
           201 "mirror.example/old:1.0" "{dumped}"
           (snd (replicate_artifact 1 legacy_env "registry.example/old:1.0"
                   "mirror.example/old:1.0" false true PREFER_MULTIARCH None None []))).
  - reflexivity.
  - vm_compute. reflexivity.
  - reflexivity.
  - reflexivity.
  - vm_compute. reflexivity.
Defined.

(** The legacy image of the registry above: the text put to the target is
    not the text of the source. *)
Example legacy_image_is_not_verbatim :
  fst (replicate_artifact 1 legacy_env "registry.example/old:1.0" "mirror.example/old:1.0"
         false true PREFER_MULTIARCH None None [])
  = inr (201, "mirror.example/old:1.0", "{dumped}") /\
  "{dumped}" <> legacy_text.
Proof. split; [vm_compute; reflexivity | discriminate]. Qed.

End OciFacts.

(** ** More facts about concourse/replicator.py: the deployers *)
Module DeployerFacts.
Import Py Eff EffFacts Replicator ReplicatorFacts.

Lemma after_set_pipeline_result env self api dd response h r h' :
  ConcourseDeployer.after_set_pipeline env self api dd response h = (inr r, h') ->
  definition_descriptor r = dd /\ error_details r = NoDetails /\
  (deploy_status r = DeployStatus.SUCCEEDED \/
   deploy_status r = Z.lor DeployStatus.SUCCEEDED DeployStatus.CREATED).
Proof.
  unfold ConcourseDeployer.after_set_pipeline. intros Hrun.
  apply bind_returns in Hrun as (? & h1 & _ & Hrun).
  apply bind_returns in Hrun as (? & h2 & _ & Hrun).
  apply bind_returns in Hrun as (status & h3 & Hstatus & Hrun).
  apply ret_returns in Hrun as [-> _]. cbn.
  destruct response; [| | discriminate Hstatus];
    apply ret_returns in Hstatus as [-> _]; auto.
Qed.

(** X7.  [ConcourseDeployer.deploy] of a rendered descriptor never raises:
    whatever the backend answers (a failing client lookup and a failing
    unpause included), it returns a result for the descriptor it was given,
    whose status is SUCCEEDED, SUCCEEDED|CREATED, or FAILED with the
    formatted trace of the exception as details.  For a descriptor that was
    never rendered it raises [AttributeError] before any call is made. *)
Theorem concourse_deploy_always_returns env self dd h :
  match pipeline dd with
  | Some _ =>
      exists r h',
        ConcourseDeployer.deploy env self dd h = (inr r, h') /\
        definition_descriptor r = dd /\
        ((deploy_status r = DeployStatus.SUCCEEDED /\ error_details r = NoDetails) \/
         (deploy_status r = Z.lor DeployStatus.SUCCEEDED DeployStatus.CREATED /\
          error_details r = NoDetails) \/
         (deploy_status r = DeployStatus.FAILED /\
          exists e, error_details r = DetailsStr (format_exc env e)))
  | None =>
      exists e,
        ConcourseDeployer.deploy env self dd h = (inl e, h) /\ exc_type e = AttributeError
  end.
Proof.
  unfold ConcourseDeployer.deploy.
  destruct (pipeline dd) as [definition |]; [| eexists; split; reflexivity].
  rewrite try_run.
  destruct (ConcourseDeployer.deploy_body env self dd definition h) as [[e | r] h'] eqn:Hbody.
  - eexists _, _. split; [reflexivity |]. split; [reflexivity |]. right. right. eauto.
  - exists r, h'. split; [reflexivity |].
    unfold ConcourseDeployer.deploy_body in Hbody.
    apply bind_returns in Hbody as (? & h1 & _ & Hbody).
    apply bind_returns in Hbody as (response & h2 & _ & Hbody).
    apply after_set_pipeline_result in Hbody as (Hdd & Hdetails & [Hs | Hs]); auto.
Qed.

Lemma set_pipeline_retrying_trace env api name definition h :
  exists evs,
    snd (ConcourseDeployer.set_pipeline_retrying env api name definition h) = h ++ evs /\
    (evs = [SetPipeline api name definition] \/
     exists seconds,
       evs = [SetPipeline api name definition; Sleep seconds; SetPipeline api name definition]).
Proof.
  unfold ConcourseDeployer.set_pipeline_retrying, try_except, ConcourseDeployer.api_set_pipeline,
    bind, ask, sleep, call, raise.
  destruct (set_pipeline env h api name definition) as [e | response]; [| cbn; eauto].
  destruct (issubclass (exc_type e) HTTPError); [| cbn; eauto].
  destruct (exc_response e) as [[status content] |]; [| cbn; eauto].
  destruct ((status =? 500) && String.eqb content ConcourseDeployer.err_content); [| cbn; eauto].
  cbn [snd]. eexists. rewrite <- !app_assoc. split; [reflexivity |]. right. eauto.
Qed.

Lemma retry_shape_counts api name definition evs :
  (evs = [SetPipeline api name definition] \/
   exists seconds,
     evs = [SetPipeline api name definition; Sleep seconds; SetPipeline api name definition]) ->
  (length (List.filter is_set_pipeline evs) <= 2)%nat /\
  (length (List.filter is_sleep evs) <= 1)%nat /\
  Forall (fun ev => is_set_pipeline ev = true -> ev = SetPipeline api name definition) evs.
Proof.
  intros [-> | [seconds ->]]; cbn; (split; [lia |]); (split; [lia |]);
    repeat (apply Forall_cons; split; [first [intros _; reflexivity | discriminate] |]); constructor.
Qed.

Lemma deploy_trace_counts api name definition evs rest :
  (evs = [SetPipeline api name definition] \/
   exists seconds,
     evs = [SetPipeline api name definition; Sleep seconds; SetPipeline api name definition]) ->
  Forall not_set_nor_sleep rest ->
  (length (List.filter is_set_pipeline ([ClientFromCfgName api] ++ evs ++ rest)) <= 2)%nat /\
  (length (List.filter is_sleep ([ClientFromCfgName api] ++ evs ++ rest)) <= 1)%nat /\
  Forall (fun ev => is_set_pipeline ev = true -> ev = SetPipeline api name definition)
         ([ClientFromCfgName api] ++ evs ++ rest).
Proof.
  intros Hshape Hquiet.
  destruct (retry_shape_counts _ _ _ _ Hshape) as (Hset & Hsleep & Hargs).
  destruct (filter_quiet _ Hquiet) as [Hqset Hqsleep].
  rewrite !List.filter_app, Hqset, Hqsleep, !app_nil_r. cbn [List.filter is_set_pipeline is_sleep app].
  split; [assumption |]. split; [assumption |].
  apply Forall_cons; split; [discriminate |].
  apply Forall_app; split; [assumption |].
  eapply Forall_impl; [exact Hquiet |]. intros ev [Hs _] Hset'. congruence.
Qed.

(** X8.  One call of [ConcourseDeployer.deploy] asks the backend to set the
    pipeline at most twice and sleeps at most once, whatever the backend
    answers; every [set_pipeline] request is for the descriptor's target,
    name and definition. *)
Theorem deploy_sets_pipeline_at_most_twice env self dd h :
  exists evs,
    snd (ConcourseDeployer.deploy env self dd h) = h ++ evs /\
    (length (List.filter is_set_pipeline evs) <= 2)%nat /\
    (length (List.filter is_sleep evs) <= 1)%nat /\
    Forall (fun ev => is_set_pipeline ev = true ->
                      ev = SetPipeline (concourse_target dd) (pipeline_name dd) (pipeline dd)) evs.
Proof.
  unfold ConcourseDeployer.deploy.
  destruct (pipeline dd) as [definition |].
  2: { exists []. cbn. rewrite app_nil_r. repeat split; try lia. constructor. }
  rewrite try_run. unfold ConcourseDeployer.deploy_body.
  set (api := concourse_target dd). rewrite bind_run, call_run.
  destruct (client_from_cfg_name env h api) as [e | []].
  { exists [ClientFromCfgName api]. cbn. split; [reflexivity |]. split; [lia |]. split; [lia |].
    apply Forall_cons; split; [discriminate | constructor]. }
  rewrite bind_run.
  destruct (set_pipeline_retrying_trace env api (pipeline_name dd) (Some definition)
              (h ++ [ClientFromCfgName api])) as (evs & Hevs & Hshape).
  destruct (ConcourseDeployer.set_pipeline_retrying env api (pipeline_name dd) (Some definition)
              (h ++ [ClientFromCfgName api])) as [[e | response] h1]; cbn [snd] in Hevs; subst h1.
  { exists ([ClientFromCfgName api] ++ evs ++ []). cbn [ret snd]. rewrite app_nil_r, <- app_assoc.
    split; [reflexivity |].
    rewrite <- (app_nil_r evs). apply deploy_trace_counts; [assumption | constructor]. }
  destruct (after_set_pipeline_quiet env self api dd response
              ((h ++ [ClientFromCfgName api]) ++ evs)) as (rest & Hrest & Hquiet).
  exists ([ClientFromCfgName api] ++ evs ++ rest).
  split; [| apply deploy_trace_counts; assumption].
  destruct (ConcourseDeployer.after_set_pipeline env self api dd response
              ((h ++ [ClientFromCfgName api]) ++ evs)) as [[e | r] h2]; cbn [snd] in Hrest; subst h2;
    cbn [ret snd]; rewrite <- !app_assoc; reflexivity.
Qed.

(** X9.  [FilesystemDeployer.deploy] never raises and returns a result for
    the descriptor it was given, without error details; the status is
    SUCCEEDED exactly when the descriptor has a rendered pipeline and the
    file [base_dir/pipeline_name] could be opened and written, and FAILED
    otherwise. *)
Theorem filesystem_deploy_always_returns env self dd h :
  let file := path_join (FilesystemDeployer.base_dir self) (pipeline_name dd) in
  exists r h',
    FilesystemDeployer.deploy env self dd h = (inr r, h') /\
    definition_descriptor r = dd /\ error_details r = NoDetails /\
    (deploy_status r = DeployStatus.SUCCEEDED \/ deploy_status r = DeployStatus.FAILED) /\
    (deploy_status r = DeployStatus.SUCCEEDED <->
     open_for_writing env h file = inr tt /\
     exists text, pipeline dd = Some text /\
                  write_file env (h ++ [OpenForWriting file]) file text = inr tt).
Proof.
  cbv zeta. unfold FilesystemDeployer.deploy. rewrite try_run, bind_run, call_run.
  destruct (open_for_writing env h _) as [e | []] eqn:Hopen.
  { eexists _, _. split; [reflexivity |]. cbn. do 2 (split; [reflexivity |]).
    split; [right; reflexivity |]. split; [discriminate | intros [[=] _]]. }
  rewrite bind_run.
  destruct (pipeline dd) as [text |] eqn:Htext.
  - rewrite call_run.
    destruct (write_file env _ _ text) as [e | []] eqn:Hwrite.
    + eexists _, _. split; [reflexivity |]. cbn. do 2 (split; [reflexivity |]).
      split; [right; reflexivity |]. split; [discriminate |].
      intros (_ & text' & [= <-] & Hw). congruence.
    + eexists _, _. split; [reflexivity |]. cbn. do 2 (split; [reflexivity |]).
      split; [left; reflexivity |]. split; [eauto | reflexivity].
  - eexists _, _. split; [reflexivity |]. cbn. do 2 (split; [reflexivity |]).
    split; [right; reflexivity |]. split; [discriminate |].
    intros (_ & text' & [=] & _).
Qed.

End DeployerFacts.

(** ** More facts about concourse/replicator.py: the result processors *)
Module ResultProcessorFacts.
Import Py Eff EffFacts Replicator ReplicatorFacts ReplicatorViews.
Import ReplicationResultProcessor.

(** The list the cleanup of one target goes through. *)
Lemma pipelines_to_remove_spec self existing concourse_results name :
  In name (pipelines_to_remove self existing concourse_results) <->
  In name existing /\
  ~ In name (map (fun r => pipeline_name (definition_descriptor r)) concourse_results) /\
  (forall keep, remove_pipelines_filter self = Some keep -> keep name = false).
Proof.
  unfold pipelines_to_remove.
  set (candidates := list_to_set existing ∖ list_to_set _).
  assert (Hcand : forall n, In n (elements candidates) <->
            In n existing /\
            ~ In n (map (fun r => pipeline_name (definition_descriptor r)) concourse_results)).
  { intros n. rewrite <- !list_elem_of_In, elem_of_elements. unfold candidates.
    rewrite elem_of_difference, !elem_of_list_to_set. reflexivity. }
  destruct (remove_pipelines_filter self) as [keep |].
  - rewrite List.filter_In, Hcand, negb_true_iff. split.
    + intros [[Hin Hnot] Hkeep]. repeat split; try assumption. intros k [= <-]. assumption.
    + intros (Hin & Hnot & Hkeep). auto.
  - rewrite Hcand. split.
    + intros [Hin Hnot]. repeat split; try assumption. intros k [=].
    + intros (Hin & Hnot & _). auto.
Qed.

Lemma emits_for_each_in {E A} (P : E -> Prop) (xs : list A) (body : A -> Eff.M E unit) :
  (forall x, In x xs -> emits P (body x)) -> emits P (for_each xs body).
Proof.
  induction xs as [| x xs IH]; intros Hbody; cbn [for_each].
  - apply emits_ret.
  - apply emits_bind; [apply Hbody; left; reflexivity |].
    intros _. apply IH. intros y Hy. apply Hbody. right. assumption.
Qed.

(** *** The grouping of the results by target *)
Lemma group_append_lookup k key r groups :
  group k (group_append key r groups)
  = if decide (k = key) then Some (default [] (group k groups) ++ [r]) else group k groups.
Proof.
  induction groups as [| [k0 rs0] rest IH]; cbn [group_append group].
  - destruct (decide (key = k)) as [-> | Hne].
    + rewrite decide_True by reflexivity. reflexivity.
    + rewrite decide_False by congruence. reflexivity.
  - destruct (decide (k0 = key)) as [-> | Hk0]; cbn [group].
    + destruct (decide (key = k)) as [-> | Hne].
      * rewrite decide_True by reflexivity. reflexivity.
      * rewrite decide_False by congruence. reflexivity.
    + destruct (decide (k0 = k)) as [-> | Hne].
      * rewrite decide_False by assumption. reflexivity.
      * exact IH.
Qed.

Lemma group_append_keys key r groups :
  map fst (group_append key r groups)
  = if bool_decide (key ∈ map fst groups) then map fst groups else map fst groups ++ [key].
Proof.
  induction groups as [| [k0 rs0] rest IH]; cbn [group_append map fst].
  - rewrite bool_decide_eq_false_2 by (apply not_elem_of_nil). reflexivity.
  - destruct (decide (k0 = key)) as [-> | Hk0]; cbn [map fst].
    + rewrite bool_decide_eq_true_2 by (apply elem_of_cons; left; reflexivity). reflexivity.
    + rewrite IH. destruct (bool_decide (key ∈ map fst rest)) eqn:Hin.
      * apply bool_decide_eq_true_1 in Hin.
        rewrite bool_decide_eq_true_2 by (apply elem_of_cons; right; assumption). reflexivity.
      * apply bool_decide_eq_false_1 in Hin.
        rewrite bool_decide_eq_false_2
          by (intros [? | ?]%elem_of_cons; [congruence | contradiction]).
        reflexivity.
Qed.

Lemma group_append_nodup key r groups :
  List.NoDup (map fst groups) -> List.NoDup (map fst (group_append key r groups)).
Proof.
  intros Hnodup. rewrite group_append_keys.
  destruct (bool_decide (key ∈ map fst groups)) eqn:Hin; [assumption |].
  apply bool_decide_eq_false_1 in Hin. rewrite list_elem_of_In in Hin.
  apply NoDup_ListNoDup, NoDup_app. split; [apply NoDup_ListNoDup; assumption |].
  split; [| apply NoDup_singleton].
  intros k Hk Hk'. apply list_elem_of_singleton in Hk'. subst k.
  apply Hin. apply list_elem_of_In. assumption.
Qed.

Lemma group_of_member k rs groups :
  List.NoDup (map fst groups) -> In (k, rs) groups -> group k groups = Some rs.
Proof.
  induction groups as [| [k0 rs0] rest IH]; intros Hnodup Hin; [destruct Hin |].
  cbn [map fst] in Hnodup. apply List.NoDup_cons_iff in Hnodup as [Hfresh Hnodup].
  cbn [group]. destruct Hin as [[= -> ->] | Hin].
  - rewrite decide_True by reflexivity. reflexivity.
  - destruct (decide (k0 = k)) as [-> | Hne]; [| apply IH; assumption].
    exfalso. apply Hfresh. apply (List.in_map fst) in Hin. exact Hin.
Qed.

Lemma member_of_group k rs groups : group k groups = Some rs -> In (k, rs) groups.
Proof.
  induction groups as [| [k0 rs0] rest IH]; cbn [group]; [discriminate |].
  destruct (decide (k0 = k)) as [-> | Hne].
  - intros [= ->]. left. reflexivity.
  - intros Hg. right. apply IH. assumption.
Qed.

Lemma results_of_app key rs1 rs2 :
  results_of key (rs1 ++ rs2) = results_of key rs1 ++ results_of key rs2.
Proof. apply List.filter_app. Qed.

Lemma results_of_one key r :
  results_of key [r]
  = if bool_decide (concourse_target_key (definition_descriptor r) = key) then [r] else [].
Proof. reflexivity. Qed.

(** What the dict holds after the loop over [results]. *)
Lemma grouped results :
  List.NoDup (map fst (concourse_target_results results)) /\
  forall k, group k (concourse_target_results results)
            = match results_of k results with
              | [] => None
              | rs => Some rs
              end.
Proof.
  unfold concourse_target_results.
  induction results as [| r results IH] using rev_ind.
  - split; [constructor | reflexivity].
  - destruct IH as [Hnodup Hgroup]. rewrite fold_left_app. cbn [fold_left].
    split; [apply group_append_nodup; assumption |].
    intros k. rewrite group_append_lookup, Hgroup, results_of_app, results_of_one.
    destruct (decide (k = concourse_target_key (definition_descriptor r))) as [-> | Hne].
    + rewrite bool_decide_eq_true_2 by reflexivity.
      destruct (results_of _ results); reflexivity.
    + rewrite bool_decide_eq_false_2 by congruence. rewrite app_nil_r. reflexivity.
Qed.

Lemma group_members results key rs :
  In (key, rs) (concourse_target_results results) ->
  rs = results_of key results /\ rs <> [].
Proof.
  destruct (grouped results) as [Hnodup Hgroup]. intros Hin.
  apply group_of_member in Hin; [| assumption]. rewrite Hgroup in Hin.
  destruct (results_of key results); [discriminate |].
  injection Hin as <-. split; [reflexivity | discriminate].
Qed.

(** X12.  [process_results] groups the results by target: no target has
    two groups, every group holds exactly the results of its target, in
    the order of the run, and is not empty, and every target with a result
    has its group.  (So the first element of a group, from which the
    client is made, always exists.) *)
Theorem results_are_grouped_by_target results :
  List.NoDup (map fst (concourse_target_results results)) /\
  forall key rs,
    In (key, rs) (concourse_target_results results) <->
    rs = results_of key results /\ rs <> [].
Proof.
  destruct (grouped results) as [Hnodup Hgroup]. split; [assumption |].
  intros key rs. split.
  - intros Hin. apply group_of_member in Hin; [| assumption]. rewrite Hgroup in Hin.
    destruct (results_of key results); [discriminate |].
    injection Hin as <-. split; [reflexivity | discriminate].
  - intros [-> Hne]. apply member_of_group. rewrite Hgroup.
    destruct (results_of key results); [contradiction | reflexivity].
Qed.

(** *** What the cleanup deletes *)
Lemma removed_is_not_deployed self existing concourse_results name :
  In name (pipelines_to_remove self existing concourse_results) ->
  ~ In name (map (fun r => pipeline_name (definition_descriptor r)) concourse_results).
Proof.
  unfold pipelines_to_remove. intros Hin.
  assert (Hcand : In name (elements (list_to_set existing ∖
            (list_to_set (map (fun r => pipeline_name (definition_descriptor r)) concourse_results)
               : gset string)))).
  { destruct (remove_pipelines_filter self); [apply List.filter_In in Hin as [Hin _] |]; exact Hin. }
  rewrite <- list_elem_of_In, elem_of_elements, elem_of_difference, !elem_of_list_to_set in Hcand.
  rewrite <- list_elem_of_In. tauto.
Qed.


Lemma never_deletes_spares results {A} (m : Eff.M Event A) :
  emits not_delete m -> emits (spares_deployed results) m.
Proof.
  apply emits_weaken. intros [] Hev; try exact I. discriminate Hev.
Qed.

Lemma first_of_group key results first rest :
  first :: rest = results_of key results ->
  concourse_target (definition_descriptor first) = key.
Proof.
  intros Heq.
  assert (Hin : In first (results_of key results)) by (rewrite <- Heq; left; reflexivity).
  unfold results_of in Hin. apply List.filter_In in Hin as [_ Hkey].
  apply bool_decide_eq_true_1 in Hkey. exact Hkey.
Qed.

(** X13.  Whatever the backends answer, [process_results] never deletes a
    pipeline for which the run has a result on the same target (be the
    result a success, a failure or a skip): only pipelines the run knows
    nothing of are removed. *)
Theorem process_results_spares_deployed env self results h :
  exists evs,
    snd (process_results env self results h) = h ++ evs /\
    forall t name,
      In (DeletePipeline t name) evs ->
      forall r, In r results ->
                concourse_target (definition_descriptor r) = t ->
                pipeline_name (definition_descriptor r) <> name.
Proof.
  assert (Hemits : emits (spares_deployed results) (process_results env self results)).
  { unfold process_results.
    set (self' := if (0 <? _)%nat then _ else self).
    apply emits_bind.
    - apply emits_for_each_in. intros [key rs] Hin.
      apply group_members in Hin as [Hrs Hne].
      destruct rs as [| first rest]; [contradiction |].
      pose proof (first_of_group _ _ _ _ Hrs) as Hkey.
      apply emits_bind; [apply emits_call; exact I | intros _].
      apply emits_bind.
      + apply emits_when.
        apply emits_bind; [apply emits_call; exact I | intros existing].
        apply emits_for_each_in. intros name Hname. apply emits_call.
        cbn [spares_deployed]. rewrite Hkey. unfold deployed_to. fold (results_of key results).
        rewrite <- Hrs.
        apply removed_is_not_deployed in Hname. exact Hname.
      + intros _. apply emits_bind.
        * apply never_deletes_spares, initialise_never_deletes.
        * intros _. apply emits_when.
          apply emits_bind; [apply emits_call; exact I | intros ?; apply emits_call; exact I].
    - intros _. destruct (_ =? _)%nat; [apply emits_ret |].
      apply emits_bind; [| intros ?; apply emits_ret].
      apply never_deletes_spares, notify_failed_never_deletes. }
  destruct (Hemits h) as (evs & Hevs & Hall). exists evs. split; [assumption |].
  intros t name Hin r Hr Ht Hname.
  rewrite List.Forall_forall in Hall. apply Hall in Hin. cbn [spares_deployed] in Hin.
  apply Hin. unfold deployed_to. rewrite <- Hname.
  apply (List.in_map (fun r => pipeline_name (definition_descriptor r))).
  apply List.filter_In. split; [assumption |]. apply bool_decide_eq_true_2. exact Ht.
Qed.

(** *** What the cleanup deletes, and when *)
Section Cleanup.
Context (env : Env) (self : ReplicationResultProcessor.t) (results : list DeployResult).

Lemma current_removes :
  remove_pipelines (current_processor self results) = true ->
  remove_pipelines self = true /\ failed_descriptors results = [] /\
  current_processor self results = self.
Proof.
  unfold current_processor. destruct (failed_descriptors results); cbn; [auto | discriminate].
Qed.

Lemma current_filter :
  remove_pipelines_filter (current_processor self results) = remove_pipelines_filter self.
Proof. unfold current_processor. destruct (0 <? _)%nat; reflexivity. Qed.

Lemma never_deletes_removable {A} (m : Eff.M Event A) :
  emits not_delete m -> emits (removable env self results) m.
Proof. apply emits_weaken. intros [] Hev; try exact I. discriminate Hev. Qed.

Lemma cleanup_removable key first rest :
  first :: rest = results_of key results ->
  remove_pipelines (current_processor self results) = true ->
  emits (removable env self results)
    (existing <- call (Pipelines key) (fun h => pipelines env h key) ;;
     for_each (pipelines_to_remove (current_processor self results) existing (first :: rest))
       (fun pipeline_name =>
          call (DeletePipeline key pipeline_name)
               (fun h => delete_pipeline env h key pipeline_name))).
Proof.
  intros Hrs Hon h. destruct (current_removes Hon) as (Hremove & Hfailed & Hcurrent).
  rewrite bind_run, call_run.
  destruct (pipelines env h key) as [e | existing] eqn:Hlisting.
  { exists [Pipelines key]. split; [reflexivity | repeat constructor]. }
  assert (Hdeletes : emits (removable env self results)
            (for_each
               (pipelines_to_remove (current_processor self results) existing (first :: rest))
               (fun pipeline_name =>
                  call (DeletePipeline key pipeline_name)
                       (fun h => delete_pipeline env h key pipeline_name)))).
  { apply emits_for_each_in. intros name Hname. apply emits_call.
    apply pipelines_to_remove_spec in Hname as (Hin & Hnot & Hkeep).
    cbn. split; [assumption |]. split; [assumption |]. split; [eauto |].
    split; [unfold deployed_to; fold (results_of key results); rewrite <- Hrs; exact Hnot |].
    rewrite current_filter in Hkeep. exact Hkeep. }
  destruct (Hdeletes (h ++ [Pipelines key])) as (evs & Hevs & Hall).
  exists ([Pipelines key] ++ evs). rewrite Hevs, <- app_assoc. split; [reflexivity |].
  constructor; [exact I | assumption].
Qed.

Lemma process_results_removable :
  emits (removable env self results) (process_results env self results).
Proof.
  unfold process_results. fold (current_processor self results).
  apply emits_bind.
  - apply emits_for_each_in. intros [key rs] Hin.
    apply group_members in Hin as [Hrs Hne].
    destruct rs as [| first rest]; [contradiction |].
    rewrite (first_of_group _ _ _ _ Hrs).
    apply emits_bind; [apply emits_call; exact I | intros _].
    apply emits_bind.
    + destruct (remove_pipelines (current_processor self results)) eqn:Hon; cbn [when]; [| apply emits_ret].
      apply cleanup_removable; assumption.
    + intros _. apply emits_bind.
      * apply never_deletes_removable, initialise_never_deletes.
      * intros _. apply emits_when.
        apply emits_bind; [apply emits_call; exact I | intros ?; apply emits_call; exact I].
  - intros _. destruct (_ =? _)%nat; [apply emits_ret |].
    apply emits_bind; [| intros ?; apply emits_ret].
    apply never_deletes_removable, notify_failed_never_deletes.
Qed.


Lemma group_of_result r :
  In r results ->
  exists first rest,
    first :: rest = results_of (concourse_target (definition_descriptor r)) results /\
    In (concourse_target (definition_descriptor r), first :: rest)
       (concourse_target_results results).
Proof.
  intros Hr. set (key := concourse_target (definition_descriptor r)).
  assert (Hin : In r (results_of key results)).
  { apply List.filter_In. split; [assumption |]. apply bool_decide_eq_true_2. reflexivity. }
  destruct (results_of key results) as [| first rest] eqn:Hrs; [destruct Hin |].
  exists first, rest. split; [reflexivity |].
  apply member_of_group. destruct (grouped results) as [_ Hgroup].
  rewrite Hgroup, Hrs. reflexivity.
Qed.

(** A run without failure that returns has deleted, on the target of every
    result, what the listing of that target gave for removal. *)
Lemma cleanup_completes h verdict h' r :
  process_results env self results h = (inr verdict, h') ->
  remove_pipelines self = true -> failed_descriptors results = [] ->
  In r results ->
  exists h0 existing,
    pipelines env h0 (concourse_target (definition_descriptor r)) = inr existing /\
    forall name,
      In name (pipelines_to_remove self existing
                 (results_of (concourse_target (definition_descriptor r)) results)) ->
      exists before behind,
        h' = h ++ before ++ [DeletePipeline (concourse_target (definition_descriptor r)) name]
               ++ behind.
Proof.
  intros Hrun Hremove Hfailed Hr. unfold process_results in Hrun.
  rewrite Hfailed in Hrun. cbn [length Nat.ltb Nat.leb Nat.eqb] in Hrun.
  apply bind_returns in Hrun as ([] & h1 & Hgroups & Hret).
  apply ret_returns in Hret as [_ ->].
  destruct (group_of_result r Hr) as (first & rest & Hrs & Hgroup).
  set (key := concourse_target (definition_descriptor r)) in *.
  eapply for_each_returns in Hgroups as (pre & evs & post & Hbody & ->); [| | exact Hgroup].
  2: { intros [k [| f rs]]; [apply emits_raise |].
       unfold _initialise_new_pipeline_resources. emits_solve ltac:(exact I). }
  cbn beta iota in Hbody. rewrite (first_of_group _ _ _ _ Hrs) in Hbody. fold key in Hbody.
  apply bind_returns in Hbody as (? & h2 & Hclient & Hbody).
  apply call_returns in Hclient as [_ ->].
  apply bind_returns in Hbody as ([] & h3 & Hcleanup & Hbody).
  rewrite Hremove in Hcleanup. cbn [when] in Hcleanup.
  apply bind_returns in Hcleanup as (existing & h4 & Hlisting & Hdeletes).
  apply call_returns in Hlisting as [Hlisting ->].
  assert (Hrest : exists tail, h ++ pre ++ evs = h3 ++ tail).
  { eapply emits_trace with (P := fun _ => True) in Hbody as (tail & Htail & _); [eauto |].
    unfold _initialise_new_pipeline_resources. emits_solve ltac:(exact I). }
  destruct Hrest as [tail Htail].
  eexists _, existing. split; [exact Hlisting |].
  intros name Hname. rewrite Hrs in Hdeletes.
  eapply for_each_returns in Hdeletes as (pre' & evs' & post' & Hdelete & ->);
    [| intros ?; apply emits_call; exact I | exact Hname].
  apply call_returns in Hdelete as [_ Hevs'].
  rewrite <- !app_assoc in Hevs'. do 5 apply app_inv_head in Hevs'. subst evs'.
  replace (h ++ pre ++ evs ++ post) with ((h ++ pre ++ evs) ++ post)
    by (rewrite <- !app_assoc; reflexivity).
  rewrite Htail.
  exists (pre ++ [ClientFromCfgName key] ++ [Pipelines key] ++ pre'), (post' ++ tail ++ post).
  rewrite <- !app_assoc. reflexivity.
Qed.

End Cleanup.

(** X10.  In the trace of [process_results], a pipeline is deleted only
    when the cleanup is switched on, no result of the run lacks the
    SUCCEEDED bit, a listing of the backend holds its name, no result of
    the run for that target carries the name and the filter, if there is
    one, does not match it.  When the run returns, with the cleanup on and
    without such a result, every such pipeline of the listing of a target
    that has a result is deleted. *)
Theorem cleanup_removes_exactly_the_orphans env self results h :
  exists evs,
    snd (process_results env self results h) = h ++ evs /\
    (forall t name,
       In (DeletePipeline t name) evs ->
       remove_pipelines self = true /\ failed_descriptors results = [] /\
       (exists h0 existing, pipelines env h0 t = inr existing /\ In name existing) /\
       ~ In name (deployed_to t results) /\
       (forall keep, remove_pipelines_filter self = Some keep -> keep name = false)) /\
    (forall verdict r,
       fst (process_results env self results h) = inr verdict ->
       remove_pipelines self = true -> failed_descriptors results = [] ->
       In r results ->
       let t := concourse_target (definition_descriptor r) in
       exists h0 existing,
         pipelines env h0 t = inr existing /\
         forall name,
           In name existing -> ~ In name (deployed_to t results) ->
           (forall keep, remove_pipelines_filter self = Some keep -> keep name = false) ->
           In (DeletePipeline t name) evs).
Proof.
  destruct (process_results_removable env self results h) as (evs & Hevs & Hall).
  exists evs. split; [assumption |]. split.
  - intros t name Hin. rewrite List.Forall_forall in Hall. exact (Hall _ Hin).
  - intros verdict r Hfst Hremove Hfailed Hr. cbv zeta.
    destruct (process_results env self results h) as [out h'] eqn:Hrun.
    cbn [fst snd] in Hfst, Hevs. subst out h'.
    destruct (cleanup_completes env self results h verdict _ r Hrun Hremove Hfailed Hr)
      as (h0 & existing & Hlisting & Hdeleted).
    exists h0, existing. split; [assumption |].
    intros name Hin Hnot Hkeep.
    destruct (Hdeleted name) as (before & behind & Heq).
    { apply pipelines_to_remove_spec. split; [assumption |]. split; [| assumption].
      exact Hnot. }
    apply app_inv_head in Heq. subst evs.
    apply in_app_iff. right. left. reflexivity.
Qed.


(** *** A run without failure *)
Lemma initialise_sends_no_mail env self api results :
  emits not_send_mail (_initialise_new_pipeline_resources env self api results).
Proof. unfold _initialise_new_pipeline_resources. emits_solve ltac:(reflexivity). Qed.

Lemma no_failed_descriptors results :
  Forall (fun r => has_flag (deploy_status r) DeployStatus.SUCCEEDED = true) results ->
  failed_descriptors results = [].
Proof.
  unfold failed_descriptors. induction 1 as [| r rs Hr _ IH]; [reflexivity |].
  cbn [List.filter]. rewrite Hr. exact IH.
Qed.

(** X14.  When every result of a run carries the SUCCEEDED bit,
    [process_results] sends no mail, keeps the processor as it is (the
    cleanup stays switched on if it was), and, if the backends let it
    return, answers True. *)
Theorem run_without_failure_sends_no_mail env self results h :
  Forall (fun r => has_flag (deploy_status r) DeployStatus.SUCCEEDED = true) results ->
  (exists evs, snd (process_results env self results h) = h ++ evs /\
               Forall not_send_mail evs) /\
  (forall verdict h', process_results env self results h = (inr verdict, h') ->
                      verdict = (self, true)).
Proof.
  intros Hall. apply no_failed_descriptors in Hall.
  unfold process_results. rewrite Hall. cbn [length Nat.ltb Nat.leb Nat.eqb].
  split.
  - apply (fun Hemits : emits not_send_mail _ => Hemits h).
    apply emits_bind; [| intros _; apply emits_ret].
    apply emits_for_each. intros [key rs].
    destruct rs as [| first rest]; [apply emits_raise |].
    apply emits_bind; [apply emits_call; reflexivity | intros _].
    apply emits_bind.
    { apply emits_when. apply emits_bind; [apply emits_call; reflexivity | intros existing].
      apply emits_for_each. intros name. apply emits_call. reflexivity. }
    intros _. apply emits_bind; [apply initialise_sends_no_mail | intros _].
    apply emits_when.
    apply emits_bind; [apply emits_call; reflexivity | intros ?; apply emits_call; reflexivity].
  - intros verdict h' Hrun. apply bind_returns in Hrun as (? & h1 & _ & Hrun).
    apply ret_returns in Hrun as [-> _]. reflexivity.
Qed.

(** The run of one updated pipeline: no failure, no mail. *)
Lemma run_without_failure_sends_no_mail_witness :
  (exists evs,
     snd (process_results Scenario.quiet_env Scenario.processor
            [mkDeployResult Scenario.foo DeployStatus.SUCCEEDED NoDetails] []) = [] ++ evs /\
     Forall not_send_mail evs) /\
  (forall verdict h',
     process_results Scenario.quiet_env Scenario.processor
       [mkDeployResult Scenario.foo DeployStatus.SUCCEEDED NoDetails] [] = (inr verdict, h') ->
     verdict = (Scenario.processor, true)).
Proof.
  apply (run_without_failure_sends_no_mail Scenario.quiet_env Scenario.processor
           [mkDeployResult Scenario.foo DeployStatus.SUCCEEDED NoDetails] []).
  repeat constructor.
Defined.

(** The run of one updated pipeline, [foo], on a backend that has [foo] and
    [orphan]: [orphan] is deleted, [foo] is not. *)
Lemma cleanup_removes_exactly_the_orphans_witness :
  let run := process_results Scenario.quiet_env Scenario.processor
               [mkDeployResult Scenario.foo DeployStatus.SUCCEEDED NoDetails] [] in
  In (DeletePipeline Scenario.backend "orphan") (snd run) /\
  ~ In (DeletePipeline Scenario.backend "foo") (snd run).
Proof.
  cbv zeta.
  destruct (cleanup_removes_exactly_the_orphans Scenario.quiet_env Scenario.processor
              [mkDeployResult Scenario.foo DeployStatus.SUCCEEDED NoDetails] [])
    as (evs & Heq & Hsound & Hcomplete).
  rewrite Heq. cbn [app]. split.
  - destruct (Hcomplete (Scenario.processor, true)
                (mkDeployResult Scenario.foo DeployStatus.SUCCEEDED NoDetails))
      as (h0 & existing & Hlisting & Hdeleted).
    + vm_compute. reflexivity.
    + reflexivity.
    + reflexivity.
    + left. reflexivity.
    + cbn in Hlisting. injection Hlisting as <-. apply Hdeleted.
      * right. left. reflexivity.
      * vm_compute. intros [Hfoo | []]. discriminate Hfoo.
      * intros keep Hkeep. discriminate Hkeep.
  - intros Hin. apply Hsound in Hin as (_ & _ & _ & Hnot & _). apply Hnot.
    vm_compute. left. reflexivity.
Defined.

End ResultProcessorFacts.

(** ** Facts about the validation of pipeline definitions *)
Module ValidationFacts.
Import Py Eff Replicator PipelineValidationResultProcessor.

(** X11.  [PipelineValidationResultProcessor.process_results] returns True
    exactly when every result has the status SUCCEEDED itself; otherwise
    it raises [PipelineValidationError].  A pipeline the backend created
    anew (SUCCEEDED|CREATED) and a skipped one therefore fail the
    validation. *)
Theorem validation_accepts_only_plain_success results :
  (process_results results = inr true <->
   Forall (fun r => deploy_status r = DeployStatus.SUCCEEDED) results) /\
  (process_results results <> inr true ->
   exists e, process_results results = inl e /\ exc_type e = PipelineValidationError /\
             exc_msg e = message (failed_results results)).
Proof.
  unfold process_results.
  assert (Hnil : failed_results results = [] <->
                 Forall (fun r => deploy_status r = DeployStatus.SUCCEEDED) results).
  { unfold failed_results. induction results as [| r rs IH]; cbn [List.filter].
    - split; [constructor | reflexivity].
    - destruct (deploy_status r =? DeployStatus.SUCCEEDED) eqn:Hs; cbn [negb].
      + apply Z.eqb_eq in Hs. rewrite IH. split.
        * intros Hall. constructor; assumption.
        * intros Hall. inversion Hall. assumption.
      + apply Z.eqb_neq in Hs. split; [discriminate |].
        intros Hall. inversion Hall. contradiction. }
  destruct (failed_results results) as [| f fs] eqn:Hfailed.
  - split; [rewrite <- Hnil; tauto | intros Hno; contradiction].
  - split.
    + rewrite <- Hnil. split; discriminate.
    + intros _. eexists. repeat split; reflexivity.
Qed.

Example created_pipeline_fails_validation dd :
  exists e,
    process_results
      [mkDeployResult dd (Z.lor DeployStatus.SUCCEEDED DeployStatus.CREATED) NoDetails] = inl e.
Proof. eexists. reflexivity. Qed.

End ValidationFacts.

(** ** More facts about whd/pull_request.py *)
Module PullRequestMoreFacts.
Import Py Eff EffFacts PullRequest PullRequestViews.

(** *** Trusted teams *)
Lemma trusted_teams_are_checked_first trusted_teams hostname :
  match iter_trusted_teams_for_hostname trusted_teams hostname with
  | inr _ => forallb well_formed_team trusted_teams = true
  | inl e => forallb well_formed_team trusted_teams = false /\ exc_type e = ValueError
  end.
Proof.
  induction trusted_teams as [| team rest IH]; [reflexivity |].
  cbn [iter_trusted_teams_for_hostname forallb]. unfold well_formed_team at 1 3.
  destruct (split "/" team) as [| p1 [| p2 [| p3 [| p4 more]]]]; cbn [length Nat.eqb orb andb];
    try (split; reflexivity).
  - destruct (iter_trusted_teams_for_hostname rest hostname); exact IH.
  - destruct (negb (String.eqb p1 hostname));
      destruct (iter_trusted_teams_for_hostname rest hostname); exact IH.
Qed.

(** X15.  When one of the trusted teams of the job mapping has neither the
    form [org/team] nor [host/org/team], wherever it stands in the list and
    whatever host it names, [_should_label] raises [ValueError] before
    GitHub is asked anything; when all are well formed the list of teams
    is read without error. *)
Theorem malformed_trusted_team_raises env job_mapping sender_login owner github_hostname h :
  (forallb well_formed_team (trusted_teams job_mapping) = false ->
   exists e,
     _should_label env job_mapping sender_login owner github_hostname h = (inl e, h) /\
     exc_type e = ValueError) /\
  (forallb well_formed_team (trusted_teams job_mapping) = true ->
   exists teams,
     iter_trusted_teams_for_hostname (trusted_teams job_mapping) github_hostname = inr teams).
Proof.
  pose proof (trusted_teams_are_checked_first (trusted_teams job_mapping) github_hostname) as Hiter.
  split; intros Hwf.
  - unfold _should_label. rewrite bind_run. unfold lift.
    destruct (iter_trusted_teams_for_hostname _ _) as [e | teams]; [| congruence].
    exists e. split; [reflexivity | apply Hiter].
  - destruct (iter_trusted_teams_for_hostname _ _) as [e | teams]; [| eauto].
    destruct Hiter as [Hno _]. congruence.
Qed.

(** *** Polling of the PR resources *)
Lemma sleeps_app t1 t2 : sleeps (t1 ++ t2) = sleeps t1 ++ sleeps t2.
Proof. apply omap_app. Qed.

Lemma iterations_are_sleeps trace : iterations trace = length (sleeps trace).
Proof.
  unfold iterations, sleeps. induction trace as [| ev rest IH]; [reflexivity |].
  destruct ev; cbn [List.filter omap option_bind mbind]; cbn; rewrite ?IH; try reflexivity;
    exact IH.
Qed.

Lemma quiet_looks evs :
  Forall looks_at_resource evs ->
  sleeps evs = [] /\ forall resources, Forall (trigger_within resources) evs.
Proof.
  induction 1 as [| ev rest Hev _ [IHs IHt]]; [split; [reflexivity | constructor] |].
  destruct ev; try contradiction; (split; [exact IHs | intros resources; constructor; [exact I | apply IHt]]).
Qed.

(** What the list comprehension [outdated_resources] does: it looks at the
    resources and keeps some of them. *)
Lemma outdated_resources_spec env pr_event resources h :
  exists evs,
    snd (outdated_resources env pr_event resources h) = h ++ evs /\
    Forall looks_at_resource evs /\
    forall outdated, fst (outdated_resources env pr_event resources h) = inr outdated ->
                     sublist outdated resources.
Proof.
  revert h. induction resources as [| resource rest IH]; intros h.
  - exists []. rewrite app_nil_r. split; [reflexivity |]. split; [constructor |].
    intros outdated [= <-]. constructor.
  - cbn [outdated_resources]. rewrite bind_run, call_run.
    destruct (failing_to_check env h resource) as [e | failing].
    { exists [FailingToCheck resource]. split; [reflexivity |].
      split; [repeat constructor | discriminate]. }
    rewrite bind_run.
    assert (Hkeep : exists evs1 (keep : Exception + bool),
              (if failing then ret true
               else versions <- call (ResourceVersions (pipeline_name resource) (name resource))
                                     (fun h => resource_versions env h (pipeline_name resource)
                                                 (name resource)) ;;
                    ret (negb (is_up_to_date pr_event resource versions)))
                (h ++ [FailingToCheck resource])
              = (keep, (h ++ [FailingToCheck resource]) ++ evs1) /\
              Forall looks_at_resource evs1).
    { destruct failing.
      - exists [], (inr true). rewrite app_nil_r. split; [reflexivity | constructor].
      - rewrite bind_run, call_run.
        destruct (resource_versions env _ _ _) as [e | versions].
        + exists [ResourceVersions (pipeline_name resource) (name resource)], (inl e).
          split; [reflexivity | repeat constructor].
        + eexists [ResourceVersions (pipeline_name resource) (name resource)], (inr _).
          split; [reflexivity | repeat constructor]. }
    destruct Hkeep as (evs1 & keep & -> & Hlooks1).
    destruct keep as [e | keep].
    { exists ([FailingToCheck resource] ++ evs1). rewrite <- app_assoc.
      split; [reflexivity |]. split; [| discriminate].
      constructor; [exact I | assumption]. }
    rewrite bind_run.
    destruct (IH ((h ++ [FailingToCheck resource]) ++ evs1)) as (evs2 & Hevs2 & Hlooks2 & Hsub).
    destruct (outdated_resources env pr_event rest ((h ++ [FailingToCheck resource]) ++ evs1))
      as [[e | outdated] h2]; cbn [fst snd] in Hevs2, Hsub; subst h2.
    + exists ([FailingToCheck resource] ++ evs1 ++ evs2). rewrite <- !app_assoc.
      split; [reflexivity |]. split; [| discriminate].
      constructor; [exact I |]. apply Forall_app; split; assumption.
    + exists ([FailingToCheck resource] ++ evs1 ++ evs2). cbn [ret fst snd].
      rewrite <- !app_assoc. split; [reflexivity |].
      split; [constructor; [exact I |]; apply Forall_app; split; assumption |].
      intros out [= <-]. specialize (Hsub outdated eq_refl).
      destruct keep; [apply sublist_skip | apply sublist_cons]; assumption.
Qed.

Lemma trigger_within_wider narrow wide evs :
  sublist narrow wide ->
  Forall (trigger_within narrow) evs -> Forall (trigger_within wide) evs.
Proof.
  intros Hsub Hall. eapply Forall_impl; [exact Hall |]. intros [] Hev; try exact I.
  destruct Hev as [Hne Hin]. split; [assumption |]. etransitivity; eassumption.
Qed.

(** X16.  However long [ensure_pr_resource_updates] polls and however it
    ends, the first poll sleeps [sleep_seconds] and each later one the
    float product of the duration before and [1.2], and a resource check
    is only ever triggered for a non-empty selection, in their order, of
    the resources the function was called with. *)
Theorem polling_backs_off_and_narrows depth env pr_event resources retries sleep_seconds h :
  exists evs,
    snd (ensure_pr_resource_updates depth env pr_event resources retries sleep_seconds h)
    = h ++ evs /\
    sleeps evs = backoff sleep_seconds (iterations evs) /\
    Forall (trigger_within resources) evs.
Proof.
  revert resources retries sleep_seconds h.
  induction depth as [| depth IH]; intros resources retries sleep_seconds h.
  - exists []. rewrite app_nil_r. split; [reflexivity |]. split; [reflexivity | constructor].
  - cbn [ensure_pr_resource_updates]. rewrite bind_run, call_run, bind_run.
    set (h1 := h ++ [Sleep sleep_seconds]).
    assert (Hlog : exists logged,
              when (retries - 1 <? 0)
                (call (Log ("could not update resources "
                            +:+ repr_list (map name resources) +:+ " - giving up"))
                      (fun _ => inr tt)) h1 = (inr tt, h1 ++ logged) /\
              sleeps logged = [] /\ iterations logged = 0%nat /\
              Forall (trigger_within resources) logged).
    { destruct (retries - 1 <? 0); cbn [when].
      - eexists [_]. rewrite call_run. split; [reflexivity |].
        split; [reflexivity |]. split; [reflexivity | repeat constructor].
      - exists []. rewrite app_nil_r. split; [reflexivity |].
        split; [reflexivity |]. split; [reflexivity | constructor]. }
    destruct Hlog as (logged & -> & Hls & Hli & Hlt). rewrite bind_run.
    destruct (outdated_resources_spec env pr_event resources (h1 ++ logged))
      as (looked & Hlooked & Hlooks & Hsub).
    destruct (quiet_looks _ Hlooks) as [Hqs Hqt].
    assert (Hqi : iterations looked = 0%nat) by (rewrite iterations_are_sleeps, Hqs; reflexivity).
    destruct (outdated_resources env pr_event resources (h1 ++ logged))
      as [[e | outdated] h2]; cbn [fst snd] in Hlooked, Hsub; subst h2.
    { exists ([Sleep sleep_seconds] ++ logged ++ looked). unfold h1. rewrite <- !app_assoc.
      split; [reflexivity |].
      rewrite !sleeps_app, !PullRequestFacts.iterations_app, Hls, Hli, Hqs, Hqi.
      split; [reflexivity |].
      constructor; [exact I |]. apply Forall_app; split; [assumption | apply Hqt]. }
    specialize (Hsub outdated eq_refl).
    destruct outdated as [| first more].
    { exists ([Sleep sleep_seconds] ++ logged ++ looked). unfold h1. cbn [ret snd].
      rewrite <- !app_assoc. split; [reflexivity |].
      rewrite !sleeps_app, !PullRequestFacts.iterations_app, Hls, Hli, Hqs, Hqi.
      split; [reflexivity |].
      constructor; [exact I |]. apply Forall_app; split; [assumption | apply Hqt]. }
    rewrite bind_run, call_run.
    destruct (trigger_resource_check env _ (first :: more)) as [e | []].
    { exists ([Sleep sleep_seconds] ++ logged ++ looked ++ [TriggerResourceCheck (first :: more)]).
      unfold h1. rewrite <- !app_assoc. split; [reflexivity |].
      rewrite !sleeps_app, !PullRequestFacts.iterations_app, Hls, Hli, Hqs, Hqi.
      split; [reflexivity |].
      constructor; [exact I |]. apply Forall_app; split; [assumption |].
      apply Forall_app; split; [apply Hqt |].
      repeat constructor; [discriminate | assumption]. }
    destruct (IH (first :: more) (retries - 1) (sleep_seconds * float_1_2)%float
                (((h1 ++ logged) ++ looked) ++ [TriggerResourceCheck (first :: more)]))
      as (evs & Hevs & Hsleeps & Htriggers).
    exists ([Sleep sleep_seconds] ++ logged ++ looked
            ++ [TriggerResourceCheck (first :: more)] ++ evs).
    split; [rewrite Hevs; unfold h1; rewrite <- !app_assoc; reflexivity |].
    rewrite !sleeps_app, !PullRequestFacts.iterations_app, Hls, Hli, Hqs, Hqi.
    cbn [app sleeps omap]. split.
    + cbn. rewrite Hsleeps. reflexivity.
    + constructor; [exact I |]. apply Forall_app; split; [assumption |].
      apply Forall_app; split; [apply Hqt |].
      constructor; [split; [discriminate | assumption] |].
      eapply trigger_within_wider; eassumption.
Qed.

(** From the default of 3 seconds the product is rounded at every step: the
    second poll sleeps 3.5999999999999996 seconds, the third
    4.3199999999999994. *)
Example default_polls_sleep_rounded_products :
  sleeps (snd (ensure_pr_resource_updates 3 PrScenario.stuck_env PrScenario.opened
                 [PrScenario.pr_resource] default_retries default_sleep_seconds []))
  = [3; 0x1.cccccccccccccp+1; 0x1.147ae147ae147p+2]%float /\
  backoff default_sleep_seconds 3 = [3; 0x1.cccccccccccccp+1; 0x1.147ae147ae147p+2]%float.
Proof. split; vm_compute; reflexivity. Qed.

(** *** Resources that are up to date *)
Lemma nothing_outdated env pr_event resources h :
  (forall h resource, failing_to_check env h resource = inr false) ->
  (forall h resource,
     In resource resources ->
     exists versions,
       resource_versions env h (pipeline_name resource) (name resource) = inr versions /\
       is_up_to_date pr_event resource versions = true) ->
  exists evs,
    outdated_resources env pr_event resources h = (inr [], h ++ evs) /\
    Forall looks_at_resource evs.
Proof.
  intros Hcheck Hversions. revert h.
  induction resources as [| resource rest IH]; intros h.
  - exists []. rewrite app_nil_r. split; [reflexivity | constructor].
  - cbn [outdated_resources]. rewrite bind_run, call_run, Hcheck, !bind_run, call_run.
    destruct (Hversions (h ++ [FailingToCheck resource]) resource (or_introl eq_refl))
      as (versions & -> & ->).
    cbn [ret negb]. rewrite bind_run.
    destruct (IH (fun h r Hr => Hversions h r (or_intror Hr))
                ((h ++ [FailingToCheck resource])
                   ++ [ResourceVersions (pipeline_name resource) (name resource)]))
      as (evs & -> & Hlooks).
    exists ([FailingToCheck resource; ResourceVersions (pipeline_name resource) (name resource)]
            ++ evs).
    cbn [ret]. rewrite <- !app_assoc. split; [reflexivity |].
    repeat (constructor; [exact I |]). assumption.
Qed.



End PullRequestMoreFacts.

(** ** More facts about cnudie/retrieve.py: the composite lookup *)
Module CompositeLookupFacts.
Import Py Eff EffFacts Retrieve RetrieveFacts.

Lemma walk_misses lookups component_id ctx_repo :
  forall layer wbs h,
    (forall i a, answers lookups layer component_id ctx_repo h !! i = Some a -> is_miss a = true) ->
    walk lookups layer component_id ctx_repo wbs h
    = (inr None, h ++ lookup_events (length lookups) layer component_id ctx_repo).
Proof.
  induction lookups as [| lookup rest IH]; intros layer wbs h Hmiss.
  - cbn. rewrite app_nil_r. reflexivity.
  - cbn [walk answers length lookup_events] in *. cbv zeta in *.
    rewrite bind_run. unfold try_except. rewrite call_run.
    set (arg := if ctx_truthy ctx_repo then Some ctx_repo else None) in *.
    set (h1 := h ++ [LookupCalled layer component_id arg]) in *.
    pose proof (Hmiss 0%nat _ eq_refl) as Hfirst.
    assert (Hmiss' : forall i a,
              answers rest (S layer) component_id ctx_repo h1 !! i = Some a -> is_miss a = true).
    { intros i a Hi. apply (Hmiss (S i) a). exact Hi. }
    destruct (lookup h component_id arg) as [e | res] eqn:Hanswer.
    + cbn [is_miss] in Hfirst. rewrite Hfirst. cbn [ret].
      rewrite (IH _ _ _ Hmiss'). subst h1. rewrite <- app_assoc. reflexivity.
    + destruct res as [d' | | wb |]; [discriminate Hfirst | | |];
        rewrite (IH _ _ _ Hmiss'); subst h1; rewrite <- app_assoc; reflexivity.
Qed.

(** X19.  When every layer misses (it answers None, a write-back or
    another value, or raises the not-found exception), the composite lookup
    asks each layer exactly once, in order, and calls no write-back; it
    then returns None if [absent_ok], and otherwise raises the not-found
    exception, or [AttributeError] when no repository context was given. *)
Theorem lookup_that_finds_nothing lookups component_id ctx_repo absent_ok h :
  (forall i a, answers lookups 0 component_id ctx_repo h !! i = Some a -> is_miss a = true) ->
  let run := composite_component_descriptor_lookup lookups component_id ctx_repo absent_ok h in
  snd run = h ++ lookup_events (length lookups) 0 component_id ctx_repo /\
  (absent_ok = true -> fst run = inr None) /\
  (absent_ok = false ->
   exists e, fst run = inl e /\
             exc_type e = match ctx_repo with
                          | NoCtxRepo => AttributeError
                          | _ => OciImageNotFoundException
                          end).
Proof.
  intros Hmiss. cbv zeta. unfold composite_component_descriptor_lookup.
  rewrite bind_run, (walk_misses _ _ _ _ _ _ Hmiss).
  destruct absent_ok.
  - split; [reflexivity |]. split; [reflexivity | discriminate].
  - destruct ctx_repo; (split; [reflexivity |]); (split; [discriminate |]);
      intros _; eexists; split; reflexivity.
Qed.

Lemma lookup_that_finds_nothing_witness :
  let run := composite_component_descriptor_lookup CacheScenario.empty_lookups
               LookupScenario.component_id LookupScenario.ctx_repo false [] in
  snd run = [] ++ lookup_events (length CacheScenario.empty_lookups) 0 LookupScenario.component_id
                    LookupScenario.ctx_repo /\
  (false = true -> fst run = inr None) /\
  (false = false ->
   exists e, fst run = inl e /\
             exc_type e = match LookupScenario.ctx_repo with
                          | NoCtxRepo => AttributeError
                          | _ => OciImageNotFoundException
                          end).
Proof.
  apply (lookup_that_finds_nothing CacheScenario.empty_lookups LookupScenario.component_id
           LookupScenario.ctx_repo false []).
  intros [| [| [| [| i]]]] a; cbn; intros [= <-]; reflexivity.
Defined.

Lemma writebacks_up_to_the_failure pre wb post component_id d e :
  forall h,
    (forall wb' h0, In wb' pre -> writeback wb' h0 component_id d = inr tt) ->
    (forall h0, writeback wb h0 component_id d = inl e) ->
    for_each (pre ++ wb :: post) (fun wb => WriteBack_call wb component_id d) h
    = (inl e, h ++ map (writeback_event component_id d) (pre ++ [wb])).
Proof.
  induction pre as [| first pre IH]; intros h Hpre Hraise.
  - cbn [app for_each map]. rewrite bind_run. unfold WriteBack_call at 1.
    rewrite call_run, Hraise. reflexivity.
  - cbn [app for_each map]. rewrite bind_run. unfold WriteBack_call at 1.
    rewrite call_run, (Hpre first h (or_introl eq_refl)).
    rewrite IH by (intros; try apply Hpre; try right; auto).
    unfold writeback_event at 2. rewrite <- app_assoc. reflexivity.
Qed.

(** X20.  When a layer finds the descriptor and one of the write-backs
    collected from the layers before raises (as those of both caches do for
    a descriptor without repository context), the composite lookup raises
    that exception instead of returning the descriptor; the write-backs
    collected before the failing one have been called, those after it are
    not. *)
Theorem raising_writeback_fails_lookup lookups component_id ctx_repo absent_ok h k d pre wb post e :
  answers lookups 0 component_id ctx_repo h !! k = Some (inr (Found d)) ->
  (forall i a, (i < k)%nat -> answers lookups 0 component_id ctx_repo h !! i = Some a ->
               is_miss a = true) ->
  collected (take k (answers lookups 0 component_id ctx_repo h)) = pre ++ wb :: post ->
  (forall wb' h0, In wb' pre -> writeback wb' h0 component_id d = inr tt) ->
  (forall h0, writeback wb h0 component_id d = inl e) ->
  composite_component_descriptor_lookup lookups component_id ctx_repo absent_ok h
  = (inl e,
     h ++ lookup_events (S k) 0 component_id ctx_repo
       ++ map (writeback_event component_id d) (pre ++ [wb])).
Proof.
  intros Hk Hmiss Hcollected Hpre Hraise.
  unfold composite_component_descriptor_lookup.
  rewrite bind_run, (walk_reaches _ _ _ _ _ _ _ _ Hk Hmiss), bind_run.
  cbn [app]. rewrite Hcollected.
  rewrite (writebacks_up_to_the_failure _ _ _ _ _ _ _ Hpre Hraise).
  rewrite <- app_assoc. reflexivity.
Qed.

(** The registry has a descriptor without repository context: the lookup
    fails in the write-back of the in-memory cache. *)
Lemma raising_writeback_fails_lookup_witness :
  composite_component_descriptor_lookup CacheScenario.lookups LookupScenario.component_id
    LookupScenario.ctx_repo false []
  = (inl (raise_ ValueError "None"),
     [] ++ lookup_events 4 0 LookupScenario.component_id LookupScenario.ctx_repo
        ++ map (writeback_event LookupScenario.component_id CacheScenario.homeless)
             ([] ++ [CacheScenario.memory_writeback])).
Proof.
  apply (raising_writeback_fails_lookup CacheScenario.lookups LookupScenario.component_id
           LookupScenario.ctx_repo false [] 3 CacheScenario.homeless []
           CacheScenario.memory_writeback [CacheScenario.filesystem_writeback]).
  - reflexivity.
  - intros [| [| [| i]]] a Hlt; [| | | lia]; cbn; intros [= <-]; reflexivity.
  - reflexivity.
  - intros wb' h0 [].
  - reflexivity.
Defined.

(** The default stack of lookups: the registry has the descriptor. *)
Lemma hit_returns_witness :
  composite_component_descriptor_lookup LookupScenario.default_lookups
    LookupScenario.component_id LookupScenario.ctx_repo false []
  = (inr (Some LookupScenario.descriptor),
     [] ++ lookup_events 4 0 LookupScenario.component_id LookupScenario.ctx_repo
        ++ map (writeback_event LookupScenario.component_id LookupScenario.descriptor)
             (collected (take 3 (answers LookupScenario.default_lookups 0
                                   LookupScenario.component_id LookupScenario.ctx_repo [])))).
Proof.
  apply (hit_returns LookupScenario.default_lookups LookupScenario.component_id
           LookupScenario.ctx_repo false [] 3 LookupScenario.descriptor).
  - reflexivity.
  - intros [| [| [| i]]] a Hlt; [| | | lia]; cbn; intros [= <-]; reflexivity.
  - intros wb h0 Hin. cbn in Hin. destruct Hin as [<- | [<- | []]]; reflexivity.
Defined.

End CompositeLookupFacts.

(** ** Facts about [components] of cnudie/retrieve.py *)
Module ComponentsFacts.
Import Py Eff EffFacts Components.

Lemma looked_up_app t1 t2 : looked_up (t1 ++ t2) = looked_up t1 ++ looked_up t2.
Proof. apply omap_app. Qed.

Lemma yielded_app t1 t2 : yielded (t1 ++ t2) = yielded t1 ++ yielded t2.
Proof. apply omap_app. Qed.

Section Traversal.
Variable component_descriptor_lookup : Lookup.

Lemma resolve_references_traverses recurse component :
  (forall c, traverses component_descriptor_lookup [(name c, version c)] (recurse c)) ->
  forall references,
    traverses component_descriptor_lookup []
      (resolve_references recurse component_descriptor_lookup component references).
Proof.
  intros Hrecurse. induction references as [| component_ref rest IH]; intros visited h.
  - exists []. cbn. rewrite !app_nil_r. repeat split; auto.
    intros visited' [= <-]. reflexivity.
  - cbn [resolve_references]. cbv zeta.
    set (cref := (componentName component_ref, ref_version component_ref)).
    destruct (bool_decide (cref ∈ visited)) eqn:Hvisited; [apply IH |].
    apply bool_decide_eq_false in Hvisited.
    set (ev := LookupCalled cref (current_repository_ctx component)).
    assert (Hfresh : NoDup visited -> NoDup (visited ++ [cref])).
    { intros Hnd. apply NoDup_app. split; [exact Hnd |]. split.
      - intros x Hx Hin. apply list_elem_of_singleton in Hin. subst x. contradiction.
      - apply NoDup_singleton. }
    assert (Hlooked : forall t, looked_up (ev :: t) = cref :: looked_up t) by reflexivity.
    assert (Hyielded : forall t, yielded (ev :: t) = yielded t) by reflexivity.
    rewrite bind_run, call_run. fold ev.
    destruct (component_descriptor_lookup h cref (current_repository_ctx component))
      as [e | [resolved |]] eqn:Hlookup.
    + exists [ev]. cbn. repeat split; auto; try discriminate. intros _. apply sublist_nil_l.
    + rewrite bind_run.
      destruct (Hrecurse resolved (visited ++ [cref]) (h ++ [ev]))
        as [t1 [Htrace1 [Hnodup1 [Hvisited1 Hyield1]]]].
      destruct (recurse resolved (visited ++ [cref]) (h ++ [ev])) as [[e | visited1] h1] eqn:Hrun;
        cbn [fst snd] in *; subst h1.
      * exists (ev :: t1). rewrite Hlooked, Hyielded.
        split; [rewrite <- app_assoc; reflexivity |].
        split; [intros Hnd; rewrite cons_middle, app_assoc; auto |].
        split; [discriminate |].
        intros Hasked. rewrite <- (Hasked _ _ _ _ Hlookup). apply (Hyield1 Hasked).
      * specialize (Hvisited1 _ eq_refl). subst visited1.
        destruct (IH ((visited ++ [cref]) ++ looked_up t1) ((h ++ [ev]) ++ t1))
          as [t2 [Htrace2 [Hnodup2 [Hvisited2 Hyield2]]]].
        exists (ev :: t1 ++ t2).
        rewrite Hlooked, Hyielded, looked_up_app, yielded_app.
        split; [rewrite Htrace2, <- !app_assoc; reflexivity |].
        split.
        { intros Hnd. rewrite cons_middle, !app_assoc. apply Hnodup2, Hnodup1, Hfresh, Hnd. }
        split.
        { intros visited' Hret. rewrite (Hvisited2 _ Hret), <- !app_assoc. reflexivity. }
        intros Hasked. rewrite <- (Hasked _ _ _ _ Hlookup).
        apply (sublist_app _ _ _ _ (Hyield1 Hasked) (Hyield2 Hasked)).
    + exists [ev]. cbn. repeat split; auto; try discriminate. intros _. apply sublist_nil_l.
Qed.

Lemma resolve_component_dependencies_traverses depth :
  forall component,
    traverses component_descriptor_lookup [(name component, version component)]
      (resolve_component_dependencies depth component_descriptor_lookup component).
Proof.
  induction depth as [| depth IH]; intros component visited h.
  - exists []. cbn. rewrite !app_nil_r. repeat split; auto; try discriminate.
    intros _. apply sublist_nil_l.
  - cbn [resolve_component_dependencies]. rewrite bind_run. unfold yield. rewrite call_run.
    destruct (resolve_references_traverses _ component IH (componentReferences component)
                visited (h ++ [Yield component]))
      as [t [Htrace [Hnodup [Hvisited Hyield]]]].
    exists (Yield component :: t). cbn [looked_up yielded omap]. fold (looked_up t) (yielded t).
    split; [rewrite Htrace, <- app_assoc; reflexivity |].
    split; [exact Hnodup |]. split; [exact Hvisited |].
    intros Hasked. apply sublist_skip, (Hyield Hasked).
Qed.

End Traversal.

(** X21.  However [components] ends, it looks up no component version
    twice, and never the version of the component it starts from. *)
Theorem components_looks_up_each_version_once depth component component_descriptor_lookup h :
  exists t,
    snd (components depth component component_descriptor_lookup h) = h ++ t /\
    NoDup ((name component, version component) :: looked_up t).
Proof.
  unfold components. cbv zeta. rewrite bind_run.
  destruct (resolve_component_dependencies_traverses component_descriptor_lookup depth component
              [(name component, version component)] h)
    as [t [Htrace [Hnodup _]]].
  exists t. split.
  - destruct (resolve_component_dependencies _ _ _ _ h) as [[e | visited] h']; exact Htrace.
  - apply (Hnodup (NoDup_singleton _)).
Qed.

(** X22.  With a lookup that answers with the component version it is asked
    for, [components] hands out no component version twice. *)
Theorem components_yields_each_version_once depth component component_descriptor_lookup h :
  answers_what_is_asked component_descriptor_lookup ->
  exists t,
    snd (components depth component component_descriptor_lookup h) = h ++ t /\
    NoDup (yielded t).
Proof.
  intros Hasked. unfold components. cbv zeta. rewrite bind_run.
  destruct (resolve_component_dependencies_traverses component_descriptor_lookup depth component
              [(name component, version component)] h)
    as [t [Htrace [Hnodup [_ Hyield]]]].
  exists t. split.
  - destruct (resolve_component_dependencies _ _ _ _ h) as [[e | visited] h']; exact Htrace.
  - apply (sublist_NoDup _ _ (Hnodup (NoDup_singleton _)) (Hyield Hasked)).
Qed.

Lemma registry_answers_what_is_asked :
  answers_what_is_asked ComponentsScenario.registry.
Proof.
  intros h component_id ctx_repo c. unfold ComponentsScenario.registry.
  destruct (List.find _ _) as [c' |] eqn:Hfind; [| discriminate].
  intros [= ->]. apply List.find_some in Hfind as [_ Hid].
  apply bool_decide_eq_true in Hid. exact Hid.
Qed.

(** A graph with a cycle and a diamond: each of the four versions once. *)
Lemma components_yields_each_version_once_witness :
  exists t,
    snd (components 10 ComponentsScenario.root ComponentsScenario.registry []) = [] ++ t /\
    NoDup (yielded t).
Proof.
  apply (components_yields_each_version_once 10 ComponentsScenario.root
           ComponentsScenario.registry []).
  exact registry_answers_what_is_asked.
Defined.

End ComponentsFacts.

(** ** Facts about [greatest_component_versions] of cnudie/retrieve.py *)
Module VersionsFacts.
Import Py Eff EffFacts Retrieve Versions.

Lemma index_found x l i : index x l = inr i -> l !! i = Some x.
Proof.
  revert i. induction l as [| y rest IH]; intros i; cbn; [discriminate |].
  destruct (decide (y = x)) as [-> |]; [intros [= <-]; reflexivity |].
  destruct (index x rest) as [e | j]; [discriminate |]. intros [= <-]. cbn. apply IH. reflexivity.
Qed.

Lemma index_absent x l : x ∉ l -> exists e, index x l = inl e /\ exc_type e = ValueError.
Proof.
  induction l as [| y rest IH]; intros Hnot; cbn.
  - eexists; split; reflexivity.
  - destruct (decide (y = x)) as [-> | _]; [exfalso; apply Hnot; left |].
    destruct IH as [e [-> He]]; [intros Hin; apply Hnot; right; exact Hin |].
    exists e. split; [reflexivity | exact He].
Qed.

Lemma slice_from_zero {A} (l : list A) : slice_from 0 l = l.
Proof. unfold slice_from. cbn. rewrite Z.min_l by lia. reflexivity. Qed.

Lemma slice_from_all {A} (n : Z) (l : list A) :
  (Z.of_nat (length l) <= n)%Z -> slice_from (- n) l = l.
Proof.
  intros Hn. unfold slice_from. cbv zeta.
  destruct (- n <? 0)%Z eqn:Hneg.
  - rewrite Z.max_r by lia. reflexivity.
  - apply Z.ltb_ge in Hneg. rewrite Z.min_l by lia.
    assert (n = 0)%Z as -> by lia. reflexivity.
Qed.

Lemma slice_from_last {A} (n : Z) (l : list A) :
  (0 < n)%Z -> l <> [] ->
  (Z.of_nat (length (slice_from (- n) l)) <= n)%Z /\ last (slice_from (- n) l) = last l.
Proof.
  intros Hn Hl. unfold slice_from. cbv zeta.
  assert (Hlen : (0 < length l)%nat) by (destruct l; [congruence | cbn; lia]).
  replace (- n <? 0)%Z with true by (symmetry; apply Z.ltb_lt; lia).
  set (k := Z.to_nat (Z.max (- n + Z.of_nat (length l)) 0)).
  assert (Hk : (k < length l)%nat) by (unfold k; lia).
  split.
  - rewrite length_drop. unfold k. lia.
  - rewrite !last_lookup, length_drop, lookup_drop. f_equal. lia.
Qed.

Lemma slice_from_sub {A} (start : Z) (l : list A) x : x ∈ slice_from start l -> x ∈ l.
Proof. unfold slice_from. cbv zeta. intros Hx. apply (elem_of_sublist _ _ _ Hx), sublist_drop. Qed.

Section Semver.
Context {Semver : Type}.
Variable parse_to_semver : string -> Exception + Semver.
Variable lt : Semver -> Semver -> bool.
Variable prerelease : Semver -> bool.
Variable build : Semver -> bool.

Lemma without_prereleases_kept versions kept :
  without_prereleases parse_to_semver prerelease build versions = inr kept ->
  forall v, v ∈ kept ->
    v ∈ versions /\
    exists pv, parse_to_semver v = inr pv /\ (prerelease pv || build pv) = false.
Proof.
  revert kept. induction versions as [| w rest IH]; intros kept; cbn.
  - intros [= <-] v Hin. inversion Hin.
  - destruct (parse_to_semver w) as [e | pv] eqn:Hparse; [discriminate |].
    destruct (without_prereleases _ _ _ rest) as [e | kept'] eqn:Hrest; [discriminate |].
    intros [= <-] v Hin.
    destruct (negb (prerelease pv) && negb (build pv)) eqn:Hfinal.
    + apply elem_of_cons in Hin as [-> | Hin].
      * split; [left |]. exists pv. split; [exact Hparse |].
        destruct (prerelease pv), (build pv); cbn in *; congruence.
      * destruct (IH _ eq_refl v Hin) as [Hv Hpv]. split; [right; exact Hv | exact Hpv].
    + destruct (IH _ eq_refl v Hin) as [Hv Hpv]. split; [right; exact Hv | exact Hpv].
Qed.

Lemma without_prereleases_returns versions :
  (forall v, v ∈ versions -> exists pv, parse_to_semver v = inr pv) ->
  exists kept, without_prereleases parse_to_semver prerelease build versions = inr kept.
Proof.
  induction versions as [| w rest IH]; intros Hparse; cbn; [eexists; reflexivity |].
  destruct (Hparse w) as [pv ->]; [left |].
  destruct IH as [kept ->]; [intros v Hv; apply Hparse; right; exact Hv |].
  eexists; reflexivity.
Qed.

Lemma keyed_versions versions keys :
  keyed parse_to_semver versions = inr keys -> map snd keys = versions.
Proof.
  revert keys. induction versions as [| w rest IH]; intros keys; cbn.
  - intros [= <-]. reflexivity.
  - destruct (parse_to_semver w) as [e | pv]; [discriminate |].
    destruct (keyed _ rest) as [e | keys']; [discriminate |].
    intros [= <-]. cbn. rewrite (IH _ eq_refl). reflexivity.
Qed.

Lemma keyed_returns versions :
  (forall v, v ∈ versions -> exists pv, parse_to_semver v = inr pv) ->
  exists keys, keyed parse_to_semver versions = inr keys.
Proof.
  induction versions as [| w rest IH]; intros Hparse; cbn; [eexists; reflexivity |].
  destruct (Hparse w) as [pv ->]; [left |].
  destruct IH as [keys ->]; [intros v Hv; apply Hparse; right; exact Hv |].
  eexists; reflexivity.
Qed.

Lemma insert_by_key_permutation x l : insert_by_key lt x l ≡ₚ x :: l.
Proof.
  induction l as [| y rest IH]; cbn; [reflexivity |].
  destruct (lt x.1 y.1); [reflexivity |]. rewrite IH. apply Permutation_swap.
Qed.

Lemma insertion_permutation keys :
  forall acc, fold_left (fun acc x => insert_by_key lt x acc) keys acc ≡ₚ keys ++ acc.
Proof.
  induction keys as [| x rest IH]; intros acc; cbn; [reflexivity |].
  rewrite IH, insert_by_key_permutation. symmetry. apply Permutation_middle.
Qed.

Lemma sorted_by_semver_permutation versions sorted :
  sorted_by_semver parse_to_semver lt versions = inr sorted -> sorted ≡ₚ versions.
Proof.
  unfold sorted_by_semver. destruct (keyed _ versions) as [e | keys] eqn:Hkeys; [discriminate |].
  intros [= <-]. rewrite insertion_permutation, app_nil_r, (keyed_versions _ _ Hkeys).
  reflexivity.
Qed.

Lemma sorted_by_semver_returns versions :
  (forall v, v ∈ versions -> exists pv, parse_to_semver v = inr pv) ->
  exists sorted, sorted_by_semver parse_to_semver lt versions = inr sorted.
Proof.
  intros Hparse. unfold sorted_by_semver.
  destruct (keyed_returns _ Hparse) as [keys ->]. eexists; reflexivity.
Qed.

(** What the function does once the registry has answered with a list of
    versions that is not empty. *)
Lemma after_the_answer oci_client component_name base_url max_versions greatest_version
    ignore_prerelease_versions h versions :
  oci_client h (OciRepositoryContext base_url) component_name = inr versions ->
  versions <> [] ->
  greatest_component_versions parse_to_semver lt prerelease build oci_client component_name
    (OciRepositoryContext base_url) max_versions greatest_version ignore_prerelease_versions h
  = bind (lift (if ignore_prerelease_versions
                then without_prereleases parse_to_semver prerelease build versions
                else inr versions))
      (fun kept =>
         bind (lift (sorted_by_semver parse_to_semver lt kept))
           (fun sorted =>
              bind (match greatest_version with
                    | Some greatest =>
                        if truthy greatest
                        then bind (lift (index greatest sorted))
                               (fun i => ret (take (S i) sorted))
                        else ret sorted
                    | None => ret sorted
                    end)
                (fun upto => ret (slice_from (- max_versions) upto))))
      (h ++ [Tags (OciRepositoryContext base_url) component_name]).
Proof.
  intros Hanswer Hversions. unfold greatest_component_versions, component_versions.
  rewrite bind_run, call_run, Hanswer.
  destruct versions as [| v rest]; [congruence | reflexivity].
Qed.

(** X23.  Asked for the versions up to [greatest_version], of a registry
    that lists versions (all of which parse), the function raises
    [ValueError] when that version is not among them, and also when it is
    but prereleases are ignored and that version is a prerelease or carries
    build metadata.  Of a registry that lists no version it returns the
    empty list, whatever [greatest_version] is. *)
Theorem greatest_version_must_be_listed oci_client component_name base_url max_versions greatest
    ignore_prerelease_versions h versions :
  oci_client h (OciRepositoryContext base_url) component_name = inr versions ->
  (forall v, v ∈ versions -> exists pv, parse_to_semver v = inr pv) ->
  truthy greatest = true ->
  greatest ∉ versions \/
  (ignore_prerelease_versions = true /\
   exists pv, parse_to_semver greatest = inr pv /\ (prerelease pv || build pv) = true) ->
  match versions with
  | [] =>
      greatest_component_versions parse_to_semver lt prerelease build oci_client component_name
        (OciRepositoryContext base_url) max_versions (Some greatest)
        ignore_prerelease_versions h
      = (inr [], h ++ [Tags (OciRepositoryContext base_url) component_name])
  | _ :: _ =>
      exists e,
        fst (greatest_component_versions parse_to_semver lt prerelease build oci_client
               component_name (OciRepositoryContext base_url) max_versions (Some greatest)
               ignore_prerelease_versions h) = inl e /\
        exc_type e = ValueError
  end.
Proof.
  intros Hanswer Hparse Htruthy Hmissing.
  destruct versions as [| v0 others].
  { unfold greatest_component_versions, component_versions.
    rewrite bind_run, call_run, Hanswer. reflexivity. }
  set (versions := v0 :: others) in *.
  assert (Hversions : versions <> []) by discriminate.
  rewrite (after_the_answer _ _ _ _ _ _ _ _ Hanswer Hversions), Htruthy.
  unfold bind, lift, ret.
  assert (Hkept : exists kept,
             (if ignore_prerelease_versions
              then without_prereleases parse_to_semver prerelease build versions
              else inr versions) = inr kept /\
             (forall v, v ∈ kept -> v ∈ versions) /\ greatest ∉ kept).
  { destruct ignore_prerelease_versions.
    - destruct (without_prereleases_returns _ Hparse) as [kept Hkept]. exists kept.
      split; [exact Hkept |]. split.
      + intros v Hv. apply (without_prereleases_kept _ _ Hkept v Hv).
      + intros Hin. destruct (without_prereleases_kept _ _ Hkept _ Hin) as [Hlisted [pv [Hpv Hfinal]]].
        destruct Hmissing as [Hnot | [_ [pv' [Hpv' Hpre]]]]; [exact (Hnot Hlisted) |].
        congruence.
    - exists versions. split; [reflexivity |]. split; [auto |].
      destruct Hmissing as [Hnot | [Hignore _]]; [exact Hnot | discriminate]. }
  destruct Hkept as [kept [-> [Hsub Hnot]]].
  destruct (sorted_by_semver_returns kept) as [sorted Hsorted];
    [intros v Hv; apply Hparse, Hsub, Hv |].
  rewrite Hsorted.
  destruct (index_absent greatest sorted) as [e [-> He]].
  - rewrite (sorted_by_semver_permutation _ _ Hsorted). exact Hnot.
  - exists e. split; [reflexivity | exact He].
Qed.

(** X24.  With a positive [max_versions], a returned list has at most
    [max_versions] entries, all of them versions the registry lists; and
    when [greatest_version] is given, the list ends with that version. *)
Theorem greatest_versions_window oci_client component_name ctx_repo max_versions greatest_version
    ignore_prerelease_versions h versions result :
  oci_client h ctx_repo component_name = inr versions ->
  fst (greatest_component_versions parse_to_semver lt prerelease build oci_client component_name
         ctx_repo max_versions greatest_version ignore_prerelease_versions h) = inr result ->
  (0 < max_versions)%Z ->
  (Z.of_nat (length result) <= max_versions)%Z /\
  (forall v, v ∈ result -> v ∈ versions) /\
  (forall greatest, greatest_version = Some greatest -> truthy greatest = true ->
                    versions <> [] -> last result = Some greatest).
Proof.
  intros Hanswer Hrun Hmax.
  destruct ctx_repo as [| base_url | base_url]; try discriminate Hrun.
  destruct versions as [| v0 rest].
  { unfold greatest_component_versions, component_versions in Hrun.
    rewrite bind_run, call_run, Hanswer in Hrun. injection Hrun as <-.
    cbn. split; [lia |]. split; [auto | congruence]. }
  set (versions := v0 :: rest) in *.
  rewrite (after_the_answer _ _ _ _ _ _ _ _ Hanswer ltac:(discriminate)) in Hrun.
  unfold bind, lift, ret in Hrun.
  destruct (if ignore_prerelease_versions then _ else _) as [e | kept] eqn:Hkept;
    [discriminate Hrun |].
  assert (Hsub : forall v, v ∈ kept -> v ∈ versions).
  { destruct ignore_prerelease_versions.
    - intros v Hv. apply (without_prereleases_kept _ _ Hkept v Hv).
    - injection Hkept as <-. auto. }
  destruct (sorted_by_semver parse_to_semver lt kept) as [e | sorted] eqn:Hsorted;
    [discriminate Hrun |].
  pose proof (sorted_by_semver_permutation _ _ Hsorted) as Hperm.
  assert (Hcase : exists upto,
             result = slice_from (- max_versions) upto /\
             (forall v, v ∈ upto -> v ∈ sorted) /\
             (forall greatest, greatest_version = Some greatest -> truthy greatest = true ->
                               upto <> [] /\ last upto = Some greatest)).
  { destruct greatest_version as [greatest |].
    - destruct (truthy greatest) eqn:Htruthy.
      + destruct (index greatest sorted) as [e | i] eqn:Hindex; [discriminate Hrun |].
        injection Hrun as <-. exists (take (S i) sorted). split; [reflexivity |].
        pose proof (index_found _ _ _ Hindex) as Hi.
        pose proof (lookup_lt_Some _ _ _ Hi) as Hlt.
        split; [intros v Hv; apply (elem_of_sublist _ _ _ Hv), sublist_take |].
        intros g [= <-] _. split.
        * intros Hnil. clear -Hi Hnil. destruct sorted; [destruct i; discriminate Hi | discriminate Hnil].
        * rewrite last_lookup, length_take, lookup_take_lt by lia.
          replace (Init.Nat.pred (S i `min` length sorted)) with i by lia. exact Hi.
      + injection Hrun as <-. exists sorted. split; [reflexivity |]. split; [auto |].
        intros g [= <-] Hg. congruence.
    - injection Hrun as <-. exists sorted. split; [reflexivity |]. split; [auto | discriminate]. }
  destruct Hcase as [upto [-> [Hupto Hlast]]].
  split.
  - destruct upto as [| u rest']; [unfold slice_from; cbv zeta; rewrite drop_nil; cbn [length]; lia |].
    apply (slice_from_last max_versions (u :: rest') Hmax). discriminate.
  - split.
    + intros v Hv. apply Hsub. rewrite <- Hperm. apply Hupto. apply (slice_from_sub _ _ _ Hv).
    + intros greatest Hgreatest Htruthy _.
      destruct (Hlast _ Hgreatest Htruthy) as [Hnonempty Hend].
      rewrite <- Hend. apply (slice_from_last max_versions upto Hmax Hnonempty).
Qed.

(** X25.  [max_versions = 0] does not mean no versions: the function then
    behaves as with any limit that is at least the number of versions the
    registry lists, and cuts nothing off. *)
Theorem zero_max_versions_is_no_limit oci_client component_name ctx_repo greatest_version
    ignore_prerelease_versions h versions (limit : Z) :
  oci_client h ctx_repo component_name = inr versions ->
  (Z.of_nat (length versions) <= limit)%Z ->
  greatest_component_versions parse_to_semver lt prerelease build oci_client component_name
    ctx_repo 0 greatest_version ignore_prerelease_versions h
  = greatest_component_versions parse_to_semver lt prerelease build oci_client component_name
      ctx_repo limit greatest_version ignore_prerelease_versions h.
Proof.
  intros Hanswer Hlimit.
  destruct ctx_repo as [| base_url | base_url]; try reflexivity.
  destruct versions as [| v0 rest].
  { unfold greatest_component_versions, component_versions.
    rewrite !bind_run, !call_run, Hanswer. reflexivity. }
  set (versions := v0 :: rest) in *.
  rewrite !(after_the_answer _ _ _ _ _ _ _ _ Hanswer ltac:(discriminate)).
  unfold bind, lift, ret.
  destruct (if ignore_prerelease_versions then _ else _) as [e | kept] eqn:Hkept; [reflexivity |].
  assert (Hshort : (length kept <= length versions)%nat).
  { destruct ignore_prerelease_versions.
    - clear -Hkept. revert kept Hkept. generalize versions as l.
      induction l as [| w l IH]; intros kept; cbn.
      + intros [= <-]. cbn. lia.
      + destruct (parse_to_semver w) as [e | pv]; [discriminate |].
        destruct (without_prereleases _ _ _ l) as [e | kept']; [discriminate |].
        intros [= <-]. specialize (IH _ eq_refl).
        destruct (negb (prerelease pv) && negb (build pv)); cbn; lia.
    - injection Hkept as <-. lia. }
  destruct (sorted_by_semver parse_to_semver lt kept) as [e | sorted] eqn:Hsorted; [reflexivity |].
  pose proof (Permutation_length (sorted_by_semver_permutation _ _ Hsorted)) as Hlen.
  assert (Hall : forall upto : list string,
             (length upto <= length sorted)%nat ->
             slice_from (- 0) upto = slice_from (- limit) upto).
  { intros upto Hupto. change (- 0)%Z with 0%Z.
    rewrite slice_from_zero, slice_from_all by lia. reflexivity. }
  destruct greatest_version as [greatest |].
  - destruct (truthy greatest).
    + destruct (index greatest sorted) as [e | i]; [reflexivity |].
      rewrite Hall by (rewrite length_take; lia). reflexivity.
    + rewrite Hall by lia. reflexivity.
  - rewrite Hall by lia. reflexivity.
Qed.

End Semver.

(** The registry lists the prerelease [1.10.0-dev]; it cannot be the
    greatest version when prereleases are ignored. *)
Lemma greatest_version_must_be_listed_witness :
  exists e,
    fst (greatest_component_versions VersionsScenario.parse VersionsScenario.shorter
           (VersionsScenario.has "-") (VersionsScenario.has "+") VersionsScenario.oci_client
           "example.org/base" (OciRepositoryContext "europe-docker.pkg.dev/example") 5
           (Some "1.10.0-dev") true []) = inl e /\
    exc_type e = ValueError.
Proof.
  apply (greatest_version_must_be_listed VersionsScenario.parse VersionsScenario.shorter
           (VersionsScenario.has "-") (VersionsScenario.has "+") VersionsScenario.oci_client
           "example.org/base" "europe-docker.pkg.dev/example" 5 "1.10.0-dev" true []
           VersionsScenario.tags).
  - reflexivity.
  - intros v Hv. exists v. unfold VersionsScenario.tags in Hv.
    repeat (apply elem_of_cons in Hv as [-> | Hv]; [reflexivity |]). inversion Hv.
  - reflexivity.
  - right. split; [reflexivity |]. exists "1.10.0-dev". split; reflexivity.
Defined.

(** The two greatest versions up to [1.9.0]. *)
Lemma greatest_versions_window_witness :
  (Z.of_nat (length ["1.2.0"; "1.9.0"]) <= 2)%Z /\
  (forall v, v ∈ ["1.2.0"; "1.9.0"] -> v ∈ VersionsScenario.tags) /\
  (forall greatest, Some "1.9.0" = Some greatest -> truthy greatest = true ->
                    VersionsScenario.tags <> [] -> last ["1.2.0"; "1.9.0"] = Some greatest).
Proof.
  apply (greatest_versions_window VersionsScenario.parse VersionsScenario.shorter
           (VersionsScenario.has "-") (VersionsScenario.has "+") VersionsScenario.oci_client
           "example.org/base" VersionsScenario.ctx_repo 2 (Some "1.9.0") true []
           VersionsScenario.tags ["1.2.0"; "1.9.0"]).
  - reflexivity.
  - vm_compute. reflexivity.
  - lia.
Defined.

(** No limit for the four versions of the registry. *)
Lemma zero_max_versions_is_no_limit_witness :
  greatest_component_versions VersionsScenario.parse VersionsScenario.shorter
    (VersionsScenario.has "-") (VersionsScenario.has "+") VersionsScenario.oci_client
    "example.org/base" VersionsScenario.ctx_repo 0 None false []
  = greatest_component_versions VersionsScenario.parse VersionsScenario.shorter
      (VersionsScenario.has "-") (VersionsScenario.has "+") VersionsScenario.oci_client
      "example.org/base" VersionsScenario.ctx_repo 4 None false [].
Proof.
  apply (zero_max_versions_is_no_limit VersionsScenario.parse VersionsScenario.shorter
           (VersionsScenario.has "-") (VersionsScenario.has "+") VersionsScenario.oci_client
           "example.org/base" VersionsScenario.ctx_repo None false [] VersionsScenario.tags 4).
  - reflexivity.
  - vm_compute. discriminate.
Defined.

End VersionsFacts.

(** ** Facts about cnudie/iter.py *)
Module IterFacts.
Import Py Eff EffFacts Iter.

(** *** The recursion depth bounds the paths *)

Lemma emit_within args node seen level recursion_depth :
  (Z.of_nat (length (path node)) <= Z.of_nat level + 1 + recursion_depth)%Z ->
  emits (within level recursion_depth) (emit args node seen).
Proof.
  intros Hnode. unfold emit.
  destruct (match node_filter args with Some _ => _ | None => _ end); [apply emits_ret |].
  assert (Hyield : emits (within level recursion_depth)
                     (call (Yield node) (fun _ : list Event => inr tt))).
  { apply emits_call. exact Hnode. }
  destruct node as [node_path | node_path resource | node_path source].
  - destruct (prune_unique args).
    + destruct (last node_path) as [entry |]; [| apply emits_raise].
      destruct (bool_decide _); [apply emits_ret |].
      apply emits_bind; [exact Hyield | intros _; apply emits_ret].
    + apply emits_bind; [exact Hyield | intros _; apply emits_ret].
  - apply emits_bind; [exact Hyield | intros _; apply emits_ret].
  - apply emits_bind; [exact Hyield | intros _; apply emits_ret].
Qed.

Lemma emit_all_within {A} args (node : A -> Node) xs level recursion_depth :
  (forall x, Z.of_nat (length (path (node x))) <= Z.of_nat level + 1 + recursion_depth)%Z ->
  forall seen, emits (within level recursion_depth) (emit_all args node xs seen).
Proof.
  intros Hnode. induction xs as [| x rest IH]; intros seen; cbn [emit_all].
  - apply emits_ret.
  - apply emits_bind; [apply emit_within, Hnode | exact IH].
Qed.

Lemma referenced_component_within args cref_id level recursion_depth :
  (0 < recursion_depth)%Z ->
  emits (within level recursion_depth) (referenced_component args cref_id).
Proof.
  intros Hdepth. unfold referenced_component.
  destruct (lookup args) as [lookup |]; [| apply emits_raise]. cbv zeta.
  apply emits_bind; [apply emits_call; exact Hdepth |].
  intros [c |]; [apply emits_ret | apply emits_raise].
Qed.

Lemma resolve_references_within args recurse level recursion_depth :
  (0 < recursion_depth)%Z ->
  (forall c reftype seen, emits (within level recursion_depth) (recurse c reftype seen)) ->
  forall references seen,
    emits (within level recursion_depth) (resolve_references args recurse references seen).
Proof.
  intros Hdepth Hrecurse. induction references as [| cref rest IH]; intros seen;
    cbn [resolve_references]; [apply emits_ret |]. cbv zeta.
  apply emits_bind; [apply referenced_component_within, Hdepth |]. intros c.
  apply emits_bind; [apply Hrecurse | exact IH].
Qed.

Lemma resolve_extra_references_within args recurse level recursion_depth :
  (0 < recursion_depth)%Z ->
  (forall c reftype seen, emits (within level recursion_depth) (recurse c reftype seen)) ->
  forall extra_crefs seen,
    emits (within level recursion_depth) (resolve_extra_references args recurse extra_crefs seen).
Proof.
  intros Hdepth Hrecurse. induction extra_crefs as [| extra_cref rest IH]; intros seen;
    cbn [resolve_extra_references]; [apply emits_ret |].
  apply emits_bind; [apply emits_lift |]. intros cref_id.
  apply emits_bind; [apply referenced_component_within, Hdepth |]. intros c.
  apply emits_bind; [apply Hrecurse | exact IH].
Qed.

Lemma inner_iter_within args depth :
  forall recursion_depth node_path c reftype seen,
    (0 <= recursion_depth)%Z ->
    emits (within (length node_path) recursion_depth)
      (inner_iter depth args recursion_depth node_path c reftype seen).
Proof.
  induction depth as [| depth IH]; intros recursion_depth node_path c reftype seen Hdepth;
    cbn [inner_iter]; [apply emits_raise |].
  destruct (match component_filter args with Some _ => _ | None => _ end); [apply emits_ret |].
  destruct (match reftype_filter args with Some _ => _ | None => _ end); [apply emits_ret |].
  cbv zeta.
  assert (Hlength : (Z.of_nat (length (node_path ++ [mkNodePathEntry c reftype]))
                     <= Z.of_nat (length node_path) + 1 + recursion_depth)%Z).
  { rewrite length_app. cbn [length]. lia. }
  apply emits_bind; [apply emit_within; exact Hlength |]. intros seen1.
  apply emits_bind; [apply emit_all_within; intros; exact Hlength |]. intros seen2.
  apply emits_bind; [apply emit_all_within; intros; exact Hlength |]. intros seen3.
  destruct (recursion_depth =? 0)%Z eqn:Hzero; [apply emits_ret |].
  apply Z.eqb_neq in Hzero.
  replace (recursion_depth >? 0)%Z with true by (symmetry; apply Z.gtb_lt; lia).
  assert (Hrecurse : forall c' reftype' seen',
             emits (within (length node_path) recursion_depth)
               (inner_iter depth args (recursion_depth - 1)
                  (node_path ++ [mkNodePathEntry c reftype]) c' reftype' seen')).
  { intros c' reftype' seen'.
    eapply emits_weaken; [| apply IH; lia].
    intros [node | component_id repo]; unfold within; rewrite ?length_app; cbn [length]; lia. }
  apply emits_bind; [apply resolve_references_within; [lia | exact Hrecurse] |]. intros seen4.
  destruct (extra_component_references_label c) as [extra_crefs |]; [| apply emits_ret].
  apply resolve_extra_references_within; [lia | exact Hrecurse].
Qed.

(** X26.  With a [recursion_depth] that is not negative, [iter] hands out
    only nodes whose path has at most [recursion_depth + 1] entries, and it
    calls the lookup only if [recursion_depth] is positive: with
    [recursion_depth = 0] there is no lookup at all. *)
Theorem recursion_depth_bounds_the_paths depth root recursion_depth args :
  (0 <= recursion_depth)%Z ->
  emits (within 0 recursion_depth) (iter depth root recursion_depth args).
Proof.
  intros Hdepth. unfold iter. cbv zeta.
  assert (Hinner : emits (within 0 recursion_depth)
                     (inner_iter depth args recursion_depth [] root COMPONENT_REFERENCE ∅ ;;;
                      ret tt)).
  { apply emits_bind; [apply (inner_iter_within args depth recursion_depth []), Hdepth |].
    intros _. apply emits_ret. }
  destruct (lookup args); [exact Hinner |].
  destruct (negb _); [apply emits_raise | exact Hinner].
Qed.

(** *** Pruning *)

Lemma component_ids_app l1 l2 : component_ids (l1 ++ l2) = component_ids l1 ++ component_ids l2.
Proof. apply omap_app. Qed.

Lemma nodes_yielded_app t1 t2 : yielded (t1 ++ t2) = yielded t1 ++ yielded t2.
Proof. apply omap_app. Qed.

Lemma nodes_looked_up_app t1 t2 : looked_up (t1 ++ t2) = looked_up t1 ++ looked_up t2.
Proof. apply omap_app. Qed.

Lemma prunes_ret : prunes ret.
Proof.
  intros seen h. exists []. cbn. rewrite app_nil_r.
  split; [reflexivity |]. split; [constructor |].
  split; [intros id Hid; inversion Hid |].
  intros seen' [= <-]. split; [reflexivity | intros id Hid; inversion Hid].
Qed.

Lemma prunes_constant (run : gset ComponentIdentity -> Exception) :
  prunes (fun seen => raise (run seen)).
Proof.
  intros seen h. exists []. cbn. rewrite app_nil_r.
  split; [reflexivity |]. split; [constructor |].
  split; [intros id Hid; inversion Hid | discriminate].
Qed.

Lemma prunes_bind m k : prunes m -> prunes k -> prunes (fun seen => bind (m seen) k).
Proof.
  intros Hm Hk seen h. rewrite bind_run.
  destruct (Hm seen h) as [t1 [Htrace1 [Hnodup1 [Hfresh1 Hseen1]]]].
  destruct (m seen h) as [[e | seen1] h1]; cbn [fst snd] in *; subst h1.
  - exists t1. repeat split; auto; discriminate.
  - destruct (Hseen1 _ eq_refl) as [Hsub1 Hin1].
    destruct (Hk seen1 (h ++ t1)) as [t2 [Htrace2 [Hnodup2 [Hfresh2 Hseen2]]]].
    exists (t1 ++ t2). rewrite nodes_yielded_app, component_ids_app.
    split; [rewrite Htrace2, app_assoc; reflexivity |].
    split.
    { apply NoDup_app. split; [exact Hnodup1 |]. split; [| exact Hnodup2].
      intros id Hid1 Hid2. apply (Hfresh2 id Hid2), Hin1, Hid1. }
    split.
    { intros id Hid. apply elem_of_app in Hid as [Hid | Hid]; [apply Hfresh1, Hid |].
      intros Hseen. apply (Hfresh2 id Hid), Hsub1, Hseen. }
    intros seen' Hret. destruct (Hseen2 _ Hret) as [Hsub2 Hin2]. split.
    + etransitivity; [exact Hsub1 | exact Hsub2].
    + intros id Hid. apply elem_of_app in Hid as [Hid | Hid]; [apply Hsub2, Hin1, Hid | apply Hin2, Hid].
Qed.

(** A step that hands out nothing, before a part that prunes. *)
Lemma prunes_after {A} (m : M A) (k : A -> gset ComponentIdentity -> M (gset ComponentIdentity)) :
  emits (fun ev => match ev with Yield _ => False | _ => True end) m ->
  (forall a, prunes (k a)) ->
  prunes (fun seen => bind m (fun a => k a seen)).
Proof.
  intros Hm Hk seen h. rewrite bind_run.
  destruct (Hm h) as [t1 [Htrace1 Hquiet]].
  assert (Hnone : yielded t1 = []).
  { clear -Hquiet. induction Hquiet as [| ev t Hev _ IH]; [reflexivity |].
    destruct ev; [contradiction | exact IH]. }
  destruct (m h) as [[e | a] h1]; cbn [fst snd] in *; subst h1.
  - exists t1. rewrite Hnone. cbn. split; [reflexivity |]. split; [constructor |].
    split; [intros id Hid; inversion Hid | discriminate].
  - destruct (Hk a seen (h ++ t1)) as [t2 [Htrace2 [Hnodup2 [Hfresh2 Hseen2]]]].
    exists (t1 ++ t2). rewrite nodes_yielded_app, Hnone. cbn [app].
    split; [rewrite Htrace2, app_assoc; reflexivity |]. auto.
Qed.

Lemma emit_prunes args node : prune_unique args = true -> prunes (emit args node).
Proof.
  intros Hprune seen h. unfold emit.
  destruct (match node_filter args with Some _ => _ | None => _ end); [apply prunes_ret |].
  assert (Hother : forall node', component_ids [node'] = [] ->
            exists t,
              snd ((call (Yield node') (fun _ => inr tt) ;;; ret seen) h) = h ++ t /\
              NoDup (component_ids (yielded t)) /\
              (forall id, id ∈ component_ids (yielded t) -> id ∉ seen) /\
              (forall seen', fst ((call (Yield node') (fun _ => inr tt) ;;; ret seen) h)
                             = inr seen' ->
                             seen ⊆ seen' /\
                             forall id, id ∈ component_ids (yielded t) -> id ∈ seen')).
  { intros node' Hids. exists [Yield node']. change (yielded [Yield node']) with [node'].
    rewrite Hids.
    split; [reflexivity |]. split; [constructor |].
    split; [intros id Hid; inversion Hid |].
    intros seen' [= <-]. split; [reflexivity | intros id Hid; inversion Hid]. }
  destruct node as [node_path | node_path resource | node_path source];
    [| apply Hother; reflexivity | apply Hother; reflexivity].
  rewrite Hprune. destruct (last node_path) as [entry |] eqn:Hlast;
    [| apply (prunes_constant (fun _ => _))].
  destruct (bool_decide _) eqn:Hseen; [apply prunes_ret |].
  apply bool_decide_eq_false in Hseen.
  exists [Yield (ComponentNode node_path)].
  assert (Hids : component_ids (yielded [Yield (ComponentNode node_path)])
                 = [identity (component entry)]).
  { change (yielded [Yield (ComponentNode node_path)]) with [ComponentNode node_path].
    unfold component_ids. cbn. rewrite Hlast. reflexivity. }
  rewrite Hids.
  split; [reflexivity |]. split; [apply NoDup_singleton |].
  split; [intros id Hid; apply list_elem_of_singleton in Hid; subst id; exact Hseen |].
  intros seen' [= <-]. split; [set_solver |].
  intros id Hid. apply list_elem_of_singleton in Hid. set_solver.
Qed.

Lemma emit_all_prunes {A} args (node : A -> Node) xs :
  prune_unique args = true -> prunes (emit_all args node xs).
Proof.
  intros Hprune. induction xs as [| x rest IH]; cbn [emit_all]; [apply prunes_ret |].
  apply (prunes_bind _ _ (emit_prunes args (node x) Hprune) IH).
Qed.

Lemma referenced_component_hands_out_nothing args cref_id :
  emits (fun ev => match ev with Yield _ => False | _ => True end)
        (referenced_component args cref_id).
Proof.
  unfold referenced_component.
  destruct (lookup args) as [lookup |]; [| apply emits_raise]. cbv zeta.
  apply emits_bind; [apply emits_call; exact I |].
  intros [c |]; [apply emits_ret | apply emits_raise].
Qed.

Lemma resolve_references_prunes args recurse references :
  (forall c reftype, prunes (recurse c reftype)) ->
  prunes (resolve_references args recurse references).
Proof.
  intros Hrecurse. induction references as [| cref rest IH]; cbn [resolve_references];
    [apply prunes_ret |]. cbv zeta.
  apply (prunes_after (referenced_component args _)
           (fun referenced seen => _ <- recurse referenced COMPONENT_REFERENCE seen ;; _)).
  - apply referenced_component_hands_out_nothing.
  - intros c. apply (prunes_bind _ _ (Hrecurse c COMPONENT_REFERENCE) IH).
Qed.

Lemma resolve_extra_references_prunes args recurse extra_crefs :
  (forall c reftype, prunes (recurse c reftype)) ->
  prunes (resolve_extra_references args recurse extra_crefs).
Proof.
  intros Hrecurse. induction extra_crefs as [| extra_cref rest IH];
    cbn [resolve_extra_references]; [apply prunes_ret |].
  apply (prunes_after (lift (extra_cref_id extra_cref))
           (fun cref_id seen => referenced <- referenced_component args cref_id ;;
                                _ <- recurse referenced EXTRA_COMPONENT_REFS_LABEL seen ;; _)).
  - apply emits_lift.
  - intros cref_id.
    apply (prunes_after (referenced_component args cref_id)
             (fun referenced seen => _ <- recurse referenced EXTRA_COMPONENT_REFS_LABEL seen ;; _)).
    + apply referenced_component_hands_out_nothing.
    + intros c. apply (prunes_bind _ _ (Hrecurse c EXTRA_COMPONENT_REFS_LABEL) IH).
Qed.

Lemma inner_iter_prunes args depth :
  prune_unique args = true ->
  forall recursion_depth node_path c reftype,
    prunes (inner_iter depth args recursion_depth node_path c reftype).
Proof.
  intros Hprune. induction depth as [| depth IH]; intros recursion_depth node_path c reftype;
    cbn [inner_iter]; [apply (prunes_constant (fun _ => _)) |].
  destruct (match component_filter args with Some _ => _ | None => _ end); [apply prunes_ret |].
  destruct (match reftype_filter args with Some _ => _ | None => _ end); [apply prunes_ret |].
  cbv zeta.
  apply (prunes_bind _ _ (emit_prunes args _ Hprune)).
  apply (prunes_bind _ _ (emit_all_prunes args _ _ Hprune)).
  apply (prunes_bind _ _ (emit_all_prunes args _ _ Hprune)).
  destruct (recursion_depth =? 0)%Z; [apply prunes_ret |].
  apply (prunes_bind _ _ (resolve_references_prunes args _ _ (IH _ _))).
  destruct (extra_component_references_label c) as [extra_crefs |]; [| apply prunes_ret].
  apply resolve_extra_references_prunes, IH.
Qed.

(** X27.  With [prune_unique], [iter] hands out at most one component node
    per component version, however the iteration ends. *)
Theorem prune_unique_yields_each_component_once depth root recursion_depth args h :
  prune_unique args = true ->
  exists t,
    snd (iter depth root recursion_depth args h) = h ++ t /\
    NoDup (component_ids (yielded t)).
Proof.
  intros Hprune.
  destruct (inner_iter_prunes args depth Hprune recursion_depth [] root COMPONENT_REFERENCE ∅ h)
    as [t [Htrace [Hnodup _]]].
  assert (Hinner : exists t,
             snd ((inner_iter depth args recursion_depth [] root COMPONENT_REFERENCE ∅ ;;;
                   ret tt) h) = h ++ t /\
             NoDup (component_ids (yielded t))).
  { exists t. split; [| exact Hnodup]. rewrite bind_run.
    destruct (inner_iter _ _ _ _ _ _ _ h) as [[e | seen] h']; exact Htrace. }
  unfold iter. cbv zeta. destruct (lookup args); [exact Hinner |].
  destruct (negb _); [| exact Hinner].
  exists []. cbn. rewrite app_nil_r. split; [reflexivity | constructor].
Qed.

(** *** What pruning leaves as it is *)

Lemma artefact_nodes_app l1 l2 :
  artefact_nodes (l1 ++ l2) = artefact_nodes l1 ++ artefact_nodes l2.
Proof. apply List.filter_app. Qed.

Lemma twins_ret : twins ret ret.
Proof.
  intros seen1 seen2 h1 h2. exists [], []. cbn. rewrite !app_nil_r. repeat split.
Qed.

Lemma twins_raise e : twins (fun _ => raise e) (fun _ => raise e).
Proof.
  intros seen1 seen2 h1 h2. exists [], []. cbn. rewrite !app_nil_r. repeat split.
Qed.

Lemma twins_bind m1 m2 k1 k2 :
  twins m1 m2 -> twins k1 k2 ->
  twins (fun seen => bind (m1 seen) k1) (fun seen => bind (m2 seen) k2).
Proof.
  intros Hm Hk seen1 seen2 h1 h2. rewrite !bind_run.
  destruct (Hm seen1 seen2 h1 h2) as [t1 [t2 [Htrace1 [Htrace2 [Hlooked [Hnodes Hend]]]]]].
  destruct (m1 seen1 h1) as [[e1 | a1] h1'], (m2 seen2 h2) as [[e2 | a2] h2'];
    cbn [fst snd] in *; subst h1' h2'; try contradiction.
  - exists t1, t2. repeat split; assumption.
  - destruct (Hk a1 a2 (h1 ++ t1) (h2 ++ t2))
      as [t1' [t2' [Htrace1' [Htrace2' [Hlooked' [Hnodes' Hend']]]]]].
    exists (t1 ++ t1'), (t2 ++ t2').
    rewrite !nodes_looked_up_app, !nodes_yielded_app, !artefact_nodes_app, Htrace1', Htrace2', !app_assoc.
    repeat split; [congruence | congruence | exact Hend'].
Qed.

(** The same step on both sides, with an answer that does not depend on the
    trace, before twins. *)
Lemma twins_after {A} (m : M A) k1 k2 :
  (forall h1 h2, exists t, m h1 = (fst (m h2), h1 ++ t) /\ snd (m h2) = h2 ++ t) ->
  (forall a, twins (k1 a) (k2 a)) ->
  twins (fun seen => bind m (fun a => k1 a seen)) (fun seen => bind m (fun a => k2 a seen)).
Proof.
  intros Hm Hk seen1 seen2 h1 h2. rewrite !bind_run.
  destruct (Hm h1 h2) as [t [Hrun1 Hrun2]]. rewrite Hrun1.
  destruct (m h2) as [[e | a] h2']; cbn [fst snd] in *; subst h2'.
  - exists t, t. repeat split.
  - destruct (Hk a seen1 seen2 (h1 ++ t) (h2 ++ t))
      as [t1' [t2' [Htrace1' [Htrace2' [Hlooked' [Hnodes' Hend']]]]]].
    exists (t ++ t1'), (t ++ t2').
    rewrite !nodes_looked_up_app, !nodes_yielded_app, !artefact_nodes_app, Htrace1', Htrace2', !app_assoc.
    repeat split; [congruence | congruence | exact Hend'].
Qed.

Lemma emit_twins args b1 b2 node :
  last (path node) <> None ->
  twins (emit (with_prune_unique b1 args) node) (emit (with_prune_unique b2 args) node).
Proof.
  intros Hpath seen1 seen2 h1 h2. unfold emit. cbn [node_filter prune_unique with_prune_unique].
  destruct (match node_filter args with Some _ => _ | None => _ end); [apply twins_ret |].
  destruct node as [node_path | node_path resource | node_path source].
  - cbn [path] in Hpath. destruct (last node_path) as [entry |]; [| congruence].
    assert (Hside : forall (b : bool) (seen : gset ComponentIdentity) (h : list Event),
               exists t seen',
               (if b
                then if bool_decide (identity (component entry) ∈ seen) then ret seen
                     else call (Yield (ComponentNode node_path)) (fun _ => inr tt) ;;;
                          ret (seen ∪ {[identity (component entry)]})
                else call (Yield (ComponentNode node_path)) (fun _ => inr tt) ;;; ret seen) h
               = (inr seen', h ++ t) /\
               looked_up t = [] /\ artefact_nodes (yielded t) = []).
    { intros b seen h. destruct b; [destruct (bool_decide _) |].
      - exists [], seen. cbn. rewrite app_nil_r. repeat split.
      - exists [Yield (ComponentNode node_path)]. eexists. repeat split.
      - exists [Yield (ComponentNode node_path)]. eexists. repeat split. }
    destruct (Hside b1 seen1 h1) as [t1 [seen1' [-> [Hl1 Ha1]]]].
    destruct (Hside b2 seen2 h2) as [t2 [seen2' [-> [Hl2 Ha2]]]].
    exists t1, t2. cbn [fst snd]. repeat split; congruence.
  - exists [Yield (ResourceNode node_path resource)], [Yield (ResourceNode node_path resource)].
    repeat split.
  - exists [Yield (SourceNode node_path source)], [Yield (SourceNode node_path source)].
    repeat split.
Qed.

Lemma emit_all_twins {A} args b1 b2 (node : A -> Node) xs :
  (forall x, last (path (node x)) <> None) ->
  twins (emit_all (with_prune_unique b1 args) node xs)
        (emit_all (with_prune_unique b2 args) node xs).
Proof.
  intros Hpath. induction xs as [| x rest IH]; cbn [emit_all]; [apply twins_ret |].
  apply (twins_bind _ _ _ _ (emit_twins args b1 b2 (node x) (Hpath x)) IH).
Qed.

Lemma referenced_component_stateless args cref_id :
  stateless (lookup args) ->
  forall h1 h2, exists t,
    referenced_component args cref_id h1
    = (fst (referenced_component args cref_id h2), h1 ++ t) /\
    snd (referenced_component args cref_id h2) = h2 ++ t.
Proof.
  intros Hstateless h1 h2. unfold referenced_component.
  destruct (lookup args) as [f |] eqn:Hlookup.
  - cbv zeta. rewrite !bind_run, !call_run.
    rewrite (Hstateless f eq_refl h1 h2).
    destruct (f h2 _ _) as [e | [c |]]; eexists; split; reflexivity.
  - exists []. rewrite !app_nil_r. split; reflexivity.
Qed.

Lemma resolve_references_twins args b1 b2 recurse1 recurse2 references :
  stateless (lookup args) ->
  (forall c reftype, twins (recurse1 c reftype) (recurse2 c reftype)) ->
  twins (resolve_references (with_prune_unique b1 args) recurse1 references)
        (resolve_references (with_prune_unique b2 args) recurse2 references).
Proof.
  intros Hstateless Hrecurse. induction references as [| cref rest IH];
    cbn [resolve_references]; [apply twins_ret |]. cbv zeta.
  set (cref_id := (Components.componentName cref, Components.ref_version cref)).
  change (referenced_component (with_prune_unique b1 args) cref_id)
    with (referenced_component args cref_id).
  change (referenced_component (with_prune_unique b2 args) cref_id)
    with (referenced_component args cref_id).
  apply (twins_after (referenced_component args cref_id)
           (fun referenced seen => seen' <- recurse1 referenced COMPONENT_REFERENCE seen ;;
              resolve_references (with_prune_unique b1 args) recurse1 rest seen')
           (fun referenced seen => seen' <- recurse2 referenced COMPONENT_REFERENCE seen ;;
              resolve_references (with_prune_unique b2 args) recurse2 rest seen')).
  - apply referenced_component_stateless, Hstateless.
  - intros c. apply (twins_bind _ _ _ _ (Hrecurse c COMPONENT_REFERENCE) IH).
Qed.

Lemma resolve_extra_references_twins args b1 b2 recurse1 recurse2 extra_crefs :
  stateless (lookup args) ->
  (forall c reftype, twins (recurse1 c reftype) (recurse2 c reftype)) ->
  twins (resolve_extra_references (with_prune_unique b1 args) recurse1 extra_crefs)
        (resolve_extra_references (with_prune_unique b2 args) recurse2 extra_crefs).
Proof.
  intros Hstateless Hrecurse. induction extra_crefs as [| extra_cref rest IH];
    cbn [resolve_extra_references]; [apply twins_ret |].
  apply (twins_after (lift (extra_cref_id extra_cref))
           (fun cref_id seen =>
              referenced <- referenced_component (with_prune_unique b1 args) cref_id ;;
              seen' <- recurse1 referenced EXTRA_COMPONENT_REFS_LABEL seen ;;
              resolve_extra_references (with_prune_unique b1 args) recurse1 rest seen')
           (fun cref_id seen =>
              referenced <- referenced_component (with_prune_unique b2 args) cref_id ;;
              seen' <- recurse2 referenced EXTRA_COMPONENT_REFS_LABEL seen ;;
              resolve_extra_references (with_prune_unique b2 args) recurse2 rest seen')).
  - intros h1 h2. exists []. rewrite !app_nil_r. split; reflexivity.
  - intros cref_id.
    change (referenced_component (with_prune_unique b1 args) cref_id)
      with (referenced_component args cref_id).
    change (referenced_component (with_prune_unique b2 args) cref_id)
      with (referenced_component args cref_id).
    apply (twins_after (referenced_component args cref_id)
             (fun referenced seen => seen' <- recurse1 referenced EXTRA_COMPONENT_REFS_LABEL seen ;;
                resolve_extra_references (with_prune_unique b1 args) recurse1 rest seen')
             (fun referenced seen => seen' <- recurse2 referenced EXTRA_COMPONENT_REFS_LABEL seen ;;
                resolve_extra_references (with_prune_unique b2 args) recurse2 rest seen')).
    + apply referenced_component_stateless, Hstateless.
    + intros c. apply (twins_bind _ _ _ _ (Hrecurse c EXTRA_COMPONENT_REFS_LABEL) IH).
Qed.

Lemma inner_iter_twins args b1 b2 depth :
  stateless (lookup args) ->
  forall recursion_depth node_path c reftype,
    twins (inner_iter depth (with_prune_unique b1 args) recursion_depth node_path c reftype)
          (inner_iter depth (with_prune_unique b2 args) recursion_depth node_path c reftype).
Proof.
  intros Hstateless.
  induction depth as [| depth IH]; intros recursion_depth node_path c reftype;
    cbn [inner_iter]; [apply twins_raise |].
  cbn [component_filter reftype_filter with_prune_unique].
  destruct (match component_filter args with Some _ => _ | None => _ end); [apply twins_ret |].
  destruct (match reftype_filter args with Some _ => _ | None => _ end); [apply twins_ret |].
  cbv zeta.
  assert (Hlast : last (node_path ++ [mkNodePathEntry c reftype]) <> None)
    by (rewrite last_snoc; discriminate).
  apply (twins_bind _ _ _ _ (emit_twins args b1 b2 (ComponentNode _) Hlast)).
  apply (twins_bind _ _ _ _ (emit_all_twins args b1 b2 (ResourceNode _) _ (fun _ => Hlast))).
  apply (twins_bind _ _ _ _ (emit_all_twins args b1 b2 (SourceNode _) _ (fun _ => Hlast))).
  destruct (recursion_depth =? 0)%Z; [apply twins_ret |].
  apply (twins_bind _ _ _ _
           (resolve_references_twins args b1 b2 _ _ _ Hstateless (IH _ _))).
  destruct (extra_component_references_label c) as [extra_crefs |]; [| apply twins_ret].
  apply (resolve_extra_references_twins args b1 b2 _ _ _ Hstateless (IH _ _)).
Qed.

(** X28.  [prune_unique] only drops component nodes: with a lookup whose
    answers do not depend on what happened before, the iteration with
    [prune_unique] and the one without end alike, make the same lookups in
    the same order and hand out the same resource and source nodes.  A
    component version that is referenced twice is looked up and traversed
    twice in both. *)
Theorem prune_unique_only_drops_component_nodes depth root recursion_depth args h :
  stateless (lookup args) ->
  alike (iter depth root recursion_depth (with_prune_unique true args) h) h
        (iter depth root recursion_depth (with_prune_unique false args) h) h.
Proof.
  intros Hstateless. unfold iter. cbv zeta. cbn [lookup with_prune_unique].
  assert (Hinner : alike
            ((inner_iter depth (with_prune_unique true args) recursion_depth [] root
                COMPONENT_REFERENCE ∅ ;;; ret tt) h) h
            ((inner_iter depth (with_prune_unique false args) recursion_depth [] root
                COMPONENT_REFERENCE ∅ ;;; ret tt) h) h).
  { rewrite !bind_run.
    destruct (inner_iter_twins args true false depth Hstateless recursion_depth [] root
                COMPONENT_REFERENCE ∅ ∅ h h)
      as [t1 [t2 [Htrace1 [Htrace2 [Hlooked [Hnodes Hend]]]]]].
    exists t1, t2.
    destruct (inner_iter depth (with_prune_unique true args) _ _ _ _ _ h) as [[e1 | s1] h1],
             (inner_iter depth (with_prune_unique false args) _ _ _ _ _ h) as [[e2 | s2] h2];
      cbn [fst snd ret] in *; repeat split; assumption. }
  destruct (lookup args); [exact Hinner |].
  destruct (negb _); [| exact Hinner].
  exists [], []. cbn. rewrite !app_nil_r. repeat split.
Qed.

(** The iteration of the scenario, two references deep. *)
Lemma recursion_depth_bounds_the_paths_witness :
  emits (within 0 2) (iter 10 IterScenario.root 2 IterScenario.args).
Proof.
  apply (recursion_depth_bounds_the_paths 10 IterScenario.root 2 IterScenario.args).
  discriminate.
Defined.

Lemma prune_unique_yields_each_component_once_witness :
  exists t,
    snd (iter 10 IterScenario.root (-1) IterScenario.args []) = [] ++ t /\
    NoDup (component_ids (yielded t)).
Proof.
  apply (prune_unique_yields_each_component_once 10 IterScenario.root (-1) IterScenario.args []).
  reflexivity.
Defined.

Lemma registry_is_stateless : stateless (Some IterScenario.registry).
Proof. intros f [= <-] h h' component_id repo. reflexivity. Qed.

Lemma prune_unique_only_drops_component_nodes_witness :
  alike (iter 10 IterScenario.root (-1) (with_prune_unique true IterScenario.args) []) []
        (iter 10 IterScenario.root (-1) (with_prune_unique false IterScenario.args) []) [].
Proof.
  apply (prune_unique_only_drops_component_nodes 10 IterScenario.root (-1) IterScenario.args []).
  exact registry_is_stateless.
Defined.

(** The shared component [base] is handed out as a component node once, but
    looked up three times, and its resource is handed out three times. *)
Example shared_component_is_traversed_again :
  let t := snd (iter 10 IterScenario.root (-1) IterScenario.args []) in
  length (List.filter (fun id => bool_decide (id = identity IterScenario.base))
            (component_ids (yielded t))) = 1%nat /\
  length (List.filter (fun id => bool_decide (id = identity IterScenario.base))
            (looked_up t)) = 3%nat /\
  length (List.filter (fun node => match node with
                                   | ResourceNode _ resource => String.eqb resource "base-image"
                                   | _ => false
                                   end) (yielded t)) = 3%nat.
Proof. vm_compute. repeat split. Qed.

End IterFacts.

(** ** More facts about [set_pr_labels] of whd/pull_request.py *)
Module LabelFacts.
Import Py Eff EffFacts PullRequest LabelViews.

Lemma any_team_member_asks env teams sender_login :
  emits asks_membership (any_team_member env teams sender_login).
Proof.
  induction teams as [| team rest IH]; cbn [any_team_member]; [apply emits_ret |].
  apply emits_bind; [apply emits_call; exact I |].
  intros [|]; [apply emits_ret | exact IH].
Qed.

Lemma should_label_asks env job_mapping sender_login owner github_hostname :
  emits asks_membership (_should_label env job_mapping sender_login owner github_hostname).
Proof.
  unfold _should_label. apply emits_bind; [apply emits_lift |].
  intros [| team teams].
  - apply emits_bind; [apply emits_call; exact I |]. intros [|]; apply emits_ret.
  - apply emits_bind; [apply any_team_member_asks |]. intros [|]; apply emits_ret.
Qed.

Lemma questions_change_nothing evs :
  Forall asks_membership evs -> List.filter changes_pull_request evs = [].
Proof.
  induction 1 as [| ev evs Hev _ IH]; [reflexivity |].
  cbn [List.filter]. destruct ev; try contradiction; exact IH.
Qed.

(** X29.  Whatever the event, [set_pr_labels] changes the pull request at
    most once, as the last thing it does, and only the pull request of the
    event: it adds exactly the required labels, or (for an opened pull
    request only) leaves a comment.  It returns [True] only if no label is
    required or the labels have been added, and [False] only if no label
    has been added. *)
Theorem set_pr_labels_changes_the_pull_request_once env pr_event cfg_set resources h :
  let run := set_pr_labels env pr_event cfg_set resources h in
  exists evs,
    snd run = h ++ evs /\
    (List.filter changes_pull_request evs = [] /\ (fst run = inr true -> required_labels resources = [])
     \/
     exists asked,
       Forall asks_membership asked /\
       (evs = asked ++ [AddLabelsToPullRequest (number pr_event) (required_labels resources)] /\
        fst run <> inr false
        \/
        exists comment,
          evs = asked ++ [AddCommentToPr (number pr_event) comment] /\
          action pr_event = OPENED /\ fst run <> inr true)).
Proof.
  cbv zeta. unfold set_pr_labels. cbv zeta.
  assert (Hnothing : forall (r : Exception + bool),
             (r = inr true -> required_labels resources = []) ->
             exists evs,
               snd (r, h) = h ++ evs /\
               (List.filter changes_pull_request evs = [] /\
                (fst (r, h) = inr true -> required_labels resources = [])
                \/
                exists asked,
                  Forall asks_membership asked /\
                  (evs = asked ++ [AddLabelsToPullRequest (number pr_event)
                                     (required_labels resources)] /\
                   fst (r, h) <> inr false
                   \/
                   exists comment,
                     evs = asked ++ [AddCommentToPr (number pr_event) comment] /\
                     action pr_event = OPENED /\ fst (r, h) <> inr true))).
  { intros r Hr. exists []. rewrite app_nil_r. split; [reflexivity |]. left.
    split; [reflexivity | exact Hr]. }
  destruct (required_labels resources) as [| required more] eqn:Hrequired.
  { apply (Hnothing (inr true)). reflexivity. }
  set (labels := required :: more) in *.
  destruct (split "/" (repository_path pr_event)) as [| owner [| repo [| extra parts]]];
    try (apply (Hnothing (inl _)); discriminate).
  rewrite bind_run. unfold lift.
  destruct (find_job_mapping _ _) as [e | job_mapping];
    [apply (Hnothing (inl _)); discriminate |].
  assert (Hadd : forall asked, Forall asks_membership asked ->
            exists evs,
              snd ((call (AddLabelsToPullRequest (number pr_event) labels)
                      (fun h0 => add_labels_to_pull_request env h0 (number pr_event) labels) ;;;
                    ret true) (h ++ asked)) = h ++ evs /\
              exists asked',
                Forall asks_membership asked' /\
                evs = asked' ++ [AddLabelsToPullRequest (number pr_event) labels] /\
                fst ((call (AddLabelsToPullRequest (number pr_event) labels)
                        (fun h0 => add_labels_to_pull_request env h0 (number pr_event) labels) ;;;
                      ret true) (h ++ asked)) <> inr false).
  { intros asked Hasked. rewrite bind_run, call_run.
    exists (asked ++ [AddLabelsToPullRequest (number pr_event) labels]).
    split; [destruct (add_labels_to_pull_request _ _ _ _) as [e | []]; cbn;
            rewrite app_assoc; reflexivity |].
    exists asked. split; [exact Hasked |]. split; [reflexivity |].
    destruct (add_labels_to_pull_request _ _ _ _) as [e | []]; discriminate. }
  assert (Hquiet : forall (r : Exception + bool) asked,
             Forall asks_membership asked -> r <> inr true ->
             exists evs,
               snd (r, h ++ asked) = h ++ evs /\
               List.filter changes_pull_request evs = [] /\
               (fst (r, h ++ asked) = inr true -> labels = [])).
  { intros r asked Hasked Hr. exists asked. split; [reflexivity |].
    split; [apply questions_change_nothing, Hasked | intros Htrue; exfalso; apply Hr, Htrue]. }
  destruct (action pr_event) eqn:Haction.
  - (* OPENED *)
    rewrite bind_run.
    destruct (should_label_asks env job_mapping (sender_login pr_event) owner (hostname pr_event) h)
      as [asked [Htrace Hasked]].
    destruct (_should_label _ _ _ _ _ h) as [[e | [|]] h1]; cbn [snd] in Htrace; subst h1.
    + destruct (Hquiet (inl e) asked Hasked ltac:(discriminate)) as [evs [Hevs [Hfilter Htrue]]].
      exists evs. split; [exact Hevs |]. left. split; [exact Hfilter | exact Htrue].
    + destruct (Hadd asked Hasked) as [evs [Hevs [asked' [Hasked' [Hshape Hresult]]]]].
      exists evs. split; [exact Hevs |]. right. exists asked'. split; [exact Hasked' |].
      left. split; [exact Hshape | exact Hresult].
    + rewrite bind_run, call_run.
      match goal with |- context [AddCommentToPr _ ?c] => set (comment := c) end.
      exists (asked ++ [AddCommentToPr (number pr_event) comment]).
      split; [destruct (add_comment_to_pr _ _ _ _) as [e | []]; cbn; rewrite app_assoc;
              reflexivity |].
      right. exists asked. split; [exact Hasked |]. right. exists comment.
      split; [reflexivity |]. split; [reflexivity |].
      destruct (add_comment_to_pr _ _ _ _) as [e | []]; discriminate.
  - apply (Hnothing (inr false)). discriminate.
  - (* LABELED *)
    destruct (label pr_event) as [l |]; [| apply (Hnothing (inr false)); discriminate].
    destruct (String.eqb l "lgtm" || String.eqb l "reviewed/lgtm");
      [| apply (Hnothing (inr false)); discriminate].
    destruct (Hadd [] (Forall_nil_2 _)) as [evs [Hevs [asked' [Hasked' [Hshape Hresult]]]]].
    rewrite app_nil_r in Hevs, Hresult.
    exists evs. split; [exact Hevs |]. right. exists asked'. split; [exact Hasked' |].
    left. split; [exact Hshape | exact Hresult].
  - (* SYNCHRONIZE *)
    rewrite bind_run.
    destruct (should_label_asks env job_mapping (sender_login pr_event) owner (hostname pr_event) h)
      as [asked [Htrace Hasked]].
    destruct (_should_label _ _ _ _ _ h) as [[e | [|]] h1]; cbn [snd] in Htrace; subst h1.
    + destruct (Hquiet (inl e) asked Hasked ltac:(discriminate)) as [evs [Hevs [Hfilter Htrue]]].
      exists evs. split; [exact Hevs |]. left. split; [exact Hfilter | exact Htrue].
    + destruct (Hadd asked Hasked) as [evs [Hevs [asked' [Hasked' [Hshape Hresult]]]]].
      exists evs. split; [exact Hevs |]. right. exists asked'. split; [exact Hasked' |].
      left. split; [exact Hshape | exact Hresult].
    + destruct (Hquiet (inr false) asked Hasked ltac:(discriminate))
        as [evs [Hevs [Hfilter Htrue]]].
      exists evs. split; [exact Hevs |]. left. split; [exact Hfilter | exact Htrue].
  - apply (Hnothing (inr false)). discriminate.
Qed.

End LabelFacts.

(** ** Facts about the titles of upgrade pull requests (github/util.py) *)
Module PrTitleFacts.
Import Py PrTitle.

Lemma literal_app piece s : literal piece (piece ++ s) = Some s.
Proof.
  induction piece as [| c piece IH]; cbn; [reflexivity |].
  rewrite Ascii.eqb_refl. exact IH.
Qed.

Lemma literal_some piece : forall s rest, literal piece s = Some rest -> s = piece ++ rest.
Proof.
  induction piece as [| c piece IH]; intros s rest; cbn.
  - intros [= ->]. reflexivity.
  - destruct s as [| d s]; [discriminate |].
    destruct (Ascii.eqb c d) eqn:Hcd; [| discriminate].
    apply Ascii.eqb_eq in Hcd. subst d. intros Hrest. f_equal. apply IH, Hrest.
Qed.

Lemma greedy_none {A} (rest : str -> option A) s :
  (forall x y, s = x ++ y -> newline ∉ x -> rest y = None) -> greedy rest s = None.
Proof.
  induction s as [| c s IH]; intros Hrest; cbn.
  - rewrite (Hrest [] [] eq_refl); [reflexivity | apply not_elem_of_nil].
  - assert (Hhere : rest (c :: s) = None).
    { apply (Hrest [] (c :: s) eq_refl), not_elem_of_nil. }
    rewrite Hhere. destruct (Ascii.eqb c newline) eqn:Hc; [reflexivity |].
    apply Ascii.eqb_neq in Hc.
    rewrite IH; [reflexivity |].
    intros x y -> Hx. apply (Hrest (c :: x) y eq_refl).
    apply not_elem_of_cons. split; [congruence | exact Hx].
Qed.

(** The group takes [text] when the rest of the pattern matches behind it
    and behind no longer candidate. *)
Lemma greedy_finds {A} (rest : str -> option A) text s a :
  newline ∉ text ->
  rest s = Some a ->
  (forall x y, x <> [] -> s = x ++ y -> newline ∉ x -> rest y = None) ->
  greedy rest (text ++ s) = Some (text, a).
Proof.
  intros Htext Hrest Hlonger. induction text as [| c text IH]; cbn.
  - destruct s as [| c s]; cbn; [rewrite Hrest; reflexivity |].
    rewrite Hrest. destruct (Ascii.eqb c newline) eqn:Hc; [reflexivity |].
    apply Ascii.eqb_neq in Hc.
    rewrite greedy_none; [reflexivity |].
    intros x y -> Hx. apply (Hlonger (c :: x) y); [discriminate | reflexivity |].
    apply not_elem_of_cons. split; [congruence | exact Hx].
  - apply not_elem_of_cons in Htext as [Hc Htext].
    replace (Ascii.eqb c newline) with false by (symmetry; apply Ascii.eqb_neq; congruence).
    rewrite (IH Htext). reflexivity.
Qed.

Lemma greedy_some {A} (rest : str -> option A) :
  forall s text a, greedy rest s = Some (text, a) -> exists y, s = text ++ y /\ rest y = Some a.
Proof.
  induction s as [| c s IH]; intros text a; cbn.
  - destruct (rest []) as [a' |] eqn:Hrest; [| discriminate].
    intros [= <- <-]. exists []. split; [reflexivity | exact Hrest].
  - assert (Hhere : pair [] <$> rest (c :: s) = Some (text, a) ->
                    exists y, c :: s = text ++ y /\ rest y = Some a).
    { destruct (rest (c :: s)) as [a' |] eqn:Hrest; [| discriminate].
      intros [= <- <-]. exists (c :: s). split; [reflexivity | exact Hrest]. }
    destruct (Ascii.eqb c newline); [exact Hhere |].
    destruct (greedy rest s) as [[text' a'] |] eqn:Hgreedy; [| exact Hhere].
    intros [= <- <-]. destruct (IH _ _ eq_refl) as [y [-> Hy]].
    exists y. split; [reflexivity | exact Hy].
Qed.

(** What a string looks like behind which the rest of the pattern matches. *)
Lemma after_from_version_some s r :
  after_from_version s = Some r -> exists group4, s = lit "->" ++ group4 ++ lit "]".
Proof.
  unfold after_from_version.
  destruct (literal (lit "->") s) as [s1 |] eqn:Harrow; [| discriminate]. cbn [mbind option_bind].
  destruct r as [group4 []]. intros Hgreedy.
  apply greedy_some in Hgreedy as [y [-> Hy]].
  destruct (literal (lit "]") y) as [s2 |] eqn:Hbracket; [| discriminate].
  cbn [mbind option_bind] in Hy. destruct s2; [| discriminate].
  apply literal_some in Harrow, Hbracket. subst. rewrite app_nil_r. eauto.
Qed.

Lemma after_name_some s r :
  after_name s = Some r ->
  exists group3 group4, s = lit ":" ++ group3 ++ lit "->" ++ group4 ++ lit "]".
Proof.
  unfold after_name.
  destruct (literal (lit ":") s) as [s1 |] eqn:Hcolon; [| discriminate]. cbn [mbind option_bind].
  destruct r as [group3 r]. intros Hgreedy.
  apply greedy_some in Hgreedy as [y [-> Hy]].
  apply after_from_version_some in Hy as [group4 ->].
  apply literal_some in Hcolon. subst. eauto.
Qed.

Lemma after_type_name_some s r :
  after_type_name s = Some r ->
  exists group2 group3 group4,
    s = lit ":" ++ group2 ++ lit ":" ++ group3 ++ lit "->" ++ group4 ++ lit "]".
Proof.
  unfold after_type_name.
  destruct (literal (lit ":") s) as [s1 |] eqn:Hcolon; [| discriminate]. cbn [mbind option_bind].
  destruct r as [group2 r]. intros Hgreedy.
  apply greedy_some in Hgreedy as [y [-> Hy]].
  apply after_name_some in Hy as [group3 [group4 ->]].
  apply literal_some in Hcolon. subst. eauto.
Qed.

(** Where [c] stands in [a ++ b] when it does not occur in [a]. *)
Lemma split_behind (c : ascii) a :
  forall b x z, a ++ b = x ++ c :: z -> c ∉ a -> exists b1, x = a ++ b1 /\ b = b1 ++ c :: z.
Proof.
  induction a as [| d a IH]; intros b x z Heq Hc.
  - exists x. split; [reflexivity | exact Heq].
  - apply not_elem_of_cons in Hc as [Hd Hc].
    destruct x as [| d' x]; cbn in Heq; injection Heq as Hhead Htail; [congruence |].
    subst d'. destruct (IH _ _ _ Htail Hc) as [b1 [-> ->]]. exists b1. split; reflexivity.
Qed.

(** A colon behind the from-version that is followed by an arrow shows an
    arrow in the to-version. *)
Lemma colon_behind_from_version from_version to_version before between group4 :
  from_version ++ lit "->" ++ to_version ++ lit "]"
    = before ++ lit ":" ++ between ++ lit "->" ++ group4 ++ lit "]" ->
  ":"%char ∉ from_version ->
  occurs (lit "->") to_version.
Proof.
  intros Heq Hcolon.
  destruct (split_behind _ _ _ _ _ Heq Hcolon) as [b1 [_ Hbehind]].
  destruct b1 as [| c1 [| c2 b2]]; cbn in Hbehind; try discriminate Hbehind.
  injection Hbehind as _ _ Hbehind.
  change (to_version ++ lit "]" = b2 ++ lit ":" ++ between ++ lit "->" ++ group4 ++ lit "]")
    in Hbehind.
  assert (Hto : to_version = (b2 ++ lit ":" ++ between) ++ lit "->" ++ group4).
  { apply (app_inv_tail (lit "]")).
    etransitivity; [exact Hbehind |]. rewrite <- !app_assoc. reflexivity. }
  exists (b2 ++ lit ":" ++ between), group4. exact Hto.
Qed.

Section RoundTrip.
Variables (type_name name from_version to_version : str).
Hypothesis no_newline : newline ∉ type_name ++ name ++ from_version ++ to_version.
Hypothesis no_colon_in_name : ":"%char ∉ name.
Hypothesis no_colon_in_from_version : ":"%char ∉ from_version.
Hypothesis no_arrow_in_to_version : ~ occurs (lit "->") to_version.

Lemma to_version_is_read :
  after_from_version (lit "->" ++ to_version ++ lit "]") = Some (to_version, tt).
Proof.
  unfold after_from_version. rewrite literal_app. cbn [mbind option_bind].
  apply greedy_finds.
  - intros Hin. apply no_newline. rewrite !elem_of_app. auto.
  - reflexivity.
  - intros x y Hx Heq _. destruct x as [| c [| c' x]]; [congruence | | discriminate Heq].
    injection Heq as _ <-. reflexivity.
Qed.

Lemma from_version_is_read :
  after_name (lit ":" ++ from_version ++ lit "->" ++ to_version ++ lit "]")
  = Some (from_version, (to_version, tt)).
Proof.
  unfold after_name. rewrite literal_app. cbn [mbind option_bind].
  apply greedy_finds.
  - intros Hin. apply no_newline. rewrite !elem_of_app. auto.
  - apply to_version_is_read.
  - intros x y Hx Heq _.
    destruct (after_from_version y) as [r |] eqn:Hy; [exfalso | reflexivity].
    apply after_from_version_some in Hy as [group4 ->].
    apply no_arrow_in_to_version.
    destruct x as [| c1 [| c2 x]]; [congruence | discriminate Heq |].
    injection Heq as _ _ Heq.
    exists x, group4. apply (app_inv_tail (lit "]")).
    etransitivity; [exact Heq |]. rewrite <- !app_assoc. reflexivity.
Qed.

Lemma name_is_read :
  after_type_name (lit ":" ++ name ++ lit ":" ++ from_version ++ lit "->" ++ to_version ++ lit "]")
  = Some (name, (from_version, (to_version, tt))).
Proof.
  unfold after_type_name. rewrite literal_app. cbn [mbind option_bind].
  apply greedy_finds.
  - intros Hin. apply no_newline. rewrite !elem_of_app. auto.
  - apply from_version_is_read.
  - intros x y Hx Heq _.
    destruct (after_name y) as [r |] eqn:Hy; [exfalso | reflexivity].
    apply after_name_some in Hy as [group3 [group4 ->]].
    apply no_arrow_in_to_version.
    destruct x as [| c x]; [congruence |]. injection Heq as _ Heq.
    apply (colon_behind_from_version from_version to_version x group3 group4 Heq
             no_colon_in_from_version).
Qed.

Lemma type_name_is_read :
  PR_TITLE_PATTERN_fullmatch
    (lit "[ci:" ++ type_name ++ lit ":" ++ name ++ lit ":" ++ from_version ++ lit "->"
       ++ to_version ++ lit "]")
  = Some (type_name, name, from_version, to_version).
Proof.
  unfold PR_TITLE_PATTERN_fullmatch. rewrite literal_app. cbn [mbind option_bind].
  rewrite (greedy_finds after_type_name type_name _ (name, (from_version, (to_version, tt)))).
  - reflexivity.
  - intros Hin. apply no_newline. rewrite !elem_of_app. auto.
  - apply name_is_read.
  - intros x y Hx Heq _.
    destruct (after_type_name y) as [r |] eqn:Hy; [exfalso | reflexivity].
    apply after_type_name_some in Hy as [group2 [group3 [group4 ->]]].
    apply no_arrow_in_to_version.
    destruct x as [| c x]; [congruence |]. injection Heq as _ Heq.
    destruct (split_behind _ _ _ _ _ Heq no_colon_in_name) as [b1 [_ Hbehind]].
    destruct b1 as [| c1 b1]; injection Hbehind as Hbehind.
    + apply (colon_behind_from_version from_version to_version group2 group3 group4 Hbehind
               no_colon_in_from_version).
    + apply (colon_behind_from_version from_version to_version b1
               (group2 ++ lit ":" ++ group3) group4); [| exact no_colon_in_from_version].
      etransitivity; [exact H |]. rewrite <- !app_assoc. reflexivity.
Qed.

End RoundTrip.

(** X30.  A title made by [calculate_pr_title] is read back by
    [_parse_pr_title] as the same upgrade (reference type, name, from- and
    to-version), provided no part holds a newline, the name and the
    from-version hold no colon, the to-version holds no arrow [->], and the
    reference type is known; an empty type name is read as [component].
    The type name may hold colons and the from-version arrows. *)
Theorem pr_title_round_trip reference_type reference from_version to_version :
  newline ∉ type_name reference ++ name reference ++ from_version ++ to_version ->
  ":"%char ∉ name reference ->
  ":"%char ∉ from_version ->
  ~ occurs (lit "->") to_version ->
  reference_type (read_type_name (type_name reference))
    = inr (read_type_name (type_name reference)) ->
  let title := calculate_pr_title reference from_version to_version in
  let type := read_type_name (type_name reference) in
  _parse_pr_title reference_type title
  = inr (mkUpgradePullRequest title (name reference)
           (mkReference type (name reference) from_version)
           (mkReference type (name reference) to_version)
           type).
Proof.
  intros Hnewline Hname Hfrom Hto Htype. cbv zeta.
  unfold _parse_pr_title, calculate_pr_title.
  rewrite (type_name_is_read _ _ _ _ Hnewline Hname Hfrom Hto).
  fold (read_type_name (type_name reference)). rewrite Htype.
  unfold UpgradePullRequest_init. cbn [PrTitle.name PrTitle.type_name].
  rewrite !bool_decide_eq_false_2 by (intros Hne; apply Hne; reflexivity).
  reflexivity.
Qed.

Lemma pr_title_round_trip_witness :
  let title := calculate_pr_title PrTitleScenario.etcd (lit "0.22.0") (lit "0.23.1") in
  let type := read_type_name (type_name PrTitleScenario.etcd) in
  _parse_pr_title PrTitleScenario.reference_type title
  = inr (mkUpgradePullRequest title (name PrTitleScenario.etcd)
           (mkReference type (name PrTitleScenario.etcd) (lit "0.22.0"))
           (mkReference type (name PrTitleScenario.etcd) (lit "0.23.1"))
           type).
Proof.
  apply (pr_title_round_trip PrTitleScenario.reference_type PrTitleScenario.etcd
           (lit "0.22.0") (lit "0.23.1")).
  - apply (bool_decide_eq_true_1
             (newline ∉ type_name PrTitleScenario.etcd ++ name PrTitleScenario.etcd
                          ++ lit "0.22.0" ++ lit "0.23.1")).
    vm_compute. reflexivity.
  - apply (bool_decide_eq_true_1 (":"%char ∉ name PrTitleScenario.etcd)).
    vm_compute. reflexivity.
  - apply (bool_decide_eq_true_1 (":"%char ∉ lit "0.22.0")). vm_compute. reflexivity.
  - intros [before [behind Heq]].
    repeat (destruct before as [| ? before]; [discriminate Heq |];
            injection Heq as _ Heq).
    destruct before; discriminate Heq.
  - reflexivity.
Defined.

(** A name with a colon is not read back: the type name takes it up to the
    colon. *)
Example colon_in_name_is_read_as_type_name :
  PR_TITLE_PATTERN_fullmatch
    (calculate_pr_title PrTitleScenario.registry_image (lit "3.4.13") (lit "3.5.0"))
  = Some (lit "container_image:registry.example.org", lit "5000/etcd", lit "3.4.13", lit "3.5.0").
Proof. vm_compute. reflexivity. Qed.

End PrTitleFacts.
